(** * Corsaro report plugin: a shallow embedding and its checked properties

    The development follows the C sources of the report plugin:

    - [Report3]: libcorsaro3/plugins/corsaro_report.c (IP tracker threads,
      packet processing threads and the merge thread);
    - [ReportInternal]: libcorsaro/plugins/report/report_internal.h;
    - [ReportConfig]: libcorsaro/plugins/report/corsaro_report.c
      (configuration parsing, port range bitmaps);
    - [ReportThreads]: the callbacks of the packet processing threads;
    - [ReportOutput]: the labels of an output row;
    - [Tagging]: libcorsaro3/libcorsaro3_tagging.c (packet tags);
    - [ReportOptions]: the other options of
      libcorsaro/plugins/report/corsaro_report.c.

    Fixed-width C integers are integers of [Z] with the wrap-around written
    out; khash and uthash tables are finite maps; pointers into a table are
    modelled by writing the updated entry back under its key. *)

From Stdlib Require Import ZArith Lia Bool List.
From stdpp Require Import base numbers option list strings gmap.
From stdpp Require Import pretty sorting.

Local Open Scope Z_scope.

#[local] Set Warnings "-clear-no-such-hyp".

(** ** Fixed-width unsigned arithmetic *)

Definition uint8 (x : Z) : Z := x mod 2 ^ 8.
Definition uint16 (x : Z) : Z := x mod 2 ^ 16.
Definition uint32 (x : Z) : Z := x mod 2 ^ 32.
Definition uint64 (x : Z) : Z := x mod 2 ^ 64.

(** C truth value of an integer used as a condition. *)
Definition truthy (x : Z) : bool := negb (x =? 0).

(** ** libcorsaro3/plugins/corsaro_report.c *)

Module Report3.

(** Maximum number of metrics kept in the inline array of an IP. *)
Definition METRIC_ARRAY_SIZE : Z := 20.

(** [corsaro_standalone_metric_t]: one slot of the inline array. *)
Record corsaro_standalone_metric := mk_standalone {
  sm_metricid : Z;      (* uint64_t metricid *)
  sm_metval : Z         (* uint8_t metval: bit 0 = seen as source,
                           bit 1 = seen as destination *)
}.

(** [corsaro_ip_hash_t]: what a tracker knows about one IP address. *)
Record corsaro_ip_hash := mk_ip_hash {
  ipaddr : Z;                                      (* uint32_t *)
  firstmetrics : list corsaro_standalone_metric;   (* METRIC_ARRAY_SIZE slots *)
  metriccount : Z;                                 (* uint32_t *)
  metricsseen : gmap Z Z                           (* kh_mset_t: id -> metval *)
}.

(** [corsaro_metric_ip_hash_t]: the tally of one metric. *)
Record corsaro_metric_ip_hash := mk_tally {
  metricid : Z;   (* uint64_t *)
  srcips : Z;     (* uint32_t *)
  destips : Z;    (* uint32_t *)
  packets : Z;    (* uint32_t *)
  bytes : Z       (* uint64_t *)
}.

Definition incr_srcips (m : corsaro_metric_ip_hash) : corsaro_metric_ip_hash :=
  mk_tally (metricid m) (uint32 (srcips m + 1)) (destips m) (packets m) (bytes m).

Definition incr_destips (m : corsaro_metric_ip_hash) : corsaro_metric_ip_hash :=
  mk_tally (metricid m) (srcips m) (uint32 (destips m + 1)) (packets m) (bytes m).

Definition set_metricsseen (iphash : corsaro_ip_hash) (h : gmap Z Z)
  : corsaro_ip_hash :=
  mk_ip_hash (ipaddr iphash) (firstmetrics iphash) (metriccount iphash) h.

Definition set_firstmetrics (iphash : corsaro_ip_hash)
    (a : list corsaro_standalone_metric) : corsaro_ip_hash :=
  mk_ip_hash (ipaddr iphash) a (metriccount iphash) (metricsseen iphash).

Definition set_metriccount (iphash : corsaro_ip_hash) (c : Z) : corsaro_ip_hash :=
  mk_ip_hash (ipaddr iphash) (firstmetrics iphash) c (metricsseen iphash).

(** The fresh entry built by [update_iphash] when the IP is not known yet:
    the array is zeroed, the hash map is empty. *)
Definition new_iphash (ip : Z) : corsaro_ip_hash :=
  mk_ip_hash ip (replicate (Z.to_nat METRIC_ARRAY_SIZE) (mk_standalone 0 0)) 0 ∅.

(** [update_iphash]: find the entry of an IP, inserting a fresh one if the
    IP is unknown. Returns the table and the entry found. *)
Definition update_iphash (knownips : gmap Z corsaro_ip_hash) (ip : Z)
  : gmap Z corsaro_ip_hash * corsaro_ip_hash :=
  match knownips !! ip with
  | Some iphash => (knownips, iphash)
  | None => (<[ip := new_iphash ip]> knownips, new_iphash ip)
  end.

(** [update_metric_map]: the hash-map variant of the per-IP metric set. *)
Definition update_metric_map (iphash : corsaro_ip_hash) (mid issrc : Z)
    (m : corsaro_metric_ip_hash) : corsaro_ip_hash * corsaro_metric_ip_hash :=
  (* khiter = kh_put(...); if (khret == 1) { value = 0; metriccount ++; } *)
  let iphash1 :=
    match metricsseen iphash !! mid with
    | None => mk_ip_hash (ipaddr iphash) (firstmetrics iphash)
                (uint32 (metriccount iphash + 1))
                (<[mid := 0]> (metricsseen iphash))
    | Some _ => iphash
    end in
  let metval := default 0 (metricsseen iphash1 !! mid) in
  if truthy issrc && (Z.land metval 1 =? 0) then
    (set_metricsseen iphash1 (<[mid := Z.lor metval 1]> (metricsseen iphash1)),
     incr_srcips m)
  else if negb (truthy issrc) && (Z.land metval 2 =? 0) then
    (set_metricsseen iphash1 (<[mid := Z.lor metval 2]> (metricsseen iphash1)),
     incr_destips m)
  else (iphash1, m).

(** The slots of the inline array that are in use. *)
Definition used_slots (iphash : corsaro_ip_hash) : list corsaro_standalone_metric :=
  take (Z.to_nat (metriccount iphash)) (firstmetrics iphash).

(** First loop of [update_metric_array]: index of the slot holding [mid]. *)
Definition find_metric (iphash : corsaro_ip_hash) (mid : Z) : option nat :=
  fst <$> list_find (λ e, sm_metricid e = mid) (used_slots iphash).

(** Conversion loop of [update_metric_array]: copy every slot in use into
    the hash map. *)
Definition array_to_map (iphash : corsaro_ip_hash) : gmap Z Z :=
  foldl (λ h e, <[sm_metricid e := sm_metval e]> h)
        (metricsseen iphash) (used_slots iphash).

(** Tail of [update_metric_array]: set the role bit of slot [idx] and count
    the IP if the bit was clear. *)
Definition mark_slot (iphash : corsaro_ip_hash) (idx : nat) (issrc : Z)
    (m : corsaro_metric_ip_hash) : corsaro_ip_hash * corsaro_metric_ip_hash :=
  match firstmetrics iphash !! idx with
  | None => (iphash, m)
  | Some found =>
    if truthy issrc && (Z.land (sm_metval found) 1 =? 0) then
      (set_firstmetrics iphash
         (<[idx := mk_standalone (sm_metricid found) (Z.lor (sm_metval found) 1)]>
            (firstmetrics iphash)),
       incr_srcips m)
    else if negb (truthy issrc) && (Z.land (sm_metval found) 2 =? 0) then
      (set_firstmetrics iphash
         (<[idx := mk_standalone (sm_metricid found) (Z.lor (sm_metval found) 2)]>
            (firstmetrics iphash)),
       incr_destips m)
    else (iphash, m)
  end.

(** [update_metric_array]: the inline-array variant, converting to the hash
    map when a new metric arrives and the array is full. *)
Definition update_metric_array (iphash : corsaro_ip_hash) (mid issrc : Z)
    (m : corsaro_metric_ip_hash) : corsaro_ip_hash * corsaro_metric_ip_hash :=
  match find_metric iphash mid with
  | Some idx => mark_slot iphash idx issrc m
  | None =>
    if metriccount iphash =? METRIC_ARRAY_SIZE then
      update_metric_map (set_metricsseen iphash (array_to_map iphash)) mid issrc m
    else
      let idx := Z.to_nat (metriccount iphash) in
      let iphash1 :=
        mk_ip_hash (ipaddr iphash)
          (<[idx := mk_standalone mid 0]> (firstmetrics iphash))
          (uint32 (metriccount iphash + 1)) (metricsseen iphash) in
      mark_slot iphash1 idx issrc m
  end.

(** A tally created by [update_knownip_metric] for a metric seen for the
    first time. *)
Definition new_tally (mid : Z) : corsaro_metric_ip_hash := mk_tally mid 0 0 0 0.

Definition add_packet (m : corsaro_metric_ip_hash) (iplen : Z)
  : corsaro_metric_ip_hash :=
  mk_tally (metricid m) (srcips m) (destips m)
    (uint32 (packets m + 1)) (uint64 (bytes m + iplen)).

(** [update_knownip_metric]: update the tallies for one IP + metric. *)
Definition update_knownip_metric (mid : Z) (iphash : corsaro_ip_hash)
    (issrc iplen : Z) (metrictally : gmap Z corsaro_metric_ip_hash)
  : corsaro_ip_hash * gmap Z corsaro_metric_ip_hash :=
  let m := match metrictally !! mid with
           | None => new_tally mid
           | Some m => m
           end in
  let m1 := if iplen >? 0 then add_packet m iplen else m in
  let '(iphash', m2) :=
    if metriccount iphash <=? METRIC_ARRAY_SIZE
    then update_metric_array iphash mid issrc m1
    else update_metric_map iphash mid issrc m1 in
  (iphash', <[mid := m2]> metrictally).

(** *** Messages from the packet processing threads *)

(** [corsaro_report_msg_body_t]: all metrics that apply to one IP of one
    packet. [tags] is the fixed-size array, [numtags] says how many of its
    slots are filled in. *)
Record corsaro_report_msg_body := mk_body {
  b_ipaddr : Z;     (* uint32_t ipaddr *)
  issrc : Z;        (* uint8_t *)
  numtags : Z;      (* uint8_t *)
  tags : list Z;    (* uint64_t tags[CORSARO_MAX_SUPPORTED_TAGS] *)
  b_size : Z        (* uint16_t size *)
}.

(** The tags a consumer reads: [tags[0 .. numtags-1]]. *)
Definition body_tags (body : corsaro_report_msg_body) : list Z :=
  take (Z.to_nat (numtags body)) (tags body).

Definition CORSARO_IP_MESSAGE_HALT : Z := 0.
Definition CORSARO_IP_MESSAGE_INTERVAL : Z := 1.

(** [corsaro_report_ip_message_t]. *)
Record corsaro_report_ip_message := mk_msg {
  msgtype : Z;                              (* uint8_t *)
  sender : Z;                               (* uint8_t *)
  timestamp : Z;                            (* uint32_t *)
  bodycount : Z;                            (* uint16_t *)
  update : list corsaro_report_msg_body
}.

(** [corsaro_report_out_interval_t]: who has ended a given interval. *)
Record corsaro_report_out_interval := mk_out {
  interval_ts : Z;            (* uint32_t *)
  reports_recvd : list Z;     (* uint8_t reports_recvd[256] *)
  reports_total : Z           (* uint8_t *)
}.

(** [corsaro_report_iptracker_t], without the queue, the lock and the
    memory handlers. [lastresult = None] is the NULL pointer. *)
Record corsaro_report_iptracker := mk_tracker {
  lastresultts : Z;                                   (* uint32_t *)
  sourcethreads : Z;                                  (* uint8_t *)
  haltphase : Z;                                      (* uint8_t *)
  knownips : gmap Z corsaro_ip_hash;
  knownips_next : gmap Z corsaro_ip_hash;
  lastresult : option (gmap Z corsaro_metric_ip_hash);
  currentresult : gmap Z corsaro_metric_ip_hash;
  nextresult : gmap Z corsaro_metric_ip_hash;
  outstanding : list corsaro_report_out_interval
}.

(** The tracker as [corsaro_report_finalise_config] sets it up. *)
Definition init_iptracker (procthreads : Z) : corsaro_report_iptracker :=
  mk_tracker 0 procthreads 0 ∅ ∅ None ∅ ∅ [].

(** [sender_in_outstanding]: has [sender] ended some outstanding interval? *)
Definition sender_in_outstanding (outl : list corsaro_report_out_interval)
    (sender : Z) : bool :=
  existsb (λ o, truthy (default 0 (reports_recvd o !! Z.to_nat sender))) outl.

(** The loop of [process_msg_body] over the tags of one body, run against
    the IP map and tally map that were selected. The assertion on the first
    tag fails with [None]. [thisip] points into the IP map, so its final
    value is what the map holds afterwards. *)
Definition apply_body
    (maps : gmap Z corsaro_ip_hash * gmap Z corsaro_metric_ip_hash)
    (body : corsaro_report_msg_body)
  : option (gmap Z corsaro_ip_hash * gmap Z corsaro_metric_ip_hash) :=
  match body_tags body with
  | [] => Some maps
  | t0 :: _ =>
    if t0 =? 0 then
      let '(known1, thisip) := update_iphash (fst maps) (b_ipaddr body) in
      let '(thisip', tally') :=
        foldl (λ st tag,
                 update_knownip_metric tag (fst st) (issrc body) (b_size body)
                   (snd st))
              (thisip, snd maps) (body_tags body) in
      Some (<[b_ipaddr body := thisip']> known1, tally')
    else None
  end.

Definition set_current (track : corsaro_report_iptracker)
    (maps : gmap Z corsaro_ip_hash * gmap Z corsaro_metric_ip_hash)
  : corsaro_report_iptracker :=
  mk_tracker (lastresultts track) (sourcethreads track) (haltphase track)
    (fst maps) (knownips_next track) (lastresult track)
    (snd maps) (nextresult track) (outstanding track).

Definition set_next (track : corsaro_report_iptracker)
    (maps : gmap Z corsaro_ip_hash * gmap Z corsaro_metric_ip_hash)
  : corsaro_report_iptracker :=
  mk_tracker (lastresultts track) (sourcethreads track) (haltphase track)
    (knownips track) (fst maps) (lastresult track)
    (currentresult track) (snd maps) (outstanding track).

(** [process_msg_body]: route one body to the current or the next interval. *)
Definition process_msg_body (track : corsaro_report_iptracker) (sender : Z)
    (body : corsaro_report_msg_body) : option corsaro_report_iptracker :=
  if (length (outstanding track) =? 0)%nat then
    set_current track <$> apply_body (knownips track, currentresult track) body
  else if sender_in_outstanding (outstanding track) sender then
    set_next track <$> apply_body (knownips_next track, nextresult track) body
  else
    set_current track <$> apply_body (knownips track, currentresult track) body.

(** *** Outstanding intervals *)

(** Outcome of the search loop of [update_outstanding]. The list carried is
    the outstanding list after the entry found was updated in place. *)
Inductive scan_result :=
  | ScanComplete (outl : list corsaro_report_out_interval)
  | ScanWaiting (outl : list corsaro_report_out_interval)
  | ScanNotFound.

(** [reports_recvd[sender] = 1; reports_total ++] unless already recorded. *)
Definition record_report (o : corsaro_report_out_interval) (sender : Z)
  : corsaro_report_out_interval :=
  if default 0 (reports_recvd o !! Z.to_nat sender) =? 0 then
    mk_out (interval_ts o) (<[Z.to_nat sender := 1]> (reports_recvd o))
           (uint8 (reports_total o + 1))
  else o.

Fixpoint scan_outstanding (outl : list corsaro_report_out_interval)
    (ts limit sender : Z) : scan_result :=
  match outl with
  | [] => ScanNotFound
  | o :: rest =>
    if interval_ts o =? ts then
      let o' := record_report o sender in
      if reports_total o' =? limit
      then ScanComplete (o' :: rest)
      else ScanWaiting (o' :: rest)
    else
      match scan_outstanding rest ts limit sender with
      | ScanComplete l => ScanComplete (o :: l)
      | ScanWaiting l => ScanWaiting (o :: l)
      | ScanNotFound => ScanNotFound
      end
  end.

(** The pruning loop: pop from the front up to and including interval
    [toret]. *)
Fixpoint pop_until (outl : list corsaro_report_out_interval) (toret : Z)
  : list corsaro_report_out_interval :=
  match outl with
  | [] => []
  | popped :: rest =>
    if interval_ts popped =? toret then rest else pop_until rest toret
  end.

(** The entry pushed for an interval seen for the first time. *)
Definition new_out_interval (ts sender : Z) : corsaro_report_out_interval :=
  mk_out ts (<[Z.to_nat sender := 1]> (replicate 256%nat 0)) 1.

(** Tail of [update_outstanding]: append a new interval; the sanity check
    that intervals end in order fails with [None]. *)
Definition push_new_interval (outl : list corsaro_report_out_interval)
    (ts sender : Z) : option (list corsaro_report_out_interval) :=
  match last outl with
  | Some o =>
    if interval_ts o <? ts then Some (outl ++ [new_out_interval ts sender])
    else None
  | None => Some [new_out_interval ts sender]
  end.

(** [update_outstanding]: returns the new list and the timestamp of the
    interval that has completed (0 if none has). *)
Definition update_outstanding (outl : list corsaro_report_out_interval)
    (ts limit sender : Z) : option (list corsaro_report_out_interval * Z) :=
  match scan_outstanding outl ts limit sender with
  | ScanWaiting l => Some (l, 0)
  | ScanComplete l =>
    if ts >? 0 then Some (pop_until l ts, ts)
    else (λ l', (l', 0)) <$> push_new_interval l ts sender
  | ScanNotFound => (λ l', (l', 0)) <$> push_new_interval outl ts sender
  end.

(** *** The tracker thread *)

Definition set_haltphase (track : corsaro_report_iptracker) (h : Z)
  : corsaro_report_iptracker :=
  mk_tracker (lastresultts track) (sourcethreads track) h
    (knownips track) (knownips_next track) (lastresult track)
    (currentresult track) (nextresult track) (outstanding track).

Definition set_outstanding (track : corsaro_report_iptracker)
    (outl : list corsaro_report_out_interval) : corsaro_report_iptracker :=
  mk_tracker (lastresultts track) (sourcethreads track) (haltphase track)
    (knownips track) (knownips_next track) (lastresult track)
    (currentresult track) (nextresult track) outl.

(** End of an interval in [start_iptracker]: publish the current tally as
    the last result and rotate the maps. *)
Definition finish_interval (track : corsaro_report_iptracker)
    (outl : list corsaro_report_out_interval) (complete : Z)
  : corsaro_report_iptracker :=
  mk_tracker complete (sourcethreads track)
    (if haltphase track =? 1 then 2 else haltphase track)
    (knownips_next track) ∅ (Some (currentresult track))
    (nextresult track) ∅ outl.

(** The update branch of [start_iptracker]: the first [bodycount] bodies of
    the message, in order. *)
Definition process_update (track : corsaro_report_iptracker)
    (msg : corsaro_report_ip_message) : option corsaro_report_iptracker :=
  foldl (λ acc body, acc ≫= λ t, process_msg_body t (sender msg) body)
        (Some track) (take (Z.to_nat (bodycount msg)) (update msg)).

(** One iteration of the loop of [start_iptracker] on a message taken from
    the queue. [None] is a failed assertion. *)
Definition handle_message (track : corsaro_report_iptracker)
    (msg : corsaro_report_ip_message) : option corsaro_report_iptracker :=
  if msgtype msg =? CORSARO_IP_MESSAGE_HALT then
    if (length (outstanding track) =? 0)%nat
    then Some (set_haltphase track 2)
    else Some (set_haltphase track 1)
  else if msgtype msg =? CORSARO_IP_MESSAGE_INTERVAL then
    if timestamp msg =? 0 then Some track
    else if timestamp msg <=? lastresultts track then Some track
    else
      match update_outstanding (outstanding track) (timestamp msg)
              (sourcethreads track) (sender msg) with
      | None => None
      | Some (outl, complete) =>
        if complete =? 0 then Some (set_outstanding track outl)
        else
          match lastresult track with
          | Some _ => None
          | None => Some (finish_interval track outl complete)
          end
      end
  else process_update track msg.

(** What the merge thread does to a tracker whose last result belongs to
    the interval being merged ([update_tracker_results]): the tally is
    consumed and [lastresult] is set to NULL. *)
Definition merger_collect (track : corsaro_report_iptracker) (fin : Z)
  : option corsaro_report_iptracker :=
  if fin <? lastresultts track then None     (* assert(fin >= lastresultts) *)
  else if lastresultts track =? fin then
    match lastresult track with
    | Some _ =>
      Some (mk_tracker (lastresultts track) (sourcethreads track)
              (haltphase track) (knownips track) (knownips_next track) None
              (currentresult track) (nextresult track) (outstanding track))
    | None => None
    end
  else Some track.

(** What happens to a tracker, one critical section at a time: a message is
    taken from its queue, or the merge thread visits it for interval [fin]. *)
Inductive tracker_event :=
  | Deliver (msg : corsaro_report_ip_message)
  | MergerVisit (fin : Z).

(** The thread leaves its loop once [haltphase] is 2; messages still queued
    are never read. *)
Definition tracker_step (track : corsaro_report_iptracker) (ev : tracker_event)
  : option corsaro_report_iptracker :=
  match ev with
  | Deliver msg =>
    if haltphase track =? 2 then Some track else handle_message track msg
  | MergerVisit fin => merger_collect track fin
  end.

Fixpoint tracker_run (track : corsaro_report_iptracker)
    (evs : list tracker_event) : option corsaro_report_iptracker :=
  match evs with
  | [] => Some track
  | ev :: rest =>
    match tracker_step track ev with
    | Some track' => tracker_run track' rest
    | None => None
    end
  end.

(** *** Packet processing threads *)

(** [corsaro_report_metric_class_t]. *)
Inductive corsaro_report_metric_class :=
  | CORSARO_METRIC_CLASS_COMBINED
  | CORSARO_METRIC_CLASS_MAXMIND_CONTINENT
  | CORSARO_METRIC_CLASS_MAXMIND_COUNTRY
  | CORSARO_METRIC_CLASS_NETACQ_CONTINENT
  | CORSARO_METRIC_CLASS_NETACQ_COUNTRY
  | CORSARO_METRIC_CLASS_PREFIX_ASN
  | CORSARO_METRIC_CLASS_TCP_SOURCE_PORT
  | CORSARO_METRIC_CLASS_TCP_DEST_PORT
  | CORSARO_METRIC_CLASS_UDP_SOURCE_PORT
  | CORSARO_METRIC_CLASS_UDP_DEST_PORT
  | CORSARO_METRIC_CLASS_IP_PROTOCOL
  | CORSARO_METRIC_CLASS_ICMP_CODE
  | CORSARO_METRIC_CLASS_ICMP_TYPE.

(** The integer value of an enumerator. *)
Definition class_value (c : corsaro_report_metric_class) : Z :=
  match c with
  | CORSARO_METRIC_CLASS_COMBINED => 0
  | CORSARO_METRIC_CLASS_MAXMIND_CONTINENT => 1
  | CORSARO_METRIC_CLASS_MAXMIND_COUNTRY => 2
  | CORSARO_METRIC_CLASS_NETACQ_CONTINENT => 3
  | CORSARO_METRIC_CLASS_NETACQ_COUNTRY => 4
  | CORSARO_METRIC_CLASS_PREFIX_ASN => 5
  | CORSARO_METRIC_CLASS_TCP_SOURCE_PORT => 6
  | CORSARO_METRIC_CLASS_TCP_DEST_PORT => 7
  | CORSARO_METRIC_CLASS_UDP_SOURCE_PORT => 8
  | CORSARO_METRIC_CLASS_UDP_DEST_PORT => 9
  | CORSARO_METRIC_CLASS_IP_PROTOCOL => 10
  | CORSARO_METRIC_CLASS_ICMP_CODE => 11
  | CORSARO_METRIC_CLASS_ICMP_TYPE => 12
  end.

Definition METRIC_PORT_MAX : Z := 65536.
Definition METRIC_ICMP_MAX : Z := 256.
Definition METRIC_IPPROTOS_MAX : Z := 256.

(** The number of IP tag updates in one message to a tracker. *)
Definition REPORT_BATCH_SIZE : Z := 500.

(** Protocol numbers as libtrace names them. *)
Definition TRACE_IPPROTO_ICMP : Z := 1.
Definition TRACE_IPPROTO_TCP : Z := 6.
Definition TRACE_IPPROTO_UDP : Z := 17.

(** [GEN_METRICID(class, val)]:
    [((((uint64_t) class) << 32) + ((uint64_t)val))]. *)
Definition GEN_METRICID (class val : Z) : Z :=
  uint64 (uint64 (Z.shiftl (uint64 class) 32) + uint64 val).

(** The fields of [corsaro_packet_tags_t] that the report plugin reads. *)
Record corsaro_packet_tags := mk_tags {
  providers_used : Z;       (* uint32_t *)
  protocol : Z;             (* uint8_t *)
  src_port : Z;             (* uint16_t *)
  dest_port : Z;            (* uint16_t *)
  maxmind_continent : Z;    (* uint16_t *)
  maxmind_country : Z;      (* uint16_t *)
  netacq_continent : Z;     (* uint16_t *)
  netacq_country : Z;       (* uint16_t *)
  prefixasn : Z             (* uint32_t *)
}.

Section Processing.

(** Constants of headers that are not part of these sources: the capacity
    of the tag array of a message body (libcorsaro3_tagging.h) and the
    provider identifiers of libipmeta. *)
Variable CORSARO_MAX_SUPPORTED_TAGS : Z.
Variable IPMETA_PROVIDER_MAXMIND : Z.
Variable IPMETA_PROVIDER_NETACQ_EDGE : Z.
Variable IPMETA_PROVIDER_PFX2AS : Z.

Definition maxmind_tagged (t : corsaro_packet_tags) : bool :=
  truthy (Z.land (providers_used t) (Z.shiftl 1 IPMETA_PROVIDER_MAXMIND)).

Definition netacq_tagged (t : corsaro_packet_tags) : bool :=
  truthy (Z.land (providers_used t) (Z.shiftl 1 IPMETA_PROVIDER_NETACQ_EDGE)).

Definition pfx2as_tagged (t : corsaro_packet_tags) : bool :=
  truthy (Z.land (providers_used t) (Z.shiftl 1 IPMETA_PROVIDER_PFX2AS)).

(** [process_single_tag]: append one metric to a body. Values outside the
    bounds of the class are dropped; a full tag array fails the assertion. *)
Definition process_single_tag (class : corsaro_report_metric_class)
    (tagval maxtagval : Z) (body : corsaro_report_msg_body)
  : option corsaro_report_msg_body :=
  let tagval := uint32 tagval in
  if (maxtagval >? 0) && (tagval >=? maxtagval) then Some body
  else if numtags body <? CORSARO_MAX_SUPPORTED_TAGS then
    Some (mk_body (b_ipaddr body) (issrc body) (uint8 (numtags body + 1))
            (<[Z.to_nat (numtags body) :=
                 GEN_METRICID (class_value class) tagval]> (tags body))
            (b_size body))
  else None.

(** [process_tags]: fill in [body] (a slot of the update buffer, with
    whatever it held before) from the tags of one packet. *)
Definition process_tags (tags : option corsaro_packet_tags) (iplen : Z)
    (body : corsaro_report_msg_body) (addr issrc : Z)
  : option corsaro_report_msg_body :=
  let body0 :=
    mk_body addr issrc 0 (Report3.tags body)
      (if truthy issrc then iplen else 0) in
  body1 ← process_single_tag CORSARO_METRIC_CLASS_COMBINED 0 0 body0;
  match tags with
  | None => Some body1
  | Some t =>
    if providers_used t =? 0 then Some body1
    else
      body2 ← process_single_tag CORSARO_METRIC_CLASS_IP_PROTOCOL
                (protocol t) METRIC_IPPROTOS_MAX body1;
      body3 ←
        (if protocol t =? TRACE_IPPROTO_ICMP then
           b ← process_single_tag CORSARO_METRIC_CLASS_ICMP_TYPE
                 (src_port t) METRIC_ICMP_MAX body2;
           process_single_tag CORSARO_METRIC_CLASS_ICMP_CODE
             (dest_port t) METRIC_ICMP_MAX b
         else if protocol t =? TRACE_IPPROTO_TCP then
           b ← process_single_tag CORSARO_METRIC_CLASS_TCP_SOURCE_PORT
                 (src_port t) METRIC_PORT_MAX body2;
           process_single_tag CORSARO_METRIC_CLASS_TCP_DEST_PORT
             (dest_port t) METRIC_PORT_MAX b
         else if protocol t =? TRACE_IPPROTO_UDP then
           b ← process_single_tag CORSARO_METRIC_CLASS_UDP_SOURCE_PORT
                 (src_port t) METRIC_PORT_MAX body2;
           process_single_tag CORSARO_METRIC_CLASS_UDP_DEST_PORT
             (dest_port t) METRIC_PORT_MAX b
         else Some body2);
      body4 ←
        (if maxmind_tagged t then
           b ← process_single_tag CORSARO_METRIC_CLASS_MAXMIND_CONTINENT
                 (maxmind_continent t) 0 body3;
           process_single_tag CORSARO_METRIC_CLASS_MAXMIND_COUNTRY
             (maxmind_country t) 0 b
         else Some body3);
      body5 ←
        (if netacq_tagged t then
           b ← process_single_tag CORSARO_METRIC_CLASS_NETACQ_CONTINENT
                 (netacq_continent t) 0 body4;
           process_single_tag CORSARO_METRIC_CLASS_NETACQ_COUNTRY
             (netacq_country t) 0 b
         else Some body4);
      if pfx2as_tagged t then
        process_single_tag CORSARO_METRIC_CLASS_PREFIX_ASN (prefixasn t) 0 body5
      else Some body5
  end.

(** [corsaro_report_state_t]: what a packet processing thread keeps. *)
Record corsaro_report_state := mk_state {
  nextmsg : list corsaro_report_ip_message;   (* one per tracker *)
  threadid : Z;
  queueblocks : Z
}.

(** The buffer that the memory handler hands out for a new message. *)
Variable fresh_update : list corsaro_report_msg_body.

(** [update_metrics_for_address]: add one IP of a packet to the pending
    message of its tracker and enqueue the message once it holds
    [REPORT_BATCH_SIZE] updates. [queues] are the incoming queues of the
    trackers. [None]: a failed assertion or an access out of bounds. *)
Definition update_metrics_for_address (tracker_count : Z)
    (queues : list (list corsaro_report_ip_message))
    (state : corsaro_report_state) (addr issrc iplen : Z)
    (tags : option corsaro_packet_tags)
  : option (corsaro_report_state * list (list corsaro_report_ip_message)) :=
  if tracker_count <=? 0 then None
  else
    let trackerhash := Z.to_nat (Z.shiftr addr 24 mod tracker_count) in
    msg ← nextmsg state !! trackerhash;
    slot ← update msg !! Z.to_nat (bodycount msg);
    body ← process_tags tags iplen slot addr issrc;
    let msg1 :=
      mk_msg (msgtype msg) (sender msg) (timestamp msg)
        (uint16 (bodycount msg + 1))
        (<[Z.to_nat (bodycount msg) := body]> (update msg)) in
    if bodycount msg1 <? REPORT_BATCH_SIZE then
      Some (mk_state (<[trackerhash := msg1]> (nextmsg state))
              (threadid state) (queueblocks state), queues)
    else
      queue ← queues !! trackerhash;
      let blocks :=
        if Z.of_nat (length queue) >=? 2048
        then queueblocks state + 1 else queueblocks state in
      let msg2 :=
        mk_msg (msgtype msg1) (sender msg1) (timestamp msg1) 0 fresh_update in
      Some (mk_state (<[trackerhash := msg2]> (nextmsg state))
              (threadid state) blocks,
            <[trackerhash := queue ++ [msg1]]> queues).

End Processing.

(** *** The merge thread *)

(** [corsaro_report_result_t]: the combined tally of one metric. The
    printable class and value are filled in when the row is written. *)
Record corsaro_report_result := mk_result {
  r_metricid : Z;      (* uint64_t *)
  pkt_cnt : Z;         (* uint64_t *)
  r_bytes : Z;         (* uint64_t *)
  uniq_src_ips : Z;    (* uint32_t *)
  uniq_dst_ips : Z;    (* uint32_t *)
  attimestamp : Z;     (* uint32_t *)
  label : list Z       (* char *label *)
}.

Definition new_result (mid : Z) (outlabel : list Z) (ts : Z)
  : corsaro_report_result :=
  mk_result mid 0 0 0 0 ts outlabel.

Definition add_tally (r : corsaro_report_result) (iter : corsaro_metric_ip_hash)
  : corsaro_report_result :=
  mk_result (r_metricid r)
    (uint64 (pkt_cnt r + packets iter))
    (uint64 (r_bytes r + bytes iter))
    (uint32 (uniq_src_ips r + srcips iter))
    (uint32 (uniq_dst_ips r + destips iter))
    (attimestamp r) (label r).

(** Body of the loop of [update_tracker_results]: the result table is a
    uthash table, which keeps its entries in insertion order. *)
Definition merge_metric (outlabel : list Z) (ts : Z)
    (results : list corsaro_report_result) (iter : corsaro_metric_ip_hash)
  : list corsaro_report_result :=
  match list_find (λ r, r_metricid r = metricid iter) results with
  | Some (i, r) => <[i := add_tally r iter]> results
  | None => results ++ [add_tally (new_result (metricid iter) outlabel ts) iter]
  end.

(** [update_tracker_results], on the tally map the tracker published. *)
Definition update_tracker_results (results : list corsaro_report_result)
    (lastres : gmap Z corsaro_metric_ip_hash) (ts : Z) (outlabel : list Z)
  : list corsaro_report_result :=
  foldl (merge_metric outlabel ts) results (snd <$> map_to_list lastres).

(** Local state of the polling loop of
    [corsaro_report_merge_interval_results]. *)
Record merge_poll := mk_poll {
  results : list corsaro_report_result;
  trackers_done : list Z;     (* uint8_t trackers_done[tracker_count] *)
  totaldone : Z;              (* uint8_t *)
  skipresult : Z              (* uint8_t *)
}.

(** One visit of tracker [i]. [view] is [None] when the lock could not be
    taken, else the tracker as seen under its lock. The result is [None]
    when the assertion fails or a NULL tally is read. *)
Definition poll_tracker (fin : Z) (outlabel : list Z) (st : merge_poll)
    (i : nat) (view : option corsaro_report_iptracker) : option merge_poll :=
  if truthy (default 0 (trackers_done st !! i)) then Some st
  else
    match view with
    | None => Some st
    | Some t =>
      if fin <? lastresultts t then None
      else if lastresultts t =? fin then
        lastres ← lastresult t;
        Some (mk_poll (update_tracker_results (results st) lastres fin outlabel)
                (<[i := 1]> (trackers_done st))
                (uint8 (totaldone st + 1)) (skipresult st))
      else if haltphase t =? 2 then
        Some (mk_poll (results st) (<[i := 1]> (trackers_done st))
                (uint8 (totaldone st + 1)) 1)
      else Some st
    end.

(** One pass of the [for] loop over all trackers. *)
Definition poll_pass (fin : Z) (outlabel : list Z) (tracker_count : Z)
    (st : merge_poll) (pass : list (option corsaro_report_iptracker))
  : option merge_poll :=
  foldl (λ acc i, acc ≫= λ s, poll_tracker fin outlabel s i (mjoin (pass !! i)))
        (Some st) (seq 0 (Z.to_nat tracker_count)).

(** How the polling loop ends, given what the trackers looked like at each
    pass: it is still polling when the observations run out. *)
Inductive poll_result :=
  | PollDone (st : merge_poll)
  | PollFailed
  | PollWaiting (st : merge_poll).

(** The [do ... while (totaldone < tracker_count)] loop. *)
Fixpoint poll_trackers (fin : Z) (outlabel : list Z) (tracker_count : Z)
    (st : merge_poll) (passes : list (list (option corsaro_report_iptracker)))
  : poll_result :=
  match passes with
  | [] => PollWaiting st
  | pass :: rest =>
    match poll_pass fin outlabel tracker_count st pass with
    | None => PollFailed
    | Some st' =>
      if totaldone st' <? tracker_count
      then poll_trackers fin outlabel tracker_count st' rest
      else PollDone st'
    end
  end.

Definition AVRO_CONVERSION_FAILURE : Z := -1.
Definition AVRO_WRITE_FAILURE : Z := -2.

(** The Avro writer as the merge thread sees it. *)
Record avro_writer := mk_writer {
  writer_active : bool;       (* corsaro_is_avro_writer_active *)
  outname_ok : bool;          (* derive_output_name gives a name *)
  start_ok : bool;            (* corsaro_start_avro_writer succeeds *)
  write_single_metric : corsaro_report_result → Z
}.

(** [write_all_metrics]: returns [haderror] and the rows that were handed
    to [write_single_metric]. *)
Fixpoint write_all_metrics (w : avro_writer) (resultmap : list corsaro_report_result)
    (stopwriting haderror : bool) : Z * list corsaro_report_result :=
  match resultmap with
  | [] => (if haderror then 1 else 0, [])
  | r :: rest =>
    if stopwriting then write_all_metrics w rest stopwriting haderror
    else
      let ret := write_single_metric w r in
      let '(e, rows) :=
        write_all_metrics w rest (ret =? AVRO_WRITE_FAILURE)
          (haderror || (ret <? 0)) in
      (e, r :: rows)
  end.

(** How a call of [corsaro_report_merge_interval_results] ends. *)
Inductive merge_outcome :=
  | MergeReturned (ret : Z) (rows : list corsaro_report_result)
  | MergeFailed
  | MergeWaiting.

(** [corsaro_report_merge_interval_results] for the interval [fin], with
    [tracker_count] trackers. *)
Definition corsaro_report_merge_interval_results (w : avro_writer)
    (local_is_null : bool) (outlabel : list Z) (tracker_count : Z) (fin : Z)
    (passes : list (list (option corsaro_report_iptracker))) : merge_outcome :=
  if local_is_null then MergeReturned (-1) []
  else
    match poll_trackers fin outlabel tracker_count
            (mk_poll [] (replicate (Z.to_nat tracker_count) 0) 0 0) passes with
    | PollWaiting _ => MergeWaiting
    | PollFailed => MergeFailed
    | PollDone st =>
      if truthy (skipresult st) then MergeReturned 0 []
      else if negb (writer_active w) && negb (outname_ok w) then
        MergeReturned (-1) []
      else if negb (writer_active w) && negb (start_ok w) then
        MergeReturned (-1) []
      else
        let '(haderror, rows) := write_all_metrics w (results st) false false in
        if haderror <? 0 then MergeReturned (-1) rows else MergeReturned 0 rows
    end.


End Report3.

(** ** libcorsaro/plugins/report/report_internal.h *)

Module ReportInternal.

(** The number of IP tag updates in one message to a tracker. *)
Definition REPORT_BATCH_SIZE : Z := 10000.

(** [GEN_METRICID(class, val)]:
    [((((uint64_t) class) << 32) + ((uint64_t)val) & 0xFFFFFFFF)].
    In C [+] binds tighter than [&], so the mask applies to the sum. *)
Definition GEN_METRICID (class val : Z) : Z :=
  Z.land (uint64 (uint64 (Z.shiftl (uint64 class) 32) + uint64 val))
         4294967295.

(** [allowed_ports_t]: four bitmaps of 8192 bytes. *)
Record allowed_ports := mk_allowed_ports {
  tcp_sources : list Z;
  tcp_dests : list Z;
  udp_sources : list Z;
  udp_dests : list Z
}.

End ReportInternal.

(** ** libcorsaro/plugins/report/corsaro_report.c *)

Module ReportConfig.

Import ReportInternal.

Definition INVALID_PORT : Z := 4294967295.

(** What [strtoul] made of a piece of text: the number returned and the
    value of [errno] afterwards. *)
Record strtoul_result := mk_strtoul {
  ul_value : Z;     (* unsigned long *)
  ul_errno : Z
}.

(** [strtoport], after the call of [strtoul]. *)
Definition strtoport (r : strtoul_result) (capmax : bool) : Z :=
  if negb (ul_errno r =? 0) then INVALID_PORT
  else if (ul_value r >? 65535) && negb capmax then INVALID_PORT
  else if ul_value r >? 65535 then 65535
  else ul_value r.

(** One item of a port range sequence: a node that is not a scalar, a
    scalar without a dash, or a scalar split at its first dash. *)
Inductive range_node :=
  | NotScalar
  | ScalarPort (port : strtoul_result)
  | ScalarRange (first last : strtoul_result).

(** The byte added to [port_array[index]] for the range [first..last]. *)
Definition range_byte (index first last : Z) : Z :=
  let msb := index * 8 in
  let lsb := msb + 7 in
  let toadd := 255 in
  let toadd :=
    if first >? msb then
      if first - msb >=? 8 then 0
      else uint8 (Z.land toadd (Z.shiftr 255 (first - msb)))
    else toadd in
  if last <? lsb then
    if lsb - last >=? 8 then 0
    else uint8 (Z.land toadd (Z.shiftl 255 (lsb - last)))
  else toadd.

(** The loop [for (index = firstindex; index < 8192; index ++)] with [n]
    indices left to visit; it stops early once [msb > last]. *)
Fixpoint set_port_bits (n : nat) (index first last : Z) (port_array : list Z)
  : list Z :=
  match n with
  | O => port_array
  | S n' =>
    if index * 8 >? last then port_array
    else
      set_port_bits n' (index + 1) first last
        (<[Z.to_nat index :=
             uint8 (Z.lor (default 0 (port_array !! Z.to_nat index))
                          (range_byte index first last))]> port_array)
  end.

(** The bounds that the body of the loop of [parse_port_ranges] reads from
    a scalar item, [None] when the item is skipped. *)
Definition item_bounds (node : range_node) : option (Z * Z) :=
  match node with
  | NotScalar => None
  | ScalarPort r =>
    let first := strtoport r false in
    if first =? INVALID_PORT then None else Some (first, first)
  | ScalarRange r1 r2 =>
    let first := strtoport r1 false in
    if first =? INVALID_PORT then None
    else
      let last := strtoport r2 true in
      if last =? INVALID_PORT then None else Some (first, last)
  end.

(** [parse_port_ranges]: returns the bitmap and the seen flag. *)
Fixpoint parse_port_ranges (port_array : list Z) (rangelist : list range_node)
    (seen_flag : bool) : list Z * bool :=
  match rangelist with
  | [] => (port_array, seen_flag)
  | NotScalar :: _ => (port_array, seen_flag)
  | node :: rest =>
    match item_bounds node with
    | None => parse_port_ranges port_array rest seen_flag
    | Some (first, last) =>
      if last <? first then parse_port_ranges port_array rest seen_flag
      else
        let port_array1 :=
          if seen_flag then port_array else replicate (Z.to_nat 8192) 0 in
        let firstindex := first / 8 in
        parse_port_ranges
          (set_port_bits (Z.to_nat (8192 - firstindex)) firstindex first last
             port_array1)
          rest true
    end
  end.

(** The value of a configuration key, as far as the port options look at
    it: a sequence of items, or anything else. *)
Inductive yaml_value :=
  | YamlSequence (items : list range_node)
  | YamlOther.

(** The port bitmaps and the four [set_*_ports] flags while the options
    are read. *)
Record port_config := mk_port_config {
  allowedports : allowed_ports;
  set_tcp_src_ports : bool;
  set_udp_src_ports : bool;
  set_tcp_dest_ports : bool;
  set_udp_dest_ports : bool
}.

(** The part of the body of the loop of [corsaro_report_parse_config] that
    deals with port ranges. *)
Definition parse_port_option (c : port_config) (pair : string * yaml_value)
  : port_config :=
  match snd pair with
  | YamlOther => c
  | YamlSequence items =>
    let a := allowedports c in
    if String.eqb (fst pair) "tcp_source_port_range"%string then
      let '(arr, flag) := parse_port_ranges (tcp_sources a) items (set_tcp_src_ports c) in
      mk_port_config
        (mk_allowed_ports arr (tcp_dests a) (udp_sources a) (udp_dests a))
        flag (set_udp_src_ports c) (set_tcp_dest_ports c) (set_udp_dest_ports c)
    else if String.eqb (fst pair) "tcp_dest_port_range"%string then
      let '(arr, flag) := parse_port_ranges (tcp_dests a) items (set_tcp_dest_ports c) in
      mk_port_config
        (mk_allowed_ports (tcp_sources a) arr (udp_sources a) (udp_dests a))
        (set_tcp_src_ports c) (set_udp_src_ports c) flag (set_udp_dest_ports c)
    else if String.eqb (fst pair) "udp_source_port_range"%string then
      let '(arr, flag) := parse_port_ranges (udp_sources a) items (set_udp_src_ports c) in
      mk_port_config
        (mk_allowed_ports (tcp_sources a) (tcp_dests a) arr (udp_dests a))
        (set_tcp_src_ports c) flag (set_tcp_dest_ports c) (set_udp_dest_ports c)
    else if String.eqb (fst pair) "udp_dest_port_range"%string then
      let '(arr, flag) := parse_port_ranges (udp_dests a) items (set_udp_dest_ports c) in
      mk_port_config
        (mk_allowed_ports (tcp_sources a) (tcp_dests a) (udp_sources a) arr)
        (set_tcp_src_ports c) (set_udp_src_ports c) (set_tcp_dest_ports c) flag
    else c
  end.

(** The port bitmaps that [corsaro_report_parse_config] leaves in the
    configuration. [uninit] is what the allocated structure held. *)
Definition corsaro_report_parse_config (uninit : allowed_ports)
    (options : list (string * yaml_value)) : allowed_ports :=
  let c := foldl parse_port_option
             (mk_port_config uninit false false false false) options in
  let a := allowedports c in
  let all := replicate (Z.to_nat 8192) 255 in
  mk_allowed_ports
    (if set_tcp_src_ports c then tcp_sources a else all)
    (if set_tcp_dest_ports c then tcp_dests a else all)
    (if set_udp_src_ports c then udp_sources a else all)
    (if set_udp_dest_ports c then udp_dests a else all).

(** Bit [p] of a bitmap in the layout that [parse_port_ranges] writes:
    byte [p / 8], most significant bit first. *)
Definition port_bit (port_array : list Z) (p : Z) : bool :=
  Z.testbit (default 0 (port_array !! Z.to_nat (p / 8))) (7 - p mod 8).

End ReportConfig.

(** * Notions used to state the properties *)

Module Spec.

Import Report3.

(** The bodies of an update, applied in order to one pair of maps. *)
Definition apply_bodies
    (maps : gmap Z corsaro_ip_hash * gmap Z corsaro_metric_ip_hash)
    (bodies : list corsaro_report_msg_body)
  : option (gmap Z corsaro_ip_hash * gmap Z corsaro_metric_ip_hash) :=
  foldl (λ acc body, acc ≫= λ m, apply_body m body) (Some maps) bodies.

(** The bodies that the tracker reads from an update message. *)
Definition msg_bodies (msg : corsaro_report_ip_message)
  : list corsaro_report_msg_body :=
  take (Z.to_nat (bodycount msg)) (update msg).

(** The tracker that an address is hashed to. *)
Definition tracker_of (tracker_count addr : Z) : nat :=
  Z.to_nat (Z.shiftr addr 24 mod tracker_count).

(** The number of updates in the pending message for tracker [t]. *)
Definition pending_count (state : corsaro_report_state) (t : nat) : option Z :=
  bodycount <$> nextmsg state !! t.

(** "The pending message of a tracker is enqueued as soon as it holds [N]
    updates": a call that brings the count to less than [N] leaves the
    queues alone, a call that brings it to [N] appends the message with its
    [N] updates to the queue of the tracker and starts an empty message. *)
Definition flushes_at (N : Z) : Prop :=
  ∀ (maxtags p1 p2 p3 : Z) (fresh : list corsaro_report_msg_body)
    (tracker_count : Z) (queues : list (list corsaro_report_ip_message))
    (state : corsaro_report_state) (addr issrc iplen : Z)
    (tags : option corsaro_packet_tags)
    (msg : corsaro_report_ip_message) (queue : list corsaro_report_ip_message)
    (state' : corsaro_report_state)
    (queues' : list (list corsaro_report_ip_message)),
    nextmsg state !! tracker_of tracker_count addr = Some msg →
    queues !! tracker_of tracker_count addr = Some queue →
    0 ≤ bodycount msg < N →
    update_metrics_for_address maxtags p1 p2 p3 fresh tracker_count queues
      state addr issrc iplen tags = Some (state', queues') →
    if bodycount msg + 1 <? N then
      queues' = queues ∧
      pending_count state' (tracker_of tracker_count addr)
        = Some (bodycount msg + 1)
    else
      (∃ sent, queues' = <[tracker_of tracker_count addr := queue ++ [sent]]> queues
               ∧ bodycount sent = N) ∧
      pending_count state' (tracker_of tracker_count addr) = Some 0.

(** A pending message with 499 updates, to which the source address
    0.0.0.0 of a packet of 40 bytes is added. *)
Definition blank_body : corsaro_report_msg_body :=
  mk_body 0 0 0 (replicate 10 0) 0.

Definition almost_full_state : corsaro_report_state :=
  mk_state
    (mk_msg 2 0 0 499 (replicate 500 blank_body)
       :: replicate 3 (mk_msg 2 0 0 0 (replicate 500 blank_body)))
    0 0.

(** Number of trackers that the merge thread has marked as done. *)
Definition done_count (l : list Z) : nat := length (filter (λ x, x ≠ 0) l).

(** [ev] is the reading of an interval-end message for interval [T] sent by
    processing thread [s]. *)
Definition interval_end_from (T s : Z) (ev : tracker_event) : Prop :=
  match ev with
  | Deliver msg =>
    msgtype msg = CORSARO_IP_MESSAGE_INTERVAL ∧ timestamp msg = T ∧
    sender msg = s
  | MergerVisit _ => False
  end.

(** Every message comes from one of the [n] processing threads, whose
    identifiers are [0 .. n-1]. *)
Definition senders_configured (n : Z) (evs : list tracker_event) : Prop :=
  Forall (λ ev, match ev with
                | Deliver msg => 0 ≤ sender msg < n
                | MergerVisit _ => True
                end) evs.

(** The total of an outstanding interval is the number of senders recorded
    for it: no sender is counted twice. *)
Definition counted_once (o : corsaro_report_out_interval) : Prop :=
  reports_total o = uint8 (Z.of_nat (done_count (reports_recvd o))).

(** An outstanding interval is sound with respect to the events [evs] read
    so far: its flags cover the 256 possible senders, its total counts them
    once, and a flag is only set for a configured sender whose interval end
    for this interval has been read. *)
Definition out_interval_ok (n : Z) (evs : list tracker_event)
    (o : corsaro_report_out_interval) : Prop :=
  length (reports_recvd o) = 256%nat ∧ counted_once o ∧
  ∀ (s : nat) (x : Z), reports_recvd o !! s = Some x → x ≠ 0 →
    Z.of_nat s < n ∧ ∃ ev, ev ∈ evs ∧ interval_end_from (interval_ts o) (Z.of_nat s) ev.

(** A tracker fed by [n] processing threads whose outstanding intervals
    are sound with respect to the events read so far. *)
Definition tracker_ok (n : Z) (evs : list tracker_event)
    (track : corsaro_report_iptracker) : Prop :=
  sourcethreads track = n ∧
  Forall (out_interval_ok n evs) (outstanding track).

(** *** Unique IP counting *)

(** The bit of [metval] that stands for a role. *)
Definition role_bit (issrc : Z) : Z := if truthy issrc then 1 else 2.

(** The [metval] of metric [k] in a list of array slots. *)
Fixpoint slot_bits (slots : list corsaro_standalone_metric) (k : Z) : Z :=
  match slots with
  | [] => 0
  | e :: rest => if decide (sm_metricid e = k) then sm_metval e
                 else slot_bits rest k
  end.

(** The [metval] that an IP entry holds for metric [k], 0 when the metric
    is not recorded: read from the inline array while the entry uses it,
    from the hash map afterwards. *)
Definition seen_bits (iphash : corsaro_ip_hash) (k : Z) : Z :=
  if metriccount iphash <=? METRIC_ARRAY_SIZE
  then slot_bits (used_slots iphash) k
  else default 0 (metricsseen iphash !! k).

(** The metrics recorded for an IP. *)
Definition iph_keys (iphash : corsaro_ip_hash) : gset Z :=
  if metriccount iphash <=? METRIC_ARRAY_SIZE
  then list_to_set (sm_metricid <$> used_slots iphash)
  else dom (metricsseen iphash).

(** Well-formed IP entries: the array has its 20 slots, the count is the
    number of metrics recorded, and while the array is in use its slots
    hold different metrics and the hash map is still empty. *)
Definition iphash_ok (iphash : corsaro_ip_hash) : Prop :=
  length (firstmetrics iphash) = Z.to_nat METRIC_ARRAY_SIZE ∧
  metriccount iphash = Z.of_nat (size (iph_keys iphash)) ∧
  (metriccount iphash ≤ METRIC_ARRAY_SIZE →
   metricsseen iphash = ∅ ∧ NoDup (sm_metricid <$> used_slots iphash)).

(** The dispatch of [update_knownip_metric] between array and hash map. *)
Definition update_metric (iphash : corsaro_ip_hash) (mid issrc : Z)
    (m : corsaro_metric_ip_hash) : corsaro_ip_hash * corsaro_metric_ip_hash :=
  if metriccount iphash <=? METRIC_ARRAY_SIZE
  then update_metric_array iphash mid issrc m
  else update_metric_map iphash mid issrc m.

(** Counting an IP for a role. *)
Definition count_ip (issrc : Z) (m : corsaro_metric_ip_hash)
  : corsaro_metric_ip_hash :=
  if truthy issrc then incr_srcips m else incr_destips m.

(** One tag of one body, applied to the IP map and the tally map. *)
Definition apply_tag (ip issrc iplen : Z)
    (maps : gmap Z corsaro_ip_hash * gmap Z corsaro_metric_ip_hash) (k : Z)
  : gmap Z corsaro_ip_hash * gmap Z corsaro_metric_ip_hash :=
  let '(known1, thisip) := update_iphash (fst maps) ip in
  let '(thisip', tally') := update_knownip_metric k thisip issrc iplen (snd maps) in
  (<[ip := thisip']> known1, tally').

(** The (metric, IP) pairs that a body reports for each role. *)
Definition body_pairs (body : corsaro_report_msg_body) : gset (Z * Z) :=
  list_to_set ((λ k, (k, b_ipaddr body)) <$> body_tags body).

Definition body_src_pairs (body : corsaro_report_msg_body) : gset (Z * Z) :=
  if truthy (issrc body) then body_pairs body else ∅.

Definition body_dst_pairs (body : corsaro_report_msg_body) : gset (Z * Z) :=
  if truthy (issrc body) then ∅ else body_pairs body.

Definition src_pairs (bodies : list corsaro_report_msg_body) : gset (Z * Z) :=
  ⋃ (body_src_pairs <$> bodies).

Definition dst_pairs (bodies : list corsaro_report_msg_body) : gset (Z * Z) :=
  ⋃ (body_dst_pairs <$> bodies).

(** All metrics that occur in a list of bodies. *)
Definition tags_seen (bodies : list corsaro_report_msg_body) : gset Z :=
  ⋃ ((λ body, list_to_set (body_tags body)) <$> bodies).

(** The number of distinct IPs paired with metric [k]. *)
Definition unique_ips (k : Z) (pairs : gset (Z * Z)) : nat :=
  size (filter (λ kp, kp.1 = k) pairs).

(** Counters of the tally of a metric, 0 for a metric without a tally. *)
Definition tally_srcips (tally : gmap Z corsaro_metric_ip_hash) (k : Z) : Z :=
  from_option srcips 0 (tally !! k).
Definition tally_destips (tally : gmap Z corsaro_metric_ip_hash) (k : Z) : Z :=
  from_option destips 0 (tally !! k).
Definition tally_packets (tally : gmap Z corsaro_metric_ip_hash) (k : Z) : Z :=
  from_option packets 0 (tally !! k).
Definition tally_bytes (tally : gmap Z corsaro_metric_ip_hash) (k : Z) : Z :=
  from_option bytes 0 (tally !! k).

(** A body as the processing threads build them: the first tag, if any, is
    the combined metric 0. *)
Definition body_wf (body : corsaro_report_msg_body) : Prop :=
  head (body_tags body) = None ∨ head (body_tags body) = Some 0.

(** The [metval] after a role was recorded. *)
Definition mark_bits (metval r : Z) : Z :=
  if Z.land metval r =? 0 then Z.lor metval r else metval.

(** The [metval] that the IP map holds for an IP and a metric. *)
Definition ip_bits (known : gmap Z corsaro_ip_hash) (ip k : Z) : Z :=
  from_option (λ iphash, seen_bits iphash k) 0 (known !! ip).

(** The state of one interval after the (metric, IP) pairs [srcs] were
    reported as sources and [dsts] as destinations, all metrics being in
    [all]: the role bits of the IP entries are exactly those pairs and the
    unique counters of each tally are the numbers of IPs paired with its
    metric, modulo 2^32. *)
Definition maps_inv (all : gset Z) (srcs dsts : gset (Z * Z))
    (maps : gmap Z corsaro_ip_hash * gmap Z corsaro_metric_ip_hash) : Prop :=
  (∀ ip iphash, maps.1 !! ip = Some iphash →
     iphash_ok iphash ∧ iph_keys iphash ⊆ all) ∧
  (∀ k ip, (k, ip) ∈ srcs ↔ Z.land (ip_bits maps.1 ip k) 1 ≠ 0) ∧
  (∀ k ip, (k, ip) ∈ dsts ↔ Z.land (ip_bits maps.1 ip k) 2 ≠ 0) ∧
  (∀ k, tally_srcips maps.2 k = uint32 (Z.of_nat (unique_ips k srcs))) ∧
  (∀ k, tally_destips maps.2 k = uint32 (Z.of_nat (unique_ips k dsts))).

(** The pair added by one tag for a role. *)
Definition src_pair (issrc k ip : Z) : gset (Z * Z) :=
  if truthy issrc then {[ (k, ip) ]} else ∅.
Definition dst_pair (issrc k ip : Z) : gset (Z * Z) :=
  if truthy issrc then ∅ else {[ (k, ip) ]}.

(** Three source bodies for the IP 1.2.3.4 that carry 22 different metrics
    between them, so that its entry outgrows the inline array, then the
    first two again and the same address as a destination. *)
Definition promoting_bodies : list corsaro_report_msg_body :=
  let b1 := mk_body 16909060 1 8 [0; 101; 102; 103; 104; 105; 106; 107] 40 in
  let b2 := mk_body 16909060 1 8 [0; 201; 202; 203; 204; 205; 206; 207] 40 in
  let b3 := mk_body 16909060 1 8 [0; 301; 302; 303; 304; 305; 306; 307] 40 in
  let d1 := mk_body 16909060 0 8 [0; 101; 102; 103; 104; 105; 106; 107] 0 in
  [b1; b2; b3; b1; b2; d1; d1].

(** *** The metrics of a packet *)

(** The metric that a class and value stand for, unless the value is out
    of the bounds of the class. *)
Definition tag_of (class : corsaro_report_metric_class) (tagval maxtagval : Z)
  : list Z :=
  if (maxtagval >? 0) && (uint32 tagval >=? maxtagval) then []
  else [GEN_METRICID (class_value class) (uint32 tagval)].

(** The metrics attached to a packet, in the order in which they are put
    in a body: combined, protocol, ports or ICMP type and code, then the
    geo-location and prefix-to-ASN metrics of the providers that tagged the
    packet. *)
Definition packet_metrics (maxmind netacq pfx2as : Z)
    (tags : option corsaro_packet_tags) : list Z :=
  tag_of CORSARO_METRIC_CLASS_COMBINED 0 0 ++
  match tags with
  | None => []
  | Some t =>
    if providers_used t =? 0 then []
    else
      tag_of CORSARO_METRIC_CLASS_IP_PROTOCOL (protocol t) METRIC_IPPROTOS_MAX ++
      (if protocol t =? TRACE_IPPROTO_ICMP then
         tag_of CORSARO_METRIC_CLASS_ICMP_TYPE (src_port t) METRIC_ICMP_MAX ++
         tag_of CORSARO_METRIC_CLASS_ICMP_CODE (dest_port t) METRIC_ICMP_MAX
       else if protocol t =? TRACE_IPPROTO_TCP then
         tag_of CORSARO_METRIC_CLASS_TCP_SOURCE_PORT (src_port t) METRIC_PORT_MAX ++
         tag_of CORSARO_METRIC_CLASS_TCP_DEST_PORT (dest_port t) METRIC_PORT_MAX
       else if protocol t =? TRACE_IPPROTO_UDP then
         tag_of CORSARO_METRIC_CLASS_UDP_SOURCE_PORT (src_port t) METRIC_PORT_MAX ++
         tag_of CORSARO_METRIC_CLASS_UDP_DEST_PORT (dest_port t) METRIC_PORT_MAX
       else []) ++
      (if maxmind_tagged maxmind t then
         tag_of CORSARO_METRIC_CLASS_MAXMIND_CONTINENT (maxmind_continent t) 0 ++
         tag_of CORSARO_METRIC_CLASS_MAXMIND_COUNTRY (maxmind_country t) 0
       else []) ++
      (if netacq_tagged netacq t then
         tag_of CORSARO_METRIC_CLASS_NETACQ_CONTINENT (netacq_continent t) 0 ++
         tag_of CORSARO_METRIC_CLASS_NETACQ_COUNTRY (netacq_country t) 0
       else []) ++
      (if pfx2as_tagged pfx2as t then
         tag_of CORSARO_METRIC_CLASS_PREFIX_ASN (prefixasn t) 0
       else [])
  end.

(** A body whose first tags are [l]. *)
Definition body_holds (maxtags : Z) (body : corsaro_report_msg_body)
    (l : list Z) : Prop :=
  numtags body = Z.of_nat (length l) ∧
  take (length l) (tags body) = l ∧
  length (tags body) = Z.to_nat maxtags.

(** "A packet is tallied once, through its source": the source body built
    from the packet carries its IP length, the destination body carries no
    bytes, both carry the same metrics; applied to the maps of the tracker
    of the source address, the source body adds one packet and the IP length
    to the tally of each of its metrics and nothing to the other tallies;
    applied to the maps of the tracker of the destination address, the
    destination body changes no packet or byte counter. *)
Definition tallied_via_source (maxtags maxmind netacq pfx2as : Z)
    (tags : option corsaro_packet_tags) (iplen src dst : Z)
    (sslot dslot : corsaro_report_msg_body)
    (smaps dmaps : gmap Z corsaro_ip_hash * gmap Z corsaro_metric_ip_hash)
  : Prop :=
  ∃ sbody dbody smaps' dmaps',
    process_tags maxtags maxmind netacq pfx2as tags iplen sslot src 1
      = Some sbody ∧
    process_tags maxtags maxmind netacq pfx2as tags iplen dslot dst 0
      = Some dbody ∧
    b_size sbody = iplen ∧ b_size dbody = 0 ∧
    body_tags dbody = body_tags sbody ∧
    apply_body smaps sbody = Some smaps' ∧
    apply_body dmaps dbody = Some dmaps' ∧
    (∀ k, k ∈ body_tags sbody →
       tally_packets smaps'.2 k = uint32 (tally_packets smaps.2 k + 1) ∧
       tally_bytes smaps'.2 k = uint64 (tally_bytes smaps.2 k + iplen)) ∧
    (∀ k, k ∉ body_tags sbody →
       tally_packets smaps'.2 k = tally_packets smaps.2 k ∧
       tally_bytes smaps'.2 k = tally_bytes smaps.2 k) ∧
    (∀ k, tally_packets dmaps'.2 k = tally_packets dmaps.2 k ∧
          tally_bytes dmaps'.2 k = tally_bytes dmaps.2 k).

(** A TCP packet from port 22 to port 80, tagged by the basic provider. *)
Definition tcp_22_80 : corsaro_packet_tags := mk_tags 1 6 22 80 0 0 0 0 0.

End Spec.


(** * Notions used to state the properties of the port bitmaps *)

Module PortSpec.

Import ReportInternal ReportConfig.

(** [strtoul] returns an [unsigned long]. *)
Definition strtoul_wf (r : strtoul_result) : Prop := 0 ≤ ul_value r < 2 ^ 64.

Definition node_wf (node : range_node) : Prop :=
  match node with
  | NotScalar => True
  | ScalarPort r => strtoul_wf r
  | ScalarRange r1 r2 => strtoul_wf r1 ∧ strtoul_wf r2
  end.

Definition options_wf (options : list (string * yaml_value)) : Prop :=
  Forall (λ pair, match snd pair with
                  | YamlSequence items => Forall node_wf items
                  | YamlOther => True
                  end) options.

(** The ports that a configured item stands for, if the item is accepted:
    both numbers are read without error, the first is at most 65535, the
    last is cut down to 65535, and the first is not above the last. *)
Definition effective_range (node : range_node) : option (Z * Z) :=
  match node with
  | NotScalar => None
  | ScalarPort r =>
    if (ul_errno r =? 0) && (ul_value r <=? 65535)
    then Some (ul_value r, ul_value r) else None
  | ScalarRange r1 r2 =>
    if (ul_errno r1 =? 0) && (ul_value r1 <=? 65535) && (ul_errno r2 =? 0)
       && (ul_value r1 <=? Z.min (ul_value r2) 65535)
    then Some (ul_value r1, Z.min (ul_value r2) 65535) else None
  end.

(** The items of a sequence up to its first item that is not a scalar. *)
Fixpoint leading_scalars (items : list range_node) : list range_node :=
  match items with
  | [] => []
  | NotScalar :: _ => []
  | node :: rest => node :: leading_scalars rest
  end.

(** The ranges accepted from one sequence. *)
Definition accepted_ranges (items : list range_node) : list (Z * Z) :=
  omap effective_range (leading_scalars items).

(** The four port options. *)
Inductive port_option :=
  | TcpSource | TcpDest | UdpSource | UdpDest.

Definition option_key (o : port_option) : string :=
  match o with
  | TcpSource => "tcp_source_port_range"
  | TcpDest => "tcp_dest_port_range"
  | UdpSource => "udp_source_port_range"
  | UdpDest => "udp_dest_port_range"
  end.

Definition option_bitmap (o : port_option) (a : allowed_ports) : list Z :=
  match o with
  | TcpSource => tcp_sources a
  | TcpDest => tcp_dests a
  | UdpSource => udp_sources a
  | UdpDest => udp_dests a
  end.

Definition option_flag (o : port_option) (c : port_config) : bool :=
  match o with
  | TcpSource => set_tcp_src_ports c
  | TcpDest => set_tcp_dest_ports c
  | UdpSource => set_udp_src_ports c
  | UdpDest => set_udp_dest_ports c
  end.

(** All ranges accepted for an option, over every occurrence of its key. *)
Definition option_ranges (o : port_option)
    (options : list (string * yaml_value)) : list (Z * Z) :=
  concat (map (λ pair,
                 if String.eqb (fst pair) (option_key o) then
                   match snd pair with
                   | YamlSequence items => accepted_ranges items
                   | YamlOther => []
                   end
                 else []) options).

(** All items configured for an option, accepted or not. *)
Definition option_items (o : port_option)
    (options : list (string * yaml_value)) : list range_node :=
  concat (map (λ pair,
                 if String.eqb (fst pair) (option_key o) then
                   match snd pair with
                   | YamlSequence items => items
                   | YamlOther => []
                   end
                 else []) options).

Definition in_ranges (p : Z) (ranges : list (Z * Z)) : Prop :=
  ∃ first last, (first, last) ∈ ranges ∧ first ≤ p ≤ last.

(** The bounds written in a scalar item, as [strtoul] reads them. *)
Definition configured_bounds (node : range_node) : option (Z * Z) :=
  match node with
  | NotScalar => None
  | ScalarPort r => Some (ul_value r, ul_value r)
  | ScalarRange r1 r2 => Some (ul_value r1, ul_value r2)
  end.

(** C8 as it is worded, for one option: with no item configured every bit
    is set; otherwise bit [p] is set exactly when [p] lies in a configured
    range with [first <= last] and both bounds at most 65535. *)
Definition bitmap_as_configured (o : port_option)
    (options : list (string * yaml_value)) (a : allowed_ports) : Prop :=
  ∀ p, 0 ≤ p ≤ 65535 →
    (port_bit (option_bitmap o a) p = true ↔
     option_items o options = [] ∨
     (option_items o options ≠ [] ∧
      ∃ node first last,
        node ∈ option_items o options ∧
        configured_bounds node = Some (first, last) ∧
        first ≤ last ∧ first ≤ 65535 ∧ last ≤ 65535 ∧ first ≤ p ≤ last)).

(** The byte with the [a] most significant and the [b] least significant
    bits cleared. *)
Definition byte_mask (a b : Z) : Z :=
  let t := if a >? 0 then uint8 (Z.land 255 (Z.shiftr 255 a)) else 255 in
  if b >? 0 then uint8 (Z.land t (Z.shiftl 255 b)) else t.

(** What holds of a bitmap and its seen flag once the ranges [ranges] have
    been accepted for it. *)
Definition bitmap_inv (arr : list Z) (flag : bool) (ranges : list (Z * Z))
  : Prop :=
  (flag = false ↔ ranges = []) ∧
  (flag = true →
   length arr = Z.to_nat 8192 ∧
   ∀ p, 0 ≤ p ≤ 65535 → (port_bit arr p = true ↔ in_ranges p ranges)).

(** A destination port option with a mapping between two ports. *)
Definition ports_22_map_80 : list (string * yaml_value) :=
  [("tcp_dest_port_range"%string,
    YamlSequence [ScalarPort (mk_strtoul 22 0); NotScalar;
                  ScalarPort (mk_strtoul 80 0)])].

Definition no_ports : allowed_ports := mk_allowed_ports [] [] [] [].

End PortSpec.


(** ** libcorsaro3/plugins/corsaro_report.c: callbacks of a processing thread *)

Module ReportThreads.

Import Report3.

(** [corsaro_report_state_t] with the field that the interval callbacks
    use: the timestamp of the most recent interval. *)
Record corsaro_report_local := mk_local {
  thread_state : corsaro_report_state;   (* nextmsg, threadid, queueblocks *)
  current_interval : Z                   (* uint32_t *)
}.

Section Callbacks.

(** Constants of headers that are not part of these sources. *)
Variable CORSARO_MAX_SUPPORTED_TAGS : Z.
Variable IPMETA_PROVIDER_MAXMIND : Z.
Variable IPMETA_PROVIDER_NETACQ_EDGE : Z.
Variable IPMETA_PROVIDER_PFX2AS : Z.

(** The buffer that the memory handler hands out for a new message. *)
Variable fresh_update : list corsaro_report_msg_body.

(** [conf->tracker_count]. *)
Variable tracker_count : Z.

(** [corsaro_report_init_processing]: the array of pending messages is
    allocated with [calloc], so every field that is not assigned is 0. *)
Definition corsaro_report_init_processing (threadid : Z)
  : corsaro_report_local :=
  mk_local
    (mk_state
       (replicate (Z.to_nat tracker_count)
          (mk_msg 0 (uint8 threadid) 0 0 fresh_update))
       threadid 0)
    0.

(** [corsaro_report_start_interval], for a state that is not NULL. *)
Definition corsaro_report_start_interval (local : corsaro_report_local)
    (int_start_time : Z) : corsaro_report_local :=
  mk_local (thread_state local) (uint32 int_start_time).

(** Body of the loop that [corsaro_report_end_interval] and
    [corsaro_report_halt_processing] run over the trackers: the pending
    message is enqueued if it holds an update and replaced by an empty
    one, then [signal] is enqueued. *)
Definition flush_and_signal (signal : corsaro_report_ip_message)
    (acc : option (list corsaro_report_ip_message
                   * list (list corsaro_report_ip_message)))
    (i : nat)
  : option (list corsaro_report_ip_message
            * list (list corsaro_report_ip_message)) :=
  '(msgs, queues) ← acc;
  msg ← msgs !! i;
  queue ← queues !! i;
  if bodycount msg >? 0 then
    Some (<[i := mk_msg (msgtype msg) (sender msg) (timestamp msg) 0
                   fresh_update]> msgs,
          <[i := (queue ++ [msg]) ++ [signal]]> queues)
  else Some (msgs, <[i := queue ++ [signal]]> queues).

(** The interval-end message: [memset] to 0, then type, timestamp and
    sender. *)
Definition interval_message (local : corsaro_report_local)
  : corsaro_report_ip_message :=
  mk_msg CORSARO_IP_MESSAGE_INTERVAL (uint8 (threadid (thread_state local)))
    (current_interval local) 0 [].

(** The halt message. *)
Definition halt_message (local : corsaro_report_local)
  : corsaro_report_ip_message :=
  mk_msg CORSARO_IP_MESSAGE_HALT (uint8 (threadid (thread_state local)))
    0 0 [].

(** [corsaro_report_end_interval], for a state that is not NULL. [None]
    is an access outside the arrays. *)
Definition corsaro_report_end_interval
    (queues : list (list corsaro_report_ip_message))
    (local : corsaro_report_local)
  : option (corsaro_report_local * list (list corsaro_report_ip_message)) :=
  '(msgs, queues') ←
    foldl (flush_and_signal (interval_message local))
      (Some (nextmsg (thread_state local), queues))
      (seq 0 (Z.to_nat tracker_count));
  Some (mk_local (mk_state msgs (threadid (thread_state local)) 0)
          (current_interval local),
        queues').

(** [corsaro_report_halt_processing], for a state that is not NULL: what
    is left in the queues when the state is freed. *)
Definition corsaro_report_halt_processing
    (queues : list (list corsaro_report_ip_message))
    (local : corsaro_report_local)
  : option (list (list corsaro_report_ip_message)) :=
  snd <$>
    foldl (flush_and_signal (halt_message local))
      (Some (nextmsg (thread_state local), queues))
      (seq 0 (Z.to_nat tracker_count)).

(** [corsaro_report_process_packet], for a state that is not NULL.
    [addrs] is what [extract_addresses] found in the packet: the source
    address, the destination address and the IP length, or [None] when it
    returned -1. *)
Definition corsaro_report_process_packet
    (queues : list (list corsaro_report_ip_message))
    (local : corsaro_report_local) (addrs : option (Z * Z * Z))
    (tags : option corsaro_packet_tags)
  : option (corsaro_report_local * list (list corsaro_report_ip_message)) :=
  match addrs with
  | None => Some (local, queues)
  | Some (srcaddr, dstaddr, iplen) =>
    '(state1, queues1) ←
      update_metrics_for_address CORSARO_MAX_SUPPORTED_TAGS
        IPMETA_PROVIDER_MAXMIND IPMETA_PROVIDER_NETACQ_EDGE
        IPMETA_PROVIDER_PFX2AS fresh_update tracker_count queues
        (thread_state local) srcaddr 1 iplen tags;
    '(state2, queues2) ←
      update_metrics_for_address CORSARO_MAX_SUPPORTED_TAGS
        IPMETA_PROVIDER_MAXMIND IPMETA_PROVIDER_NETACQ_EDGE
        IPMETA_PROVIDER_PFX2AS fresh_update tracker_count queues1
        state1 dstaddr 0 iplen tags;
    Some (mk_local state2 (current_interval local), queues2)
  end.

(** The calls that the framework makes on a processing thread. *)
Inductive thread_call :=
  | StartInterval (int_start_time : Z)
  | ProcessPacket (addrs : option (Z * Z * Z))
                  (tags : option corsaro_packet_tags)
  | EndInterval.

Definition thread_step
    (acc : corsaro_report_local * list (list corsaro_report_ip_message))
    (call : thread_call)
  : option (corsaro_report_local * list (list corsaro_report_ip_message)) :=
  match call with
  | StartInterval t => Some (corsaro_report_start_interval acc.1 t, acc.2)
  | ProcessPacket addrs tags =>
    corsaro_report_process_packet acc.2 acc.1 addrs tags
  | EndInterval => corsaro_report_end_interval acc.2 acc.1
  end.

Definition thread_run
    (acc : corsaro_report_local * list (list corsaro_report_ip_message))
    (calls : list thread_call)
  : option (corsaro_report_local * list (list corsaro_report_ip_message)) :=
  foldl (λ a call, a ≫= λ s, thread_step s call) (Some acc) calls.

End Callbacks.

End ReportThreads.


(** *** What a processing thread hands to the trackers *)

Module ThreadSpec.

Import Report3 Spec ReportThreads.

(** What a tracker reads of an update: address, role, bytes and the
    metrics [tags[0 .. numtags-1]]. *)
Definition body_view (body : corsaro_report_msg_body) : Z * Z * Z * list Z :=
  (b_ipaddr body, issrc body, b_size body, body_tags body).

(** The updates that a message carries. *)
Definition updates_of (msg : corsaro_report_ip_message)
  : list (Z * Z * Z * list Z) :=
  body_view <$> msg_bodies msg.

(** The updates handed over for tracker [t] so far, in order: those of the
    messages in its queue, then those of the pending message. *)
Definition tracker_updates
    (nextmsgs : list corsaro_report_ip_message)
    (queues : list (list corsaro_report_ip_message)) (t : nat)
  : list (Z * Z * Z * list Z) :=
  (default [] (queues !! t) ≫= updates_of)
  ++ from_option updates_of [] (nextmsgs !! t).

(** The updates that one call of the framework makes for tracker [t]: a
    packet with an IPv4 header gives one update for its source address,
    with the IP length, and one for its destination address, without
    bytes, each for the tracker of the address. *)
Definition call_updates (maxmind netacq pfx2as tracker_count : Z) (t : nat)
    (call : thread_call) : list (Z * Z * Z * list Z) :=
  match call with
  | ProcessPacket (Some (srcaddr, dstaddr, iplen)) tags =>
    (if decide (tracker_of tracker_count srcaddr = t)
     then [(srcaddr, 1, iplen, packet_metrics maxmind netacq pfx2as tags)]
     else [])
    ++ (if decide (tracker_of tracker_count dstaddr = t)
        then [(dstaddr, 0, 0, packet_metrics maxmind netacq pfx2as tags)]
        else [])
  | _ => []
  end.

(** The start time of the interval that is running after [calls]. *)
Definition interval_of (calls : list thread_call) : Z :=
  foldl (λ ts call, match call with
                    | StartInterval t => uint32 t
                    | _ => ts
                    end) 0 calls.

(** An update buffer as the memory handler allocates them: room for
    [REPORT_BATCH_SIZE] updates, each with room for [maxtags] tags. *)
Definition buffer_ok (maxtags : Z) (buf : list corsaro_report_msg_body)
  : Prop :=
  length buf = Z.to_nat REPORT_BATCH_SIZE ∧
  Forall (λ slot, length (tags slot) = Z.to_nat maxtags) buf.

(** A pending message of thread [threadid]: its type was never assigned,
    it holds fewer updates than a batch and its buffer is whole. *)
Definition pending_ok (maxtags threadid : Z) (msg : corsaro_report_ip_message)
  : Prop :=
  msgtype msg = 0 ∧ sender msg = uint8 threadid ∧ timestamp msg = 0 ∧
  0 ≤ bodycount msg < REPORT_BATCH_SIZE ∧ buffer_ok maxtags (update msg).

(** What the callbacks of thread [threadid] maintain: one pending message
    and one queue per tracker. *)
Definition thread_inv (maxtags tracker_count threadid : Z)
    (nextmsgs : list corsaro_report_ip_message)
    (queues : list (list corsaro_report_ip_message)) : Prop :=
  length nextmsgs = Z.to_nat tracker_count ∧
  length queues = Z.to_nat tracker_count ∧
  Forall (pending_ok maxtags threadid) nextmsgs.

(** What the loop over the trackers at the end of an interval leaves as
    the pending message and in the queue of a tracker. *)
Definition flushed (fresh : list corsaro_report_msg_body)
    (msg : corsaro_report_ip_message) : corsaro_report_ip_message :=
  if bodycount msg >? 0
  then mk_msg (msgtype msg) (sender msg) (timestamp msg) 0 fresh
  else msg.

Definition flushed_queue (signal : corsaro_report_ip_message)
    (queue : list corsaro_report_ip_message) (msg : corsaro_report_ip_message)
  : list corsaro_report_ip_message :=
  if bodycount msg >? 0 then (queue ++ [msg]) ++ [signal]
  else queue ++ [signal].

(** A message that a processing thread sends: an interval end or a halt
    without updates, or a batch of updates, whose type is 0. *)
Definition sent_by_thread (msg : corsaro_report_ip_message) : Prop :=
  (msgtype msg = CORSARO_IP_MESSAGE_INTERVAL ∧ bodycount msg = 0) ∨
  msgtype msg = CORSARO_IP_MESSAGE_HALT.

(** A tracker in which nothing was ever tallied. *)
Definition never_tallied (track : corsaro_report_iptracker) : Prop :=
  knownips track = ∅ ∧ knownips_next track = ∅ ∧
  currentresult track = ∅ ∧ nextresult track = ∅ ∧
  (lastresult track = None ∨ lastresult track = Some ∅).

(** A buffer of blank updates with room for 10 tags each, a TCP packet
    of 40 bytes from 0.0.0.5 to 0.0.0.6, and the message that holds its
    two updates when there is a single tracker. *)
Definition blank_buffer : list corsaro_report_msg_body :=
  replicate (Z.to_nat REPORT_BATCH_SIZE) blank_body.

Definition packet_5_6 : thread_call :=
  ProcessPacket (Some (5, 6, 40)) (Some tcp_22_80).

Definition batch_5_6 : corsaro_report_ip_message :=
  mk_msg 0 0 0 2
    (mk_body 5 1 4 [0; 42949672966; 25769803798; 30064771152; 0; 0; 0; 0; 0; 0] 40
     :: mk_body 6 0 4 [0; 42949672966; 25769803798; 30064771152; 0; 0; 0; 0; 0; 0] 0
     :: replicate 498 blank_body).

End ThreadSpec.


(** ** libcorsaro3/plugins/corsaro_report.c: the rows that are written *)

Module ReportOutput.

Import Report3.

(** The characters of a C string held in a buffer: those before the first
    NUL. *)
Fixpoint c_string (chars : list Z) : string :=
  match chars with
  | [] => EmptyString
  | c :: rest =>
    if c =? 0 then EmptyString
    else String (Ascii.ascii_of_N (Z.to_N c)) (c_string rest)
  end.

(** [snprintf(valspace, 2048, "%lu", res->metricid & 0xffffffff)]. *)
Definition numeric_value (metricid : Z) : string :=
  pretty (Z.to_N (Z.land metricid 4294967295)).

(** [snprintf(valspace, 2048, "%c%c", (int)(res->metricid & 0xff),
    (int)((res->metricid >> 8) & 0xff))]. *)
Definition two_char_value (metricid : Z) : string :=
  c_string [Z.land metricid 255; Z.land (Z.shiftr metricid 8) 255].

(** The [switch] of [write_single_metric]: the printable metric type and
    value of a result, both [None] (the NULL that [new_result] stored)
    when no case matches the upper 32 bits of the metric id. *)
Definition result_labels (metricid : Z) : option string * option string :=
  let class := Z.shiftr metricid 32 in
  if class =? class_value CORSARO_METRIC_CLASS_COMBINED then
    (Some "combined", Some "all")
  else if class =? class_value CORSARO_METRIC_CLASS_IP_PROTOCOL then
    (Some "ipprotocol", Some (numeric_value metricid))
  else if class =? class_value CORSARO_METRIC_CLASS_ICMP_CODE then
    (Some "icmp-code", Some (numeric_value metricid))
  else if class =? class_value CORSARO_METRIC_CLASS_ICMP_TYPE then
    (Some "icmp-type", Some (numeric_value metricid))
  else if class =? class_value CORSARO_METRIC_CLASS_TCP_SOURCE_PORT then
    (Some "tcpsourceport", Some (numeric_value metricid))
  else if class =? class_value CORSARO_METRIC_CLASS_TCP_DEST_PORT then
    (Some "tcpdestport", Some (numeric_value metricid))
  else if class =? class_value CORSARO_METRIC_CLASS_UDP_SOURCE_PORT then
    (Some "udpsourceport", Some (numeric_value metricid))
  else if class =? class_value CORSARO_METRIC_CLASS_UDP_DEST_PORT then
    (Some "udpdestport", Some (numeric_value metricid))
  else if class =? class_value CORSARO_METRIC_CLASS_MAXMIND_CONTINENT then
    (Some "maxmind-continent", Some (two_char_value metricid))
  else if class =? class_value CORSARO_METRIC_CLASS_MAXMIND_COUNTRY then
    (Some "maxmind-country", Some (two_char_value metricid))
  else if class =? class_value CORSARO_METRIC_CLASS_NETACQ_CONTINENT then
    (Some "netacq-continent", Some (two_char_value metricid))
  else if class =? class_value CORSARO_METRIC_CLASS_NETACQ_COUNTRY then
    (Some "netacq-country", Some (two_char_value metricid))
  else if class =? class_value CORSARO_METRIC_CLASS_PREFIX_ASN then
    (Some "pfx2asn", Some (numeric_value metricid))
  else (None, None).

End ReportOutput.

(** *** What the merge thread writes *)

Module MergeSpec.

Import Report3 ReportOutput.

(** The rows of a result table up to and including the first one whose
    write to the output file fails. *)
Fixpoint until_write_failure (w : avro_writer)
    (rows : list corsaro_report_result) : list corsaro_report_result :=
  match rows with
  | [] => []
  | r :: rest =>
    if write_single_metric w r =? AVRO_WRITE_FAILURE then [r]
    else r :: until_write_failure w rest
  end.

(** A value that a metric of a class can take and that prints as itself:
    the combined metric has the value 0, a geo-location code is two
    characters, none of them NUL, and the other classes print a number of
    32 bits. *)
Definition printable (class : corsaro_report_metric_class) (v : Z) : Prop :=
  match class with
  | CORSARO_METRIC_CLASS_COMBINED => v = 0
  | CORSARO_METRIC_CLASS_MAXMIND_CONTINENT
  | CORSARO_METRIC_CLASS_MAXMIND_COUNTRY
  | CORSARO_METRIC_CLASS_NETACQ_CONTINENT
  | CORSARO_METRIC_CLASS_NETACQ_COUNTRY =>
    0 ≤ v < 2 ^ 16 ∧ Z.land v 255 ≠ 0 ∧ Z.land (Z.shiftr v 8) 255 ≠ 0
  | _ => 0 ≤ v < 2 ^ 32
  end.

(** A tally map whose entries are stored under their own metric id. *)
Definition keyed (tally : gmap Z corsaro_metric_ip_hash) : Prop :=
  ∀ k m, tally !! k = Some m → metricid m = k.

(** The result table after the published tallies of the trackers were
    merged one after the other. *)
Definition merge_all (fin : Z) (outlabel : list Z)
    (tallies : list (gmap Z corsaro_metric_ip_hash))
  : list corsaro_report_result :=
  foldl (λ results lastres,
           update_tracker_results results lastres fin outlabel) [] tallies.

(** The sum over the trackers of a counter of metric [k]. *)
Definition total (f : corsaro_metric_ip_hash → Z)
    (tallies : list (gmap Z corsaro_metric_ip_hash)) (k : Z) : Z :=
  foldr (λ tally acc, from_option f 0 (tally !! k) + acc) 0 tallies.

(** The sum of a counter over the entries of metric [k] in a list. *)
Definition entries_total (f : corsaro_metric_ip_hash → Z)
    (entries : list corsaro_metric_ip_hash) (k : Z) : Z :=
  foldr (λ m acc, (if decide (metricid m = k) then f m else 0) + acc) 0 entries.

(** The rows and the entries merged into them so far. *)
Definition merged_inv (ts : Z) (outlabel : list Z)
    (results : list corsaro_report_result)
    (entries : list corsaro_metric_ip_hash) : Prop :=
  NoDup (r_metricid <$> results) ∧
  (∀ k, k ∈ r_metricid <$> results ↔ k ∈ metricid <$> entries) ∧
  ∀ r, r ∈ results →
    attimestamp r = ts ∧ label r = outlabel ∧
    pkt_cnt r = uint64 (entries_total packets entries (r_metricid r)) ∧
    r_bytes r = uint64 (entries_total bytes entries (r_metricid r)) ∧
    uniq_src_ips r = uint32 (entries_total srcips entries (r_metricid r)) ∧
    uniq_dst_ips r = uint32 (entries_total destips entries (r_metricid r)).

(** The tallies of a tracker are all stored under their metric ids. *)
Definition tracker_keyed (track : corsaro_report_iptracker) : Prop :=
  keyed (currentresult track) ∧ keyed (nextresult track) ∧
  ∀ tally, lastresult track = Some tally → keyed tally.

(** Two published tallies that share the combined metric. *)
Definition two_tallies : list (gmap Z corsaro_metric_ip_hash) :=
  [ {[ 0 := mk_tally 0 1 0 1 40 ]};
    {[ 0 := mk_tally 0 2 1 3 120; 42949672966 := mk_tally 42949672966 2 1 3 120 ]} ].

(** A writer whose file is open and that fails to write every row, and a
    tracker that has published a tally with one metric for interval 60. *)
Definition failing_writer : avro_writer :=
  mk_writer true true true (λ _, AVRO_WRITE_FAILURE).

Definition published_60 : corsaro_report_iptracker :=
  mk_tracker 60 1 0 ∅ ∅ (Some {[ 0 := mk_tally 0 1 0 1 40 ]}) ∅ ∅ [].

End MergeSpec.


(** *** The list of outstanding intervals *)

Module TrackerSpec.

Import Report3.

(** The timestamps of the interval-end messages among the events, in the
    order in which they are read. *)
Definition interval_stamps (evs : list tracker_event) : list Z :=
  omap (λ ev, match ev with
              | Deliver msg =>
                if msgtype msg =? CORSARO_IP_MESSAGE_INTERVAL
                then Some (timestamp msg) else None
              | MergerVisit _ => None
              end) evs.

(** The outstanding intervals are listed by strictly increasing timestamp
    and all of them are later than the last result. *)
Definition outstanding_ordered (track : corsaro_report_iptracker) : Prop :=
  0 ≤ lastresultts track ∧
  StronglySorted Z.lt (interval_ts <$> outstanding track) ∧
  Forall (λ o, lastresultts track < interval_ts o) (outstanding track).

(** The interval-end message of processing thread [s] for interval [T]. *)
Definition interval_end (T s : Z) : corsaro_report_ip_message :=
  mk_msg CORSARO_IP_MESSAGE_INTERVAL s T 0 [].

(** The flags of an outstanding interval after the senders in [ss] have
    reported. *)
Definition flags_of (ss : list Z) : list Z :=
  foldl (λ flags s, <[Z.to_nat s := 1]> flags) (replicate 256%nat 0) ss.

End TrackerSpec.


(** ** libcorsaro3/libcorsaro3_tagging.c *)

Module Tagging.

Import Report3.

(** What [trace_get_transport] returns for a packet: the protocol, the
    number of bytes that remain in the packet and the bytes of the
    transport header. *)
Record transport_header := mk_transport {
  t_proto : Z;           (* uint8_t proto *)
  t_rem : Z;             (* uint32_t rem *)
  t_bytes : list Z       (* the bytes at the returned pointer *)
}.

(** The byte at an offset of the transport header. *)
Definition header_byte (t : transport_header) (i : nat) : Z :=
  uint8 (default 0 (t_bytes t !! i)).

(** [ntohs] of the 16-bit field number [i] of the header, which is in
    network byte order. *)
Definition header_short (t : transport_header) (i : nat) : Z :=
  header_byte t (2 * i) * 256 + header_byte t (2 * i + 1).

(** [update_basic_tags]. [transport = None] is the NULL that
    [trace_get_transport] returns when there is no transport header. *)
Definition update_basic_tags (transport : option transport_header)
    (tags : corsaro_packet_tags) : corsaro_packet_tags :=
  match transport with
  | None =>
    mk_tags (providers_used tags) 0 0 0 (maxmind_continent tags)
      (maxmind_country tags) (netacq_continent tags) (netacq_country tags)
      (prefixasn tags)
  | Some t =>
    let proto := uint8 (t_proto t) in
    let '(sport, dport) :=
      if (proto =? TRACE_IPPROTO_ICMP) && (t_rem t >=? 2) then
        (header_byte t 0, header_byte t 1)
      else if ((proto =? TRACE_IPPROTO_TCP) || (proto =? TRACE_IPPROTO_UDP))
              && (t_rem t >=? 4) then
        (header_short t 0, header_short t 1)
      else (0, 0) in
    mk_tags (uint32 (Z.lor (providers_used tags) 1)) proto sport dport
      (maxmind_continent tags) (maxmind_country tags)
      (netacq_continent tags) (netacq_country tags) (prefixasn tags)
  end.

(** The fields of an [ipmeta_record_t] that the tagger reads. The codes
    are arrays of two characters. *)
Record ipmeta_record := mk_record {
  source : Z;                    (* the provider that made the record *)
  continent_code : Z * Z;        (* char continent_code[2] *)
  country_code : Z * Z;          (* char country_code[2] *)
  asn : list Z;                  (* uint32_t *asn *)
  asn_cnt : Z
}.

Section Providers.

(** Provider identifiers of libipmeta, and the byte order of the host. *)
Variable IPMETA_PROVIDER_MAXMIND : Z.
Variable IPMETA_PROVIDER_NETACQ_EDGE : Z.
Variable IPMETA_PROVIDER_PFX2AS : Z.
Variable big_endian : bool.

(** The two characters of a code read through a pointer to [uint16_t]:
    one 16-bit number in the byte order of the host. *)
Definition load_code (code : Z * Z) : Z :=
  if big_endian then uint8 code.1 * 256 + uint8 code.2
  else uint8 code.1 + 256 * uint8 code.2.

(** [providers_used |= (1 << id)]. *)
Definition mark_provider (used id : Z) : Z :=
  uint32 (Z.lor used (Z.shiftl 1 id)).

(** [update_maxmind_tags], for a record that is not NULL. *)
Definition update_maxmind_tags (rec : ipmeta_record)
    (tags : corsaro_packet_tags) : corsaro_packet_tags :=
  mk_tags (mark_provider (providers_used tags) IPMETA_PROVIDER_MAXMIND)
    (protocol tags) (src_port tags) (dest_port tags)
    (load_code (continent_code rec)) (load_code (country_code rec))
    (netacq_continent tags) (netacq_country tags) (prefixasn tags).

(** [update_netacq_tags], for a record that is not NULL. *)
Definition update_netacq_tags (rec : ipmeta_record)
    (tags : corsaro_packet_tags) : corsaro_packet_tags :=
  mk_tags (mark_provider (providers_used tags) IPMETA_PROVIDER_NETACQ_EDGE)
    (protocol tags) (src_port tags) (dest_port tags)
    (maxmind_continent tags) (maxmind_country tags)
    (load_code (continent_code rec)) (load_code (country_code rec))
    (prefixasn tags).

(** [update_pfx2as_tags], for a record that is not NULL: records with
    several ASNs, or none, are ignored. *)
Definition update_pfx2as_tags (rec : ipmeta_record)
    (tags : corsaro_packet_tags) : corsaro_packet_tags :=
  if negb (asn_cnt rec =? 1) then tags
  else
    mk_tags (mark_provider (providers_used tags) IPMETA_PROVIDER_PFX2AS)
      (protocol tags) (src_port tags) (dest_port tags)
      (maxmind_continent tags) (maxmind_country tags)
      (netacq_continent tags) (netacq_country tags)
      (uint32 (default 0 (asn rec !! 0%nat))).

(** Body of the loop of [corsaro_tag_packet] over the records found. The
    three [case] labels are tried in the order of the source. *)
Definition apply_record (tags : corsaro_packet_tags) (rec : ipmeta_record)
  : corsaro_packet_tags :=
  if source rec =? IPMETA_PROVIDER_MAXMIND then update_maxmind_tags rec tags
  else if source rec =? IPMETA_PROVIDER_NETACQ_EDGE
  then update_netacq_tags rec tags
  else if source rec =? IPMETA_PROVIDER_PFX2AS then update_pfx2as_tags rec tags
  else tags.

(** What [corsaro_tag_packet] sees of a packet: the transport header, if
    any, whether an IPv4 source address was found, and the outcome of
    [ipmeta_lookup_single]: the records of the providers, or [None] when
    the lookup failed. *)
Record packet_view := mk_packet {
  transport : option transport_header;
  ipv4_source : bool;
  lookup : option (list ipmeta_record)
}.

(** [corsaro_tag_packet]: the value returned and the tags. [packet = None]
    is a NULL packet, [providers_null] says that the tagger has no list of
    providers. *)
Definition corsaro_tag_packet (providers_null : bool)
    (tags : corsaro_packet_tags) (packet : option packet_view)
  : Z * corsaro_packet_tags :=
  let tags0 :=
    mk_tags 0 (protocol tags) (src_port tags) (dest_port tags)
      (maxmind_continent tags) (maxmind_country tags)
      (netacq_continent tags) (netacq_country tags) (prefixasn tags) in
  match packet with
  | None => (0, tags0)
  | Some p =>
    let tags1 := update_basic_tags (transport p) tags0 in
    if providers_null then (0, tags1)
    else if negb (ipv4_source p) then (0, tags1)
    else
      match lookup p with
      | None => (-1, tags1)
      | Some records => (0, foldl apply_record tags1 records)
      end
  end.

End Providers.

(** [basic_tagged] of libcorsaro3/plugins/corsaro_report.c. *)
Definition basic_tagged (tags : corsaro_packet_tags) : bool :=
  truthy (Z.land (providers_used tags) 1).

End Tagging.


(** *** What the tagger hands to the report plugin *)

Module TagSpec.

Import Report3 Tagging.

(** Whether a record sets the bit of provider [j] in [providers_used]. *)
Definition marks (maxmind netacq pfx2as : Z) (rec : ipmeta_record) (j : Z)
  : bool :=
  ((source rec =? maxmind) && (j =? maxmind))
  || ((source rec =? netacq) && (j =? netacq))
  || ((source rec =? pfx2as) && (asn_cnt rec =? 1) && (j =? pfx2as)).

(** The provider identifiers are different bits of [providers_used], none
    of them the bit of the basic tags. *)
Definition provider_bits (maxmind netacq pfx2as : Z) : Prop :=
  1 ≤ maxmind < 32 ∧ 1 ≤ netacq < 32 ∧ 1 ≤ pfx2as < 32 ∧
  maxmind ≠ netacq ∧ maxmind ≠ pfx2as ∧ netacq ≠ pfx2as.

(** A TCP segment from port 22 to port 80 whose source address has a
    Maxmind record (source 1) for "EU" / "NL" and a record of the
    prefix-to-ASN provider (source 3) with two ASNs. *)
Definition packet_eu_nl : packet_view :=
  mk_packet (Some (mk_transport 6 20 [0; 22; 0; 80])) true
    (Some [mk_record 1 (69, 85) (78, 76) [] 0;
           mk_record 3 (0, 0) (0, 0) [64500; 64501] 2]).

End TagSpec.

(** ** libcorsaro/plugins/report: the options of the plugin *)

Module ReportOptions.

(** [corsaro_report_metric_class_t] of report_internal.h. *)
Inductive corsaro_report_metric_class_t :=
  | CORSARO_METRIC_CLASS_COMBINED
  | CORSARO_METRIC_CLASS_MAXMIND_CONTINENT
  | CORSARO_METRIC_CLASS_MAXMIND_COUNTRY
  | CORSARO_METRIC_CLASS_NETACQ_CONTINENT
  | CORSARO_METRIC_CLASS_NETACQ_COUNTRY
  | CORSARO_METRIC_CLASS_PREFIX_ASN
  | CORSARO_METRIC_CLASS_TCP_SOURCE_PORT
  | CORSARO_METRIC_CLASS_TCP_DEST_PORT
  | CORSARO_METRIC_CLASS_UDP_SOURCE_PORT
  | CORSARO_METRIC_CLASS_UDP_DEST_PORT
  | CORSARO_METRIC_CLASS_IP_PROTOCOL
  | CORSARO_METRIC_CLASS_ICMP_TYPECODE
  | CORSARO_METRIC_CLASS_NETACQ_REGION
  | CORSARO_METRIC_CLASS_NETACQ_POLYGON
  | CORSARO_METRIC_CLASS_IPINFO_CONTINENT
  | CORSARO_METRIC_CLASS_IPINFO_COUNTRY
  | CORSARO_METRIC_CLASS_IPINFO_REGION
  | CORSARO_METRIC_CLASS_IPINFO_COUNTRY_PREFIX_ASN
  | CORSARO_METRIC_CLASS_IPINFO_REGION_PREFIX_ASN
  | CORSARO_METRIC_CLASS_FILTER_CRITERIA.

(** The number of an enumerator. *)
Definition class_number (c : corsaro_report_metric_class_t) : Z :=
  match c with
  | CORSARO_METRIC_CLASS_COMBINED => 0
  | CORSARO_METRIC_CLASS_MAXMIND_CONTINENT => 1
  | CORSARO_METRIC_CLASS_MAXMIND_COUNTRY => 2
  | CORSARO_METRIC_CLASS_NETACQ_CONTINENT => 3
  | CORSARO_METRIC_CLASS_NETACQ_COUNTRY => 4
  | CORSARO_METRIC_CLASS_PREFIX_ASN => 5
  | CORSARO_METRIC_CLASS_TCP_SOURCE_PORT => 6
  | CORSARO_METRIC_CLASS_TCP_DEST_PORT => 7
  | CORSARO_METRIC_CLASS_UDP_SOURCE_PORT => 8
  | CORSARO_METRIC_CLASS_UDP_DEST_PORT => 9
  | CORSARO_METRIC_CLASS_IP_PROTOCOL => 10
  | CORSARO_METRIC_CLASS_ICMP_TYPECODE => 11
  | CORSARO_METRIC_CLASS_NETACQ_REGION => 12
  | CORSARO_METRIC_CLASS_NETACQ_POLYGON => 13
  | CORSARO_METRIC_CLASS_IPINFO_CONTINENT => 14
  | CORSARO_METRIC_CLASS_IPINFO_COUNTRY => 15
  | CORSARO_METRIC_CLASS_IPINFO_REGION => 16
  | CORSARO_METRIC_CLASS_IPINFO_COUNTRY_PREFIX_ASN => 17
  | CORSARO_METRIC_CLASS_IPINFO_REGION_PREFIX_ASN => 18
  | CORSARO_METRIC_CLASS_FILTER_CRITERIA => 19
  end.

(** [1UL << class]. *)
Definition class_bit (c : corsaro_report_metric_class_t) : Z :=
  Z.shiftl 1 (class_number c).

(** [IS_METRIC_ALLOWED]. *)
Definition IS_METRIC_ALLOWED (allowedmetrics metric : Z) : bool :=
  (allowedmetrics =? 0) || truthy (Z.land allowedmetrics (Z.shiftl 1 metric)).

Definition CORSARO_REPORT_MAX_IPTRACKERS : Z := 32.

Inductive corsaro_output_format_t :=
  | CORSARO_OUTPUT_AVRO
  | CORSARO_OUTPUT_LIBTIMESERIES.

Inductive corsaro_report_geomode_t :=
  | REPORT_GEOMODE_FULL
  | REPORT_GEOMODE_LITE.

Inductive corsaro_report_ipcount_method_t :=
  | REPORT_IPCOUNT_METHOD_ALL
  | REPORT_IPCOUNT_METHOD_SAMPLE
  | REPORT_IPCOUNT_METHOD_PREFIXAGG.

Record corsaro_report_ipcount_conf := mk_ipcount {
  method : corsaro_report_ipcount_method_t;
  pfxbits : Z                                   (* uint8_t *)
}.

(** The fields of [corsaro_report_config] that the options below set (the
    port bitmaps are in [ReportConfig]). A NULL string is [None]. *)
Record corsaro_report_config := mk_config {
  outlabel : option string;
  tracker_count : Z;                            (* int *)
  outformat : corsaro_output_format_t;
  geomode : corsaro_report_geomode_t;
  internalhwm : Z;                              (* uint16_t *)
  query_tagger_labels : Z;                      (* uint8_t *)
  allowedmetricclasses : Z;                     (* uint64_t *)
  src_ipcount_conf : corsaro_report_ipcount_conf;
  dst_ipcount_conf : corsaro_report_ipcount_conf;
  geoasn_whitelist_file : option string
}.

#[local] Set Warnings "-register-all".

(** A node of the YAML document. *)
Inductive yaml_node :=
  | YAML_SCALAR_NODE (value : string)
  | YAML_SEQUENCE_NODE (items : list yaml_node)
  | YAML_MAPPING_NODE (pairs : list (yaml_node * yaml_node)).

(** [tolower] in the C locale. *)
Definition tolower (a : Ascii.ascii) : Ascii.ascii :=
  let n := Ascii.N_of_ascii a in
  if ((65 <=? n) && (n <=? 90))%N then Ascii.ascii_of_N (n + 32) else a.

Fixpoint lowered (s : string) : string :=
  match s with
  | EmptyString => EmptyString
  | String a s' => String (tolower a) (lowered s')
  end.

(** [strcasecmp(a, b) == 0]. *)
Definition strcasecmp_eq (a b : string) : bool :=
  String.eqb (lowered a) (lowered b).

(** [(int)] of a [long]. *)
Definition to_int (x : Z) : Z := (x + 2 ^ 31) mod 2 ^ 32 - 2 ^ 31.

(** [parse_onoff_option]: the value returned and the option. *)
Definition parse_onoff_option (value : string) (opt : Z) : Z * Z :=
  if String.eqb value "yes" || String.eqb value "true"
     || String.eqb value "on" || String.eqb value "enabled" then (0, 1)
  else if String.eqb value "no" || String.eqb value "false"
          || String.eqb value "off" || String.eqb value "disabled" then (0, 0)
  else (-1, opt).

Section Options.

(** What the C library makes of the text of a number: the values of
    [strtol(text, NULL, 0)] and of [strtoul(text, NULL, 0)]. *)
Variable strtol : string → Z.
Variable strtoul : string → Z.

(** Body of the loop of [parse_ip_counting]. *)
Definition parse_ip_counting_pair (ipconf : corsaro_report_ipcount_conf)
    (pair : yaml_node * yaml_node) : corsaro_report_ipcount_conf :=
  match pair with
  | (YAML_SCALAR_NODE key, YAML_SCALAR_NODE val) =>
    let ipconf :=
      if String.eqb key "method" then
        if strcasecmp_eq val "sample" then
          mk_ipcount REPORT_IPCOUNT_METHOD_SAMPLE (pfxbits ipconf)
        else if strcasecmp_eq val "prefixagg" then
          mk_ipcount REPORT_IPCOUNT_METHOD_PREFIXAGG (pfxbits ipconf)
        else if strcasecmp_eq val "none" then
          mk_ipcount REPORT_IPCOUNT_METHOD_ALL (pfxbits ipconf)
        else ipconf
      else ipconf in
    if String.eqb key "subnetmask" then
      let optval := uint32 (strtoul val) in
      if optval >? 32 then mk_ipcount (method ipconf) 32
      else if optval =? 0 then mk_ipcount (method ipconf) 32
      else mk_ipcount (method ipconf) (uint8 optval)
    else ipconf
  | _ => ipconf
  end.

(** [parse_ip_counting]. *)
Definition parse_ip_counting (ipconf : corsaro_report_ipcount_conf)
    (yamlconf : list (yaml_node * yaml_node)) : corsaro_report_ipcount_conf :=
  foldl parse_ip_counting_pair ipconf yamlconf.

(** The classes that a name of the [limitmetrics] list adds to the mask:
    the body of the loop of [parse_metric_limits] for a scalar item. *)
Definition add_metric_limit (allowed : Z) (name : string) : Z :=
  let allowed :=
    if strcasecmp_eq name "basic" then
      Z.lor allowed (Z.lor (class_bit CORSARO_METRIC_CLASS_COMBINED)
                           (class_bit CORSARO_METRIC_CLASS_IP_PROTOCOL))
    else allowed in
  let allowed :=
    if strcasecmp_eq name "tcpports" then
      Z.lor allowed (Z.lor (class_bit CORSARO_METRIC_CLASS_TCP_SOURCE_PORT)
                           (class_bit CORSARO_METRIC_CLASS_TCP_DEST_PORT))
    else allowed in
  let allowed :=
    if strcasecmp_eq name "udpports" then
      Z.lor allowed (Z.lor (class_bit CORSARO_METRIC_CLASS_UDP_SOURCE_PORT)
                           (class_bit CORSARO_METRIC_CLASS_UDP_DEST_PORT))
    else allowed in
  let allowed :=
    if strcasecmp_eq name "icmp" then
      Z.lor allowed (class_bit CORSARO_METRIC_CLASS_ICMP_TYPECODE)
    else allowed in
  let allowed :=
    if strcasecmp_eq name "netacq" then
      Z.lor allowed
        (Z.lor (Z.lor (Z.lor (class_bit CORSARO_METRIC_CLASS_NETACQ_CONTINENT)
                             (class_bit CORSARO_METRIC_CLASS_NETACQ_COUNTRY))
                      (class_bit CORSARO_METRIC_CLASS_NETACQ_REGION))
               (class_bit CORSARO_METRIC_CLASS_NETACQ_POLYGON))
    else allowed in
  let allowed :=
    if strcasecmp_eq name "maxmind" then
      Z.lor allowed (Z.lor (class_bit CORSARO_METRIC_CLASS_MAXMIND_CONTINENT)
                           (class_bit CORSARO_METRIC_CLASS_MAXMIND_COUNTRY))
    else allowed in
  let allowed :=
    if strcasecmp_eq name "ipinfo" then
      Z.lor allowed
        (Z.lor (Z.lor (class_bit CORSARO_METRIC_CLASS_IPINFO_CONTINENT)
                      (class_bit CORSARO_METRIC_CLASS_IPINFO_REGION))
               (class_bit CORSARO_METRIC_CLASS_IPINFO_COUNTRY))
    else allowed in
  let allowed :=
    if strcasecmp_eq name "pfx2asn" then
      Z.lor allowed
        (Z.lor (Z.lor (class_bit CORSARO_METRIC_CLASS_PREFIX_ASN)
                      (class_bit
                         CORSARO_METRIC_CLASS_IPINFO_COUNTRY_PREFIX_ASN))
               (class_bit CORSARO_METRIC_CLASS_IPINFO_REGION_PREFIX_ASN))
    else allowed in
  if strcasecmp_eq name "filter" then
    Z.lor allowed (class_bit CORSARO_METRIC_CLASS_FILTER_CRITERIA)
  else allowed.

(** [parse_metric_limits]: the mask that it leaves in the configuration.
    An item that is not a scalar clears the mask and ends the loop. *)
Fixpoint parse_metric_limits (allowed : Z) (metlist : list yaml_node) : Z :=
  match metlist with
  | [] => allowed
  | YAML_SCALAR_NODE name :: rest =>
    parse_metric_limits (add_metric_limit allowed name) rest
  | _ :: _ => 0
  end.

Definition set_outlabel (conf : corsaro_report_config) (v : option string)
  : corsaro_report_config :=
  mk_config v (tracker_count conf) (outformat conf) (geomode conf)
    (internalhwm conf) (query_tagger_labels conf) (allowedmetricclasses conf)
    (src_ipcount_conf conf) (dst_ipcount_conf conf)
    (geoasn_whitelist_file conf).

Definition set_tracker_count (conf : corsaro_report_config) (v : Z)
  : corsaro_report_config :=
  mk_config (outlabel conf) v (outformat conf) (geomode conf)
    (internalhwm conf) (query_tagger_labels conf) (allowedmetricclasses conf)
    (src_ipcount_conf conf) (dst_ipcount_conf conf)
    (geoasn_whitelist_file conf).

Definition set_outformat (conf : corsaro_report_config)
    (v : corsaro_output_format_t) : corsaro_report_config :=
  mk_config (outlabel conf) (tracker_count conf) v (geomode conf)
    (internalhwm conf) (query_tagger_labels conf) (allowedmetricclasses conf)
    (src_ipcount_conf conf) (dst_ipcount_conf conf)
    (geoasn_whitelist_file conf).

Definition set_geomode (conf : corsaro_report_config)
    (v : corsaro_report_geomode_t) : corsaro_report_config :=
  mk_config (outlabel conf) (tracker_count conf) (outformat conf) v
    (internalhwm conf) (query_tagger_labels conf) (allowedmetricclasses conf)
    (src_ipcount_conf conf) (dst_ipcount_conf conf)
    (geoasn_whitelist_file conf).

Definition set_internalhwm (conf : corsaro_report_config) (v : Z)
  : corsaro_report_config :=
  mk_config (outlabel conf) (tracker_count conf) (outformat conf)
    (geomode conf) v (query_tagger_labels conf) (allowedmetricclasses conf)
    (src_ipcount_conf conf) (dst_ipcount_conf conf)
    (geoasn_whitelist_file conf).

Definition set_query_tagger_labels (conf : corsaro_report_config) (v : Z)
  : corsaro_report_config :=
  mk_config (outlabel conf) (tracker_count conf) (outformat conf)
    (geomode conf) (internalhwm conf) v (allowedmetricclasses conf)
    (src_ipcount_conf conf) (dst_ipcount_conf conf)
    (geoasn_whitelist_file conf).

Definition set_allowedmetricclasses (conf : corsaro_report_config) (v : Z)
  : corsaro_report_config :=
  mk_config (outlabel conf) (tracker_count conf) (outformat conf)
    (geomode conf) (internalhwm conf) (query_tagger_labels conf) v
    (src_ipcount_conf conf) (dst_ipcount_conf conf)
    (geoasn_whitelist_file conf).

Definition set_src_ipcount_conf (conf : corsaro_report_config)
    (v : corsaro_report_ipcount_conf) : corsaro_report_config :=
  mk_config (outlabel conf) (tracker_count conf) (outformat conf)
    (geomode conf) (internalhwm conf) (query_tagger_labels conf)
    (allowedmetricclasses conf) v (dst_ipcount_conf conf)
    (geoasn_whitelist_file conf).

Definition set_dst_ipcount_conf (conf : corsaro_report_config)
    (v : corsaro_report_ipcount_conf) : corsaro_report_config :=
  mk_config (outlabel conf) (tracker_count conf) (outformat conf)
    (geomode conf) (internalhwm conf) (query_tagger_labels conf)
    (allowedmetricclasses conf) (src_ipcount_conf conf) v
    (geoasn_whitelist_file conf).

Definition set_geoasn_whitelist_file (conf : corsaro_report_config)
    (v : option string) : corsaro_report_config :=
  mk_config (outlabel conf) (tracker_count conf) (outformat conf)
    (geomode conf) (internalhwm conf) (query_tagger_labels conf)
    (allowedmetricclasses conf) (src_ipcount_conf conf)
    (dst_ipcount_conf conf) v.

(** The tests of the body of the loop of [corsaro_report_parse_config]
    for a key and a value that are both scalars, one definition for each
    [if] of the source. *)
Definition output_row_label_option (conf : corsaro_report_config)
    (key val : string) : corsaro_report_config :=
  if String.eqb key "output_row_label" then set_outlabel conf (Some val)
  else conf.

Definition iptracker_threads_option (conf : corsaro_report_config)
    (key val : string) : corsaro_report_config :=
  if String.eqb key "iptracker_threads" then
    let count := to_int (strtol val) in
    let count := if count <? 1 then 1 else count in
    let count :=
      if count >? CORSARO_REPORT_MAX_IPTRACKERS
      then CORSARO_REPORT_MAX_IPTRACKERS else count in
    set_tracker_count conf count
  else conf.

Definition internalhwm_option (conf : corsaro_report_config)
    (key val : string) : corsaro_report_config :=
  if String.eqb key "internalhwm" then
    let optval := uint64 (strtoul val) in
    if optval >? 65535 then set_internalhwm conf 0
    else set_internalhwm conf (uint16 optval)
  else conf.

Definition querytaggerlabels_option (conf : corsaro_report_config)
    (key val : string) : corsaro_report_config :=
  if String.eqb key "querytaggerlabels" then
    let '(ret, opt) := parse_onoff_option val (query_tagger_labels conf) in
    if ret <? 0 then set_query_tagger_labels conf 0
    else set_query_tagger_labels conf opt
  else conf.

Definition geo_mode_option (conf : corsaro_report_config)
    (key val : string) : corsaro_report_config :=
  if String.eqb key "geo_mode" then
    if strcasecmp_eq val "lite" then set_geomode conf REPORT_GEOMODE_LITE
    else if strcasecmp_eq val "full" then set_geomode conf REPORT_GEOMODE_FULL
    else conf
  else conf.

Definition geoasn_whitelist_file_option (conf : corsaro_report_config)
    (key val : string) : corsaro_report_config :=
  if String.eqb key "geoasn_whitelist_file" then
    set_geoasn_whitelist_file conf (Some val)
  else conf.

Definition output_format_option (conf : corsaro_report_config)
    (key val : string) : corsaro_report_config :=
  if String.eqb key "output_format" then
    if String.eqb val "avro" then set_outformat conf CORSARO_OUTPUT_AVRO
    else if String.eqb val "libtimeseries" then
      set_outformat conf CORSARO_OUTPUT_LIBTIMESERIES
    else set_outformat conf CORSARO_OUTPUT_AVRO
  else conf.

(** The options whose key and value are both scalars, in the order of the
    source. *)
Definition parse_scalar_option (conf : corsaro_report_config)
    (key val : string) : corsaro_report_config :=
  let conf := output_row_label_option conf key val in
  let conf := iptracker_threads_option conf key val in
  let conf := internalhwm_option conf key val in
  let conf := querytaggerlabels_option conf key val in
  let conf := geo_mode_option conf key val in
  let conf := geoasn_whitelist_file_option conf key val in
  output_format_option conf key val.

(** Body of the loop of [corsaro_report_parse_config] over the pairs of
    the mapping, without the port ranges. *)
Definition parse_option (conf : corsaro_report_config)
    (pair : yaml_node * yaml_node) : corsaro_report_config :=
  match pair with
  | (YAML_SCALAR_NODE key, YAML_SCALAR_NODE val) =>
    parse_scalar_option conf key val
  | (YAML_SCALAR_NODE key, YAML_MAPPING_NODE pairs) =>
    let conf :=
      if String.eqb key "source_ip_counting" then
        set_src_ipcount_conf conf
          (parse_ip_counting (src_ipcount_conf conf) pairs)
      else conf in
    if String.eqb key "dest_ip_counting" then
      set_dst_ipcount_conf conf
        (parse_ip_counting (dst_ipcount_conf conf) pairs)
    else conf
  | (YAML_SCALAR_NODE key, YAML_SEQUENCE_NODE items) =>
    if String.eqb key "limitmetrics" then
      set_allowedmetricclasses conf
        (parse_metric_limits (allowedmetricclasses conf) items)
    else conf
  | _ => conf
  end.

(** The configuration before the options are read. *)
Definition default_config : corsaro_report_config :=
  mk_config None 4 CORSARO_OUTPUT_AVRO REPORT_GEOMODE_FULL 30 1 0
    (mk_ipcount REPORT_IPCOUNT_METHOD_ALL 32)
    (mk_ipcount REPORT_IPCOUNT_METHOD_ALL 32) None.

(** [corsaro_report_parse_config]: [None] is the return value -1, when
    the options are not a mapping. *)
Definition corsaro_report_parse_config (options : yaml_node)
  : option corsaro_report_config :=
  match options with
  | YAML_MAPPING_NODE pairs => Some (foldl parse_option default_config pairs)
  | _ => None
  end.

(** The part of [corsaro_report_finalise_config] that completes the
    options: the default label, and the classes that the lite mode of
    geo-tagging turns off. *)
Definition corsaro_report_finalise_config (conf : corsaro_report_config)
  : corsaro_report_config :=
  let conf :=
    match outlabel conf with
    | None => set_outlabel conf (Some "unlabeled"%string)
    | Some _ => conf
    end in
  let allowed := allowedmetricclasses conf in
  if truthy (Z.land allowed (class_bit CORSARO_METRIC_CLASS_NETACQ_CONTINENT))
     || truthy (Z.land allowed
                  (class_bit CORSARO_METRIC_CLASS_IPINFO_CONTINENT))
     || truthy (Z.land allowed
                  (class_bit CORSARO_METRIC_CLASS_MAXMIND_CONTINENT)) then
    match geomode conf with
    | REPORT_GEOMODE_LITE =>
      let todisable :=
        Z.lor (Z.lor (class_bit CORSARO_METRIC_CLASS_NETACQ_REGION)
                     (class_bit CORSARO_METRIC_CLASS_NETACQ_POLYGON))
              (class_bit CORSARO_METRIC_CLASS_IPINFO_REGION) in
      set_allowedmetricclasses conf
        (Z.land allowed (uint64 (Z.lnot todisable)))
    | REPORT_GEOMODE_FULL => conf
    end
  else conf.

End Options.

End ReportOptions.

(** *** What the options mean *)

Module OptionSpec.

Import ReportOptions.

(** The names of the [limitmetrics] list that turn a class on. *)
Definition limit_names (c : corsaro_report_metric_class_t) : list string :=
  match c with
  | CORSARO_METRIC_CLASS_COMBINED | CORSARO_METRIC_CLASS_IP_PROTOCOL =>
    ["basic"%string]
  | CORSARO_METRIC_CLASS_TCP_SOURCE_PORT
  | CORSARO_METRIC_CLASS_TCP_DEST_PORT => ["tcpports"%string]
  | CORSARO_METRIC_CLASS_UDP_SOURCE_PORT
  | CORSARO_METRIC_CLASS_UDP_DEST_PORT => ["udpports"%string]
  | CORSARO_METRIC_CLASS_ICMP_TYPECODE => ["icmp"%string]
  | CORSARO_METRIC_CLASS_NETACQ_CONTINENT
  | CORSARO_METRIC_CLASS_NETACQ_COUNTRY
  | CORSARO_METRIC_CLASS_NETACQ_REGION
  | CORSARO_METRIC_CLASS_NETACQ_POLYGON => ["netacq"%string]
  | CORSARO_METRIC_CLASS_MAXMIND_CONTINENT
  | CORSARO_METRIC_CLASS_MAXMIND_COUNTRY => ["maxmind"%string]
  | CORSARO_METRIC_CLASS_IPINFO_CONTINENT
  | CORSARO_METRIC_CLASS_IPINFO_COUNTRY
  | CORSARO_METRIC_CLASS_IPINFO_REGION => ["ipinfo"%string]
  | CORSARO_METRIC_CLASS_PREFIX_ASN
  | CORSARO_METRIC_CLASS_IPINFO_COUNTRY_PREFIX_ASN
  | CORSARO_METRIC_CLASS_IPINFO_REGION_PREFIX_ASN => ["pfx2asn"%string]
  | CORSARO_METRIC_CLASS_FILTER_CRITERIA => ["filter"%string]
  end.

(** All the names that [parse_metric_limits] knows. *)
Definition known_names : list string :=
  ["basic"; "tcpports"; "udpports"; "icmp"; "netacq"; "maxmind"; "ipinfo";
   "pfx2asn"; "filter"]%string.

(** Whether a name of the configuration is one of the given names,
    whatever the case of its letters. *)
Definition names (known : list string) (name : string) : bool :=
  existsb (strcasecmp_eq name) known.

(** The classes that the lite mode of geo-tagging leaves out. *)
Definition detailed_geo (c : corsaro_report_metric_class_t) : bool :=
  match c with
  | CORSARO_METRIC_CLASS_NETACQ_REGION
  | CORSARO_METRIC_CLASS_NETACQ_POLYGON
  | CORSARO_METRIC_CLASS_IPINFO_REGION => true
  | _ => false
  end.

(** The options that give the label of the rows, in order. *)
Definition row_labels (pairs : list (yaml_node * yaml_node)) : list string :=
  omap (λ pair,
          match pair with
          | (YAML_SCALAR_NODE key, YAML_SCALAR_NODE val) =>
            if String.eqb key "output_row_label" then Some val else None
          | _ => None
          end) pairs.

(** What the options keep within bounds. *)
Definition options_in_range (conf : corsaro_report_config) : Prop :=
  1 ≤ tracker_count conf ≤ CORSARO_REPORT_MAX_IPTRACKERS ∧
  0 ≤ internalhwm conf ≤ 65535 ∧
  (query_tagger_labels conf = 0 ∨ query_tagger_labels conf = 1) ∧
  1 ≤ pfxbits (src_ipcount_conf conf) ≤ 32 ∧
  1 ≤ pfxbits (dst_ipcount_conf conf) ≤ 32.

End OptionSpec.

(** *** What the merge thread sees of the trackers *)

Module PollSpec.

Import Report3.

(** A view of a tracker that passes the assertion of the polling loop and
    holds a tally when it shows the interval [fin]; a lock that could not
    be taken shows nothing. *)
Definition sound_view (fin : Z) (view : option corsaro_report_iptracker)
  : Prop :=
  ∀ t, view = Some t →
    lastresultts t ≤ fin ∧ (lastresultts t = fin → is_Some (lastresult t)).

(** A view under the lock of a tracker that has the tally of the interval
    [fin], or has halted. *)
Definition settled_view (fin : Z) (view : option corsaro_report_iptracker)
  : Prop :=
  ∃ t, view = Some t ∧ (lastresultts t = fin ∨ haltphase t = 2).

(** A view that does not show a tally of the interval [fin]. *)
Definition no_tally_view (fin : Z) (view : option corsaro_report_iptracker)
  : Prop :=
  ∀ t, view = Some t → lastresultts t ≠ fin.

(** Tracker [i] is marked in [trackers_done]. *)
Definition marked (st : merge_poll) (i : nat) : Prop :=
  truthy (default 0 (trackers_done st !! i)) = true.

(** What the polling loop maintains when tracker [halted] never shows a
    tally of the interval. *)
Definition poll_ok (tracker_count : Z) (halted : nat) (st : merge_poll)
  : Prop :=
  length (trackers_done st) = Z.to_nat tracker_count ∧
  totaldone st = uint8 (Z.of_nat (Spec.done_count (trackers_done st))) ∧
  (marked st halted → skipresult st = 1).

(** Four trackers seen at two passes for the interval 100: at the first
    pass the lock of tracker 1 is busy and tracker 2 is still running with
    the result of interval 40; at the second pass tracker 2 has halted
    without a result for 100. The others hold a tally for 100. *)
Definition ready_100 : corsaro_report_iptracker :=
  mk_tracker 100 2 0 ∅ ∅ (Some {[ 0 := mk_tally 0 1 0 3 200 ]}) ∅ ∅ [].

Definition running_40 : corsaro_report_iptracker :=
  mk_tracker 40 2 0 ∅ ∅ None ∅ ∅ [].

Definition gone_40 : corsaro_report_iptracker :=
  mk_tracker 40 2 2 ∅ ∅ None ∅ ∅ [].

Definition passes_100 : list (list (option corsaro_report_iptracker)) :=
  [[Some ready_100; None; Some running_40; Some ready_100];
   [Some ready_100; Some ready_100; Some gone_40; Some ready_100]].

End PollSpec.

(** *** From a processing thread to a tracker *)

Module PipelineSpec.

Import Report3 ReportThreads.

(** The messages that processing thread 0 puts on the queue of the only
    tracker during the calls, starting from
    [corsaro_report_init_processing]; the tag capacity is 10 and the
    providers have the identifiers 1, 2 and 3. *)
Definition thread_queue (calls : list thread_call)
  : option (list corsaro_report_ip_message) :=
  thread_run 10 1 2 3 ThreadSpec.blank_buffer 1
    (corsaro_report_init_processing ThreadSpec.blank_buffer 1 0, [[]]) calls
  ≫= λ s, s.2 !! 0%nat.

(** The interval-end message of thread 0 for the interval that started at
    [ts]. *)
Definition interval_end_0 (ts : Z) : corsaro_report_ip_message :=
  mk_msg CORSARO_IP_MESSAGE_INTERVAL 0 ts 0 [].

(** A TCP packet from 0.0.0.5 to 0.0.0.6 whose IP length field is 0, and
    the message that holds its two updates. *)
Definition packet_5_6_len0 : thread_call :=
  ProcessPacket (Some (5, 6, 0)) (Some Spec.tcp_22_80).

Definition batch_5_6_len0 : corsaro_report_ip_message :=
  mk_msg 0 0 0 2
    (mk_body 5 1 4 [0; 42949672966; 25769803798; 30064771152; 0; 0; 0; 0; 0; 0] 0
     :: mk_body 6 0 4 [0; 42949672966; 25769803798; 30064771152; 0; 0; 0; 0; 0; 0] 0
     :: replicate 498 Spec.blank_body).

(** The counters of the combined metric in a tally: unique source IPs,
    unique destination IPs, packets and bytes. *)
Definition combined_counters (tally : gmap Z corsaro_metric_ip_hash)
  : Z * Z * Z * Z :=
  (Spec.tally_srcips tally (GEN_METRICID 0 0),
   Spec.tally_destips tally (GEN_METRICID 0 0),
   Spec.tally_packets tally (GEN_METRICID 0 0),
   Spec.tally_bytes tally (GEN_METRICID 0 0)).

End PipelineSpec.

(** * Properties *)

(** ** Metric identifiers *)

Section MetricId.

Lemma uint64_small (x : Z) : 0 ≤ x < 2 ^ 64 → uint64 x = x.
Proof. intros H. unfold uint64. by apply Z.mod_small. Qed.

Lemma uint32_small (x : Z) : 0 ≤ x < 2 ^ 32 → uint32 x = x.
Proof. intros H. unfold uint32. by apply Z.mod_small. Qed.

Lemma uint32_range (x : Z) : 0 ≤ uint32 x < 2 ^ 32.
Proof. unfold uint32. apply Z.mod_pos_bound. lia. Qed.

(** The macro of libcorsaro3 packs the class above the value as long as
    both fit in 32 bits. *)
Lemma gen_metricid3_packs (c v : Z) :
  0 ≤ c < 2 ^ 32 → 0 ≤ v < 2 ^ 32 →
  Report3.GEN_METRICID c v = c * 2 ^ 32 + v.
Proof.
  intros Hc Hv. unfold Report3.GEN_METRICID.
  rewrite (uint64_small c) by lia.
  rewrite Z.shiftl_mul_pow2 by lia.
  rewrite (uint64_small (c * 2 ^ 32)) by nia.
  rewrite (uint64_small v) by lia.
  apply uint64_small. nia.
Qed.

Lemma gen_metricid3_class (c v : Z) :
  0 ≤ c < 2 ^ 32 → 0 ≤ v < 2 ^ 32 →
  Z.shiftr (Report3.GEN_METRICID c v) 32 = c.
Proof.
  intros Hc Hv. rewrite gen_metricid3_packs by done.
  rewrite Z.shiftr_div_pow2 by lia.
  rewrite Z.div_add_l by lia. rewrite Z.div_small by lia. lia.
Qed.

Lemma land_high_low (c v : Z) :
  0 ≤ v < 2 ^ 32 → Z.land (c * 2 ^ 32) v = 0.
Proof.
  intros Hv. apply Z.bits_inj'. intros n Hn.
  rewrite Z.land_spec, Z.bits_0.
  destruct (Z.lt_ge_cases n 32).
  - by rewrite Z.mul_pow2_bits_low by lia.
  - destruct (Z.eq_dec v 0) as [->|].
    + by rewrite Z.bits_0, andb_false_r.
    + rewrite (Z.bits_above_log2 v n); [by rewrite andb_false_r | lia |].
      assert (Z.log2 v < 32) by (apply Z.log2_lt_pow2; lia). lia.
Qed.

Lemma gen_metricid3_lor (c v : Z) :
  0 ≤ c < 2 ^ 32 → 0 ≤ v < 2 ^ 32 →
  Report3.GEN_METRICID c v = Z.lor (Z.shiftl c 32) (Z.land v 4294967295).
Proof.
  intros Hc Hv. rewrite gen_metricid3_packs by done.
  change 4294967295 with (Z.ones 32).
  rewrite Z.land_ones by lia. rewrite (Z.mod_small v) by lia.
  rewrite Z.shiftl_mul_pow2 by lia.
  rewrite <- Z.lxor_lor by (by apply land_high_low).
  by rewrite <- Z.add_nocarry_lxor by (by apply land_high_low).
Qed.

(** The macro of report_internal.h keeps the low 32 bits of the value and
    nothing of the class. *)
Lemma mod64_mod32 (x : Z) : (x mod 2 ^ 64) mod 2 ^ 32 = x mod 2 ^ 32.
Proof. apply Z.mod_mod_divide. exists (2 ^ 32). lia. Qed.

Lemma gen_metricid_internal_value (c v : Z) :
  ReportInternal.GEN_METRICID c v = uint32 v.
Proof.
  unfold ReportInternal.GEN_METRICID, uint64, uint32.
  change 4294967295 with (Z.ones 32).
  rewrite Z.land_ones by lia.
  rewrite Z.shiftl_mul_pow2 by lia.
  rewrite mod64_mod32, Z.add_mod, !mod64_mod32 by lia.
  rewrite Z.mod_mul by lia.
  rewrite Z.add_0_l. by rewrite Z.mod_mod by lia.
Qed.

End MetricId.

(** C3. The key built by [GEN_METRICID] of report_internal.h for the class
    [CORSARO_METRIC_CLASS_MAXMIND_CONTINENT] (1) and the value 5 is 5: the
    upper 32 bits are 0 and not the class, whereas [(1 << 32) | (5 &
    0xFFFFFFFF)] is 4294967301. The macro of libcorsaro3 gives that key. *)
Theorem C3_gen_metricid_internal_loses_class :
  ReportInternal.GEN_METRICID 1 5 = 5 ∧
  Z.shiftr (ReportInternal.GEN_METRICID 1 5) 32 = 0 ∧
  Z.lor (Z.shiftl 1 32) (Z.land 5 4294967295) = 4294967301 ∧
  Report3.GEN_METRICID 1 5 = 4294967301.
Proof. repeat split; reflexivity. Qed.

(** ** The tracker thread: routing of updates and the last result *)

Section Tracker.

Import Report3 Spec.

Lemma set_current_id (track : corsaro_report_iptracker) :
  set_current track (knownips track, currentresult track) = track.
Proof. by destruct track. Qed.

Lemma set_next_id (track : corsaro_report_iptracker) :
  set_next track (knownips_next track, nextresult track) = track.
Proof. by destruct track. Qed.

Lemma foldl_bind_None {A B} (f : A → B → option A) (l : list B) :
  foldl (λ acc b, acc ≫= λ a, f a b) None l = None.
Proof. by induction l. Qed.

(** Bodies routed to the current interval, one after the other. *)
Lemma process_bodies_current (track : corsaro_report_iptracker) (s : Z)
    (bodies : list corsaro_report_msg_body) :
  (outstanding track = [] ∨ sender_in_outstanding (outstanding track) s = false) →
  foldl (λ acc body, acc ≫= λ t, process_msg_body t s body) (Some track) bodies
  = set_current track <$> apply_bodies (knownips track, currentresult track) bodies.
Proof.
  revert track. induction bodies as [|b bodies IH]; intros track Hout.
  - simpl. by rewrite set_current_id.
  - unfold apply_bodies. simpl.
    assert (process_msg_body track s b
            = set_current track <$> apply_body (knownips track, currentresult track) b)
      as ->.
    { unfold process_msg_body. destruct Hout as [-> | ->]; [done|].
      by destruct (length (outstanding track) =? 0)%nat. }
    destruct (apply_body (knownips track, currentresult track) b) as [m|]; simpl.
    + rewrite IH by (by destruct m).
      destruct m as [k t]; simpl. fold (apply_bodies (k, t) bodies).
      destruct (apply_bodies (k, t) bodies) as [[k' t']|]; simpl; [|done].
      by destruct track.
    + by rewrite !foldl_bind_None.
Qed.

(** Bodies routed to the next interval, one after the other. *)
Lemma process_bodies_next (track : corsaro_report_iptracker) (s : Z)
    (bodies : list corsaro_report_msg_body) :
  outstanding track ≠ [] → sender_in_outstanding (outstanding track) s = true →
  foldl (λ acc body, acc ≫= λ t, process_msg_body t s body) (Some track) bodies
  = set_next track <$> apply_bodies (knownips_next track, nextresult track) bodies.
Proof.
  revert track. induction bodies as [|b bodies IH]; intros track Hne Hin.
  - simpl. by rewrite set_next_id.
  - unfold apply_bodies. simpl.
    assert (process_msg_body track s b
            = set_next track <$> apply_body (knownips_next track, nextresult track) b)
      as ->.
    { unfold process_msg_body. rewrite Hin.
      destruct (outstanding track); [done|]. done. }
    destruct (apply_body (knownips_next track, nextresult track) b) as [m|]; simpl.
    + rewrite IH by (by destruct m).
      destruct m as [k t]; simpl. fold (apply_bodies (k, t) bodies).
      destruct (apply_bodies (k, t) bodies) as [[k' t']|]; simpl; [|done].
      by destruct track.
    + by rewrite !foldl_bind_None.
Qed.

(** The update branch of the tracker loop as a whole. *)
Lemma process_update_routing (track : corsaro_report_iptracker)
    (msg : corsaro_report_ip_message) :
  process_update track msg =
    if negb (length (outstanding track) =? 0)%nat &&
       sender_in_outstanding (outstanding track) (sender msg)
    then set_next track <$>
           apply_bodies (knownips_next track, nextresult track) (msg_bodies msg)
    else set_current track <$>
           apply_bodies (knownips track, currentresult track) (msg_bodies msg).
Proof.
  unfold process_update, msg_bodies.
  destruct (outstanding track) as [|o outl] eqn:Hout; simpl negb.
  - simpl andb. cbv iota. apply process_bodies_current. by left.
  - rewrite andb_true_l.
    destruct (sender_in_outstanding (o :: outl) (sender msg)) eqn:Hin.
    + apply process_bodies_next; by rewrite Hout.
    + apply process_bodies_current. right. by rewrite Hout.
Qed.

End Tracker.

Section LastResult.

Import Report3.

Lemma update_outstanding_complete outl ts limit s outl' complete :
  update_outstanding outl ts limit s = Some (outl', complete) →
  complete = 0 ∨ complete = ts.
Proof.
  unfold update_outstanding.
  destruct (scan_outstanding outl ts limit s).
  - destruct (ts >? 0).
    + intros [= <- <-]. by right.
    + destruct (push_new_interval _ _ _); simpl; [|done].
      intros [= <- <-]. by left.
  - intros [= <- <-]. by left.
  - destruct (push_new_interval _ _ _); simpl; [|done].
    intros [= <- <-]. by left.
Qed.

(** What one message can do to the timestamp of the last result. *)
Lemma handle_message_lastresultts track msg track' :
  handle_message track msg = Some track' →
  lastresultts track' = lastresultts track ∨
  (msgtype msg = CORSARO_IP_MESSAGE_INTERVAL ∧
   lastresultts track < timestamp msg ∧
   lastresultts track' = timestamp msg ∧
   lastresult track = None ∧
   lastresult track' = Some (currentresult track)).
Proof.
  unfold handle_message.
  destruct (Z.eqb_spec (msgtype msg) CORSARO_IP_MESSAGE_HALT).
  { destruct (length (outstanding track) =? 0)%nat; intros [= <-]; by left. }
  destruct (Z.eqb_spec (msgtype msg) CORSARO_IP_MESSAGE_INTERVAL) as [Hi|Hi].
  - destruct (Z.eqb_spec (timestamp msg) 0); [intros [= <-]; by left|].
    destruct (Z.leb_spec (timestamp msg) (lastresultts track));
      [intros [= <-]; by left|].
    destruct (update_outstanding _ _ _ _) as [[outl complete]|] eqn:Hup; [|done].
    apply update_outstanding_complete in Hup.
    destruct (Z.eqb_spec complete 0); [intros [= <-]; by left|].
    destruct Hup as [?| ->]; [done|].
    destruct (lastresult track) eqn:Hl; [done|].
    intros [= <-]. right. simpl. repeat split; [done | lia].
  - rewrite process_update_routing.
    destruct (_ && _).
    + destruct (Spec.apply_bodies _ _); simpl; [|done]. intros [= <-]. by left.
    + destruct (Spec.apply_bodies _ _); simpl; [|done]. intros [= <-]. by left.
Qed.

Lemma tracker_step_lastresultts track ev track' :
  tracker_step track ev = Some track' →
  lastresultts track ≤ lastresultts track' ∧
  (lastresultts track' ≠ lastresultts track →
   lastresultts track < lastresultts track').
Proof.
  destruct ev as [msg|fin]; simpl.
  - destruct (haltphase track =? 2); [intros [= <-]; lia|].
    intros H. apply handle_message_lastresultts in H. lia.
  - unfold merger_collect.
    destruct (fin <? lastresultts track); [done|].
    destruct (lastresultts track =? fin); [|intros [= <-]; lia].
    destruct (lastresult track); [|done]. intros [= <-]. simpl. lia.
Qed.

Lemma tracker_run_lastresultts evs : ∀ track track',
  tracker_run track evs = Some track' →
  lastresultts track ≤ lastresultts track'.
Proof.
  induction evs as [|ev evs IH]; intros track track'; simpl.
  - intros [= <-]. lia.
  - destruct (tracker_step track ev) as [t1|] eqn:Hs; [|done].
    intros Hr. apply IH in Hr. apply tracker_step_lastresultts in Hs. lia.
Qed.

Lemma interval_discarded track msg :
  msgtype msg = CORSARO_IP_MESSAGE_INTERVAL →
  timestamp msg = 0 ∨ timestamp msg ≤ lastresultts track →
  handle_message track msg = Some track.
Proof.
  intros Hi Hts. unfold handle_message. rewrite Hi. simpl.
  destruct (Z.eqb_spec (timestamp msg) 0); [done|].
  destruct (Z.leb_spec (timestamp msg) (lastresultts track)); [done|lia].
Qed.

End LastResult.

(** C6. Along any run of a tracker the timestamp of the last complete
    tally never decreases: between any two points of the run it is
    non-decreasing, a step that changes it makes it strictly larger, and an
    interval message whose timestamp is zero or not greater than the
    timestamp of the last result leaves the whole tracker as it was. *)
Theorem C6_lastresultts_monotonic
    (track0 track1 track2 : Report3.corsaro_report_iptracker)
    (evs : list Report3.tracker_event) (ev : Report3.tracker_event) :
  Report3.tracker_run track0 evs = Some track1 →
  Report3.tracker_step track1 ev = Some track2 →
  Report3.lastresultts track0 ≤ Report3.lastresultts track1 ∧
  Report3.lastresultts track1 ≤ Report3.lastresultts track2 ∧
  (Report3.lastresultts track2 ≠ Report3.lastresultts track1 →
   Report3.lastresultts track1 < Report3.lastresultts track2) ∧
  (∀ msg, ev = Report3.Deliver msg →
     Report3.msgtype msg = Report3.CORSARO_IP_MESSAGE_INTERVAL →
     Report3.timestamp msg = 0 ∨
     Report3.timestamp msg ≤ Report3.lastresultts track1 →
     track2 = track1).
Proof.
  intros Hrun Hstep.
  split; [by eapply tracker_run_lastresultts|].
  pose proof (tracker_step_lastresultts _ _ _ Hstep) as [Hle Hlt].
  repeat split; [done..|].
  intros msg -> Hi Hts. simpl in Hstep.
  destruct (Report3.haltphase track1 =? 2); [by injection Hstep|].
  rewrite interval_discarded in Hstep by done. by injection Hstep.
Qed.

Lemma C6_lastresultts_monotonic_witness :
  let i0 := Report3.Deliver (Report3.mk_msg 1 0 100 0 []) in
  let i1 := Report3.Deliver (Report3.mk_msg 1 1 100 0 []) in
  let late := Report3.Deliver (Report3.mk_msg 1 0 60 0 []) in
  ∃ track1 track2,
    Report3.tracker_run (Report3.init_iptracker 2) [i0; i1] = Some track1 ∧
    Report3.tracker_step track1 late = Some track2 ∧
    Report3.lastresultts track1 = 100 ∧
    Report3.lastresultts (Report3.init_iptracker 2)
      ≤ Report3.lastresultts track1 ∧
    Report3.lastresultts track1 ≤ Report3.lastresultts track2.
Proof.
  intros i0 i1 late.
  eexists _, _.
  assert (Report3.tracker_run (Report3.init_iptracker 2) [i0; i1]
          = Some (Report3.mk_tracker 100 2 0 ∅ ∅ (Some ∅) ∅ ∅ [])) as Hrun
    by (vm_compute; reflexivity).
  assert (Report3.tracker_step (Report3.mk_tracker 100 2 0 ∅ ∅ (Some ∅) ∅ ∅ [])
            late
          = Some (Report3.mk_tracker 100 2 0 ∅ ∅ (Some ∅) ∅ ∅ [])) as Hstep
    by (vm_compute; reflexivity).
  split; [exact Hrun|]. split; [exact Hstep|]. split; [reflexivity|].
  pose proof (C6_lastresultts_monotonic _ _ _ _ _ Hrun Hstep) as (H1 & H2 & _).
  split; [exact H1 | exact H2].
Defined.

(** ** Batching of updates by the packet processing threads *)

Section Batching.

Import Report3 Spec.

Lemma uint16_small (x : Z) : 0 ≤ x < 2 ^ 16 → uint16 x = x.
Proof. intros H. unfold uint16. by apply Z.mod_small. Qed.

Lemma update_metrics_flush (N : Z) :
  N = REPORT_BATCH_SIZE → flushes_at N.
Proof.
  intros -> maxtags p1 p2 p3 fresh tracker_count queues state addr issrc iplen
    tags msg queue state' queues' Hmsg Hq Hcount.
  unfold update_metrics_for_address, tracker_of in *.
  destruct (tracker_count <=? 0); [intros; discriminate|].
  rewrite Hmsg. cbn [mbind option_bind].
  destruct (update msg !! Z.to_nat (bodycount msg)) as [slot|];
    cbn [mbind option_bind]; [|intros; discriminate].
  destruct (process_tags maxtags p1 p2 p3 tags iplen slot addr issrc) as [body|];
    cbn [mbind option_bind]; [|intros; discriminate].
  cbn [bodycount msgtype sender timestamp update].
  assert (uint16 (bodycount msg + 1) = bodycount msg + 1) as ->.
  { apply uint16_small. unfold REPORT_BATCH_SIZE in Hcount. lia. }
  assert (nextmsg state !! Z.to_nat ((addr ≫ 24) `mod` tracker_count) = Some msg
          → (Z.to_nat ((addr ≫ 24) `mod` tracker_count) < length (nextmsg state))%nat)
    as Hlen by apply lookup_lt_Some.
  specialize (Hlen Hmsg).
  destruct (bodycount msg + 1 <? REPORT_BATCH_SIZE) eqn:Hlt.
  - intros Heq. apply (inj Some) in Heq.
    apply pair_equal_spec in Heq as [<- <-]. split; [reflexivity|].
    unfold pending_count. cbn [nextmsg].
    by rewrite list_lookup_insert_eq.
  - rewrite Hq. cbn [mbind option_bind]. intros Heq. apply (inj Some) in Heq.
    apply pair_equal_spec in Heq as [<- <-].
    apply Z.ltb_ge in Hlt. split.
    + eexists. split; [reflexivity|]. cbn [bodycount]. lia.
    + unfold pending_count. cbn [nextmsg].
      by rewrite list_lookup_insert_eq.
Qed.

End Batching.

(** C9 (amended). A packet processing thread enqueues the pending update
    message of a tracker as soon as the number of per-IP updates in it
    reaches [REPORT_BATCH_SIZE], and not before; in
    libcorsaro3/plugins/corsaro_report.c that constant is 500. *)
Theorem C9_flush_at_batch_size
    (maxtags p1 p2 p3 : Z) (fresh : list Report3.corsaro_report_msg_body)
    (tracker_count : Z) (queues : list (list Report3.corsaro_report_ip_message))
    (state : Report3.corsaro_report_state) (addr issrc iplen : Z)
    (tags : option Report3.corsaro_packet_tags)
    (msg : Report3.corsaro_report_ip_message)
    (queue : list Report3.corsaro_report_ip_message)
    (state' : Report3.corsaro_report_state)
    (queues' : list (list Report3.corsaro_report_ip_message)) :
  Report3.nextmsg state !! Spec.tracker_of tracker_count addr = Some msg →
  queues !! Spec.tracker_of tracker_count addr = Some queue →
  0 ≤ Report3.bodycount msg < Report3.REPORT_BATCH_SIZE →
  Report3.update_metrics_for_address maxtags p1 p2 p3 fresh tracker_count
    queues state addr issrc iplen tags = Some (state', queues') →
  Report3.REPORT_BATCH_SIZE = 500 ∧
  if Report3.bodycount msg + 1 <? 500 then
    queues' = queues ∧
    Spec.pending_count state' (Spec.tracker_of tracker_count addr)
      = Some (Report3.bodycount msg + 1)
  else
    (∃ sent,
       queues' = <[Spec.tracker_of tracker_count addr := queue ++ [sent]]> queues
       ∧ Report3.bodycount sent = 500) ∧
    Spec.pending_count state' (Spec.tracker_of tracker_count addr) = Some 0.
Proof.
  intros Hmsg Hq Hcount Hup. split; [reflexivity|].
  exact (update_metrics_flush 500 eq_refl _ _ _ _ _ _ _ _ _ _ _ _ _ _ _ _
           Hmsg Hq Hcount Hup).
Qed.

Lemma C9_flush_at_batch_size_witness :
  ∃ state' queues',
    Report3.update_metrics_for_address 10 1 2 3 (replicate 500 Spec.blank_body) 4
      [[]; []; []; []] Spec.almost_full_state 0 1 40 None = Some (state', queues') ∧
    (∃ sent, queues' = <[0%nat := [] ++ [sent]]> [[]; []; []; []]
             ∧ Report3.bodycount sent = 500) ∧
    Spec.pending_count state' 0 = Some 0.
Proof.
  destruct (Report3.update_metrics_for_address 10 1 2 3
              (replicate 500 Spec.blank_body) 4 [[]; []; []; []] Spec.almost_full_state
              0 1 40 None) as [[state' queues']|] eqn:Hup;
    [|vm_compute in Hup; discriminate].
  exists state', queues'. split; [reflexivity|].
  refine (proj2 (C9_flush_at_batch_size 10 1 2 3 (replicate 500 Spec.blank_body) 4
            [[]; []; []; []] Spec.almost_full_state 0 1 40 None
            (Report3.mk_msg 2 0 0 499 (replicate 500 Spec.blank_body)) []
            state' queues' _ _ _ Hup)).
  - reflexivity.
  - reflexivity.
  - vm_compute. split; [discriminate | reflexivity].
Defined.

(** C9 as stated, with the threshold of 10,000 of report_internal.h, does
    not describe the processing thread of libcorsaro3: the message above is
    enqueued when its 500th update is added. *)
Lemma C9_counterexample :
  ¬ Spec.flushes_at ReportInternal.REPORT_BATCH_SIZE.
Proof.
  intros H.
  destruct (Report3.update_metrics_for_address 10 1 2 3
              (replicate 500 Spec.blank_body) 4 [[]; []; []; []] Spec.almost_full_state
              0 1 40 None) as [[state' queues']|] eqn:Hup;
    [|vm_compute in Hup; discriminate].
  specialize (H 10 1 2 3 (replicate 500 Spec.blank_body) 4 [[]; []; []; []]
                Spec.almost_full_state 0 1 40 None
                (Report3.mk_msg 2 0 0 499 (replicate 500 Spec.blank_body)) []
                state' queues' eq_refl eq_refl).
  assert (0 ≤ 499 < ReportInternal.REPORT_BATCH_SIZE) as Hc
    by (unfold ReportInternal.REPORT_BATCH_SIZE; lia).
  specialize (H Hc Hup). simpl in H.
  destruct H as [Hq _]. subst queues'.
  vm_compute in Hup. discriminate.
Qed.

(** ** The merge thread and halted trackers *)

Section Merger.

Import Report3 Spec PollSpec.

Lemma done_count_le (l : list Z) : (done_count l ≤ length l)%nat.
Proof. apply length_filter. Qed.

Lemma done_count_full (l : list Z) :
  done_count l = length l → Forall (λ x, x ≠ 0) l.
Proof.
  unfold done_count. induction l as [|x l IH]; [constructor|].
  rewrite filter_cons. destruct (decide (x ≠ 0)) as [Hx|Hx]; simpl.
  - intros [= H]. constructor; [done | by apply IH].
  - intros H. pose proof (length_filter (λ x, x ≠ 0) l). lia.
Qed.

Lemma done_count_all (l : list Z) :
  Forall (λ x, x ≠ 0) l → done_count l = length l.
Proof.
  unfold done_count. induction 1 as [|x l Hx _ IH]; [done|].
  rewrite filter_cons. destruct (decide (x ≠ 0)); [|done].
  cbn [length]. by rewrite IH.
Qed.

Lemma done_count_mark (l : list Z) (i : nat) :
  l !! i = Some 0 → done_count (<[i := 1]> l) = S (done_count l).
Proof.
  unfold done_count. revert i. induction l as [|x l IH]; intros [|i]; simpl;
    try done.
  - intros [= ->]. rewrite !filter_cons.
    destruct (decide (1 ≠ 0)); [|done]. by destruct (decide (0 ≠ 0)).
  - intros H. rewrite !filter_cons.
    destruct (decide (x ≠ 0)); simpl; by rewrite IH.
Qed.

Lemma uint8_succ (n : nat) :
  uint8 (uint8 (Z.of_nat n) + 1) = uint8 (Z.of_nat (S n)).
Proof.
  unfold uint8. rewrite Nat2Z.inj_succ. unfold Z.succ.
  by rewrite Zplus_mod_idemp_l.
Qed.

Variables (fin : Z) (outlabel : list Z) (tracker_count : Z) (halted : nat).

Local Abbreviation poll_ok := (PollSpec.poll_ok tracker_count halted).

Lemma marked_insert (l : list Z) (i j : nat) (st : merge_poll)
    (res : list corsaro_report_result) (total skip : Z) :
  marked st j →
  marked (mk_poll res (<[i := 1]> (trackers_done st)) total skip) j.
Proof.
  unfold marked. cbn [trackers_done]. intros Hj.
  destruct (decide (j = i)) as [->|Hne].
  - destruct (trackers_done st !! i) as [x|] eqn:Hx; [|done].
    by rewrite list_lookup_insert_eq by (by eapply lookup_lt_Some).
  - by rewrite list_lookup_insert_ne.
Qed.

Lemma marked_new (i : nat) (st : merge_poll)
    (res : list corsaro_report_result) (total skip : Z) :
  (i < length (trackers_done st))%nat →
  marked (mk_poll res (<[i := 1]> (trackers_done st)) total skip) i.
Proof.
  intros Hi. unfold marked. cbn [trackers_done].
  by rewrite list_lookup_insert_eq.
Qed.

(** One visit of a tracker: it fails at no sound view, keeps the marks,
    marks the tracker at a settled view, and marks the tracker that never
    shows a tally only together with [skipresult]. *)
Lemma poll_tracker_ok (st : merge_poll) (i : nat)
    (view : option corsaro_report_iptracker) :
  poll_ok st → (i < Z.to_nat tracker_count)%nat →
  sound_view fin view →
  (i = halted → no_tally_view fin view) →
  ∃ st',
    poll_tracker fin outlabel st i view = Some st' ∧ poll_ok st' ∧
    (∀ j, marked st j → marked st' j) ∧
    (settled_view fin view → marked st' i).
Proof.
  intros (Hlen & Htot & Hskip) Hi Hsound Hview. unfold poll_tracker.
  destruct (truthy (default 0 (trackers_done st !! i))) eqn:Hdone.
  { exists st. split; [done|]. split; [done|]. split; [done|]. by intros _. }
  destruct view as [t|].
  2:{ exists st. split; [done|]. split; [done|]. split; [done|].
      by intros (t & [=] & _). }
  destruct (Hsound t eq_refl) as [Hle Hres].
  destruct (Z.ltb_spec fin (lastresultts t)) as [|_]; [lia|].
  assert (trackers_done st !! i = Some 0) as Hzero.
  { destruct (trackers_done st !! i) as [x|] eqn:Hx.
    - simpl in Hdone. unfold truthy in Hdone.
      apply negb_false_iff, Z.eqb_eq in Hdone. by subst.
    - apply lookup_ge_None in Hx. lia. }
  assert (i < length (trackers_done st))%nat as Hilen by lia.
  destruct (Z.eqb_spec (lastresultts t) fin) as [Hfin|Hfin].
  - destruct (Hres Hfin) as [lastres ->]. cbn [mbind option_bind].
    assert (i ≠ halted) as Hne.
    { intros Heq. by destruct (Hview Heq t eq_refl). }
    eexists. split; [reflexivity|]. split; [|split].
    + split; [|split]; cbn [trackers_done totaldone skipresult].
      * by rewrite length_insert.
      * rewrite done_count_mark by done. rewrite Htot. apply uint8_succ.
      * unfold marked. cbn [trackers_done].
        rewrite list_lookup_insert_ne by done. exact Hskip.
    + intros j Hj. by apply (marked_insert (trackers_done st)).
    + intros _. by apply marked_new.
  - destruct (Z.eqb_spec (haltphase t) 2) as [Hhalt|Hhalt].
    + eexists. split; [reflexivity|]. split; [|split].
      * split; [|split]; cbn [trackers_done totaldone skipresult].
        -- by rewrite length_insert.
        -- rewrite done_count_mark by done. rewrite Htot. apply uint8_succ.
        -- done.
      * intros j Hj. by apply (marked_insert (trackers_done st)).
      * intros _. by apply marked_new.
    + exists st. split; [done|]. split; [done|]. split; [done|].
      intros (t' & [= <-] & [?|?]); done.
Qed.

Lemma poll_indices_ok (pass : list (option corsaro_report_iptracker))
    (idx : list nat) : ∀ st,
  poll_ok st → Forall (λ i, (i < Z.to_nat tracker_count)%nat) idx →
  (∀ i, sound_view fin (mjoin (pass !! i))) →
  no_tally_view fin (mjoin (pass !! halted)) →
  ∃ st',
    foldl (λ acc i, acc ≫= λ s,
             poll_tracker fin outlabel s i (mjoin (pass !! i)))
          (Some st) idx = Some st' ∧
    poll_ok st' ∧ (∀ j, marked st j → marked st' j) ∧
    (∀ i, i ∈ idx → settled_view fin (mjoin (pass !! i)) → marked st' i).
Proof.
  induction idx as [|i idx IH]; intros st Hok Hidx Hsound Hview.
  - exists st. split; [done|]. split; [done|]. split; [done|].
    intros i Hi. by apply elem_of_nil in Hi.
  - inversion Hidx as [|?? Hi Hrest]; subst.
    destruct (poll_tracker_ok st i (mjoin (pass !! i)) Hok Hi (Hsound i))
      as (st1 & Hp & Hok1 & Hmono1 & Hmark1); [by intros ->|].
    destruct (IH st1 Hok1 Hrest Hsound Hview)
      as (st' & Hfold & Hok' & Hmono & Hmark).
    exists st'. cbn [foldl mbind option_bind]. rewrite Hp.
    split; [exact Hfold|]. split; [exact Hok'|]. split.
    + intros j Hj. by apply Hmono, Hmono1.
    + intros j Hj Hset. apply elem_of_cons in Hj as [->|Hj].
      * by apply Hmono, Hmark1.
      * by apply Hmark.
Qed.

Lemma poll_pass_ok (pass : list (option corsaro_report_iptracker))
    (st : merge_poll) :
  poll_ok st →
  (∀ i, sound_view fin (mjoin (pass !! i))) →
  no_tally_view fin (mjoin (pass !! halted)) →
  ∃ st',
    poll_pass fin outlabel tracker_count st pass = Some st' ∧
    poll_ok st' ∧ (∀ j, marked st j → marked st' j) ∧
    (∀ i, (i < Z.to_nat tracker_count)%nat →
          settled_view fin (mjoin (pass !! i)) → marked st' i).
Proof.
  intros Hok Hsound Hview.
  destruct (poll_indices_ok pass (seq 0 (Z.to_nat tracker_count)) st Hok)
    as (st' & Hfold & Hok' & Hmono & Hmark); [|done|done|].
  { apply Forall_forall. intros i Hi. apply elem_of_seq in Hi. lia. }
  exists st'. split; [exact Hfold|]. split; [exact Hok'|].
  split; [exact Hmono|]. intros i Hi. apply Hmark, elem_of_seq. lia.
Qed.

(** When every tracker is marked, the loop is over. *)
Lemma all_marked_total (st : merge_poll) :
  tracker_count ≤ 255 → poll_ok st →
  (∀ i, (i < Z.to_nat tracker_count)%nat → marked st i) →
  tracker_count ≤ totaldone st.
Proof.
  intros Hn (Hlen & Htot & _) Hall.
  assert (Forall (λ x, x ≠ 0) (trackers_done st)) as Hnz.
  { apply Forall_lookup. intros i x Hx.
    pose proof (lookup_lt_Some _ _ _ Hx) as Hi.
    assert (i < Z.to_nat tracker_count)%nat as Hit by (rewrite <- Hlen; exact Hi).
    specialize (Hall i Hit). unfold marked in Hall.
    rewrite Hx in Hall. cbn in Hall. unfold truthy in Hall.
    intros ->. done. }
  rewrite Htot, (done_count_all _ Hnz), Hlen. unfold uint8.
  destruct (Z.le_gt_cases tracker_count 0).
  - rewrite Z2Nat.nonpos by done. change (Z.of_nat 0) with 0.
    rewrite Z.mod_0_l by lia. lia.
  - rewrite Z2Nat.id by lia. rewrite Z.mod_small; lia.
Qed.

Lemma poll_trackers_done
    (passes : list (list (option corsaro_report_iptracker))) : ∀ st,
  tracker_count ≤ 255 → poll_ok st → passes ≠ [] →
  (∀ pass i, pass ∈ passes → sound_view fin (mjoin (pass !! i))) →
  (∀ pass, pass ∈ passes → no_tally_view fin (mjoin (pass !! halted))) →
  (∀ i, (i < Z.to_nat tracker_count)%nat →
        marked st i
        ∨ ∃ pass, pass ∈ passes ∧ settled_view fin (mjoin (pass !! i))) →
  ∃ st',
    poll_trackers fin outlabel tracker_count st passes = PollDone st' ∧
    poll_ok st' ∧ tracker_count ≤ totaldone st'.
Proof.
  induction passes as [|pass passes IH]; intros st Hn Hok Hne Hsound Hview Hall;
    [done|].
  destruct (poll_pass_ok pass st Hok) as (st1 & Hp & Hok1 & Hmono & Hmark).
  { intros i. apply Hsound, list_elem_of_here. }
  { apply Hview, list_elem_of_here. }
  cbn [poll_trackers]. rewrite Hp.
  destruct (Z.ltb_spec (totaldone st1) tracker_count) as [Hlt|Hge].
  2:{ by exists st1. }
  assert (∀ i, (i < Z.to_nat tracker_count)%nat →
            marked st1 i
            ∨ ∃ pass', pass' ∈ passes
                       ∧ settled_view fin (mjoin (pass' !! i))) as Hall1.
  { intros i Hi. destruct (Hall i Hi) as [Hm|(pass' & Hin & Hset)].
    - left. by apply Hmono.
    - apply elem_of_cons in Hin as [->|Hin].
      + left. by apply Hmark.
      + right. eauto. }
  apply IH; try done.
  - intros ->. pose proof (all_marked_total st1 Hn Hok1) as Htotal.
    assert (tracker_count ≤ totaldone st1); [|lia].
    apply Htotal. intros i Hi.
    destruct (Hall1 i Hi) as [|(pass' & Hin & _)]; [done|].
    by apply elem_of_nil in Hin.
  - intros pass' i Hin. by apply Hsound, list_elem_of_further.
  - intros pass' Hin. by apply Hview, list_elem_of_further.
Qed.

(** Once the loop is over, the tracker that never showed a tally has been
    marked, which marks the result as skipped. *)
Lemma poll_done_skips (st : merge_poll) :
  (halted < Z.to_nat tracker_count)%nat →
  poll_ok st → tracker_count ≤ totaldone st → skipresult st = 1.
Proof.
  intros Hh (Hlen & Htot & Hskip) Hge. apply Hskip.
  pose proof (done_count_le (trackers_done st)) as Hle.
  assert (0 ≤ uint8 (Z.of_nat (done_count (trackers_done st)))
          ≤ Z.of_nat (done_count (trackers_done st))) as Hmod.
  { unfold uint8. split; [apply Z.mod_pos_bound; lia|].
    apply Z.mod_le; lia. }
  assert (done_count (trackers_done st) = length (trackers_done st)) as Hfull
    by lia.
  apply done_count_full in Hfull.
  destruct (lookup_lt_is_Some_2 (trackers_done st) halted) as [x Hx]; [lia|].
  unfold marked. rewrite Hx. simpl. unfold truthy.
  rewrite Forall_forall in Hfull. specialize (Hfull x).
  destruct (Z.eqb_spec x 0) as [->|]; [|done].
  exfalso. apply Hfull; [|done]. by eapply list_elem_of_lookup_2.
Qed.

Lemma poll_ok_init :
  poll_ok (mk_poll [] (replicate (Z.to_nat tracker_count) 0) 0 0).
Proof.
  repeat split; simpl.
  - by rewrite length_replicate.
  - unfold done_count.
    assert (filter (λ x, x ≠ 0) (replicate (Z.to_nat tracker_count) 0) = [])
      as ->; [|done].
    induction (Z.to_nat tracker_count) as [|n IH]; [done|].
    simpl. rewrite filter_cons. by destruct (decide (0 ≠ 0)).
  - unfold marked. cbn [trackers_done]. intros H.
    destruct (replicate (Z.to_nat tracker_count) 0 !! halted) as [x|] eqn:Hx;
      [|done].
    apply lookup_replicate in Hx as [-> _]. done.
Qed.

Lemma merge_skips_halted (w : avro_writer)
    (passes : list (list (option corsaro_report_iptracker))) :
  (halted < Z.to_nat tracker_count)%nat → tracker_count ≤ 255 →
  (∀ pass i, pass ∈ passes → sound_view fin (mjoin (pass !! i))) →
  (∀ i, (i < Z.to_nat tracker_count)%nat →
        ∃ pass, pass ∈ passes ∧ settled_view fin (mjoin (pass !! i))) →
  (∀ pass, pass ∈ passes → no_tally_view fin (mjoin (pass !! halted))) →
  corsaro_report_merge_interval_results w false outlabel tracker_count fin
    passes = MergeReturned 0 [].
Proof.
  intros Hh Hn Hsound Hset Hview.
  unfold corsaro_report_merge_interval_results.
  destruct (poll_trackers_done passes
              (mk_poll [] (replicate (Z.to_nat tracker_count) 0) 0 0) Hn
              poll_ok_init) as (st & -> & Hok & Hge); try done.
  - intros ->. destruct (Hset halted Hh) as (pass & Hin & _).
    by apply elem_of_nil in Hin.
  - intros i Hi. right. by apply Hset.
  - by rewrite (poll_done_skips st Hh Hok Hge).
Qed.

End Merger.

(** C7. If a tracker has halted ([haltphase] 2) without producing the
    tally of the interval being merged, the merge of that interval returns
    0 (success) without handing any row to the Avro writer, whatever the
    other trackers delivered and whatever the writer would do. The
    tracker may be seen running, or with its lock busy, before it is seen
    halted; what makes the polling loop end is that every tracker is seen
    under its lock, at some pass, with the tally of the interval or
    halted. The views are those that the assertion of the loop accepts
    (no result later than the interval, a tally where the interval is
    shown), and there are at most 255 trackers, the most that the counter
    of the loop can count. *)
Theorem C7_halted_tracker_suppresses_output
    (w : Report3.avro_writer) (outlabel : list Z) (tracker_count fin : Z)
    (halted : nat)
    (passes : list (list (option Report3.corsaro_report_iptracker))) :
  (halted < Z.to_nat tracker_count)%nat → tracker_count ≤ 255 →
  (∀ pass i, pass ∈ passes → PollSpec.sound_view fin (mjoin (pass !! i))) →
  (∀ i, (i < Z.to_nat tracker_count)%nat →
        ∃ pass, pass ∈ passes
                ∧ PollSpec.settled_view fin (mjoin (pass !! i))) →
  (∀ pass, pass ∈ passes →
           PollSpec.no_tally_view fin (mjoin (pass !! halted))) →
  Report3.corsaro_report_merge_interval_results w false outlabel tracker_count
    fin passes = Report3.MergeReturned 0 [].
Proof. apply merge_skips_halted. Qed.

Lemma C7_halted_tracker_suppresses_output_witness :
  Report3.corsaro_report_merge_interval_results
    (Report3.mk_writer true true true (λ _, 0)) false [] 4 100
    PollSpec.passes_100
  = Report3.MergeReturned 0 [].
Proof.
  apply (C7_halted_tracker_suppresses_output _ [] 4 100 2%nat
           PollSpec.passes_100).
  - vm_compute. lia.
  - lia.
  - intros pass i Hin t Hview.
    apply elem_of_cons in Hin as [->|Hin];
      [|apply list_elem_of_singleton in Hin as ->];
      destruct i as [|[|[|[|i]]]]; cbn in Hview; try discriminate;
      injection Hview as <-; cbn; split; try lia; try (intros _; eauto);
      intros; discriminate.
  - intros i Hi.
    exists [Some PollSpec.ready_100; Some PollSpec.ready_100;
            Some PollSpec.gone_40; Some PollSpec.ready_100].
    split; [apply list_elem_of_further, list_elem_of_here|].
    destruct i as [|[|[|[|i]]]]; [| | | |vm_compute in Hi; lia];
      eexists; (split; [reflexivity|]); cbn; auto.
  - intros pass Hin t Hview.
    apply elem_of_cons in Hin as [->|Hin];
      [|apply list_elem_of_singleton in Hin as ->];
      cbn in Hview; injection Hview as <-; cbn; lia.
Defined.

(** ** Completion of intervals *)

Section Outstanding.

Import Report3 Spec.

Variable n : Z.
Hypothesis n_uint8 : 0 ≤ n ≤ 255.

Lemma out_interval_ok_mono evs evs' o :
  (∀ ev, ev ∈ evs → ev ∈ evs') →
  out_interval_ok n evs o → out_interval_ok n evs' o.
Proof.
  intros Hsub (Hlen & Hcnt & Hflag). split; [done|]. split; [done|].
  intros s x Hlk Hnz. destruct (Hflag s x Hlk Hnz) as (Hlt & ev & Hev & Hint).
  eauto.
Qed.

Lemma record_report_ok evs ev o s :
  0 ≤ s < n → ev ∈ evs → interval_end_from (interval_ts o) s ev →
  out_interval_ok n evs o → out_interval_ok n evs (record_report o s).
Proof.
  intros Hs Hev Hint (Hlen & Hcnt & Hflag). unfold record_report.
  destruct (reports_recvd o !! Z.to_nat s) as [x|] eqn:Hx; simpl;
    [|apply lookup_ge_None in Hx; lia].
  destruct (Z.eqb_spec x 0) as [->|]; [|done].
  split; [|split]; simpl.
  - by rewrite length_insert.
  - unfold counted_once in *. simpl. rewrite done_count_mark by done.
    rewrite Hcnt. apply uint8_succ.
  - intros s' x' Hlk Hnz. destruct (decide (s' = Z.to_nat s)) as [->|Hne].
    + split; [lia|]. exists ev. split; [done|]. by rewrite Z2Nat.id by lia.
    + rewrite list_lookup_insert_ne in Hlk by done. by eapply Hflag.
Qed.

Lemma new_out_interval_ok evs ev ts s :
  0 ≤ s < n → ev ∈ evs → interval_end_from ts s ev →
  out_interval_ok n evs (new_out_interval ts s).
Proof.
  intros Hs Hev Hint. unfold new_out_interval.
  assert (replicate 256 0 !! Z.to_nat s = Some 0) as Hz
    by (apply lookup_replicate_2; lia).
  split; [|split]; cbn [reports_recvd reports_total interval_ts].
  - by rewrite length_insert, length_replicate.
  - unfold counted_once. cbn [reports_recvd reports_total].
    rewrite done_count_mark by done.
    assert (done_count (replicate 256 0) = 0%nat) as -> by (by vm_compute).
    done.
  - intros s' x' Hlk Hnz. destruct (decide (s' = Z.to_nat s)) as [->|Hne].
    + split; [lia|]. exists ev. split; [done|]. by rewrite Z2Nat.id by lia.
    + rewrite list_lookup_insert_ne in Hlk by done.
      apply lookup_replicate in Hlk as [-> _]. done.
Qed.

(** The search loop keeps the entries sound; when it reports completion,
    the entry of the interval holds [limit] reports. *)
Lemma scan_outstanding_ok evs ev outl ts limit s :
  0 ≤ s < n → ev ∈ evs → interval_end_from ts s ev →
  Forall (out_interval_ok n evs) outl →
  match scan_outstanding outl ts limit s with
  | ScanComplete l =>
    Forall (out_interval_ok n evs) l ∧
    ∃ o, o ∈ l ∧ interval_ts o = ts ∧ reports_total o = limit
  | ScanWaiting l => Forall (out_interval_ok n evs) l
  | ScanNotFound => True
  end.
Proof.
  intros Hs Hev Hint. induction outl as [|o outl IH]; intros Hall; simpl; [done|].
  inversion Hall as [|?? Ho Hrest]; subst.
  destruct (Z.eqb_spec (interval_ts o) ts) as [Hts|Hts].
  - assert (out_interval_ok n evs (record_report o s)) as Ho'.
    { apply (record_report_ok evs ev); [done..| |done]. by rewrite Hts. }
    destruct (Z.eqb_spec (reports_total (record_report o s)) limit) as [Hl|Hl].
    + split; [by constructor|]. exists (record_report o s).
      split; [by left|]. split; [|done].
      unfold record_report. by destruct (_ =? 0).
    + by constructor.
  - specialize (IH Hrest).
    destruct (scan_outstanding outl ts limit s) as [l|l|].
    + destruct IH as (Hl & o' & Ho' & ?). split; [by constructor|].
      exists o'. split; [by right|done].
    + by constructor.
    + done.
Qed.

Lemma pop_until_ok evs outl toret :
  Forall (out_interval_ok n evs) outl →
  Forall (out_interval_ok n evs) (pop_until outl toret).
Proof.
  induction outl as [|o outl IH]; intros Hall; simpl; [done|].
  inversion Hall; subst. destruct (interval_ts o =? toret); auto.
Qed.

Lemma push_new_interval_ok evs ev outl ts s l :
  0 ≤ s < n → ev ∈ evs → interval_end_from ts s ev →
  Forall (out_interval_ok n evs) outl →
  push_new_interval outl ts s = Some l →
  Forall (out_interval_ok n evs) l.
Proof.
  intros Hs Hev Hint Hall. unfold push_new_interval.
  pose proof (new_out_interval_ok evs ev ts s Hs Hev Hint) as Hnew.
  destruct (last outl) as [o|].
  - destruct (interval_ts o <? ts); [|done]. intros [= <-].
    apply Forall_app. split; [done|]. by constructor.
  - intros [= <-]. by constructor.
Qed.

(** A sound entry whose total equals the number of configured senders has
    been reported to by every one of them. *)
Lemma complete_entry_all_senders evs o :
  out_interval_ok n evs o → reports_total o = n →
  ∀ s, 0 ≤ s < n →
    ∃ ev, ev ∈ evs ∧ interval_end_from (interval_ts o) s ev.
Proof.
  intros (Hlen & Hcnt & Hflag) Htot s Hs.
  set (flags := reports_recvd o) in *.
  set (k := Z.to_nat n).
  assert (Forall (λ x, x = 0) (drop k flags)) as Hdrop.
  { apply Forall_forall. intros x Hx.
    apply list_elem_of_lookup in Hx as [i Hi]. rewrite lookup_drop in Hi.
    destruct (Z.eq_dec x 0) as [|Hx0]; [done|].
    destruct (Hflag _ _ Hi Hx0) as [Hlt _]. lia. }
  assert (done_count flags = done_count (take k flags)) as Hcount.
  { unfold done_count. rewrite <- (take_drop k flags) at 1.
    rewrite filter_app, length_app.
    assert (filter (λ x, x ≠ 0) (drop k flags) = []) as ->; [|simpl; lia].
    clear -Hdrop. induction (drop k flags) as [|x l IH]; [done|].
    inversion Hdrop; subst. rewrite filter_cons.
    destruct (decide (0 ≠ 0)); [done|]. by apply IH. }
  pose proof (done_count_le (take k flags)) as Hle.
  rewrite length_take in Hle.
  unfold counted_once in Hcnt. fold flags in Hcnt.
  rewrite Hcnt, Hcount in Htot. unfold uint8 in Htot.
  rewrite Z.mod_small in Htot by lia.
  assert (done_count (take k flags) = length (take k flags)) as Hfull
    by (rewrite length_take; lia).
  apply done_count_full in Hfull.
  destruct (lookup_lt_is_Some_2 (take k flags) (Z.to_nat s)) as [x Hx];
    [rewrite length_take; lia|].
  rewrite Forall_forall in Hfull.
  assert (x ≠ 0) as Hx0 by (apply Hfull; by eapply list_elem_of_lookup_2).
  rewrite lookup_take_lt in Hx by lia.
  destruct (Hflag _ _ Hx Hx0) as (_ & ev & Hev & Hint).
  exists ev. split; [done|]. by rewrite Z2Nat.id in Hint by lia.
Qed.

Lemma handle_message_ok evs track msg track' :
  tracker_ok n evs track → 0 ≤ sender msg < n →
  handle_message track msg = Some track' →
  tracker_ok n (evs ++ [Deliver msg]) track' ∧
  (lastresultts track' ≠ lastresultts track →
   msgtype msg = CORSARO_IP_MESSAGE_INTERVAL ∧
   lastresultts track' = timestamp msg ∧
   lastresult track' = Some (currentresult track) ∧
   ∀ s, 0 ≤ s < n →
     ∃ ev, ev ∈ evs ++ [Deliver msg] ∧ interval_end_from (timestamp msg) s ev).
Proof.
  intros [Hn Hall] Hs.
  assert (Forall (out_interval_ok n (evs ++ [Deliver msg])) (outstanding track))
    as Hall'.
  { eapply Forall_impl; [exact Hall|]. intros o. apply out_interval_ok_mono.
    intros ev Hev. apply elem_of_app. by left. }
  assert (Deliver msg ∈ evs ++ [Deliver msg]) as Hin
    by (apply elem_of_app; right; by left).
  unfold handle_message.
  destruct (Z.eqb_spec (msgtype msg) CORSARO_IP_MESSAGE_HALT).
  { destruct (length (outstanding track) =? 0)%nat; intros [= <-];
      (split; [by split|done]). }
  destruct (Z.eqb_spec (msgtype msg) CORSARO_IP_MESSAGE_INTERVAL) as [Hi|Hi].
  - destruct (Z.eqb_spec (timestamp msg) 0);
      [intros [= <-]; split; [by split|done]|].
    destruct (Z.leb_spec (timestamp msg) (lastresultts track));
      [intros [= <-]; split; [by split|done]|].
    assert (interval_end_from (timestamp msg) (sender msg) (Deliver msg))
      as Hint by done.
    unfold update_outstanding.
    pose proof (scan_outstanding_ok _ _ (outstanding track) (timestamp msg)
                  (sourcethreads track) (sender msg) Hs Hin Hint Hall') as Hscan.
    destruct (scan_outstanding _ _ _ _) as [l|l|].
    + destruct Hscan as (Hl & o & Ho & Hts & Htot).
      destruct (timestamp msg >? 0).
      * destruct (Z.eqb_spec (timestamp msg) 0); [done|].
        destruct (lastresult track); [done|]. intros [= <-].
        split; [split; [done|]; simpl; by apply pop_until_ok|].
        intros _. simpl. repeat split; [done|].
        intros s Hs'. rewrite <- Hts.
        apply (complete_entry_all_senders _ o); [|congruence|done].
        rewrite Forall_forall in Hl. by apply Hl.
      * destruct (push_new_interval l _ _) as [l'|] eqn:Hpush; [|done].
        simpl. intros [= <-]. split; [|done]. split; [done|]. simpl.
        by eapply push_new_interval_ok.
    + simpl. intros [= <-]. split; [by split|done].
    + destruct (push_new_interval _ _ _) as [l'|] eqn:Hpush; [|done].
      simpl. intros [= <-]. split; [|done]. split; [done|]. simpl.
      by eapply push_new_interval_ok.
  - rewrite process_update_routing.
    destruct (_ && _).
    + destruct (apply_bodies _ _); simpl; [|done]. intros [= <-].
      split; [by split|done].
    + destruct (apply_bodies _ _); simpl; [|done]. intros [= <-].
      split; [by split|done].
Qed.

Lemma tracker_step_ok evs track ev track' :
  tracker_ok n evs track → senders_configured n [ev] →
  tracker_step track ev = Some track' →
  tracker_ok n (evs ++ [ev]) track'.
Proof.
  intros Hok Hev. destruct ev as [msg|fin]; simpl.
  - inversion Hev as [|?? Hs _]; subst.
    destruct (haltphase track =? 2).
    + intros [= <-]. destruct Hok as [Hn Hall]. split; [done|].
      eapply Forall_impl; [exact Hall|]. intros o. apply out_interval_ok_mono.
      intros ev Hin. apply elem_of_app. by left.
    + intros H. by apply (handle_message_ok evs) in H as [? _].
  - unfold merger_collect.
    assert (tracker_ok n (evs ++ [MergerVisit fin]) track) as Hok'.
    { destruct Hok as [Hn Hall]. split; [done|].
      eapply Forall_impl; [exact Hall|]. intros o. apply out_interval_ok_mono.
      intros ev Hin. apply elem_of_app. by left. }
    destruct (fin <? lastresultts track); [done|].
    destruct (lastresultts track =? fin); [|by intros [= <-]].
    destruct (lastresult track); [|done]. intros [= <-].
    destruct Hok' as [? ?]. by split.
Qed.

Lemma tracker_run_ok evs : ∀ evs0 track track',
  tracker_ok n evs0 track → senders_configured n evs →
  tracker_run track evs = Some track' →
  tracker_ok n (evs0 ++ evs) track'.
Proof.
  induction evs as [|ev evs IH]; intros evs0 track track' Hok Hcfg; simpl.
  - intros [= <-]. by rewrite app_nil_r.
  - inversion Hcfg as [|?? Hev Hrest]; subst.
    destruct (tracker_step track ev) as [t1|] eqn:Hstep; [|done].
    intros Hrun. rewrite (cons_middle ev evs0 evs), app_assoc.
    eapply IH; [|done..].
    eapply tracker_step_ok; [done| |done]. by constructor.
Qed.

Lemma init_iptracker_ok : tracker_ok n [] (init_iptracker n).
Proof. split; [done|]. constructor. Qed.

(** Publication of a tally implies interval ends from all senders. *)
Lemma publish_after_all_senders evs ev track1 track2 :
  senders_configured n (evs ++ [ev]) →
  tracker_run (init_iptracker n) evs = Some track1 →
  tracker_step track1 ev = Some track2 →
  lastresultts track2 ≠ lastresultts track1 →
  lastresult track2 = Some (currentresult track1) ∧
  Forall counted_once (outstanding track1) ∧
  ∀ s, 0 ≤ s < n →
    ∃ ev', ev' ∈ evs ++ [ev] ∧ interval_end_from (lastresultts track2) s ev'.
Proof.
  intros Hcfg Hrun Hstep Hchg.
  apply Forall_app in Hcfg as [Hcfg1 Hcfg2].
  pose proof (tracker_run_ok evs [] _ _ init_iptracker_ok Hcfg1 Hrun) as Hok.
  simpl in Hok.
  assert (Forall counted_once (outstanding track1)) as Hcnt.
  { destruct Hok as [_ Hall]. eapply Forall_impl; [exact Hall|].
    by intros o (_ & ? & _). }
  destruct ev as [msg|fin]; simpl in Hstep.
  - inversion Hcfg2 as [|?? Hs _]; subst.
    destruct (haltphase track1 =? 2); [by injection Hstep as <-|].
    apply (handle_message_ok evs) in Hstep as [_ Hpub]; [|done..].
    destruct (Hpub Hchg) as (_ & Hts & Hres & Hall).
    rewrite Hts. done.
  - exfalso. apply Hchg. unfold merger_collect in Hstep.
    destruct (fin <? lastresultts track1); [done|].
    destruct (lastresultts track1 =? fin); [|by injection Hstep as <-].
    destruct (lastresult track1); [|done]. by injection Hstep as <-.
Qed.

End Outstanding.

(** C4. A tracker fed by [n] processing threads (identifiers [0 .. n-1])
    changes the timestamp of its last complete tally to [T], putting the
    current tally in the last-result slot, only when an interval-end message
    for [T] has been read from every one of the [n] threads; and in every
    outstanding interval the total is the number of distinct senders
    recorded, so no sender is counted twice. *)
Theorem C4_publish_only_after_all_senders
    (n : Z) (evs : list Report3.tracker_event) (ev : Report3.tracker_event)
    (track1 track2 : Report3.corsaro_report_iptracker) :
  0 ≤ n ≤ 255 →
  Spec.senders_configured n (evs ++ [ev]) →
  Report3.tracker_run (Report3.init_iptracker n) evs = Some track1 →
  Report3.tracker_step track1 ev = Some track2 →
  Report3.lastresultts track2 ≠ Report3.lastresultts track1 →
  Report3.lastresult track2 = Some (Report3.currentresult track1) ∧
  Forall Spec.counted_once (Report3.outstanding track1) ∧
  ∀ s, 0 ≤ s < n →
    ∃ ev', ev' ∈ evs ++ [ev] ∧
           Spec.interval_end_from (Report3.lastresultts track2) s ev'.
Proof. intros Hn. by apply publish_after_all_senders. Qed.

Lemma C4_publish_only_after_all_senders_witness :
  let i0 := Report3.Deliver (Report3.mk_msg 1 0 100 0 []) in
  let i1 := Report3.Deliver (Report3.mk_msg 1 1 100 0 []) in
  let track1 :=
    Report3.mk_tracker 0 2 0 ∅ ∅ None ∅ ∅ [Report3.new_out_interval 100 0] in
  let track2 := Report3.mk_tracker 100 2 0 ∅ ∅ (Some ∅) ∅ ∅ [] in
  Report3.tracker_run (Report3.init_iptracker 2) [i0] = Some track1 ∧
  Report3.tracker_step track1 i1 = Some track2 ∧
  ∀ s, 0 ≤ s < 2 →
    ∃ ev', ev' ∈ [i0] ++ [i1] ∧ Spec.interval_end_from 100 s ev'.
Proof.
  intros i0 i1 track1 track2.
  assert (Report3.tracker_run (Report3.init_iptracker 2) [i0] = Some track1)
    as Hrun by (vm_compute; reflexivity).
  assert (Report3.tracker_step track1 i1 = Some track2) as Hstep
    by (vm_compute; reflexivity).
  split; [exact Hrun|]. split; [exact Hstep|].
  refine (proj2 (proj2 (C4_publish_only_after_all_senders 2 [i0] i1 track1 track2
                          _ _ Hrun Hstep _))).
  - lia.
  - repeat constructor; simpl; lia.
  - simpl. lia.
Defined.

(** ** Port range bitmaps *)

Section PortBitmaps.

Import ReportInternal ReportConfig PortSpec.

Lemma byte_mask_bit (a b j : Z) :
  0 ≤ a < 8 → 0 ≤ b < 8 → 0 ≤ j < 8 →
  Z.testbit (byte_mask a b) (7 - j) = (a <=? j) && (j <=? 7 - b).
Proof.
  intros Ha Hb Hj.
  assert (a = 0 ∨ a = 1 ∨ a = 2 ∨ a = 3 ∨ a = 4 ∨ a = 5 ∨ a = 6 ∨ a = 7)
    as Ha' by lia.
  assert (b = 0 ∨ b = 1 ∨ b = 2 ∨ b = 3 ∨ b = 4 ∨ b = 5 ∨ b = 6 ∨ b = 7)
    as Hb' by lia.
  assert (j = 0 ∨ j = 1 ∨ j = 2 ∨ j = 3 ∨ j = 4 ∨ j = 5 ∨ j = 6 ∨ j = 7)
    as Hj' by lia.
  clear Ha Hb Hj.
  repeat (destruct Ha' as [->|Ha']); try subst a;
    repeat (destruct Hb' as [->|Hb']); try subst b;
    repeat (destruct Hj' as [->|Hj']); try subst j; reflexivity.
Qed.

Lemma range_byte_mask (index first last : Z) :
  0 ≤ first → first / 8 ≤ index → index * 8 ≤ last →
  range_byte index first last
  = byte_mask (Z.max 0 (first - index * 8)) (Z.max 0 (index * 8 + 7 - last)).
Proof.
  intros Hf Hidx Hl. unfold range_byte, byte_mask.
  pose proof (Z.mul_div_le first 8 ltac:(lia)).
  pose proof (Z.mul_succ_div_gt first 8 ltac:(lia)).
  destruct (Z.gtb_spec first (index * 8)).
  - replace (Z.max 0 (first - index * 8)) with (first - index * 8) by lia.
    destruct (Z.geb_spec (first - index * 8) 8); [lia|].
    destruct (Z.gtb_spec (first - index * 8) 0); [|lia].
    destruct (Z.ltb_spec last (index * 8 + 7)).
    + replace (Z.max 0 (index * 8 + 7 - last)) with (index * 8 + 7 - last) by lia.
      destruct (Z.geb_spec (index * 8 + 7 - last) 8); [lia|].
      destruct (Z.gtb_spec (index * 8 + 7 - last) 0); [done|lia].
    + replace (Z.max 0 (index * 8 + 7 - last)) with 0 by lia. done.
  - replace (Z.max 0 (first - index * 8)) with 0 by lia. simpl (0 >? 0).
    cbv iota.
    destruct (Z.ltb_spec last (index * 8 + 7)).
    + replace (Z.max 0 (index * 8 + 7 - last)) with (index * 8 + 7 - last) by lia.
      destruct (Z.geb_spec (index * 8 + 7 - last) 8); [lia|].
      destruct (Z.gtb_spec (index * 8 + 7 - last) 0); [done|lia].
    + replace (Z.max 0 (index * 8 + 7 - last)) with 0 by lia. done.
Qed.

(** Bit of port [index * 8 + j] in the byte added for [first..last]. *)
Lemma range_byte_bit (index first last j : Z) :
  0 ≤ first → first / 8 ≤ index → index * 8 ≤ last → 0 ≤ j < 8 →
  Z.testbit (range_byte index first last) (7 - j) = true
  ↔ first ≤ index * 8 + j ≤ last.
Proof.
  intros Hf Hidx Hl Hj. rewrite range_byte_mask by done.
  pose proof (Z.mul_succ_div_gt first 8 ltac:(lia)).
  rewrite byte_mask_bit by lia.
  rewrite andb_true_iff, !Z.leb_le. lia.
Qed.

Lemma uint8_testbit (x k : Z) :
  0 ≤ k < 8 → Z.testbit (uint8 x) k = Z.testbit x k.
Proof. intros Hk. unfold uint8. apply Z.mod_pow2_bits_low. lia. Qed.

Lemma port_bit_insert (arr : list Z) (index p x : Z) :
  0 ≤ index → (Z.to_nat index < length arr)%nat → 0 ≤ p →
  port_bit (<[Z.to_nat index :=
               uint8 (Z.lor (default 0 (arr !! Z.to_nat index)) x)]> arr) p
  = if p / 8 =? index
    then port_bit arr p || Z.testbit x (7 - p mod 8)
    else port_bit arr p.
Proof.
  intros Hi Hlen Hp. unfold port_bit.
  pose proof (Z.mod_pos_bound p 8 ltac:(lia)).
  assert (0 ≤ p / 8) by (apply Z.div_pos; lia).
  destruct (Z.eqb_spec (p / 8) index) as [->|Hne].
  - rewrite list_lookup_insert_eq by done. simpl.
    rewrite uint8_testbit by lia. by rewrite Z.lor_spec.
  - rewrite list_lookup_insert_ne by lia. done.
Qed.

(** The loop over the bytes sets exactly the bits of [first..last] from
    byte [index] on. *)
Lemma set_port_bits_spec (first last : Z) (n : nat) : ∀ (index : Z) (arr : list Z),
  0 ≤ first → first ≤ last → last ≤ 65535 →
  first / 8 ≤ index → index ≤ 8192 → n = Z.to_nat (8192 - index) →
  length arr = Z.to_nat 8192 →
  length (set_port_bits n index first last arr) = Z.to_nat 8192 ∧
  ∀ p, 0 ≤ p ≤ 65535 →
    (port_bit (set_port_bits n index first last arr) p = true
     ↔ port_bit arr p = true ∨ (index * 8 ≤ p ∧ first ≤ p ≤ last)).
Proof.
  induction n as [|n IH]; intros index arr Hf Hfl Hl Hidx Hmax Hn Hlen.
  - simpl. split; [done|]. intros p Hp. assert (index = 8192) by lia.
    intuition lia.
  - simpl. destruct (Z.gtb_spec (index * 8) last) as [Hgt|Hle].
    + split; [done|]. intros p Hp. intuition lia.
    + assert (0 ≤ index) by (assert (0 ≤ first / 8) by (apply Z.div_pos; lia); lia).
      destruct (IH (index + 1)
                  (<[Z.to_nat index :=
                       uint8 (Z.lor (default 0 (arr !! Z.to_nat index))
                                (range_byte index first last))]> arr))
        as [Hlen' Hbits]; try lia.
      { by rewrite length_insert. }
      split; [done|]. intros p Hp. rewrite Hbits by done.
      rewrite port_bit_insert by lia.
      pose proof (Z.mod_pos_bound p 8 ltac:(lia)).
      pose proof (Z.div_mod p 8 ltac:(lia)) as Hdm.
      destruct (Z.eqb_spec (p / 8) index) as [Heq|Hne].
      * rewrite orb_true_iff.
        rewrite (range_byte_bit index first last (p mod 8)) by lia.
        intuition lia.
      * assert (p / 8 < index ∨ index < p / 8) as [?|?] by lia; intuition lia.
Qed.

Lemma port_bit_zeros (p : Z) :
  0 ≤ p ≤ 65535 → port_bit (replicate (Z.to_nat 8192) 0) p = false.
Proof.
  intros Hp. unfold port_bit.
  assert (0 ≤ p / 8 < 8192)
    by (split; [apply Z.div_pos; lia | apply Z.div_lt_upper_bound; lia]).
  rewrite lookup_replicate_2 by lia. simpl. apply Z.bits_0.
Qed.

Lemma port_bit_ones (p : Z) :
  0 ≤ p ≤ 65535 → port_bit (replicate (Z.to_nat 8192) 255) p = true.
Proof.
  intros Hp. unfold port_bit.
  assert (0 ≤ p / 8 < 8192)
    by (split; [apply Z.div_pos; lia | apply Z.div_lt_upper_bound; lia]).
  rewrite lookup_replicate_2 by lia. simpl.
  pose proof (Z.mod_pos_bound p 8 ltac:(lia)).
  change 255 with (Z.ones 8). apply Z.ones_spec_low. lia.
Qed.

(** The bounds read by the parser against the accepted range of an item. *)
Lemma item_bounds_effective (node : range_node) :
  node_wf node →
  match item_bounds node with
  | Some (first, last) =>
    if last <? first then effective_range node = None
    else effective_range node = Some (first, last) ∧
         0 ≤ first ∧ first ≤ last ∧ last ≤ 65535
  | None => effective_range node = None
  end.
Proof.
  unfold INVALID_PORT, strtoul_wf.
  destruct node as [|r|r1 r2]; simpl; [done| |].
  - intros Hwf. unfold strtoul_wf in Hwf. unfold strtoport, INVALID_PORT.
    destruct (Z.eqb_spec (ul_errno r) 0); simpl; [|done].
    destruct (Z.gtb_spec (ul_value r) 65535); simpl.
    + destruct (Z.leb_spec (ul_value r) 65535); [lia|done].
    + destruct (Z.eqb_spec (ul_value r) 4294967295); [lia|].
      destruct (Z.ltb_spec (ul_value r) (ul_value r)); [lia|].
      destruct (Z.leb_spec (ul_value r) 65535); [|lia]. split; [done|lia].
  - intros [Hwf1 Hwf2]. unfold strtoul_wf in Hwf1, Hwf2.
    unfold strtoport, INVALID_PORT.
    destruct (Z.eqb_spec (ul_errno r1) 0); simpl; [|done].
    destruct (Z.gtb_spec (ul_value r1) 65535); simpl.
    + destruct (Z.leb_spec (ul_value r1) 65535); [lia|done].
    + destruct (Z.eqb_spec (ul_value r1) 4294967295); [lia|].
      destruct (Z.leb_spec (ul_value r1) 65535); [|lia]. simpl.
      destruct (Z.eqb_spec (ul_errno r2) 0); simpl; [|done].
      destruct (Z.gtb_spec (ul_value r2) 65535); simpl.
      * replace (Z.min (ul_value r2) 65535) with 65535 by lia.
        destruct (Z.ltb_spec 65535 (ul_value r1)); [lia|].
        destruct (Z.leb_spec (ul_value r1) 65535); [|lia].
        split; [done|lia].
      * destruct (Z.eqb_spec (ul_value r2) 4294967295); [lia|].
        replace (Z.min (ul_value r2) 65535) with (ul_value r2) by lia.
        destruct (Z.ltb_spec (ul_value r2) (ul_value r1)).
        -- destruct (Z.leb_spec (ul_value r1) (ul_value r2)); [lia|done].
        -- destruct (Z.leb_spec (ul_value r1) (ul_value r2)); [|lia].
           split; [done|lia].
Qed.

Lemma in_ranges_snoc (p first last : Z) (ranges : list (Z * Z)) :
  in_ranges p (ranges ++ [(first, last)])
  ↔ in_ranges p ranges ∨ first ≤ p ≤ last.
Proof.
  unfold in_ranges. split.
  - intros (f & l & Hin & Hp). apply elem_of_app in Hin as [Hin|Hin].
    + left. eauto.
    + apply list_elem_of_singleton in Hin as [= -> ->]. by right.
  - intros [(f & l & Hin & Hp)|Hp].
    + exists f, l. split; [|done]. apply elem_of_app. by left.
    + exists first, last. split; [|done]. apply elem_of_app. right. by left.
Qed.

(** Accepting one more range. *)
Lemma bitmap_inv_add (arr : list Z) (flag : bool) (ranges : list (Z * Z))
    (first last : Z) :
  0 ≤ first → first ≤ last → last ≤ 65535 →
  bitmap_inv arr flag ranges →
  bitmap_inv
    (set_port_bits (Z.to_nat (8192 - first / 8)) (first / 8) first last
       (if flag then arr else replicate (Z.to_nat 8192) 0))
    true (ranges ++ [(first, last)]).
Proof.
  intros Hf Hfl Hl [Hempty Hbits].
  assert (0 ≤ first / 8 < 8192)
    by (split; [apply Z.div_pos; lia | apply Z.div_lt_upper_bound; lia]).
  pose proof (Z.mul_div_le first 8 ltac:(lia)).
  split.
  { split; [done|]. by destruct ranges. }
  intros _.
  destruct (set_port_bits_spec first last (Z.to_nat (8192 - first / 8))
              (first / 8) (if flag then arr else replicate (Z.to_nat 8192) 0))
    as [Hlen Hset]; try lia; try done.
  { destruct flag; [by apply Hbits | by rewrite length_replicate]. }
  split; [done|]. intros p Hp. rewrite Hset by done.
  rewrite in_ranges_snoc.
  destruct flag.
  - destruct (Hbits eq_refl) as [_ Hold]. rewrite (Hold p Hp). intuition lia.
  - rewrite port_bit_zeros by done.
    assert (ranges = []) as -> by (by apply Hempty).
    unfold in_ranges. split.
    + intros [?|?]; [done|]. right. lia.
    + intros [(f & l & Hin & _)|?]; [by apply elem_of_nil in Hin|]. right. lia.
Qed.

Lemma parse_port_ranges_spec (items : list range_node) :
  ∀ (arr : list Z) (flag : bool) (ranges : list (Z * Z)),
  Forall node_wf items → bitmap_inv arr flag ranges →
  bitmap_inv (parse_port_ranges arr items flag).1
             (parse_port_ranges arr items flag).2
             (ranges ++ accepted_ranges items).
Proof.
  induction items as [|node items IH]; intros arr flag ranges Hwf Hinv.
  - simpl. by rewrite app_nil_r.
  - inversion Hwf as [|?? Hnode Hrest]; subst.
    pose proof (item_bounds_effective node Hnode) as Hitem.
    assert (node = NotScalar ∨
            (parse_port_ranges arr (node :: items) flag =
               match item_bounds node with
               | None => parse_port_ranges arr items flag
               | Some (first, last) =>
                 if last <? first then parse_port_ranges arr items flag
                 else parse_port_ranges
                        (set_port_bits (Z.to_nat (8192 - first / 8)) (first / 8)
                           first last
                           (if flag then arr else replicate (Z.to_nat 8192) 0))
                        items true
               end ∧
             accepted_ranges (node :: items) =
               match effective_range node with
               | Some r => r :: accepted_ranges items
               | None => accepted_ranges items
               end)) as [->|[-> ->]].
    { destruct node; [by left|right; split; reflexivity..]. }
    + simpl. by rewrite app_nil_r.
    + destruct (item_bounds node) as [[first last]|].
      * destruct (last <? first).
        -- rewrite Hitem. by apply IH.
        -- destruct Hitem as (-> & ? & ? & ?).
           rewrite (cons_middle (first, last)), app_assoc.
           apply IH; [done|]. by apply bitmap_inv_add.
      * rewrite Hitem. by apply IH.
Qed.

(** Each option of the configuration reads its own bitmap and flag. *)
Lemma parse_port_option_spec (o : port_option) (c : port_config)
    (pair : string * yaml_value) :
  (option_bitmap o (allowedports (parse_port_option c pair)),
   option_flag o (parse_port_option c pair))
  = if String.eqb (fst pair) (option_key o) then
      match snd pair with
      | YamlSequence items =>
        parse_port_ranges (option_bitmap o (allowedports c)) items
          (option_flag o c)
      | YamlOther => (option_bitmap o (allowedports c), option_flag o c)
      end
    else (option_bitmap o (allowedports c), option_flag o c).
Proof.
  destruct pair as [k v]. unfold parse_port_option. simpl.
  destruct v as [items|]; [|by destruct (String.eqb k (option_key o))].
  destruct (String.eqb_spec k "tcp_source_port_range") as [->|?].
  { destruct o; simpl; by destruct (parse_port_ranges _ _ _). }
  destruct (String.eqb_spec k "tcp_dest_port_range") as [->|?].
  { destruct o; simpl; by destruct (parse_port_ranges _ _ _). }
  destruct (String.eqb_spec k "udp_source_port_range") as [->|?].
  { destruct o; simpl; by destruct (parse_port_ranges _ _ _). }
  destruct (String.eqb_spec k "udp_dest_port_range") as [->|?].
  { destruct o; simpl; by destruct (parse_port_ranges _ _ _). }
  destruct (String.eqb_spec k (option_key o)) as [->|?]; [|done].
  by destruct o.
Qed.

Lemma parse_port_options_spec (o : port_option)
    (options : list (string * yaml_value)) :
  ∀ (c : port_config) (ranges : list (Z * Z)),
  options_wf options →
  bitmap_inv (option_bitmap o (allowedports c)) (option_flag o c) ranges →
  bitmap_inv
    (option_bitmap o (allowedports (foldl parse_port_option c options)))
    (option_flag o (foldl parse_port_option c options))
    (ranges ++ option_ranges o options).
Proof.
  induction options as [|pair options IH]; intros c ranges Hwf Hinv.
  - simpl. by rewrite app_nil_r.
  - inversion Hwf as [|?? Hpair Hrest]; subst. simpl.
    unfold option_ranges. simpl. fold (option_ranges o options).
    rewrite app_assoc. apply IH; [done|].
    pose proof (parse_port_option_spec o c pair) as Hstep.
    pose proof (f_equal fst Hstep) as H1. pose proof (f_equal snd Hstep) as H2.
    cbn [fst snd] in H1, H2. rewrite H1, H2. clear Hstep H1 H2.
    destruct (String.eqb (fst pair) (option_key o)).
    + destruct (snd pair) as [items|].
      * by apply parse_port_ranges_spec.
      * by rewrite app_nil_r.
    + by rewrite app_nil_r.
Qed.

(** The bitmaps after the whole configuration was read. *)
Lemma parse_config_bitmap (o : port_option) (uninit : allowed_ports)
    (options : list (string * yaml_value)) (p : Z) :
  options_wf options → 0 ≤ p ≤ 65535 →
  port_bit (option_bitmap o (corsaro_report_parse_config uninit options)) p = true
  ↔ option_ranges o options = [] ∨ in_ranges p (option_ranges o options).
Proof.
  intros Hwf Hp.
  pose proof (parse_port_options_spec o options
                (mk_port_config uninit false false false false) [] Hwf) as Hinv.
  destruct Hinv as [Hempty Hbits].
  { split; [by destruct o|]. by destruct o. }
  simpl in Hempty, Hbits.
  unfold corsaro_report_parse_config.
  set (c := foldl parse_port_option _ options) in *.
  assert (option_bitmap o
            (mk_allowed_ports
               (if set_tcp_src_ports c then tcp_sources (allowedports c)
                else replicate (Z.to_nat 8192) 255)
               (if set_tcp_dest_ports c then tcp_dests (allowedports c)
                else replicate (Z.to_nat 8192) 255)
               (if set_udp_src_ports c then udp_sources (allowedports c)
                else replicate (Z.to_nat 8192) 255)
               (if set_udp_dest_ports c then udp_dests (allowedports c)
                else replicate (Z.to_nat 8192) 255))
          = if option_flag o c then option_bitmap o (allowedports c)
            else replicate (Z.to_nat 8192) 255) as ->
    by (by destruct o).
  destruct (option_flag o c).
  - destruct (Hbits eq_refl) as [_ Hb]. rewrite (Hb p Hp).
    split; [by right|]. intros [Hnil|?]; [|done].
    apply Hempty in Hnil. done.
  - rewrite port_bit_ones by done. split; [|done]. intros _. left.
    by apply Hempty.
Qed.

End PortBitmaps.

(** C8 (amended). After the configuration was parsed, for every port [p] in
    0..65535 and each of the four bitmaps, bit [p] (byte [p / 8], most
    significant bit first) is set if and only if no range was accepted for
    that bitmap, or [p] lies in an accepted range [first .. min(last,
    65535)]. An item is accepted when it comes before any non-scalar item of
    its sequence, its numbers are read without error, [first <= 65535] and
    [first <= min(last, 65535)]. *)
Theorem C8_port_bitmaps (o : PortSpec.port_option)
    (uninit : ReportInternal.allowed_ports)
    (options : list (string * ReportConfig.yaml_value)) (p : Z) :
  PortSpec.options_wf options → 0 ≤ p ≤ 65535 →
  ReportConfig.port_bit
    (PortSpec.option_bitmap o
       (ReportConfig.corsaro_report_parse_config uninit options)) p = true
  ↔ PortSpec.option_ranges o options = [] ∨
    PortSpec.in_ranges p (PortSpec.option_ranges o options).
Proof. apply parse_config_bitmap. Qed.

Lemma C8_port_bitmaps_witness :
  ReportConfig.port_bit
    (ReportInternal.tcp_dests
       (ReportConfig.corsaro_report_parse_config PortSpec.no_ports
          PortSpec.ports_22_map_80)) 22 = true
  ↔ PortSpec.option_ranges PortSpec.TcpDest PortSpec.ports_22_map_80 = [] ∨
    PortSpec.in_ranges 22
      (PortSpec.option_ranges PortSpec.TcpDest PortSpec.ports_22_map_80).
Proof.
  apply (C8_port_bitmaps PortSpec.TcpDest PortSpec.no_ports
           PortSpec.ports_22_map_80 22).
  - constructor; [|constructor]. simpl.
    constructor; [unfold PortSpec.node_wf, PortSpec.strtoul_wf; simpl; lia|].
    constructor; [exact I|].
    constructor; [unfold PortSpec.node_wf, PortSpec.strtoul_wf; simpl; lia|].
    constructor.
  - lia.
Defined.

(** C8 as worded fails when a sequence holds an item that is not a scalar:
    the items after it are not read, so with the ranges "22", a mapping and
    "80" configured for TCP destination ports, bit 80 is not set. *)
Lemma C8_counterexample :
  ¬ PortSpec.bitmap_as_configured PortSpec.TcpDest PortSpec.ports_22_map_80
      (ReportConfig.corsaro_report_parse_config PortSpec.no_ports
         PortSpec.ports_22_map_80).
Proof.
  intros H. specialize (H 80 ltac:(lia)). destruct H as [_ H].
  assert (ReportConfig.port_bit
            (PortSpec.option_bitmap PortSpec.TcpDest
               (ReportConfig.corsaro_report_parse_config PortSpec.no_ports
                  PortSpec.ports_22_map_80)) 80 = false) as Hbit
    by (vm_compute; reflexivity).
  rewrite Hbit in H. enough (false = true) by discriminate. apply H.
  right. split; [vm_compute; discriminate|].
  exists (ReportConfig.ScalarPort (ReportConfig.mk_strtoul 80 0)), 80, 80.
  split.
  - vm_compute. apply list_elem_of_In. simpl. tauto.
  - split; [reflexivity|lia].
Qed.

(** ** Unique IP counts *)

Section IpEntries.

Import Report3 Spec.

Lemma land_lor_same (b r : Z) : r = 1 ∨ r = 2 → Z.land (Z.lor b r) r ≠ 0.
Proof.
  intros Hr Hz.
  assert (Z.testbit (Z.land (Z.lor b r) r) (r - 1) = true) as Hbit.
  { rewrite Z.land_spec, Z.lor_spec. by destruct Hr as [-> | ->];
      rewrite orb_true_r. }
  rewrite Hz, Z.bits_0 in Hbit. done.
Qed.

Lemma land_lor_other (b r r' : Z) :
  (r = 1 ∧ r' = 2) ∨ (r = 2 ∧ r' = 1) → Z.land (Z.lor b r) r' = Z.land b r'.
Proof.
  intros Hr. rewrite Z.land_lor_distr_l.
  assert (Z.land r r' = 0) as -> by (by destruct Hr as [[-> ->]|[-> ->]]).
  apply Z.lor_0_r.
Qed.

Lemma role_bit_cases (issrc : Z) : role_bit issrc = 1 ∨ role_bit issrc = 2.
Proof. unfold role_bit. destruct (truthy issrc); auto. Qed.

(** The two branches on the role bit, in both update functions, are one
    test of the bit of the role. *)
Lemma role_branches {A} (issrc metval : Z) (a b c : A) :
  (if truthy issrc && (Z.land metval 1 =? 0) then a
   else if negb (truthy issrc) && (Z.land metval 2 =? 0) then b
   else c)
  = if Z.land metval (role_bit issrc) =? 0
    then (if truthy issrc then a else b) else c.
Proof.
  unfold role_bit. destruct (truthy issrc); simpl.
  - by destruct (Z.land metval 1 =? 0).
  - by destruct (Z.land metval 2 =? 0).
Qed.

Lemma mark_bits_spec (b r r' : Z) :
  r = 1 ∨ r = 2 → r' = 1 ∨ r' = 2 →
  Z.land (mark_bits b r) r' ≠ 0 ↔ r' = r ∨ Z.land b r' ≠ 0.
Proof.
  intros Hr Hr'. unfold mark_bits.
  destruct (Z.eqb_spec (Z.land b r) 0) as [Hz|Hnz].
  - destruct (Z.eq_dec r' r) as [->|Hne].
    + split; [by left|]. intros _. by apply land_lor_same.
    + rewrite land_lor_other by lia. split; [by right|]. by intros [?|?].
  - split; [by right|]. by intros [->|?].
Qed.

(** *** Entries that use the hash map *)

Lemma update_metric_map_spec (iphash : corsaro_ip_hash) (k issrc : Z)
    (m : corsaro_metric_ip_hash) :
  metriccount iphash = Z.of_nat (size (dom (metricsseen iphash))) →
  Z.of_nat (size (dom (metricsseen iphash) ∪ {[k]})) < 2 ^ 32 →
  let res := update_metric_map iphash k issrc m in
  metriccount res.1 = Z.of_nat (size (dom (metricsseen res.1))) ∧
  dom (metricsseen res.1) = dom (metricsseen iphash) ∪ {[k]} ∧
  firstmetrics res.1 = firstmetrics iphash ∧
  metriccount iphash ≤ metriccount res.1 ∧
  default 0 (metricsseen res.1 !! k)
    = mark_bits (default 0 (metricsseen iphash !! k)) (role_bit issrc) ∧
  (∀ k', k' ≠ k → metricsseen res.1 !! k' = metricsseen iphash !! k') ∧
  res.2 = if Z.land (default 0 (metricsseen iphash !! k)) (role_bit issrc) =? 0
          then count_ip issrc m else m.
Proof.
  intros Hmc Hbound res. subst res. unfold update_metric_map.
  set (iphash1 := match metricsseen iphash !! k with
                  | None => _ | Some _ => iphash end).
  assert (metriccount iphash1 = Z.of_nat (size (dom (metricsseen iphash1))) ∧
          dom (metricsseen iphash1) = dom (metricsseen iphash) ∪ {[k]} ∧
          firstmetrics iphash1 = firstmetrics iphash ∧
          metriccount iphash ≤ metriccount iphash1 ∧
          default 0 (metricsseen iphash1 !! k)
            = default 0 (metricsseen iphash !! k) ∧
          (∀ k', k' ≠ k → metricsseen iphash1 !! k' = metricsseen iphash !! k'))
    as (Hc1 & Hdom1 & Hfm1 & Hle1 & Hval1 & Hoth1).
  { subst iphash1. destruct (metricsseen iphash !! k) as [v|] eqn:Hk.
    - assert (k ∈ dom (metricsseen iphash)) by (apply elem_of_dom; eauto).
      split; [done|]. split; [set_solver|]. split; [done|]. split; [lia|].
      split; [by rewrite Hk|done].
    - assert (k ∉ dom (metricsseen iphash)) as Hnotin
        by (by apply not_elem_of_dom).
      assert (size (dom (metricsseen iphash) ∪ {[k]})
              = S (size (dom (metricsseen iphash)))) as Hsz.
      { rewrite size_union by set_solver. rewrite size_singleton. lia. }
      rewrite Hsz in Hbound. cbn [metriccount metricsseen firstmetrics].
      rewrite dom_insert_L.
      replace ({[k]} ∪ dom (metricsseen iphash))
        with (dom (metricsseen iphash) ∪ {[k]}) by set_solver.
      rewrite Hsz, Hmc. rewrite uint32_small by lia.
      split; [lia|]. split; [done|]. split; [done|]. split; [lia|].
      split; [by rewrite lookup_insert_eq|].
      intros k' Hk'. by rewrite lookup_insert_ne. }
  rewrite role_branches. rewrite Hval1.
  unfold mark_bits.
  destruct (Z.land (default 0 (metricsseen iphash !! k)) (role_bit issrc) =? 0)
    eqn:Htest.
  - assert (∀ v, dom (<[k := v]> (metricsseen iphash1))
                 = dom (metricsseen iphash) ∪ {[k]}) as Hdom'.
    { intros v. rewrite dom_insert_L, Hdom1. set_solver. }
    unfold role_bit, count_ip.
    destruct (truthy issrc); cbn [fst snd set_metricsseen metriccount
                                    metricsseen firstmetrics];
      rewrite Hdom', <- Hdom1, lookup_insert_eq;
      (split; [done|]); (split; [done|]); (split; [done|]); (split; [done|]);
      (split; [done|]); (split; [|done]);
      intros k' Hk'; rewrite lookup_insert_ne by done; by apply Hoth1.
  - cbn [fst snd]. rewrite Hval1. by repeat split.
Qed.

(** *** Entries that use the inline array *)

Lemma slot_bits_absent (slots : list corsaro_standalone_metric) (k : Z) :
  k ∉ sm_metricid <$> slots → slot_bits slots k = 0.
Proof.
  induction slots as [|e slots IH]; simpl; [done|].
  intros Hnotin. apply not_elem_of_cons in Hnotin as [Hne Hrest].
  destruct (decide (sm_metricid e = k)); [congruence|]. by apply IH.
Qed.

Lemma slot_bits_lookup (slots : list corsaro_standalone_metric) (i : nat)
    (e : corsaro_standalone_metric) :
  NoDup (sm_metricid <$> slots) → slots !! i = Some e →
  slot_bits slots (sm_metricid e) = sm_metval e.
Proof.
  revert i. induction slots as [|e0 slots IH]; intros i Hnd Hi; [done|].
  simpl in Hnd. apply NoDup_cons in Hnd as [Hnotin Hnd]. simpl.
  destruct i as [|i]; simpl in Hi.
  - injection Hi as ->. by destruct (decide (sm_metricid e = sm_metricid e)).
  - destruct (decide (sm_metricid e0 = sm_metricid e)) as [Heq|Hne].
    + exfalso. apply Hnotin. rewrite Heq.
      apply list_elem_of_fmap. exists e. split; [done|].
      by eapply list_elem_of_lookup_2.
    + by eapply IH.
Qed.

Lemma slot_bits_insert_other (slots : list corsaro_standalone_metric) (i : nat)
    (e e' : corsaro_standalone_metric) (k' : Z) :
  slots !! i = Some e → sm_metricid e' = sm_metricid e → k' ≠ sm_metricid e →
  slot_bits (<[i := e']> slots) k' = slot_bits slots k'.
Proof.
  revert i. induction slots as [|e0 slots IH]; intros i Hi Hid Hk; [done|].
  destruct i as [|i]; simpl in *.
  - injection Hi as ->. rewrite Hid.
    by destruct (decide (sm_metricid e = k')); [congruence|].
  - destruct (decide (sm_metricid e0 = k')); [done|]. by eapply IH.
Qed.

Lemma slot_bits_snoc (slots : list corsaro_standalone_metric)
    (e : corsaro_standalone_metric) (k' : Z) :
  sm_metricid e ∉ sm_metricid <$> slots →
  slot_bits (slots ++ [e]) k'
  = if decide (sm_metricid e = k') then sm_metval e else slot_bits slots k'.
Proof.
  induction slots as [|e0 slots IH]; intros Hnotin; simpl; [done|].
  simpl in Hnotin. apply not_elem_of_cons in Hnotin as [Hne Hrest].
  destruct (decide (sm_metricid e0 = k')) as [<-|?].
  - by destruct (decide (sm_metricid e = sm_metricid e0)).
  - by apply IH.
Qed.

(** The hash map built from the slots of the array when it overflows. *)
Lemma slots_to_map (slots : list corsaro_standalone_metric) :
  ∀ h : gmap Z Z,
  NoDup (sm_metricid <$> slots) →
  dom (foldl (λ h e, <[sm_metricid e := sm_metval e]> h) h slots)
    = dom h ∪ list_to_set (sm_metricid <$> slots) ∧
  ∀ k, default 0 (foldl (λ h e, <[sm_metricid e := sm_metval e]> h) h slots !! k)
       = if decide (k ∈ sm_metricid <$> slots) then slot_bits slots k
         else default 0 (h !! k).
Proof.
  induction slots as [|e slots IH]; intros h Hnd; simpl.
  - split; [set_solver|]. intros k. by destruct (decide (k ∈ [])).
  - simpl in Hnd. apply NoDup_cons in Hnd as [Hnotin Hnd].
    destruct (IH (<[sm_metricid e := sm_metval e]> h) Hnd) as [Hdom Hval].
    split.
    + rewrite Hdom, dom_insert_L. set_solver.
    + intros k. rewrite Hval. clear Hval Hdom IH.
      destruct (decide (sm_metricid e = k)) as [<-|Hne].
      * rewrite lookup_insert_eq.
        repeat case_decide; try done; exfalso; set_solver.
      * rewrite lookup_insert_ne by done.
        repeat case_decide; try done; exfalso; set_solver.
Qed.

Lemma take_S_insert {A} (l : list A) (i : nat) (x : A) :
  (i < length l)%nat → take (S i) (<[i := x]> l) = take i l ++ [x].
Proof.
  intros Hi. rewrite (take_S_r _ _ x) by (by apply list_lookup_insert_eq).
  by rewrite take_insert_ge by lia.
Qed.

Lemma iphash_ok_count (iphash : corsaro_ip_hash) :
  iphash_ok iphash → metriccount iphash ≤ METRIC_ARRAY_SIZE →
  0 ≤ metriccount iphash ∧
  length (used_slots iphash) = Z.to_nat (metriccount iphash) ∧
  iph_keys iphash = list_to_set (sm_metricid <$> used_slots iphash) ∧
  ∀ k, seen_bits iphash k = slot_bits (used_slots iphash) k.
Proof.
  intros (Hlen & Hcount & Harr) Hle.
  split; [lia|]. split.
  - unfold used_slots. rewrite length_take. unfold METRIC_ARRAY_SIZE in *. lia.
  - unfold iph_keys, seen_bits.
    destruct (Z.leb_spec (metriccount iphash) METRIC_ARRAY_SIZE); [done|lia].
Qed.

Lemma mark_slot_spec (iphash : corsaro_ip_hash) (idx : nat) (issrc : Z)
    (m : corsaro_metric_ip_hash) (e : corsaro_standalone_metric) :
  firstmetrics iphash !! idx = Some e →
  mark_slot iphash idx issrc m
  = if Z.land (sm_metval e) (role_bit issrc) =? 0
    then (set_firstmetrics iphash
            (<[idx := mk_standalone (sm_metricid e)
                        (Z.lor (sm_metval e) (role_bit issrc))]>
               (firstmetrics iphash)),
          count_ip issrc m)
    else (iphash, m).
Proof.
  intros He. unfold mark_slot. rewrite He, role_branches.
  unfold role_bit, count_ip. by destruct (truthy issrc).
Qed.

Lemma update_metric_array_spec (iphash : corsaro_ip_hash) (k issrc : Z)
    (m : corsaro_metric_ip_hash) :
  iphash_ok iphash → metriccount iphash ≤ METRIC_ARRAY_SIZE →
  Z.of_nat (size (iph_keys iphash ∪ {[k]})) < 2 ^ 32 →
  let res := update_metric_array iphash k issrc m in
  iphash_ok res.1 ∧
  iph_keys res.1 = iph_keys iphash ∪ {[k]} ∧
  seen_bits res.1 k = mark_bits (seen_bits iphash k) (role_bit issrc) ∧
  (∀ k', k' ≠ k → seen_bits res.1 k' = seen_bits iphash k') ∧
  res.2 = if Z.land (seen_bits iphash k) (role_bit issrc) =? 0
          then count_ip issrc m else m.
Proof.
  intros Hok Hle Hbound res. subst res.
  destruct (iphash_ok_count _ Hok Hle) as (Hpos & Hused & Hkeys & Hseen).
  destruct Hok as (Hlen & Hcount & Harr).
  destruct (Harr Hle) as [Hempty Hnd].
  unfold update_metric_array, find_metric.
  destruct (list_find (λ e, sm_metricid e = k) (used_slots iphash))
    as [[idx e]|] eqn:Hfind; simpl.
  - (* the metric is in the array *)
    apply list_find_Some in Hfind as (Hidx & Hid & _).
    assert (firstmetrics iphash !! idx = Some e ∧
            (idx < Z.to_nat (metriccount iphash))%nat) as [Harrl Hidxlt].
    { unfold used_slots in Hidx. by apply lookup_take_Some in Hidx. }
    rewrite (mark_slot_spec _ _ _ _ e Harrl).
    assert (k ∈ sm_metricid <$> used_slots iphash) as Hkin.
    { apply list_elem_of_fmap. exists e. split; [done|].
      by eapply list_elem_of_lookup_2. }
    assert (iph_keys iphash ∪ {[k]} = iph_keys iphash) as Hsame
      by (rewrite Hkeys; set_solver).
    rewrite Hsame.
    assert (seen_bits iphash k = sm_metval e) as Hbits.
    { rewrite Hseen, <- Hid. by eapply slot_bits_lookup. }
    rewrite Hbits. unfold mark_bits.
    destruct (Z.land (sm_metval e) (role_bit issrc) =? 0); simpl;
      [|by repeat split].
    set (e' := mk_standalone (sm_metricid e)
                 (Z.lor (sm_metval e) (role_bit issrc))).
    set (iphash' := set_firstmetrics iphash (<[idx := e']> (firstmetrics iphash))).
    assert (used_slots iphash' = <[idx := e']> (used_slots iphash)) as Hused'.
    { unfold used_slots, iphash'. simpl. by rewrite take_insert_lt. }
    assert (sm_metricid <$> used_slots iphash' = sm_metricid <$> used_slots iphash)
      as Hids'.
    { rewrite Hused', list_fmap_insert. simpl. apply list_insert_id.
      by rewrite list_lookup_fmap, Hidx. }
    assert ((metriccount iphash' <=? METRIC_ARRAY_SIZE) = true) as Hmode
      by (apply Z.leb_le; done).
    assert (iph_keys iphash' = iph_keys iphash) as Hkeys'.
    { unfold iph_keys at 1. rewrite Hmode, Hids'. by rewrite Hkeys. }
    split; [|split; [done|split; [|split; [|done]]]].
    + split; [unfold iphash'; cbn [firstmetrics set_firstmetrics];
               by rewrite length_insert|].
      split; [by rewrite Hkeys'|].
      intros _. split; [done|]. by rewrite Hids'.
    + unfold seen_bits. rewrite Hmode, Hused'.
      replace k with (sm_metricid e').
      apply (slot_bits_lookup _ idx).
      * rewrite <- Hused', Hids'. done.
      * apply list_lookup_insert_eq. by eapply lookup_lt_Some.
    + intros k' Hk'. unfold seen_bits at 1. rewrite Hmode, Hused', Hseen.
      eapply slot_bits_insert_other; [done..|]. by rewrite Hid.
  - (* the metric is not in the array *)
    apply list_find_None in Hfind.
    assert (k ∉ sm_metricid <$> used_slots iphash) as Hnotin.
    { intros Hin. apply list_elem_of_fmap in Hin as (e & -> & He).
      rewrite Forall_forall in Hfind. by apply (Hfind e). }
    assert (seen_bits iphash k = 0) as Hbits
      by (rewrite Hseen; by apply slot_bits_absent).
    assert (size (iph_keys iphash ∪ {[k]}) = S (size (iph_keys iphash))) as Hsz.
    { rewrite size_union by (rewrite Hkeys; set_solver).
      rewrite size_singleton. lia. }
    rewrite Hsz in Hbound. rewrite Hbits.
    assert (Z.land 0 (role_bit issrc) = 0) as Hl0 by apply Z.land_0_l.
    unfold mark_bits. rewrite Hl0. simpl (0 =? 0). cbv iota.
    destruct (Z.eqb_spec (metriccount iphash) METRIC_ARRAY_SIZE) as [Hfull|Hnotfull].
    + (* the array is full: convert to a hash map *)
      set (iphash_c := set_metricsseen iphash (array_to_map iphash)).
      destruct (slots_to_map (used_slots iphash) ∅ Hnd) as [Hdomc Hvalc].
      assert (dom (metricsseen iphash_c) = iph_keys iphash) as Hdom0.
      { unfold iphash_c, array_to_map. cbn [metricsseen set_metricsseen].
        rewrite Hempty, Hdomc, Hkeys. set_solver. }
      assert (∀ k', default 0 (metricsseen iphash_c !! k') = seen_bits iphash k')
        as Hval0.
      { intros k'. unfold iphash_c, array_to_map. cbn [metricsseen set_metricsseen].
        rewrite Hempty, Hvalc, Hseen. case_decide; [done|].
        rewrite lookup_empty. simpl. symmetry. by apply slot_bits_absent. }
      destruct (update_metric_map_spec iphash_c k issrc m)
        as (Hc & Hdom & Hfm & Hmle & Hval & Hoth & Hm).
      { rewrite Hdom0. exact Hcount. }
      { rewrite Hdom0. rewrite Hsz. exact Hbound. }
      set (res := update_metric_map iphash_c k issrc m) in *.
      rewrite Hdom0 in Hdom. rewrite Hval0, Hbits in Hval, Hm.
      unfold mark_bits in Hval. rewrite Hl0 in Hval, Hm.
      simpl (0 =? 0) in Hval, Hm. cbv iota in Hval, Hm.
      assert (metriccount res.1 = metriccount iphash + 1) as Hcnt.
      { rewrite Hc, Hdom, Hsz, Hcount. lia. }
      assert ((metriccount res.1 <=? METRIC_ARRAY_SIZE) = false) as Hmode
        by (apply Z.leb_gt; lia).
      split; [|split; [|split; [|split; [|done]]]].
      * split; [by rewrite Hfm|]. split.
        -- unfold iph_keys. by rewrite Hmode.
        -- intros ?. lia.
      * unfold iph_keys at 1. by rewrite Hmode.
      * unfold seen_bits. by rewrite Hmode.
      * intros k' Hk'. unfold seen_bits at 1. rewrite Hmode, Hoth by done.
        apply Hval0.
    + (* use the next slot *)
      assert (metriccount iphash < METRIC_ARRAY_SIZE) as Hlt by lia.
      set (idx := Z.to_nat (metriccount iphash)).
      assert (idx < length (firstmetrics iphash))%nat as Hidx
        by (unfold METRIC_ARRAY_SIZE in *; lia).
      set (iphash1 := mk_ip_hash _ _ _ _).
      assert (firstmetrics iphash1 !! idx = Some (mk_standalone k 0)) as Hslot
        by (by apply list_lookup_insert_eq).
      rewrite (mark_slot_spec _ _ _ _ _ Hslot).
      cbn [sm_metval sm_metricid]. rewrite Hl0. simpl (0 =? 0). cbv iota.
      cbn [fst snd].
      set (e' := mk_standalone k (Z.lor 0 (role_bit issrc))).
      set (iphash' := set_firstmetrics iphash1 _).
      assert (metriccount iphash' = metriccount iphash + 1) as Hcnt.
      { unfold iphash', iphash1. cbn [metriccount set_firstmetrics].
        apply uint32_small. lia. }
      assert ((metriccount iphash' <=? METRIC_ARRAY_SIZE) = true) as Hmode
        by (apply Z.leb_le; lia).
      assert (used_slots iphash' = used_slots iphash ++ [e']) as Hused'.
      { unfold used_slots. rewrite Hcnt.
        replace (Z.to_nat (metriccount iphash + 1)) with (S idx) by lia.
        unfold iphash', iphash1. cbn [firstmetrics set_firstmetrics].
        rewrite list_insert_insert_eq. by apply take_S_insert. }
      assert (sm_metricid <$> used_slots iphash'
              = (sm_metricid <$> used_slots iphash) ++ [k]) as Hids'
        by (by rewrite Hused', fmap_app).
      assert (iph_keys iphash' = iph_keys iphash ∪ {[k]}) as Hkeys'.
      { unfold iph_keys at 1. rewrite Hmode, Hids', Hkeys.
        rewrite list_to_set_app_L. set_solver. }
      split; [|split; [done|split; [|split; [|done]]]].
      * split.
        { unfold iphash', iphash1. cbn [firstmetrics set_firstmetrics].
          by rewrite !length_insert. }
        split; [rewrite Hkeys', Hsz, Hcnt, Hcount; lia|].
        intros _. split; [done|]. rewrite Hids'.
        apply NoDup_app. split; [done|]. split; [|apply NoDup_singleton].
        intros x Hx Hx'. apply list_elem_of_singleton in Hx'. by subst.
      * unfold seen_bits. rewrite Hmode, Hused'.
        rewrite slot_bits_snoc by done. by case_decide.
      * intros k' Hk'. unfold seen_bits at 1. rewrite Hmode, Hused', Hseen.
        rewrite slot_bits_snoc by done. by case_decide.
Qed.

(** *** Both kinds of entries *)

Lemma update_metric_spec (iphash : corsaro_ip_hash) (k issrc : Z)
    (m : corsaro_metric_ip_hash) :
  iphash_ok iphash →
  Z.of_nat (size (iph_keys iphash ∪ {[k]})) < 2 ^ 32 →
  let res := update_metric iphash k issrc m in
  iphash_ok res.1 ∧
  iph_keys res.1 = iph_keys iphash ∪ {[k]} ∧
  seen_bits res.1 k = mark_bits (seen_bits iphash k) (role_bit issrc) ∧
  (∀ k', k' ≠ k → seen_bits res.1 k' = seen_bits iphash k') ∧
  res.2 = if Z.land (seen_bits iphash k) (role_bit issrc) =? 0
          then count_ip issrc m else m.
Proof.
  intros Hok Hbound. unfold update_metric.
  destruct (Z.leb_spec (metriccount iphash) METRIC_ARRAY_SIZE) as [Hle|Hgt].
  - by apply update_metric_array_spec.
  - assert ((metriccount iphash <=? METRIC_ARRAY_SIZE) = false) as Hmode
      by (apply Z.leb_gt; lia).
    assert (iph_keys iphash = dom (metricsseen iphash)) as Hkeys
      by (unfold iph_keys; by rewrite Hmode).
    assert (∀ k', seen_bits iphash k' = default 0 (metricsseen iphash !! k'))
      as Hseen by (intros k'; unfold seen_bits; by rewrite Hmode).
    destruct Hok as (Hlen & Hcount & _).
    destruct (update_metric_map_spec iphash k issrc m)
      as (Hc & Hdom & Hfm & Hmle & Hval & Hoth & Hm).
    { by rewrite <- Hkeys. }
    { by rewrite <- Hkeys. }
    set (res := update_metric_map iphash k issrc m) in *.
    assert ((metriccount res.1 <=? METRIC_ARRAY_SIZE) = false) as Hmode'
      by (apply Z.leb_gt; lia).
    rewrite !Hseen.
    split; [|split; [|split; [|split; [|done]]]].
    + split; [by rewrite Hfm|]. split.
      * unfold iph_keys. by rewrite Hmode'.
      * intros ?. lia.
    + unfold iph_keys at 1. by rewrite Hmode', Hkeys.
    + unfold seen_bits. by rewrite Hmode'.
    + intros k' Hk'. unfold seen_bits at 1. rewrite Hmode', Hoth by done.
      by rewrite Hseen.
Qed.

Lemma new_iphash_ok (ip : Z) :
  iphash_ok (new_iphash ip) ∧ iph_keys (new_iphash ip) = ∅ ∧
  ∀ k, seen_bits (new_iphash ip) k = 0.
Proof.
  split; [|split].
  - split; [reflexivity|]. split; [reflexivity|].
    intros _. split; [reflexivity|]. change (NoDup (@nil Z)). constructor.
  - reflexivity.
  - reflexivity.
Qed.

End IpEntries.

Section IntervalMaps.

Import Report3 Spec.

Lemma unique_ips_other (k k' ip : Z) (pairs : gset (Z * Z)) :
  k' ≠ k → unique_ips k' (pairs ∪ {[ (k, ip) ]}) = unique_ips k' pairs.
Proof.
  intros Hne. unfold unique_ips.
  assert (filter (λ kp : Z * Z, kp.1 = k') (pairs ∪ {[ (k, ip) ]})
          = filter (λ kp : Z * Z, kp.1 = k') pairs) as ->; [|done].
  apply set_eq. intros [a b].
  rewrite !elem_of_filter, elem_of_union, elem_of_singleton. simpl.
  split; [|tauto]. intros [-> [?|[= ? ?]]]; [done|]. by subst.
Qed.

Lemma unique_ips_new (k ip : Z) (pairs : gset (Z * Z)) :
  (k, ip) ∉ pairs →
  unique_ips k (pairs ∪ {[ (k, ip) ]}) = S (unique_ips k pairs).
Proof.
  intros Hnew. unfold unique_ips.
  assert (filter (λ kp : Z * Z, kp.1 = k) (pairs ∪ {[ (k, ip) ]})
          = filter (λ kp : Z * Z, kp.1 = k) pairs ∪ {[ (k, ip) ]}) as ->.
  { apply set_eq. intros [a b].
    rewrite elem_of_union, !elem_of_filter, elem_of_union, elem_of_singleton.
    simpl. split; [tauto|]. intros [[-> ?]|[= -> ->]]; tauto. }
  rewrite size_union.
  - rewrite size_singleton. lia.
  - apply disjoint_singleton_r. rewrite elem_of_filter. tauto.
Qed.

Lemma unique_ips_old (k ip : Z) (pairs : gset (Z * Z)) :
  (k, ip) ∈ pairs → pairs ∪ {[ (k, ip) ]} = pairs.
Proof. set_solver. Qed.

Lemma uint32_succ (n : nat) :
  uint32 (uint32 (Z.of_nat n) + 1) = uint32 (Z.of_nat (S n)).
Proof.
  unfold uint32. rewrite Nat2Z.inj_succ. unfold Z.succ.
  by rewrite Zplus_mod_idemp_l.
Qed.

Lemma update_knownip_metric_eq (k : Z) (iphash : corsaro_ip_hash)
    (issrc iplen : Z) (tally : gmap Z corsaro_metric_ip_hash) :
  update_knownip_metric k iphash issrc iplen tally
  = let m := match tally !! k with Some m => m | None => new_tally k end in
    let m1 := if iplen >? 0 then add_packet m iplen else m in
    ((update_metric iphash k issrc m1).1,
     <[k := (update_metric iphash k issrc m1).2]> tally).
Proof.
  unfold update_knownip_metric, update_metric. cbv zeta.
  by destruct (if metriccount iphash <=? METRIC_ARRAY_SIZE then _ else _).
Qed.

Lemma role_bit_src (issrc : Z) : role_bit issrc = 1 ↔ truthy issrc = true.
Proof. unfold role_bit. by destruct (truthy issrc). Qed.

Lemma role_bit_dst (issrc : Z) : role_bit issrc = 2 ↔ truthy issrc = false.
Proof. unfold role_bit. by destruct (truthy issrc). Qed.

(** One tag keeps the interval state in step with the pairs reported. *)
Lemma apply_tag_inv (all : gset Z) (srcs dsts : gset (Z * Z))
    (maps : gmap Z corsaro_ip_hash * gmap Z corsaro_metric_ip_hash)
    (ip issrc iplen k : Z) :
  Z.of_nat (size all) < 2 ^ 32 → k ∈ all →
  maps_inv all srcs dsts maps →
  maps_inv all (srcs ∪ src_pair issrc k ip) (dsts ∪ dst_pair issrc k ip)
    (apply_tag ip issrc iplen maps k).
Proof.
  intros Hall Hk (Hips & Hsrc & Hdst & Hcs & Hcd).
  destruct maps as [known tally]. simpl in *.
  unfold apply_tag. cbn [fst snd].
  assert (∃ thisip known1,
            update_iphash known ip = (known1, thisip) ∧
            iphash_ok thisip ∧ iph_keys thisip ⊆ all ∧
            (∀ k', seen_bits thisip k' = ip_bits known ip k') ∧
            (∀ ip', ip' ≠ ip → known1 !! ip' = known !! ip'))
    as (thisip & known1 & -> & Hok & Hsub & Hbits & Hother).
  { unfold update_iphash, ip_bits.
    destruct (known !! ip) as [iph|] eqn:Hlk.
    - exists iph, known. destruct (Hips _ _ Hlk) as [? ?].
      split; [done|]. split; [done|]. split; [done|]. by split.
    - exists (new_iphash ip), (<[ip := new_iphash ip]> known).
      destruct (new_iphash_ok ip) as (? & Hkeys & ?).
      split; [done|]. split; [done|]. split; [rewrite Hkeys; set_solver|].
      split; [done|]. intros ip' Hne. by rewrite lookup_insert_ne. }
  rewrite update_knownip_metric_eq. cbv zeta.
  set (m := match tally !! k with Some m => m | None => new_tally k end).
  set (m1 := if iplen >? 0 then add_packet m iplen else m).
  assert (srcips m1 = tally_srcips tally k ∧ destips m1 = tally_destips tally k)
    as [Hm1s Hm1d].
  { unfold m1, m, tally_srcips, tally_destips.
    destruct (tally !! k); destruct (iplen >? 0); done. }
  destruct (update_metric_spec thisip k issrc m1 Hok)
    as (Hok' & Hkeys' & Hbitk & Hbito & Hm2).
  { assert (iph_keys thisip ∪ {[k]} ⊆ all) as Hs by set_solver.
    apply subseteq_size in Hs. lia. }
  set (res := update_metric thisip k issrc m1) in *.
  assert (∀ ip' k', ip_bits (<[ip := res.1]> known1) ip' k'
                    = if decide (ip' = ip)
                      then (if decide (k' = k)
                            then mark_bits (ip_bits known ip k) (role_bit issrc)
                            else ip_bits known ip k')
                      else ip_bits known ip' k') as Hnewbits.
  { intros ip' k'. unfold ip_bits at 1.
    destruct (decide (ip' = ip)) as [->|Hne].
    - rewrite lookup_insert_eq. simpl. destruct (decide (k' = k)) as [->|Hnk].
      + by rewrite Hbitk, Hbits.
      + by rewrite Hbito, Hbits.
    - rewrite lookup_insert_ne, Hother by done. done. }
  pose proof (role_bit_cases issrc) as Hrole.
  split; [|split; [|split; [|split]]]; cbn [fst snd].
  - intros ip' iph'. destruct (decide (ip' = ip)) as [->|Hne].
    + rewrite lookup_insert_eq. intros [= <-]. split; [done|].
      rewrite Hkeys'. set_solver.
    + rewrite lookup_insert_ne, Hother by done. apply Hips.
  - intros k' ip'. rewrite Hnewbits. unfold src_pair.
    destruct (decide (ip' = ip)) as [->|Hne];
      [destruct (decide (k' = k)) as [->|Hnk]|].
    + rewrite mark_bits_spec by auto. rewrite <- Hsrc.
      unfold role_bit. destruct (truthy issrc); set_solver.
    + rewrite <- Hsrc. destruct (truthy issrc); set_solver.
    + rewrite <- Hsrc. destruct (truthy issrc); set_solver.
  - intros k' ip'. rewrite Hnewbits. unfold dst_pair.
    destruct (decide (ip' = ip)) as [->|Hne];
      [destruct (decide (k' = k)) as [->|Hnk]|].
    + rewrite mark_bits_spec by auto. rewrite <- Hdst.
      unfold role_bit. destruct (truthy issrc); set_solver.
    + rewrite <- Hdst. destruct (truthy issrc); set_solver.
    + rewrite <- Hdst. destruct (truthy issrc); set_solver.
  - intros k'. unfold tally_srcips at 1. unfold src_pair.
    destruct (decide (k' = k)) as [->|Hnk].
    + rewrite lookup_insert_eq. simpl. rewrite Hm2, Hbits.
      unfold role_bit, count_ip. specialize (Hsrc k ip).
      destruct (truthy issrc).
      * destruct (Z.eqb_spec (Z.land (ip_bits known ip k) 1) 0) as [Hz|Hnz].
        -- rewrite unique_ips_new by (rewrite Hsrc; tauto).
           simpl. rewrite Hm1s, Hcs. apply uint32_succ.
        -- rewrite unique_ips_old by (by apply Hsrc). by rewrite Hm1s, Hcs.
      * rewrite (right_id_L ∅ (∪)).
        destruct (Z.land (ip_bits known ip k) 2 =? 0); simpl;
          by rewrite Hm1s, Hcs.
    + rewrite lookup_insert_ne by done. fold (tally_srcips tally k').
      rewrite Hcs. destruct (truthy issrc).
      * by rewrite unique_ips_other.
      * by rewrite (right_id_L ∅ (∪)).
  - intros k'. unfold tally_destips at 1. unfold dst_pair.
    destruct (decide (k' = k)) as [->|Hnk].
    + rewrite lookup_insert_eq. simpl. rewrite Hm2, Hbits.
      unfold role_bit, count_ip. specialize (Hdst k ip).
      destruct (truthy issrc).
      * rewrite (right_id_L ∅ (∪)).
        destruct (Z.land (ip_bits known ip k) 1 =? 0); simpl;
          by rewrite Hm1d, Hcd.
      * destruct (Z.eqb_spec (Z.land (ip_bits known ip k) 2) 0) as [Hz|Hnz].
        -- rewrite unique_ips_new by (rewrite Hdst; tauto).
           simpl. rewrite Hm1d, Hcd. apply uint32_succ.
        -- rewrite unique_ips_old by (by apply Hdst). by rewrite Hm1d, Hcd.
    + rewrite lookup_insert_ne by done. fold (tally_destips tally k').
      rewrite Hcd. destruct (truthy issrc).
      * by rewrite (right_id_L ∅ (∪)).
      * by rewrite unique_ips_other.
Qed.

(** The loop of [process_msg_body], which keeps a pointer to the entry of
    the IP, does what applying the tags one by one to the maps does. *)
Lemma fold_thisip (ip issrc iplen : Z) (tags : list Z) :
  ∀ (known : gmap Z corsaro_ip_hash) (iphash : corsaro_ip_hash)
    (tally : gmap Z corsaro_metric_ip_hash),
  known !! ip = Some iphash →
  foldl (apply_tag ip issrc iplen) (known, tally) tags
  = (<[ip := (foldl (λ st tag, update_knownip_metric tag st.1 issrc iplen st.2)
                (iphash, tally) tags).1]> known,
     (foldl (λ st tag, update_knownip_metric tag st.1 issrc iplen st.2)
        (iphash, tally) tags).2).
Proof.
  induction tags as [|k tags IH]; intros known iphash tally Hlk; simpl.
  - by rewrite insert_id.
  - unfold apply_tag at 2. cbn [fst snd]. unfold update_iphash. rewrite Hlk.
    destruct (update_knownip_metric k iphash issrc iplen tally)
      as [iphash1 tally1] eqn:Hup.
    rewrite (IH _ iphash1) by apply lookup_insert_eq.
    by rewrite insert_insert_eq.
Qed.

Lemma apply_body_tags
    (maps : gmap Z corsaro_ip_hash * gmap Z corsaro_metric_ip_hash)
    (body : corsaro_report_msg_body) :
  body_wf body →
  apply_body maps body
  = Some (foldl (apply_tag (b_ipaddr body) (issrc body) (b_size body)) maps
            (body_tags body)).
Proof.
  intros Hwf. unfold apply_body. unfold body_wf in Hwf.
  destruct (body_tags body) as [|t0 tags] eqn:Htags; [done|].
  destruct Hwf as [Hwf|Hwf]; [done|]. injection Hwf as ->.
  simpl (0 =? 0). cbv iota. destruct maps as [known tally]. cbn [fst snd].
  destruct (update_iphash known (b_ipaddr body)) as [known1 thisip] eqn:Hup.
  assert (known1 !! b_ipaddr body = Some thisip ∧
          update_iphash known1 (b_ipaddr body) = (known1, thisip)) as [Hlk Hup1].
  { unfold update_iphash in *.
    destruct (known !! b_ipaddr body) as [iph|] eqn:Hk.
    - injection Hup as <- <-. by rewrite Hk.
    - injection Hup as <- <-. by rewrite lookup_insert_eq. }
  assert (foldl (apply_tag (b_ipaddr body) (issrc body) (b_size body))
            (known, tally) (0 :: tags)
          = foldl (apply_tag (b_ipaddr body) (issrc body) (b_size body))
              (known1, tally) (0 :: tags)) as ->.
  { simpl. f_equal. unfold apply_tag. cbn [fst snd]. by rewrite Hup, Hup1. }
  rewrite (fold_thisip _ _ _ _ _ thisip) by done.
  by destruct (foldl _ (thisip, tally) (0 :: tags)).
Qed.

Lemma apply_tags_inv (all : gset Z) (ip issrc iplen : Z) (tags : list Z) :
  ∀ (srcs dsts : gset (Z * Z))
    (maps : gmap Z corsaro_ip_hash * gmap Z corsaro_metric_ip_hash),
  Z.of_nat (size all) < 2 ^ 32 → list_to_set tags ⊆ all →
  maps_inv all srcs dsts maps →
  maps_inv all
    (srcs ∪ (if truthy issrc then list_to_set ((λ k, (k, ip)) <$> tags) else ∅))
    (dsts ∪ (if truthy issrc then ∅ else list_to_set ((λ k, (k, ip)) <$> tags)))
    (foldl (apply_tag ip issrc iplen) maps tags).
Proof.
  induction tags as [|k tags IH]; intros srcs dsts maps Hall Hsub Hinv.
  - simpl. destruct (truthy issrc);
      by rewrite !(right_id_L ∅ (∪)).
  - simpl. simpl in Hsub.
    pose proof (apply_tag_inv all srcs dsts maps ip issrc iplen k Hall
                  ltac:(set_solver) Hinv) as Hstep.
    apply (IH _ _ _ Hall ltac:(set_solver)) in Hstep.
    unfold src_pair, dst_pair in Hstep.
    destruct (truthy issrc).
    + rewrite !(right_id_L ∅ (∪)) in Hstep. rewrite !(right_id_L ∅ (∪)).
      by rewrite <- (assoc_L (∪)) in Hstep.
    + rewrite !(right_id_L ∅ (∪)) in Hstep. rewrite !(right_id_L ∅ (∪)).
      by rewrite <- (assoc_L (∪)) in Hstep.
Qed.

Lemma apply_body_inv (all : gset Z) (srcs dsts : gset (Z * Z))
    (maps : gmap Z corsaro_ip_hash * gmap Z corsaro_metric_ip_hash)
    (body : corsaro_report_msg_body) :
  Z.of_nat (size all) < 2 ^ 32 → list_to_set (body_tags body) ⊆ all →
  body_wf body → maps_inv all srcs dsts maps →
  ∃ maps', apply_body maps body = Some maps' ∧
           maps_inv all (srcs ∪ body_src_pairs body) (dsts ∪ body_dst_pairs body)
             maps'.
Proof.
  intros Hall Hsub Hwf Hinv. rewrite apply_body_tags by done.
  eexists. split; [done|]. by apply apply_tags_inv.
Qed.

Lemma unique_ips_empty (k : Z) : unique_ips k ∅ = 0%nat.
Proof.
  unfold unique_ips.
  assert (filter (λ kp : Z * Z, kp.1 = k) (∅ : gset (Z * Z)) = ∅) as ->.
  { apply set_eq. intros x. rewrite elem_of_filter. set_solver. }
  apply size_empty.
Qed.

Lemma maps_inv_empty (all : gset Z) : maps_inv all ∅ ∅ (∅, ∅).
Proof.
  split; [|split; [|split; [|split]]]; simpl.
  - intros ip iph. by rewrite lookup_empty.
  - intros k ip. unfold ip_bits. rewrite lookup_empty. simpl. set_solver.
  - intros k ip. unfold ip_bits. rewrite lookup_empty. simpl. set_solver.
  - intros k. unfold tally_srcips. rewrite lookup_empty, unique_ips_empty.
    reflexivity.
  - intros k. unfold tally_destips. rewrite lookup_empty, unique_ips_empty.
    reflexivity.
Qed.

Lemma apply_bodies_inv (all : gset Z) (bodies : list corsaro_report_msg_body) :
  ∀ (srcs dsts : gset (Z * Z))
    (maps : gmap Z corsaro_ip_hash * gmap Z corsaro_metric_ip_hash),
  Z.of_nat (size all) < 2 ^ 32 → tags_seen bodies ⊆ all →
  Forall body_wf bodies → maps_inv all srcs dsts maps →
  ∃ maps', apply_bodies maps bodies = Some maps' ∧
           maps_inv all (srcs ∪ src_pairs bodies) (dsts ∪ dst_pairs bodies) maps'.
Proof.
  induction bodies as [|body bodies IH]; intros srcs dsts maps Hall Hsub Hwf Hinv.
  - exists maps. split; [done|]. unfold src_pairs, dst_pairs. simpl.
    by rewrite !(right_id_L ∅ (∪)).
  - inversion Hwf as [|?? Hb Hrest]; subst.
    unfold tags_seen in Hsub. simpl in Hsub. fold (tags_seen bodies) in Hsub.
    destruct (apply_body_inv all srcs dsts maps body Hall ltac:(set_solver) Hb Hinv)
      as (maps1 & Happ & Hinv1).
    destruct (IH _ _ maps1 Hall ltac:(set_solver) Hrest Hinv1)
      as (maps' & Happ' & Hinv').
    exists maps'. split.
    + unfold apply_bodies in *. simpl. by rewrite Happ.
    + unfold src_pairs, dst_pairs in *. simpl.
      by rewrite !(assoc_L (∪)).
Qed.

End IntervalMaps.

(** ** Packet and byte tallies *)

Section PacketTallies.

Import Report3 Spec.

(** Recording a role leaves the packet and byte counters alone. *)
Lemma update_metric_packets (iphash : corsaro_ip_hash) (k issrc : Z)
    (m : corsaro_metric_ip_hash) :
  packets (update_metric iphash k issrc m).2 = packets m ∧
  bytes (update_metric iphash k issrc m).2 = bytes m.
Proof.
  assert (∀ iph, packets (update_metric_map iph k issrc m).2 = packets m ∧
                 bytes (update_metric_map iph k issrc m).2 = bytes m) as Hmap.
  { intros iph. unfold update_metric_map. rewrite role_branches.
    destruct (_ =? 0); [|done]. by destruct (truthy issrc). }
  assert (∀ iph idx, packets (mark_slot iph idx issrc m).2 = packets m ∧
                     bytes (mark_slot iph idx issrc m).2 = bytes m) as Hslot.
  { intros iph idx. unfold mark_slot.
    destruct (firstmetrics iph !! idx); [|done]. rewrite role_branches.
    destruct (_ =? 0); [|done]. by destruct (truthy issrc). }
  unfold update_metric, update_metric_array.
  destruct (metriccount iphash <=? METRIC_ARRAY_SIZE); [|apply Hmap].
  destruct (find_metric iphash k); [apply Hslot|].
  destruct (metriccount iphash =? METRIC_ARRAY_SIZE); [apply Hmap|apply Hslot].
Qed.

(** What one tag does to the packet and byte counters. *)
Lemma apply_tag_packets
    (maps : gmap Z corsaro_ip_hash * gmap Z corsaro_metric_ip_hash)
    (ip issrc iplen k k' : Z) :
  tally_packets (apply_tag ip issrc iplen maps k).2 k'
  = (if decide (k' = k) then
       if iplen >? 0 then uint32 (tally_packets maps.2 k + 1)
       else tally_packets maps.2 k
     else tally_packets maps.2 k') ∧
  tally_bytes (apply_tag ip issrc iplen maps k).2 k'
  = (if decide (k' = k) then
       if iplen >? 0 then uint64 (tally_bytes maps.2 k + iplen)
       else tally_bytes maps.2 k
     else tally_bytes maps.2 k').
Proof.
  destruct maps as [known tally]. unfold apply_tag. cbn [fst snd].
  destruct (update_iphash known ip) as [known1 thisip].
  rewrite update_knownip_metric_eq. cbv zeta. cbn [fst snd].
  set (m := match tally !! k with Some m => m | None => new_tally k end).
  set (m1 := if iplen >? 0 then add_packet m iplen else m).
  destruct (update_metric_packets thisip k issrc m1) as [Hp Hb].
  unfold tally_packets, tally_bytes.
  destruct (decide (k' = k)) as [->|Hne].
  - rewrite lookup_insert_eq. simpl. rewrite Hp, Hb.
    unfold m1, m. destruct (tally !! k); destruct (iplen >? 0); done.
  - by rewrite lookup_insert_ne.
Qed.

(** A body without bytes leaves the packet and byte counters alone. *)
Lemma apply_tags_no_bytes (ip issrc : Z) (tags : list Z) :
  ∀ (maps : gmap Z corsaro_ip_hash * gmap Z corsaro_metric_ip_hash) (k : Z),
  tally_packets (foldl (apply_tag ip issrc 0) maps tags).2 k
    = tally_packets maps.2 k ∧
  tally_bytes (foldl (apply_tag ip issrc 0) maps tags).2 k
    = tally_bytes maps.2 k.
Proof.
  induction tags as [|t tags IH]; intros maps k; simpl; [done|].
  destruct (IH (apply_tag ip issrc 0 maps t) k) as [-> ->].
  destruct (apply_tag_packets maps ip issrc 0 t k) as [-> ->].
  simpl. by destruct (decide (k = t)) as [->|].
Qed.

(** A body with bytes adds one packet and its bytes for each of its
    metrics, provided no metric occurs twice in it. *)
Lemma apply_tags_bytes (ip issrc iplen : Z) (tags : list Z) :
  0 < iplen → NoDup tags →
  ∀ (maps : gmap Z corsaro_ip_hash * gmap Z corsaro_metric_ip_hash) (k : Z),
  tally_packets (foldl (apply_tag ip issrc iplen) maps tags).2 k
    = (if decide (k ∈ tags) then uint32 (tally_packets maps.2 k + 1)
       else tally_packets maps.2 k) ∧
  tally_bytes (foldl (apply_tag ip issrc iplen) maps tags).2 k
    = (if decide (k ∈ tags) then uint64 (tally_bytes maps.2 k + iplen)
       else tally_bytes maps.2 k).
Proof.
  intros Hlen. induction tags as [|t tags IH]; intros Hnd maps k; simpl.
  { by destruct (decide (k ∈ [])) as [Hin|]; [apply elem_of_nil in Hin|]. }
  apply NoDup_cons in Hnd as [Hnotin Hnd].
  destruct (IH Hnd (apply_tag ip issrc iplen maps t) k) as [-> ->].
  destruct (apply_tag_packets maps ip issrc iplen t k) as [-> ->].
  assert ((iplen >? 0) = true) as -> by (apply Z.gtb_lt; lia).
  destruct (decide (k = t)) as [->|Hne].
  - destruct (decide (t ∈ tags)); [done|].
    by destruct (decide (t ∈ t :: tags)) as [|Hn]; [|exfalso; apply Hn; left].
  - destruct (decide (k ∈ tags)) as [Hin|Hnin].
    + by destruct (decide (k ∈ t :: tags)) as [|Hn]; [|exfalso; apply Hn; right].
    + destruct (decide (k ∈ t :: tags)) as [Hin|]; [|done].
      apply elem_of_cons in Hin as [?|?]; done.
Qed.

End PacketTallies.

(** ** The bodies built from a packet *)

Section PacketBodies.

Import Report3 Spec.

Variables (maxtags maxmind netacq pfx2as : Z).
Hypothesis maxtags_enough : 9 ≤ maxtags.

Lemma length_tag_of class v max : (length (tag_of class v max) ≤ 1)%nat.
Proof. unfold tag_of. destruct (_ && _); simpl; lia. Qed.

(** One call of [process_single_tag] appends the metric of the class. *)
Lemma process_single_tag_spec (class : corsaro_report_metric_class)
    (v max : Z) (body : corsaro_report_msg_body) (l : list Z) :
  body_holds maxtags body l → (length l < 9)%nat →
  ∃ body', process_single_tag maxtags class v max body = Some body' ∧
           body_holds maxtags body' (l ++ tag_of class v max) ∧
           b_ipaddr body' = b_ipaddr body ∧ issrc body' = issrc body ∧
           b_size body' = b_size body.
Proof.
  intros (Hnum & Htake & Hlen) Hl. unfold process_single_tag, tag_of.
  destruct ((max >? 0) && (uint32 v >=? max)).
  { exists body. rewrite app_nil_r. by repeat split. }
  destruct (Z.ltb_spec (numtags body) maxtags); [|lia].
  eexists. split; [done|]. cbn [b_ipaddr issrc b_size].
  split; [|done]. split; [|split]; cbn [numtags tags].
  - rewrite Hnum, length_app. simpl. unfold uint8.
    rewrite Z.mod_small by lia. lia.
  - rewrite Hnum, Nat2Z.id, length_app. simpl.
    replace (length l + 1)%nat with (S (length l)) by lia.
    rewrite take_S_insert by lia. by rewrite Htake.
  - by rewrite length_insert.
Qed.


Ltac tag_length :=
  rewrite ?length_app; simpl;
  repeat match goal with
         | |- context [length (tag_of ?c ?v ?m)] =>
           let H := fresh in
           pose proof (length_tag_of c v m) as H;
           generalize dependent (length (tag_of c v m)); intros
         end;
  lia.

Ltac single_tag :=
  match goal with
  | H : body_holds maxtags ?b ?l
    |- context [process_single_tag maxtags ?c ?v ?m ?b] =>
    let b' := fresh "body" in
    let Heq := fresh "Heq" in
    let Hh := fresh "Hholds" in
    let Hip := fresh "Hip" in
    let Hsrc := fresh "Hsrc" in
    let Hsz := fresh "Hsz" in
    destruct (process_single_tag_spec c v m b l H ltac:(tag_length))
      as (b' & Heq & Hh & Hip & Hsrc & Hsz);
    rewrite Heq; cbn [mbind option_bind]; clear Heq H
  end.

(** [process_tags] fills the body with the metrics of the packet. *)
Lemma process_tags_spec (tags : option corsaro_packet_tags) (iplen : Z)
    (slot : corsaro_report_msg_body) (addr src : Z) :
  length (Report3.tags slot) = Z.to_nat maxtags →
  ∃ body,
    process_tags maxtags maxmind netacq pfx2as tags iplen slot addr src
      = Some body ∧
    body_holds maxtags body (packet_metrics maxmind netacq pfx2as tags) ∧
    b_ipaddr body = addr ∧ issrc body = src ∧
    b_size body = if truthy src then iplen else 0.
Proof.
  intros Hlen. unfold process_tags, packet_metrics.
  set (body0 := mk_body addr src 0 (Report3.tags slot)
                  (if truthy src then iplen else 0)).
  assert (body_holds maxtags body0 []) as H0 by (by repeat split).
  assert (b_ipaddr body0 = addr ∧ issrc body0 = src ∧
          b_size body0 = if truthy src then iplen else 0) as (Hi0 & Hs0 & Hz0)
    by done.
  clearbody body0.
  destruct tags as [t|];
    [destruct (providers_used t =? 0);
     [|destruct (protocol t =? TRACE_IPPROTO_ICMP);
       [|destruct (protocol t =? TRACE_IPPROTO_TCP);
         [|destruct (protocol t =? TRACE_IPPROTO_UDP)]];
       destruct (maxmind_tagged maxmind t);
       destruct (netacq_tagged netacq t);
       destruct (pfx2as_tagged pfx2as t)]|];
    repeat single_tag;
    (eexists; split; [reflexivity|]);
    (split; [|split; [congruence|split; congruence]]);
    match goal with
    | H : body_holds _ _ _ |- _ =>
      rewrite ?app_nil_l, ?app_nil_r, <- ?app_assoc in H;
      rewrite ?app_nil_l, ?app_nil_r, <- ?app_assoc; exact H
    end.
Qed.


(** The classes that [process_tags] can emit, one after the other. *)
Lemma tag_of_class (class : corsaro_report_metric_class) (v max : Z) :
  (λ id, Z.shiftr id 32) <$> tag_of class v max
    `sublist_of` [class_value class].
Proof.
  unfold tag_of. destruct (_ && _); simpl; [apply sublist_nil_l|].
  rewrite gen_metricid3_class; [done| |apply uint32_range].
  destruct class; simpl; lia.
Qed.

Ltac class_sublist :=
  repeat first
    [ rewrite fmap_app
    | apply sublist_app
    | apply tag_of_class
    | apply (sublist_nil_l (A:=Z) []) ].

(** No metric occurs twice among the metrics of a packet, and the first
    one is the combined metric. *)
Lemma packet_metrics_NoDup (tags : option corsaro_packet_tags) :
  NoDup (packet_metrics maxmind netacq pfx2as tags) ∧
  head (packet_metrics maxmind netacq pfx2as tags) = Some 0.
Proof.
  split; [|done].
  apply (NoDup_fmap_1 (λ id, Z.shiftr id 32)).
  unfold packet_metrics.
  destruct tags as [t|];
    [destruct (providers_used t =? 0);
     [|destruct (protocol t =? TRACE_IPPROTO_ICMP);
       [|destruct (protocol t =? TRACE_IPPROTO_TCP);
         [|destruct (protocol t =? TRACE_IPPROTO_UDP)]];
       destruct (maxmind_tagged maxmind t);
       destruct (netacq_tagged netacq t);
       destruct (pfx2as_tagged pfx2as t)]|];
    (eapply sublist_NoDup; [|class_sublist]);
    simpl; apply NoDup_ListNoDup; repeat constructor; simpl; intuition lia.
Qed.

Lemma body_holds_tags (body : corsaro_report_msg_body) (l : list Z) :
  body_holds maxtags body l → body_tags body = l.
Proof.
  intros (Hnum & Htake & _). unfold body_tags. by rewrite Hnum, Nat2Z.id.
Qed.

End PacketBodies.

Section SourceOnly.

Import Report3 Spec.

Lemma packet_tallied (maxtags maxmind netacq pfx2as : Z)
    (tags : option corsaro_packet_tags) (iplen src dst : Z)
    (sslot dslot : corsaro_report_msg_body)
    (smaps dmaps : gmap Z corsaro_ip_hash * gmap Z corsaro_metric_ip_hash) :
  9 ≤ maxtags →
  length (Report3.tags sslot) = Z.to_nat maxtags →
  length (Report3.tags dslot) = Z.to_nat maxtags →
  0 < iplen →
  tallied_via_source maxtags maxmind netacq pfx2as tags iplen src dst
    sslot dslot smaps dmaps.
Proof.
  intros Hmax Hs Hd Hlen.
  destruct (process_tags_spec maxtags maxmind netacq pfx2as Hmax tags iplen
              sslot src 1 Hs) as (sbody & Hsb & Hsh & _ & Hsi & Hsz).
  destruct (process_tags_spec maxtags maxmind netacq pfx2as Hmax tags iplen
              dslot dst 0 Hd) as (dbody & Hdb & Hdh & _ & Hdi & Hdz).
  apply body_holds_tags in Hsh, Hdh.
  change (b_size sbody = iplen) in Hsz. change (b_size dbody = 0) in Hdz.
  destruct (packet_metrics_NoDup maxmind netacq pfx2as tags) as [Hnd Hhead].
  assert (body_wf sbody) as Hswf by (right; by rewrite Hsh).
  assert (body_wf dbody) as Hdwf by (right; by rewrite Hdh).
  exists sbody, dbody. eexists _, _.
  split; [done|]. split; [done|]. split; [done|]. split; [done|].
  split; [by rewrite Hsh, Hdh|].
  split; [by apply apply_body_tags|]. split; [by apply apply_body_tags|].
  rewrite Hsz, Hdz, Hsh, Hdh.
  split; [|split].
  - intros k Hk.
    destruct (apply_tags_bytes (b_ipaddr sbody) (issrc sbody) iplen _ Hlen Hnd
                smaps k) as [-> ->].
    by destruct (decide (k ∈ packet_metrics maxmind netacq pfx2as tags)).
  - intros k Hk.
    destruct (apply_tags_bytes (b_ipaddr sbody) (issrc sbody) iplen _ Hlen Hnd
                smaps k) as [-> ->].
    by destruct (decide (k ∈ packet_metrics maxmind netacq pfx2as tags)).
  - intros k. apply apply_tags_no_bytes.
Qed.

Lemma unique_ips_body (k ip : Z) (tags : list Z) (pairs : gset (Z * Z)) :
  k ∈ tags →
  unique_ips k (pairs ∪ list_to_set ((λ k', (k', ip)) <$> tags))
  = unique_ips k (pairs ∪ {[ (k, ip) ]}).
Proof.
  intros Hk. unfold unique_ips. f_equal. apply set_eq. intros [a b].
  rewrite !elem_of_filter, !elem_of_union, elem_of_list_to_set,
    list_elem_of_fmap, elem_of_singleton. simpl.
  split.
  - intros [-> [?|(k' & [= -> ->] & ?)]]; auto.
  - intros [-> [?|[= ->]]]; [auto|]. split; [done|]. right. eauto.
Qed.

Lemma tags_seen_app (l1 l2 : list corsaro_report_msg_body) :
  tags_seen (l1 ++ l2) = tags_seen l1 ∪ tags_seen l2.
Proof. unfold tags_seen. by rewrite fmap_app, union_list_app_L. Qed.

(** A source body without bytes, after any history of the interval. *)
Lemma zero_length_source (history : list corsaro_report_msg_body)
    (body : corsaro_report_msg_body) :
  Forall body_wf (history ++ [body]) →
  Z.of_nat (size (tags_seen (history ++ [body]))) < 2 ^ 32 →
  truthy (issrc body) = true → b_size body = 0 →
  ∃ maps maps',
    apply_bodies (∅, ∅) history = Some maps ∧
    apply_body maps body = Some maps' ∧
    (∀ k, tally_packets maps'.2 k = tally_packets maps.2 k ∧
          tally_bytes maps'.2 k = tally_bytes maps.2 k) ∧
    (∀ k, k ∈ body_tags body →
       tally_srcips maps'.2 k
       = if decide ((k, b_ipaddr body) ∈ src_pairs history)
         then tally_srcips maps.2 k
         else uint32 (tally_srcips maps.2 k + 1)).
Proof.
  intros Hwf Hbound Hsrc Hsize.
  apply Forall_app in Hwf as [Hwfh Hwfb]. inversion Hwfb as [|?? Hb _]; subst.
  rewrite tags_seen_app in Hbound.
  set (all := tags_seen history ∪ tags_seen [body]) in *.
  destruct (apply_bodies_inv all history ∅ ∅ (∅, ∅) Hbound ltac:(set_solver)
              Hwfh (maps_inv_empty _)) as (maps & Happ & Hinv).
  rewrite !(left_id_L ∅ (∪)) in Hinv.
  assert (list_to_set (body_tags body) ⊆ all) as Hsub.
  { unfold all, tags_seen. simpl. set_solver. }
  destruct (apply_body_inv all (src_pairs history) (dst_pairs history) maps
              body Hbound Hsub Hb Hinv) as (maps' & Happ' & Hinv').
  exists maps, maps'. split; [done|]. split; [done|]. split.
  - intros k. rewrite apply_body_tags in Happ' by done.
    injection Happ' as <-. rewrite Hsize. apply apply_tags_no_bytes.
  - intros k Hk.
    destruct Hinv as (_ & _ & _ & Hcs & _).
    destruct Hinv' as (_ & _ & _ & Hcs' & _).
    rewrite Hcs', Hcs. unfold body_src_pairs, body_pairs. rewrite Hsrc.
    rewrite unique_ips_body by done.
    destruct (decide ((k, b_ipaddr body) ∈ src_pairs history)) as [Hin|Hnin].
    + by rewrite unique_ips_old.
    + rewrite unique_ips_new by done. by rewrite uint32_succ.
Qed.

End SourceOnly.

(** C1. Starting from the empty maps of an interval and applying any list
    of well-formed update bodies (with fewer than 2^32 different metrics in
    all), the unique source counter of every metric is the number of
    distinct IPs reported as a source with that metric, and the unique
    destination counter the number of distinct IPs reported as a destination
    with it (modulo 2^32): a (metric, IP, role) triple is counted once
    however often it is repeated, whether the entry of the IP uses the
    inline array or the hash map. *)
Theorem C1_unique_ip_counted_once
    (bodies : list Report3.corsaro_report_msg_body) :
  Forall Spec.body_wf bodies →
  Z.of_nat (size (Spec.tags_seen bodies)) < 2 ^ 32 →
  ∃ maps, Spec.apply_bodies (∅, ∅) bodies = Some maps ∧
    ∀ k,
      Spec.tally_srcips maps.2 k
        = uint32 (Z.of_nat (Spec.unique_ips k (Spec.src_pairs bodies))) ∧
      Spec.tally_destips maps.2 k
        = uint32 (Z.of_nat (Spec.unique_ips k (Spec.dst_pairs bodies))).
Proof.
  intros Hwf Hbound.
  destruct (apply_bodies_inv (Spec.tags_seen bodies) bodies ∅ ∅ (∅, ∅) Hbound
              ltac:(done) Hwf (maps_inv_empty _))
    as (maps & Happ & (_ & _ & _ & Hsrc & Hdst)).
  exists maps. split; [done|]. intros k.
  rewrite !(left_id_L ∅ (∪)) in Hsrc, Hdst. by split.
Qed.

Lemma C1_unique_ip_counted_once_witness :
  ∃ maps, Spec.apply_bodies (∅, ∅) Spec.promoting_bodies = Some maps ∧
    ∀ k,
      Spec.tally_srcips maps.2 k
        = uint32 (Z.of_nat (Spec.unique_ips k
                              (Spec.src_pairs Spec.promoting_bodies))) ∧
      Spec.tally_destips maps.2 k
        = uint32 (Z.of_nat (Spec.unique_ips k
                              (Spec.dst_pairs Spec.promoting_bodies))).
Proof.
  apply C1_unique_ip_counted_once.
  - repeat constructor; right; reflexivity.
  - vm_compute. reflexivity.
Defined.

(** ** Update batches on their way to the tallies *)

(** C2. A TCP packet of 40 bytes that a processing thread has processed
    never reaches a tally. The thread enqueues its two updates in a
    message whose type was never assigned and is 0, which is
    [CORSARO_IP_MESSAGE_HALT]; the tracker that reads the queue takes the
    message as a request to halt, applies none of the updates and leaves
    its loop with empty tallies: the combined metric has 0 packets and 0
    bytes, not 1 packet and 40 bytes. The update branch of the tracker,
    had it been reached, would have tallied the packet once: 1 packet and
    40 bytes for the combined metric. *)
Theorem C2_processed_packet_not_tallied :
  PipelineSpec.thread_queue
    [ReportThreads.StartInterval 60; ThreadSpec.packet_5_6;
     ReportThreads.EndInterval]
  = Some [ThreadSpec.batch_5_6; PipelineSpec.interval_end_0 60] ∧
  Report3.msgtype ThreadSpec.batch_5_6 = Report3.CORSARO_IP_MESSAGE_HALT ∧
  Report3.tracker_run (Report3.init_iptracker 1)
    [Report3.Deliver ThreadSpec.batch_5_6;
     Report3.Deliver (PipelineSpec.interval_end_0 60)]
  = Some (Report3.set_haltphase (Report3.init_iptracker 1) 2) ∧
  PipelineSpec.combined_counters
    (Report3.currentresult
       (Report3.set_haltphase (Report3.init_iptracker 1) 2))
  = (0, 0, 0, 0) ∧
  (λ track, PipelineSpec.combined_counters (Report3.currentresult track))
    <$> Report3.process_update (Report3.init_iptracker 1) ThreadSpec.batch_5_6
  = Some (1, 1, 1, 40).
Proof. repeat split; vm_compute; reflexivity. Qed.

(** C5. The update messages that a processing thread sends are routed to
    no map at all. Processing thread 0 of two ends the interval 60
    without packets and then processes a packet in the interval 120; its
    queue holds the interval-end message for 60, the batch with the
    updates of the packet and the interval-end message for 120. The batch
    has type 0 ([CORSARO_IP_MESSAGE_HALT]). A tracker that reads the
    interval-end message and then the batch has recorded the sender in its
    outstanding list, yet its maps and tallies of the next interval stay
    empty and it enters halt phase 1; a tracker with an empty outstanding
    list that reads the batch keeps empty maps and tallies of the current
    interval and halts (phase 2). The update branch, had it been reached,
    would have put the four metrics of the packet in the tally of the
    next, respectively the current, interval. *)
Theorem C5_update_batch_not_applied :
  PipelineSpec.thread_queue
    [ReportThreads.StartInterval 60; ReportThreads.EndInterval;
     ReportThreads.StartInterval 120; ThreadSpec.packet_5_6;
     ReportThreads.EndInterval]
  = Some [PipelineSpec.interval_end_0 60; ThreadSpec.batch_5_6;
          PipelineSpec.interval_end_0 120] ∧
  Report3.msgtype ThreadSpec.batch_5_6 = Report3.CORSARO_IP_MESSAGE_HALT ∧
  (Report3.handle_message (Report3.init_iptracker 2)
     (PipelineSpec.interval_end_0 60)
   = Some (Report3.set_outstanding (Report3.init_iptracker 2)
             [Report3.new_out_interval 60 0]) ∧
   Report3.sender_in_outstanding [Report3.new_out_interval 60 0] 0 = true ∧
   Report3.handle_message
     (Report3.set_outstanding (Report3.init_iptracker 2)
        [Report3.new_out_interval 60 0]) ThreadSpec.batch_5_6
   = Some (Report3.set_haltphase
             (Report3.set_outstanding (Report3.init_iptracker 2)
                [Report3.new_out_interval 60 0]) 1) ∧
   (λ track, size (Report3.nextresult track))
     <$> Report3.process_update
           (Report3.set_outstanding (Report3.init_iptracker 2)
              [Report3.new_out_interval 60 0]) ThreadSpec.batch_5_6
   = Some 4%nat) ∧
  (Report3.handle_message (Report3.init_iptracker 2) ThreadSpec.batch_5_6
   = Some (Report3.set_haltphase (Report3.init_iptracker 2) 2) ∧
   (λ track, size (Report3.currentresult track))
     <$> Report3.process_update (Report3.init_iptracker 2)
           ThreadSpec.batch_5_6
   = Some 4%nat).
Proof. repeat split; vm_compute; reflexivity. Qed.

(** C10. A packet whose IP length field is 0 is not counted as a unique
    source. The processing thread enqueues its updates (the source update
    carries 0 bytes) in a message of type 0
    ([CORSARO_IP_MESSAGE_HALT]); the tracker takes the message as a
    request to halt and leaves its loop with empty tallies, so the
    combined metric has 0 unique sources, not 1. The update branch of the
    tracker, had it been reached, would have counted the source without
    the packet: 1 unique source, 0 packets and 0 bytes. *)
Theorem C10_zero_length_packet_not_counted :
  PipelineSpec.thread_queue
    [ReportThreads.StartInterval 60; PipelineSpec.packet_5_6_len0;
     ReportThreads.EndInterval]
  = Some [PipelineSpec.batch_5_6_len0; PipelineSpec.interval_end_0 60] ∧
  Report3.msgtype PipelineSpec.batch_5_6_len0
  = Report3.CORSARO_IP_MESSAGE_HALT ∧
  Report3.tracker_run (Report3.init_iptracker 1)
    [Report3.Deliver PipelineSpec.batch_5_6_len0;
     Report3.Deliver (PipelineSpec.interval_end_0 60)]
  = Some (Report3.set_haltphase (Report3.init_iptracker 1) 2) ∧
  PipelineSpec.combined_counters
    (Report3.currentresult
       (Report3.set_haltphase (Report3.init_iptracker 1) 2))
  = (0, 0, 0, 0) ∧
  (λ track, PipelineSpec.combined_counters (Report3.currentresult track))
    <$> Report3.process_update (Report3.init_iptracker 1)
          PipelineSpec.batch_5_6_len0
  = Some (1, 1, 0, 0).
Proof. repeat split; vm_compute; reflexivity. Qed.

(** ** Processing threads: what reaches the trackers *)

Section ThreadProofs.

Import Report3 Spec ReportThreads ThreadSpec.

Variables (maxtags maxmind netacq pfx2as : Z).
Variable fresh : list corsaro_report_msg_body.
Variables (tracker_count threadid : Z).
Hypothesis maxtags_enough : 9 ≤ maxtags.
Hypothesis trackers : 0 < tracker_count.
Hypothesis fresh_ok : buffer_ok maxtags fresh.

Lemma tracker_of_lt (addr : Z) :
  (tracker_of tracker_count addr < Z.to_nat tracker_count)%nat.
Proof.
  unfold tracker_of.
  pose proof (Z.mod_pos_bound (Z.shiftr addr 24) tracker_count trackers). lia.
Qed.

Lemma updates_of_snoc (msg : corsaro_report_ip_message)
    (body : corsaro_report_msg_body) :
  0 ≤ bodycount msg →
  (Z.to_nat (bodycount msg) < length (update msg))%nat →
  updates_of (mk_msg (msgtype msg) (sender msg) (timestamp msg)
                (bodycount msg + 1)
                (<[Z.to_nat (bodycount msg) := body]> (update msg)))
  = updates_of msg ++ [body_view body].
Proof.
  intros Hpos Hlt. unfold updates_of, msg_bodies. cbn [bodycount update].
  replace (Z.to_nat (bodycount msg + 1)) with (S (Z.to_nat (bodycount msg)))
    by lia.
  rewrite take_S_insert by done. by rewrite fmap_app.
Qed.

Lemma updates_of_empty (ty s ts : Z) (buf : list corsaro_report_msg_body) :
  updates_of (mk_msg ty s ts 0 buf) = [].
Proof. done. Qed.

Lemma fresh_pending_ok (ty s ts : Z) :
  ty = 0 → s = uint8 threadid → ts = 0 →
  pending_ok maxtags threadid (mk_msg ty s ts 0 fresh).
Proof.
  intros -> -> ->. split; [done|]. split; [done|]. split; [done|].
  split; [|exact fresh_ok]. cbn [bodycount]. unfold REPORT_BATCH_SIZE. lia.
Qed.

(** One call of [update_metrics_for_address]: it succeeds, and the
    tracker of the address is handed one more update. *)
Lemma update_metrics_effect (state : corsaro_report_state)
    (queues : list (list corsaro_report_ip_message))
    (addr issrc iplen : Z) (tags : option corsaro_packet_tags) :
  thread_inv maxtags tracker_count threadid (nextmsg state) queues →
  Forall (Forall sent_by_thread) queues →
  ∃ state' queues',
    update_metrics_for_address maxtags maxmind netacq pfx2as fresh
      tracker_count queues state addr issrc iplen tags = Some (state', queues') ∧
    thread_inv maxtags tracker_count threadid (nextmsg state') queues' ∧
    Forall (Forall sent_by_thread) queues' ∧
    Report3.threadid state' = Report3.threadid state ∧
    ∀ t, tracker_updates (nextmsg state') queues' t
         = tracker_updates (nextmsg state) queues t
           ++ (if decide (tracker_of tracker_count addr = t)
               then [(addr, issrc, if truthy issrc then iplen else 0,
                      packet_metrics maxmind netacq pfx2as tags)]
               else []).
Proof.
  intros (Hlm & Hlq & Hall) Htyped.
  unfold update_metrics_for_address.
  destruct (Z.leb_spec tracker_count 0); [lia|].
  fold (tracker_of tracker_count addr).
  pose proof (tracker_of_lt addr) as Ht0.
  set (t0 := tracker_of tracker_count addr) in *.
  destruct (lookup_lt_is_Some_2 (nextmsg state) t0) as [msg Hmsg]; [lia|].
  destruct (lookup_lt_is_Some_2 queues t0) as [queue Hqueue]; [lia|].
  rewrite Hmsg. cbn [mbind option_bind].
  pose proof (Forall_lookup_1 _ _ _ _ Hall Hmsg)
    as (Hty & Hsender & Hts & Hcount & Hbuflen & Hbuf).
  assert (length (update msg) = 500%nat ∧ 0 ≤ bodycount msg < 500)
    as [Hlen500 Hc500].
  { unfold REPORT_BATCH_SIZE in *. lia. }
  destruct (lookup_lt_is_Some_2 (update msg) (Z.to_nat (bodycount msg)))
    as [slot Hslot]; [lia|].
  rewrite Hslot. cbn [mbind option_bind].
  destruct (process_tags_spec maxtags maxmind netacq pfx2as maxtags_enough
              tags iplen slot addr issrc
              (Forall_lookup_1 _ _ _ _ Hbuf Hslot))
    as (body & Hbody & Hholds & Hip & Hsrc & Hsize).
  rewrite Hbody. cbn [mbind option_bind].
  cbn [bodycount msgtype sender timestamp update].
  assert (uint16 (bodycount msg + 1) = bodycount msg + 1) as ->.
  { apply uint16_small. unfold REPORT_BATCH_SIZE in Hcount. lia. }
  assert (body_view body
          = (addr, issrc, if truthy issrc then iplen else 0,
             packet_metrics maxmind netacq pfx2as tags)) as Hview.
  { unfold body_view. rewrite Hip, Hsrc, Hsize.
    by rewrite (body_holds_tags maxtags body _ Hholds). }
  pose proof (updates_of_snoc msg body ltac:(lia) ltac:(lia)) as Hsnoc.
  rewrite Hview in Hsnoc.
  set (msg1 := mk_msg (msgtype msg) (sender msg) (timestamp msg)
                 (bodycount msg + 1)
                 (<[Z.to_nat (bodycount msg) := body]> (update msg))) in *.
  assert (buffer_ok maxtags (update msg1)) as Hbuf1.
  { split; cbn [update msg1]; [by rewrite length_insert|].
    apply Forall_insert; [done|].
    by destruct Hholds as (_ & _ & Hl). }
  destruct (Z.ltb_spec (bodycount msg + 1) REPORT_BATCH_SIZE) as [Hlt|Hge].
  - eexists _, _. split; [reflexivity|]. cbn [nextmsg Report3.threadid].
    split; [|split; [done|split; [done|]]].
    + split; [by rewrite length_insert|]. split; [done|].
      apply Forall_insert; [done|].
      split; [done|]. split; [done|]. split; [done|].
      split; [cbn [bodycount msg1]; lia|done].
    + intros t. unfold tracker_updates.
      destruct (decide (t0 = t)) as [<-|Hne].
      * rewrite list_lookup_insert_eq by lia. rewrite Hmsg.
        cbn [default from_option id]. rewrite Hsnoc. by rewrite app_assoc.
      * rewrite list_lookup_insert_ne by done. by rewrite app_nil_r.
  - rewrite Hqueue. cbn [mbind option_bind].
    eexists _, _. split; [reflexivity|]. cbn [nextmsg Report3.threadid].
    split; [|split; [|split; [done|]]].
    + split; [by rewrite length_insert|].
      split; [by rewrite length_insert|].
      apply Forall_insert; [done|]. by apply fresh_pending_ok.
    + apply Forall_insert; [done|]. apply Forall_app. split.
      * exact (Forall_lookup_1 _ _ _ _ Htyped Hqueue).
      * apply Forall_singleton. right. exact Hty.
    + intros t. unfold tracker_updates.
      destruct (decide (t0 = t)) as [<-|Hne].
      * rewrite !list_lookup_insert_eq by lia. rewrite Hmsg, Hqueue.
        cbn [default from_option id]. rewrite updates_of_empty, app_nil_r.
        rewrite bind_app. cbn [mbind list_bind]. rewrite app_nil_r, Hsnoc.
        by rewrite app_assoc.
      * rewrite !list_lookup_insert_ne by done. by rewrite app_nil_r.
Qed.

(** The loop over the trackers, in closed form. *)
Lemma flush_fold (signal : corsaro_report_ip_message)
    (msgs : list corsaro_report_ip_message)
    (queues : list (list corsaro_report_ip_message)) (k : nat) :
  (k ≤ length msgs)%nat → length queues = length msgs →
  foldl (flush_and_signal fresh signal) (Some (msgs, queues)) (seq 0 k)
  = Some ((flushed fresh <$> take k msgs) ++ drop k msgs,
          zip_with (flushed_queue signal) (take k queues) (take k msgs)
          ++ drop k queues).
Proof.
  intros Hk Hlen. induction k as [|k IH].
  { simpl. by rewrite !drop_0. }
  rewrite seq_S, foldl_app, IH by lia. cbn [foldl Nat.add].
  destruct (lookup_lt_is_Some_2 msgs k) as [msg Hmsg]; [lia|].
  destruct (lookup_lt_is_Some_2 queues k) as [queue Hqueue]; [lia|].
  assert (length (flushed fresh <$> take k msgs) = k) as Hl1.
  { rewrite length_fmap, length_take. lia. }
  assert (length (zip_with (flushed_queue signal) (take k queues) (take k msgs))
          = k) as Hl2.
  { rewrite length_zip_with, !length_take. lia. }
  assert (((flushed fresh <$> take k msgs) ++ drop k msgs) !! k = Some msg)
    as Hlk1.
  { rewrite lookup_app_r by lia. rewrite Hl1, Nat.sub_diag.
    by rewrite lookup_drop, Nat.add_0_r. }
  assert ((zip_with (flushed_queue signal) (take k queues) (take k msgs)
           ++ drop k queues) !! k = Some queue) as Hlk2.
  { rewrite lookup_app_r by lia. rewrite Hl2, Nat.sub_diag.
    by rewrite lookup_drop, Nat.add_0_r. }
  unfold flush_and_signal at 1. cbn [mbind option_bind].
  rewrite Hlk1. cbn [mbind option_bind]. rewrite Hlk2. cbn [mbind option_bind].
  rewrite (drop_S _ _ _ Hmsg), (drop_S _ _ _ Hqueue).
  rewrite (take_S_r _ _ _ Hmsg), (take_S_r _ _ _ Hqueue).
  rewrite fmap_app.
  rewrite (zip_with_app _ (take k queues) [queue] (take k msgs) [msg])
    by (rewrite !length_take; lia).
  cbn [fmap list_fmap zip_with]. rewrite <- !app_assoc. cbn [app].
  rewrite (insert_app_r_alt (flushed fresh <$> take k msgs)) by lia.
  rewrite !(insert_app_r_alt (zip_with _ _ _)) by lia.
  rewrite Hl1, Hl2, Nat.sub_diag. cbn [insert list_insert].
  assert (flushed fresh msg
          = if bodycount msg >? 0
            then mk_msg (msgtype msg) (sender msg) (timestamp msg) 0 fresh
            else msg) as -> by done.
  assert (flushed_queue signal queue msg
          = if bodycount msg >? 0 then (queue ++ [msg]) ++ [signal]
            else queue ++ [signal]) as -> by done.
  destruct (bodycount msg >? 0); by rewrite <- ?app_assoc.
Qed.

Lemma flush_all (signal : corsaro_report_ip_message)
    (msgs : list corsaro_report_ip_message)
    (queues : list (list corsaro_report_ip_message)) :
  length msgs = Z.to_nat tracker_count →
  length queues = Z.to_nat tracker_count →
  foldl (flush_and_signal fresh signal) (Some (msgs, queues))
    (seq 0 (Z.to_nat tracker_count))
  = Some (flushed fresh <$> msgs,
          zip_with (flushed_queue signal) queues msgs).
Proof.
  intros Hm Hq. rewrite flush_fold by lia.
  rewrite !take_ge, !drop_ge by lia. by rewrite !app_nil_r.
Qed.

Lemma flushed_pending_ok (msg : corsaro_report_ip_message) :
  pending_ok maxtags threadid msg →
  pending_ok maxtags threadid (flushed fresh msg) ∧
  bodycount (flushed fresh msg) = 0.
Proof.
  intros (Hty & Hs & Hts & Hc & Hbuf). unfold flushed.
  destruct (Z.gtb_spec (bodycount msg) 0).
  - split; [by apply fresh_pending_ok|done].
  - split; [done|lia].
Qed.

Lemma updates_of_none (msg : corsaro_report_ip_message) :
  bodycount msg = 0 → updates_of msg = [].
Proof. intros H. unfold updates_of, msg_bodies. by rewrite H. Qed.

(** The updates of a tracker after the loop: the pending ones are now in
    the queue, before the signal, and nothing is pending. *)
Lemma flushed_updates (signal : corsaro_report_ip_message)
    (msgs : list corsaro_report_ip_message)
    (queues : list (list corsaro_report_ip_message)) (t : nat) :
  length msgs = Z.to_nat tracker_count →
  length queues = Z.to_nat tracker_count →
  Forall (pending_ok maxtags threadid) msgs →
  (t < Z.to_nat tracker_count)%nat →
  ∃ q, zip_with (flushed_queue signal) queues msgs !! t = Some (q ++ [signal]) ∧
       q ≫= updates_of = tracker_updates msgs queues t ∧
       bodycount <$> (flushed fresh <$> msgs) !! t = Some 0.
Proof.
  intros Hm Hq Hall Ht.
  destruct (lookup_lt_is_Some_2 msgs t) as [msg Hmsg]; [lia|].
  destruct (lookup_lt_is_Some_2 queues t) as [queue Hqueue]; [lia|].
  pose proof (Forall_lookup_1 _ _ _ _ Hall Hmsg) as Hok.
  destruct (flushed_pending_ok msg Hok) as [_ Hzero].
  destruct Hok as (_ & _ & _ & Hc & _).
  rewrite lookup_zip_with, Hqueue, list_lookup_fmap, Hmsg. simpl.
  rewrite Hzero. unfold tracker_updates. rewrite Hqueue, Hmsg. simpl.
  unfold flushed_queue. destruct (Z.gtb_spec (bodycount msg) 0).
  - exists (queue ++ [msg]). split; [done|]. split; [|done].
    rewrite bind_app. cbn [mbind list_bind]. by rewrite app_nil_r.
  - exists queue. split; [done|]. split; [|done].
    rewrite (updates_of_none msg) by lia. by rewrite app_nil_r.
Qed.

Lemma flushed_queue_typed (signal : corsaro_report_ip_message)
    (queue : list corsaro_report_ip_message) (msg : corsaro_report_ip_message) :
  Forall sent_by_thread queue → sent_by_thread signal →
  pending_ok maxtags threadid msg →
  Forall sent_by_thread (flushed_queue signal queue msg).
Proof.
  intros Hq Hs (Hty & _). unfold flushed_queue.
  destruct (bodycount msg >? 0); repeat apply Forall_app_2; try done;
    apply Forall_singleton; try done. by right.
Qed.

(** What a run of the loop over the trackers does, for either signal. *)
Lemma flush_effect (signal : corsaro_report_ip_message)
    (msgs : list corsaro_report_ip_message)
    (queues : list (list corsaro_report_ip_message)) :
  thread_inv maxtags tracker_count threadid msgs queues →
  Forall (Forall sent_by_thread) queues →
  sent_by_thread signal → bodycount signal = 0 →
  thread_inv maxtags tracker_count threadid (flushed fresh <$> msgs)
    (zip_with (flushed_queue signal) queues msgs) ∧
  Forall (Forall sent_by_thread) (zip_with (flushed_queue signal) queues msgs) ∧
  ∀ t, tracker_updates (flushed fresh <$> msgs)
         (zip_with (flushed_queue signal) queues msgs) t
       = tracker_updates msgs queues t.
Proof.
  intros (Hm & Hq & Hall) Htyped Hsig Hsig0. split; [|split].
  - split; [by rewrite length_fmap|].
    split; [rewrite length_zip_with; lia|].
    apply Forall_fmap. eapply Forall_impl; [exact Hall|].
    intros msg Hok. by apply flushed_pending_ok.
  - apply Forall_lookup_2. intros i q'. rewrite lookup_zip_with.
    destruct (queues !! i) as [queue|] eqn:Hqueue; [|done]. simpl.
    destruct (msgs !! i) as [msg|] eqn:Hmsg; [|done]. simpl.
    intros [= <-]. apply flushed_queue_typed; [|done|].
    + exact (Forall_lookup_1 _ _ _ _ Htyped Hqueue).
    + exact (Forall_lookup_1 _ _ _ _ Hall Hmsg).
  - intros t. destruct (decide (t < Z.to_nat tracker_count)%nat) as [Ht|Ht].
    + destruct (flushed_updates signal msgs queues t Hm Hq Hall Ht)
        as (q & Hq' & Hup & Hzero).
      unfold tracker_updates at 1. rewrite Hq'. cbn [default from_option id].
      rewrite bind_app. cbn [mbind list_bind].
      rewrite (updates_of_none signal Hsig0), !app_nil_r.
      destruct ((flushed fresh <$> msgs) !! t) as [m|] eqn:Hm'; [|done].
      cbn [fmap option_fmap option_map from_option] in *.
      injection Hzero as Hzero.
      by rewrite (updates_of_none m Hzero), app_nil_r.
    + unfold tracker_updates.
      rewrite (lookup_ge_None_2 (zip_with _ _ _))
        by (rewrite length_zip_with; lia).
      rewrite (lookup_ge_None_2 (flushed fresh <$> msgs))
        by (rewrite length_fmap; lia).
      rewrite (lookup_ge_None_2 queues), (lookup_ge_None_2 msgs) by lia.
      done.
Qed.

Lemma interval_message_sent (local : corsaro_report_local) :
  sent_by_thread (interval_message local) ∧
  bodycount (interval_message local) = 0.
Proof. split; [by left|done]. Qed.

(** One call of the framework. *)
Lemma thread_step_effect
    (s : corsaro_report_local * list (list corsaro_report_ip_message))
    (call : thread_call) :
  thread_inv maxtags tracker_count threadid (nextmsg (thread_state s.1)) s.2 →
  Forall (Forall sent_by_thread) s.2 →
  ∃ s',
    thread_step maxtags maxmind netacq pfx2as fresh tracker_count s call
      = Some s' ∧
    thread_inv maxtags tracker_count threadid
      (nextmsg (thread_state s'.1)) s'.2 ∧
    Forall (Forall sent_by_thread) s'.2 ∧
    Report3.threadid (thread_state s'.1) = Report3.threadid (thread_state s.1) ∧
    current_interval s'.1
      = match call with
        | StartInterval t => uint32 t
        | _ => current_interval s.1
        end ∧
    ∀ t, tracker_updates (nextmsg (thread_state s'.1)) s'.2 t
         = tracker_updates (nextmsg (thread_state s.1)) s.2 t
           ++ call_updates maxmind netacq pfx2as tracker_count t call.
Proof.
  destruct s as [local queues]. cbn [fst snd]. intros Hinv Htyped.
  destruct call as [ts|[[[src dst] iplen]|] tags|]; cbn [thread_step fst snd].
  - eexists. split; [reflexivity|]. cbn [fst snd thread_state current_interval].
    repeat (split; [done|]). intros t. simpl. by rewrite app_nil_r.
  - unfold corsaro_report_process_packet.
    destruct (update_metrics_effect (thread_state local) queues src 1 iplen tags
                Hinv Htyped) as (s1 & q1 & -> & Hinv1 & Hty1 & Hid1 & Hup1).
    cbn [mbind option_bind].
    destruct (update_metrics_effect s1 q1 dst 0 iplen tags Hinv1 Hty1)
      as (s2 & q2 & -> & Hinv2 & Hty2 & Hid2 & Hup2).
    cbn [mbind option_bind].
    eexists. split; [reflexivity|]. cbn [fst snd thread_state current_interval].
    split; [done|]. split; [done|]. split; [congruence|]. split; [done|].
    intros t. rewrite Hup2, Hup1. cbn [call_updates truthy].
    by rewrite <- app_assoc.
  - eexists. split; [reflexivity|]. cbn [fst snd]. split; [done|].
    split; [done|]. split; [done|]. split; [done|].
    intros t. simpl. by rewrite app_nil_r.
  - unfold corsaro_report_end_interval.
    destruct Hinv as (Hm & Hq & Hall).
    rewrite flush_all by done. cbn [mbind option_bind].
    destruct (interval_message_sent local) as [Hsig Hsig0].
    destruct (flush_effect (interval_message local)
                (nextmsg (thread_state local)) queues
                (conj Hm (conj Hq Hall)) Htyped Hsig Hsig0)
      as (Hinv' & Hty' & Hup').
    eexists. split; [reflexivity|].
    cbn [fst snd thread_state current_interval nextmsg Report3.threadid].
    split; [done|]. split; [done|]. split; [done|]. split; [done|].
    intros t. rewrite Hup'. simpl. by rewrite app_nil_r.
Qed.

(** A run of calls. *)
Lemma thread_run_effect (calls : list thread_call) :
  ∀ s : corsaro_report_local * list (list corsaro_report_ip_message),
  thread_inv maxtags tracker_count threadid (nextmsg (thread_state s.1)) s.2 →
  Forall (Forall sent_by_thread) s.2 →
  ∃ s',
    thread_run maxtags maxmind netacq pfx2as fresh tracker_count s calls
      = Some s' ∧
    thread_inv maxtags tracker_count threadid
      (nextmsg (thread_state s'.1)) s'.2 ∧
    Forall (Forall sent_by_thread) s'.2 ∧
    Report3.threadid (thread_state s'.1) = Report3.threadid (thread_state s.1) ∧
    current_interval s'.1
      = foldl (λ ts call, match call with
                          | StartInterval t => uint32 t
                          | _ => ts
                          end) (current_interval s.1) calls ∧
    ∀ t, tracker_updates (nextmsg (thread_state s'.1)) s'.2 t
         = tracker_updates (nextmsg (thread_state s.1)) s.2 t
           ++ mjoin (call_updates maxmind netacq pfx2as tracker_count t <$> calls).
Proof.
  unfold thread_run. induction calls as [|call calls IH]; intros s Hinv Htyped.
  { exists s. simpl. repeat (split; [done|]). intros t. by rewrite app_nil_r. }
  destruct (thread_step_effect s call Hinv Htyped)
    as (s1 & Hstep & Hinv1 & Hty1 & Hid1 & Hci1 & Hup1).
  destruct (IH s1 Hinv1 Hty1) as (s' & Hrun & Hinv' & Hty' & Hid' & Hci' & Hup').
  exists s'. cbn [foldl mbind option_bind]. rewrite Hstep.
  cbn [mbind option_bind]. split; [exact Hrun|].
  split; [done|]. split; [done|]. split; [congruence|]. split.
  - rewrite Hci', Hci1. simpl. by destruct call.
  - intros t. rewrite Hup', Hup1. simpl. by rewrite <- app_assoc.
Qed.

Lemma init_processing_inv :
  thread_inv maxtags tracker_count threadid
    (nextmsg (thread_state (corsaro_report_init_processing fresh tracker_count
                              threadid)))
    (replicate (Z.to_nat tracker_count) []) ∧
  Forall (Forall sent_by_thread)
    (replicate (Z.to_nat tracker_count)
       ([] : list corsaro_report_ip_message)).
Proof.
  split; [|by apply Forall_replicate].
  unfold corsaro_report_init_processing. cbn [thread_state nextmsg].
  split; [by rewrite length_replicate|].
  split; [by rewrite length_replicate|].
  apply Forall_replicate. by apply fresh_pending_ok.
Qed.

Lemma init_processing_updates (t : nat) :
  tracker_updates
    (nextmsg (thread_state (corsaro_report_init_processing fresh tracker_count
                              threadid)))
    (replicate (Z.to_nat tracker_count) []) t = [].
Proof.
  unfold tracker_updates, corsaro_report_init_processing.
  cbn [thread_state nextmsg].
  assert (default [] (replicate (Z.to_nat tracker_count)
                        ([] : list corsaro_report_ip_message) !! t) = [])
    as ->.
  { destruct (replicate _ [] !! t) as [q|] eqn:Hq; [|done].
    by apply lookup_replicate_1 in Hq as [-> _]. }
  destruct (replicate _ _ !! t) as [m|] eqn:Hm; [|done].
  by apply lookup_replicate_1 in Hm as [-> _].
Qed.

End ThreadProofs.

(** X1. Whatever calls the framework makes on a processing thread after
    [corsaro_report_init_processing] (interval starts, packets, interval
    ends), none of them fails: no update is written outside the buffer of
    a pending message and the tag capacity is never exceeded; every
    pending message keeps fewer than [REPORT_BATCH_SIZE] updates in a
    buffer of [REPORT_BATCH_SIZE] slots. It needs one tracker at least, a
    tag capacity of 9 and buffers of the size the memory handler is set up
    with. *)
Theorem X1_thread_calls_never_fail (maxtags maxmind netacq pfx2as : Z)
    (fresh : list Report3.corsaro_report_msg_body)
    (tracker_count threadid : Z) (calls : list ReportThreads.thread_call) :
  9 ≤ maxtags → 0 < tracker_count → ThreadSpec.buffer_ok maxtags fresh →
  ∃ local' queues',
    ReportThreads.thread_run maxtags maxmind netacq pfx2as fresh tracker_count
      (ReportThreads.corsaro_report_init_processing fresh tracker_count threadid,
       replicate (Z.to_nat tracker_count) []) calls
    = Some (local', queues') ∧
    length queues' = Z.to_nat tracker_count ∧
    length (Report3.nextmsg (ReportThreads.thread_state local'))
    = Z.to_nat tracker_count ∧
    ∀ t msg,
      Report3.nextmsg (ReportThreads.thread_state local') !! t = Some msg →
      0 ≤ Report3.bodycount msg < Report3.REPORT_BATCH_SIZE ∧
      length (Report3.update msg) = Z.to_nat Report3.REPORT_BATCH_SIZE.
Proof.
  intros Hmax Htc Hbuf.
  destruct (init_processing_inv maxtags fresh tracker_count threadid Hbuf)
    as [Hinv Hty].
  destruct (thread_run_effect maxtags maxmind netacq pfx2as fresh tracker_count
              threadid Hmax Htc Hbuf calls (_, _) Hinv Hty)
    as ([local' queues'] & Hrun & (Hm & Hq & Hall) & _).
  exists local', queues'. split; [exact Hrun|]. split; [exact Hq|].
  split; [exact Hm|]. intros t msg Hmsg.
  destruct (Forall_lookup_1 _ _ _ _ Hall Hmsg) as (_ & _ & _ & Hc & Hl & _).
  by split.
Qed.

Lemma X1_thread_calls_never_fail_witness :
  ∃ local' queues',
    ReportThreads.thread_run 10 1 2 3 ThreadSpec.blank_buffer 4
      (ReportThreads.corsaro_report_init_processing ThreadSpec.blank_buffer 4 0,
       replicate (Z.to_nat 4) [])
      [ReportThreads.StartInterval 60; ThreadSpec.packet_5_6;
       ReportThreads.EndInterval]
    = Some (local', queues') ∧
    length queues' = Z.to_nat 4 ∧
    length (Report3.nextmsg (ReportThreads.thread_state local')) = Z.to_nat 4 ∧
    ∀ t msg,
      Report3.nextmsg (ReportThreads.thread_state local') !! t = Some msg →
      0 ≤ Report3.bodycount msg < Report3.REPORT_BATCH_SIZE ∧
      length (Report3.update msg) = Z.to_nat Report3.REPORT_BATCH_SIZE.
Proof.
  apply X1_thread_calls_never_fail.
  - lia.
  - lia.
  - split; [reflexivity|]. apply Forall_replicate. reflexivity.
Defined.

(** X2. The updates that a processing thread has handed over for a
    tracker (those in the messages on its queue, then those of its
    pending message) are, in order, one update per address of every
    packet with an IPv4 header whose address hashes to that tracker: the
    source address with the IP length, the destination address with 0
    bytes, each with the metrics of the packet. Nothing is lost, repeated
    or reordered by the batching. *)
Theorem X2_thread_updates_in_order (maxtags maxmind netacq pfx2as : Z)
    (fresh : list Report3.corsaro_report_msg_body)
    (tracker_count threadid : Z) (calls : list ReportThreads.thread_call)
    (local' : ReportThreads.corsaro_report_local)
    (queues' : list (list Report3.corsaro_report_ip_message)) :
  9 ≤ maxtags → 0 < tracker_count → ThreadSpec.buffer_ok maxtags fresh →
  ReportThreads.thread_run maxtags maxmind netacq pfx2as fresh tracker_count
    (ReportThreads.corsaro_report_init_processing fresh tracker_count threadid,
     replicate (Z.to_nat tracker_count) []) calls
  = Some (local', queues') →
  ∀ t,
    ThreadSpec.tracker_updates
      (Report3.nextmsg (ReportThreads.thread_state local')) queues' t
    = mjoin (ThreadSpec.call_updates maxmind netacq pfx2as tracker_count t
               <$> calls).
Proof.
  intros Hmax Htc Hbuf Hrun t.
  destruct (init_processing_inv maxtags fresh tracker_count threadid Hbuf)
    as [Hinv Hty].
  destruct (thread_run_effect maxtags maxmind netacq pfx2as fresh tracker_count
              threadid Hmax Htc Hbuf calls (_, _) Hinv Hty)
    as (s' & Hrun' & _ & _ & _ & _ & Hup).
  rewrite Hrun in Hrun'. injection Hrun' as <-. cbn [fst snd] in Hup.
  rewrite Hup. by rewrite init_processing_updates.
Qed.

Lemma X2_thread_updates_in_order_witness :
  ∃ local' queues',
    ReportThreads.thread_run 10 1 2 3 ThreadSpec.blank_buffer 1
      (ReportThreads.corsaro_report_init_processing ThreadSpec.blank_buffer 1 0,
       replicate (Z.to_nat 1) [])
      [ReportThreads.StartInterval 60; ThreadSpec.packet_5_6;
       ReportThreads.EndInterval]
    = Some (local', queues') ∧
    ∀ t,
      ThreadSpec.tracker_updates
        (Report3.nextmsg (ReportThreads.thread_state local')) queues' t
      = mjoin (ThreadSpec.call_updates 1 2 3 1 t
                 <$> [ReportThreads.StartInterval 60; ThreadSpec.packet_5_6;
                      ReportThreads.EndInterval]).
Proof.
  eexists _, _. split; [vm_compute; reflexivity|].
  apply (X2_thread_updates_in_order 10 1 2 3 ThreadSpec.blank_buffer 1 0).
  - lia.
  - lia.
  - split; [reflexivity|]. apply Forall_replicate. reflexivity.
  - vm_compute. reflexivity.
Defined.

(** X3. When an interval ends, every tracker gets one interval-end
    message, with the start time of the interval and the thread as
    sender, as the last message on its queue; all updates handed over for
    the tracker during the calls before are in the messages that precede
    it, and no update is left pending. *)
Theorem X3_end_interval_flushes_then_signals
    (maxtags maxmind netacq pfx2as : Z)
    (fresh : list Report3.corsaro_report_msg_body)
    (tracker_count threadid : Z) (calls : list ReportThreads.thread_call)
    (local' : ReportThreads.corsaro_report_local)
    (queues' : list (list Report3.corsaro_report_ip_message)) :
  9 ≤ maxtags → 0 < tracker_count → ThreadSpec.buffer_ok maxtags fresh →
  ReportThreads.thread_run maxtags maxmind netacq pfx2as fresh tracker_count
    (ReportThreads.corsaro_report_init_processing fresh tracker_count threadid,
     replicate (Z.to_nat tracker_count) [])
    (calls ++ [ReportThreads.EndInterval])
  = Some (local', queues') →
  ∀ t, (t < Z.to_nat tracker_count)%nat →
    ∃ q,
      queues' !! t
      = Some (q ++ [Report3.mk_msg Report3.CORSARO_IP_MESSAGE_INTERVAL
                      (uint8 threadid) (ThreadSpec.interval_of calls) 0 []]) ∧
      q ≫= ThreadSpec.updates_of
      = mjoin (ThreadSpec.call_updates maxmind netacq pfx2as tracker_count t
                 <$> calls) ∧
      Spec.pending_count (ReportThreads.thread_state local') t = Some 0.
Proof.
  intros Hmax Htc Hbuf Hrun t Ht.
  destruct (init_processing_inv maxtags fresh tracker_count threadid Hbuf)
    as [Hinv Hty].
  destruct (thread_run_effect maxtags maxmind netacq pfx2as fresh tracker_count
              threadid Hmax Htc Hbuf calls (_, _) Hinv Hty)
    as ([local1 queues1] & Hrun1 & (Hm & Hq & Hall) & _ & Hid & Hci & Hup).
  unfold ReportThreads.thread_run in Hrun, Hrun1.
  rewrite foldl_app, Hrun1 in Hrun. cbn [foldl mbind option_bind] in Hrun.
  cbn [ReportThreads.thread_step fst snd] in *.
  unfold ReportThreads.corsaro_report_end_interval in Hrun.
  rewrite (flush_all fresh tracker_count Htc) in Hrun by done.
  cbn [mbind option_bind] in Hrun. injection Hrun as <- <-.
  destruct (flushed_updates maxtags fresh tracker_count threadid Htc Hbuf
              (ReportThreads.interval_message local1)
              (Report3.nextmsg (ReportThreads.thread_state local1)) queues1 t
              Hm Hq Hall Ht) as (q & Hq' & Hupq & Hzero).
  exists q. split; [|split].
  - rewrite Hq'. unfold ReportThreads.interval_message.
    rewrite Hid, Hci. done.
  - rewrite Hupq, Hup. by rewrite init_processing_updates.
  - exact Hzero.
Qed.

Lemma X3_end_interval_flushes_then_signals_witness :
  ∃ local' queues',
    ReportThreads.thread_run 10 1 2 3 ThreadSpec.blank_buffer 1
      (ReportThreads.corsaro_report_init_processing ThreadSpec.blank_buffer 1 0,
       replicate (Z.to_nat 1) [])
      ([ReportThreads.StartInterval 60; ThreadSpec.packet_5_6]
       ++ [ReportThreads.EndInterval])
    = Some (local', queues') ∧
    ∀ t, (t < Z.to_nat 1)%nat →
      ∃ q,
        queues' !! t
        = Some (q ++ [Report3.mk_msg Report3.CORSARO_IP_MESSAGE_INTERVAL
                        (uint8 0)
                        (ThreadSpec.interval_of
                           [ReportThreads.StartInterval 60; ThreadSpec.packet_5_6])
                        0 []]) ∧
        q ≫= ThreadSpec.updates_of
        = mjoin (ThreadSpec.call_updates 1 2 3 1 t
                   <$> [ReportThreads.StartInterval 60; ThreadSpec.packet_5_6]) ∧
        Spec.pending_count (ReportThreads.thread_state local') t = Some 0.
Proof.
  eexists _, _. split; [vm_compute; reflexivity|].
  apply (X3_end_interval_flushes_then_signals 10 1 2 3 ThreadSpec.blank_buffer
           1 0).
  - lia.
  - lia.
  - split; [reflexivity|]. apply Forall_replicate. reflexivity.
  - vm_compute. reflexivity.
Defined.

Section BatchesAsHalt.

Import Report3 Spec ReportThreads ThreadSpec.

(** A message whose type is 0 is handled as a halt request. *)
Lemma handle_halt_typed (track : corsaro_report_iptracker)
    (msg : corsaro_report_ip_message) :
  msgtype msg = CORSARO_IP_MESSAGE_HALT →
  handle_message track msg
  = Some (set_haltphase track
            (if (length (outstanding track) =? 0)%nat then 2 else 1)).
Proof.
  intros Hty. unfold handle_message. rewrite Hty.
  cbn [CORSARO_IP_MESSAGE_HALT Z.eqb].
  by destruct (length (outstanding track) =? 0)%nat.
Qed.

(** Messages without updates leave the tallies of a tracker empty. *)
Lemma handle_message_never_tallied (track track' : corsaro_report_iptracker)
    (msg : corsaro_report_ip_message) :
  sent_by_thread msg → never_tallied track →
  handle_message track msg = Some track' → never_tallied track'.
Proof.
  intros Hsent (Hk & Hkn & Hc & Hn & Hl).
  destruct Hsent as [[Hty _]|Hty].
  - unfold handle_message. rewrite Hty.
    cbn [CORSARO_IP_MESSAGE_HALT CORSARO_IP_MESSAGE_INTERVAL Z.eqb Pos.eqb].
    destruct (timestamp msg =? 0); [by intros [= <-]|].
    destruct (timestamp msg <=? lastresultts track); [by intros [= <-]|].
    destruct (update_outstanding _ _ _ _) as [[outl complete]|]; [|done].
    destruct (complete =? 0); [by intros [= <-]|].
    destruct (lastresult track); [done|]. intros [= <-].
    unfold never_tallied, finish_interval.
    cbn [knownips knownips_next currentresult nextresult lastresult].
    rewrite Hc. split; [done|]. split; [done|]. split; [done|].
    split; [done|]. by right.
  - rewrite (handle_halt_typed track msg Hty). by intros [= <-].
Qed.

Lemma tracker_step_never_tallied (track track' : corsaro_report_iptracker)
    (ev : tracker_event) :
  match ev with Deliver msg => sent_by_thread msg | MergerVisit _ => True end →
  never_tallied track →
  tracker_step track ev = Some track' → never_tallied track'.
Proof.
  intros Hev Hnt. destruct ev as [msg|fin]; cbn [tracker_step].
  - destruct (haltphase track =? 2); [by intros [= <-]|].
    by apply handle_message_never_tallied.
  - unfold merger_collect. destruct Hnt as (Hk & Hkn & Hc & Hn & Hl).
    destruct (fin <? lastresultts track); [done|].
    destruct (lastresultts track =? fin); [|by intros [= <-]].
    destruct (lastresult track); [|done]. intros [= <-].
    unfold never_tallied.
    cbn [knownips knownips_next currentresult nextresult lastresult].
    split; [done|]. split; [done|]. split; [done|]. split; [done|]. by left.
Qed.

Lemma tracker_run_never_tallied (evs : list tracker_event) :
  ∀ track track',
  Forall (λ ev, match ev with
                | Deliver msg => sent_by_thread msg
                | MergerVisit _ => True
                end) evs →
  never_tallied track →
  tracker_run track evs = Some track' → never_tallied track'.
Proof.
  induction evs as [|ev evs IH]; intros track track' Hall Hnt;
    cbn [tracker_run].
  { by intros [= <-]. }
  apply Forall_cons in Hall as [Hev Hall].
  destruct (tracker_step track ev) as [track1|] eqn:Hstep; [|done].
  apply (IH track1 track' Hall).
  by apply (tracker_step_never_tallied track track1 ev).
Qed.

End BatchesAsHalt.

(** X4. A message with updates that a processing thread enqueues has
    type 0: [corsaro_report_init_processing] leaves the type of the pending
    messages as [calloc] set it and nothing assigns it afterwards. 0 is
    [CORSARO_IP_MESSAGE_HALT], so the tracker that reads the message
    applies none of its updates and takes it as a request to halt: it
    enters halt phase 2 when no interval is outstanding, else phase 1. *)
Theorem X4_update_batches_read_as_halt (maxtags maxmind netacq pfx2as : Z)
    (fresh : list Report3.corsaro_report_msg_body)
    (tracker_count threadid : Z) (calls : list ReportThreads.thread_call)
    (local' : ReportThreads.corsaro_report_local)
    (queues' : list (list Report3.corsaro_report_ip_message))
    (q : list Report3.corsaro_report_ip_message)
    (msg : Report3.corsaro_report_ip_message)
    (track : Report3.corsaro_report_iptracker) :
  9 ≤ maxtags → 0 < tracker_count → ThreadSpec.buffer_ok maxtags fresh →
  ReportThreads.thread_run maxtags maxmind netacq pfx2as fresh tracker_count
    (ReportThreads.corsaro_report_init_processing fresh tracker_count threadid,
     replicate (Z.to_nat tracker_count) []) calls
  = Some (local', queues') →
  q ∈ queues' → msg ∈ q → 0 < Report3.bodycount msg →
  Report3.msgtype msg = Report3.CORSARO_IP_MESSAGE_HALT ∧
  Report3.handle_message track msg
  = Some (Report3.set_haltphase track
            (if (length (Report3.outstanding track) =? 0)%nat then 2 else 1)).
Proof.
  intros Hmax Htc Hbuf Hrun Hq Hmsg Hcount.
  destruct (init_processing_inv maxtags fresh tracker_count threadid Hbuf)
    as [Hinv Hty].
  destruct (thread_run_effect maxtags maxmind netacq pfx2as fresh tracker_count
              threadid Hmax Htc Hbuf calls (_, _) Hinv Hty)
    as (s' & Hrun' & _ & Htyped & _).
  rewrite Hrun in Hrun'. injection Hrun' as <-. cbn [snd] in Htyped.
  rewrite Forall_forall in Htyped. specialize (Htyped q Hq).
  rewrite Forall_forall in Htyped.
  destruct (Htyped msg Hmsg) as [[_ Hzero]|Hhalt]; [lia|].
  split; [exact Hhalt|]. by apply handle_halt_typed.
Qed.

Lemma X4_update_batches_read_as_halt_witness :
  Report3.msgtype ThreadSpec.batch_5_6 = Report3.CORSARO_IP_MESSAGE_HALT ∧
  Report3.handle_message (Report3.init_iptracker 2) ThreadSpec.batch_5_6
  = Some (Report3.set_haltphase (Report3.init_iptracker 2) 2).
Proof.
  eapply (X4_update_batches_read_as_halt 10 1 2 3 ThreadSpec.blank_buffer 1 0
            [ThreadSpec.packet_5_6; ReportThreads.EndInterval]).
  - lia.
  - lia.
  - split; [reflexivity|]. apply Forall_replicate. reflexivity.
  - vm_compute. reflexivity.
  - apply list_elem_of_here.
  - apply list_elem_of_here.
  - reflexivity.
Defined.

(** X5. A tracker that only reads messages enqueued by processing threads
    never tallies anything: whatever the threads processed, whatever the
    order in which their messages and the visits of the merge thread
    reach it, its IP maps and its current and next tallies are empty and
    a result that it publishes is empty. *)
Theorem X5_updates_never_tallied (maxtags maxmind netacq pfx2as : Z)
    (fresh : list Report3.corsaro_report_msg_body)
    (tracker_count sourcethreads : Z) (evs : list Report3.tracker_event)
    (track : Report3.corsaro_report_iptracker) :
  9 ≤ maxtags → 0 < tracker_count → ThreadSpec.buffer_ok maxtags fresh →
  (∀ msg, Report3.Deliver msg ∈ evs →
     ∃ threadid calls local' queues' q,
       ReportThreads.thread_run maxtags maxmind netacq pfx2as fresh
         tracker_count
         (ReportThreads.corsaro_report_init_processing fresh tracker_count
            threadid,
          replicate (Z.to_nat tracker_count) []) calls
       = Some (local', queues') ∧
       q ∈ queues' ∧ msg ∈ q) →
  Report3.tracker_run (Report3.init_iptracker sourcethreads) evs = Some track →
  ThreadSpec.never_tallied track.
Proof.
  intros Hmax Htc Hbuf Hsent Hrun.
  apply (tracker_run_never_tallied evs (Report3.init_iptracker sourcethreads)
           track); [|by repeat split; auto|done].
  apply Forall_forall. intros [msg|fin] Hin; [|done].
  destruct (Hsent msg Hin) as (threadid & calls & local' & queues' & q
                               & Hthread & Hq & Hmsg).
  destruct (init_processing_inv maxtags fresh tracker_count threadid Hbuf)
    as [Hinv Hty].
  destruct (thread_run_effect maxtags maxmind netacq pfx2as fresh tracker_count
              threadid Hmax Htc Hbuf calls (_, _) Hinv Hty)
    as (s' & Hrun' & _ & Htyped & _).
  rewrite Hthread in Hrun'. injection Hrun' as <-. cbn [snd] in Htyped.
  rewrite Forall_forall in Htyped. specialize (Htyped q Hq).
  rewrite Forall_forall in Htyped. by apply Htyped.
Qed.

Lemma X5_updates_never_tallied_witness :
  ∃ track,
    Report3.tracker_run (Report3.init_iptracker 2)
      [Report3.Deliver (Report3.mk_msg 1 0 60 0 []);
       Report3.Deliver ThreadSpec.batch_5_6]
    = Some track ∧
    ThreadSpec.never_tallied track.
Proof.
  eexists. split; [vm_compute; reflexivity|].
  eapply (X5_updates_never_tallied 10 1 2 3 ThreadSpec.blank_buffer 1 2
            [Report3.Deliver (Report3.mk_msg 1 0 60 0 []);
             Report3.Deliver ThreadSpec.batch_5_6]).
  - lia.
  - lia.
  - split; [reflexivity|]. apply Forall_replicate. reflexivity.
  - intros msg Hin.
    exists 0, [ReportThreads.StartInterval 60; ThreadSpec.packet_5_6;
               ReportThreads.EndInterval].
    eexists _, _, _. split; [vm_compute; reflexivity|].
    split; [apply list_elem_of_here|].
    apply elem_of_cons in Hin as [Heq|Hin].
    + injection Heq as ->. apply list_elem_of_further, list_elem_of_here.
    + apply elem_of_cons in Hin as [Heq|Hin].
      * injection Heq as ->. apply list_elem_of_here.
      * by apply elem_of_nil in Hin.
  - vm_compute. reflexivity.
Defined.

(** X6. When a processing thread is halted, every tracker gets a halt
    message as the last message on its queue, and the updates that were
    still pending for the tracker are enqueued before it: together with
    the messages sent earlier, the queue holds all updates that the thread
    made for the tracker, in order. *)
Theorem X6_halt_processing_flushes_then_halts
    (maxtags maxmind netacq pfx2as : Z)
    (fresh : list Report3.corsaro_report_msg_body)
    (tracker_count threadid : Z) (calls : list ReportThreads.thread_call)
    (local' : ReportThreads.corsaro_report_local)
    (queues' : list (list Report3.corsaro_report_ip_message)) :
  9 ≤ maxtags → 0 < tracker_count → ThreadSpec.buffer_ok maxtags fresh →
  ReportThreads.thread_run maxtags maxmind netacq pfx2as fresh tracker_count
    (ReportThreads.corsaro_report_init_processing fresh tracker_count threadid,
     replicate (Z.to_nat tracker_count) []) calls
  = Some (local', queues') →
  ∃ halted,
    ReportThreads.corsaro_report_halt_processing fresh tracker_count queues'
      local' = Some halted ∧
    ∀ t, (t < Z.to_nat tracker_count)%nat →
      ∃ q,
        halted !! t
        = Some (q ++ [Report3.mk_msg Report3.CORSARO_IP_MESSAGE_HALT
                        (uint8 threadid) 0 0 []]) ∧
        q ≫= ThreadSpec.updates_of
        = mjoin (ThreadSpec.call_updates maxmind netacq pfx2as tracker_count t
                   <$> calls).
Proof.
  intros Hmax Htc Hbuf Hrun.
  destruct (init_processing_inv maxtags fresh tracker_count threadid Hbuf)
    as [Hinv Hty].
  destruct (thread_run_effect maxtags maxmind netacq pfx2as fresh tracker_count
              threadid Hmax Htc Hbuf calls (_, _) Hinv Hty)
    as (s' & Hrun' & (Hm & Hq & Hall) & _ & Hid & _ & Hup).
  rewrite Hrun in Hrun'. injection Hrun' as <-. cbn [fst snd] in *.
  unfold ReportThreads.corsaro_report_halt_processing.
  rewrite (flush_all fresh tracker_count Htc) by done.
  eexists. split; [reflexivity|]. intros t Ht. cbn [snd].
  destruct (flushed_updates maxtags fresh tracker_count threadid Htc Hbuf
              (ReportThreads.halt_message local')
              (Report3.nextmsg (ReportThreads.thread_state local')) queues' t
              Hm Hq Hall Ht) as (q & Hq' & Hupq & _).
  exists q. split.
  - rewrite Hq'. unfold ReportThreads.halt_message. by rewrite Hid.
  - rewrite Hupq, Hup. by rewrite init_processing_updates.
Qed.

Lemma X6_halt_processing_flushes_then_halts_witness :
  ∃ local' queues' halted,
    ReportThreads.thread_run 10 1 2 3 ThreadSpec.blank_buffer 1
      (ReportThreads.corsaro_report_init_processing ThreadSpec.blank_buffer 1 0,
       replicate (Z.to_nat 1) []) [ThreadSpec.packet_5_6]
    = Some (local', queues') ∧
    ReportThreads.corsaro_report_halt_processing ThreadSpec.blank_buffer 1
      queues' local' = Some halted ∧
    ∀ t, (t < Z.to_nat 1)%nat →
      ∃ q,
        halted !! t
        = Some (q ++ [Report3.mk_msg Report3.CORSARO_IP_MESSAGE_HALT
                        (uint8 0) 0 0 []]) ∧
        q ≫= ThreadSpec.updates_of
        = mjoin (ThreadSpec.call_updates 1 2 3 1 t <$> [ThreadSpec.packet_5_6]).
Proof.
  destruct (ReportThreads.thread_run 10 1 2 3 ThreadSpec.blank_buffer 1
              (ReportThreads.corsaro_report_init_processing
                 ThreadSpec.blank_buffer 1 0, replicate (Z.to_nat 1) [])
              [ThreadSpec.packet_5_6]) as [[local' queues']|] eqn:Hrun;
    [|vm_compute in Hrun; discriminate].
  destruct (X6_halt_processing_flushes_then_halts 10 1 2 3
              ThreadSpec.blank_buffer 1 0 [ThreadSpec.packet_5_6]
              local' queues') as (halted & Hhalt & Hq).
  - lia.
  - lia.
  - split; [reflexivity|]. apply Forall_replicate. reflexivity.
  - exact Hrun.
  - exists local', queues', halted. split; [reflexivity|].
    split; [exact Hhalt|exact Hq].
Defined.

(** ** The merge thread: what is written *)

Section MergeOutput.

Import Report3 ReportOutput MergeSpec.

Lemma write_all_metrics_stopped (w : avro_writer)
    (rows : list corsaro_report_result) (haderror : bool) :
  write_all_metrics w rows true haderror = (if haderror then 1 else 0, []).
Proof. induction rows as [|r rows IH]; [done|]. exact IH. Qed.

Lemma write_all_metrics_spec (w : avro_writer)
    (rows : list corsaro_report_result) :
  ∀ haderror,
  write_all_metrics w rows false haderror
  = (if haderror
        || existsb (λ r, write_single_metric w r <? 0)
             (until_write_failure w rows)
     then 1 else 0,
     until_write_failure w rows).
Proof.
  induction rows as [|r rows IH]; intros haderror.
  { cbn [write_all_metrics until_write_failure existsb].
    by rewrite orb_false_r. }
  cbn [write_all_metrics until_write_failure].
  destruct (write_single_metric w r =? AVRO_WRITE_FAILURE) eqn:Hfail.
  - rewrite write_all_metrics_stopped. cbn [existsb].
    by rewrite orb_false_r.
  - rewrite IH. cbn [existsb]. by rewrite orb_assoc.
Qed.

Lemma write_all_metrics_flag (w : avro_writer)
    (rows : list corsaro_report_result) (stop haderror : bool) :
  (write_all_metrics w rows stop haderror).1 = 0 ∨
  (write_all_metrics w rows stop haderror).1 = 1.
Proof.
  destruct stop.
  - rewrite write_all_metrics_stopped. destruct haderror; auto.
  - rewrite write_all_metrics_spec. cbn [fst].
    destruct (_ || _); auto.
Qed.

Lemma until_write_failure_split (w : avro_writer)
    (results : list corsaro_report_result) :
  ∃ rest,
    results = until_write_failure w results ++ rest ∧
    (∀ i r, until_write_failure w results !! i = Some r →
            (S i < length (until_write_failure w results))%nat →
            write_single_metric w r ≠ AVRO_WRITE_FAILURE) ∧
    (rest ≠ [] →
     ∃ r, last (until_write_failure w results) = Some r ∧
          write_single_metric w r = AVRO_WRITE_FAILURE).
Proof.
  induction results as [|r results IH].
  { exists []. split; [done|]. split; [|done].
    intros i r' Hi. cbn [until_write_failure] in Hi.
    by rewrite lookup_nil in Hi. }
  destruct IH as (rest & Heq & Hpre & Hlast).
  cbn [until_write_failure].
  destruct (Z.eqb_spec (write_single_metric w r) AVRO_WRITE_FAILURE)
    as [Hfail|Hok].
  - exists results. split; [done|]. split.
    + intros i r' Hi Hlt. cbn [length] in Hlt. lia.
    + intros _. by exists r.
  - exists rest. split; [by rewrite <- app_comm_cons, <- Heq|]. split.
    + intros [|i] r' Hi Hlt.
      * by injection Hi as <-.
      * apply (Hpre i r' Hi). cbn [length] in Hlt. lia.
    + intros Hrest. destruct (Hlast Hrest) as (r' & Hl & Hf).
      exists r'. split; [|done].
      destruct (until_write_failure w results); [done|]. exact Hl.
Qed.

Lemma existsb_elem_of {A} (f : A → bool) (l : list A) :
  existsb f l = true ↔ ∃ x, x ∈ l ∧ f x = true.
Proof.
  rewrite existsb_exists. split; intros (x & Hin & Hf); exists x;
    (split; [by apply list_elem_of_In|done]).
Qed.

(** The class and the value of a metric id. *)
Lemma gen_metricid_land (c : corsaro_report_metric_class) (v : Z) :
  0 ≤ v < 2 ^ 32 →
  Z.shiftr (GEN_METRICID (class_value c) v) 32 = class_value c ∧
  Z.land (GEN_METRICID (class_value c) v) 4294967295 = v.
Proof.
  intros Hv.
  assert (0 ≤ class_value c < 2 ^ 32) as Hc by (destruct c; simpl; lia).
  split; [by apply gen_metricid3_class|].
  rewrite gen_metricid3_packs by done.
  change 4294967295 with (Z.ones 32). rewrite Z.land_ones by lia.
  rewrite Z.add_comm, Z.mod_add by lia. by apply Z.mod_small.
Qed.

Lemma gen_metricid_bytes (c : corsaro_report_metric_class) (v : Z) :
  0 ≤ v < 2 ^ 16 →
  Z.land (GEN_METRICID (class_value c) v) 255 = Z.land v 255 ∧
  Z.land (Z.shiftr (GEN_METRICID (class_value c) v) 8) 255
  = Z.land (Z.shiftr v 8) 255.
Proof.
  intros Hv.
  assert (0 ≤ class_value c < 2 ^ 32) as Hc by (destruct c; simpl; lia).
  rewrite gen_metricid3_packs by lia.
  change 255 with (Z.ones 8). rewrite !Z.land_ones by lia.
  rewrite !Z.shiftr_div_pow2 by lia. split.
  - replace (class_value c * 2 ^ 32 + v)
      with (v + (class_value c * 2 ^ 24) * 2 ^ 8) by lia.
    by rewrite Z.mod_add by lia.
  - replace (class_value c * 2 ^ 32 + v)
      with (v + (class_value c * 2 ^ 24) * 2 ^ 8) by lia.
    rewrite Z.div_add by lia.
    replace (class_value c * 2 ^ 24) with ((class_value c * 2 ^ 16) * 2 ^ 8)
      by lia.
    by rewrite Z.mod_add by lia.
Qed.

Lemma ascii_of_byte_inj (a b : Z) :
  0 ≤ a < 256 → 0 ≤ b < 256 →
  Ascii.ascii_of_N (Z.to_N a) = Ascii.ascii_of_N (Z.to_N b) → a = b.
Proof.
  intros Ha Hb Heq.
  apply (f_equal Ascii.N_of_ascii) in Heq.
  rewrite !Ascii.N_ascii_embedding in Heq by lia. lia.
Qed.

Lemma two_char_value_inj (x y : Z) :
  Z.land x 255 ≠ 0 → Z.land (Z.shiftr x 8) 255 ≠ 0 →
  Z.land y 255 ≠ 0 → Z.land (Z.shiftr y 8) 255 ≠ 0 →
  two_char_value x = two_char_value y →
  Z.land x 255 = Z.land y 255 ∧
  Z.land (Z.shiftr x 8) 255 = Z.land (Z.shiftr y 8) 255.
Proof.
  intros Hx0 Hx1 Hy0 Hy1. unfold two_char_value. cbn [c_string].
  destruct (Z.eqb_spec (Z.land x 255) 0); [done|].
  destruct (Z.eqb_spec (Z.land (Z.shiftr x 8) 255) 0); [done|].
  destruct (Z.eqb_spec (Z.land y 255) 0); [done|].
  destruct (Z.eqb_spec (Z.land (Z.shiftr y 8) 255) 0); [done|].
  intros [= H0 H1].
  assert (∀ z, 0 ≤ Z.land z 255 < 256) as Hb.
  { intros z. change 255 with (Z.ones 8). rewrite Z.land_ones by lia.
    apply Z.mod_pos_bound. lia. }
  split; apply ascii_of_byte_inj; auto.
Qed.

Lemma two_bytes (v : Z) :
  0 ≤ v < 2 ^ 16 → v = Z.land v 255 + 256 * Z.land (Z.shiftr v 8) 255.
Proof.
  intros Hv. change 255 with (Z.ones 8). rewrite !Z.land_ones by lia.
  rewrite Z.shiftr_div_pow2 by lia.
  rewrite (Z.mod_small (v / 2 ^ 8)).
  - change (2 ^ 8) with 256. pose proof (Z.div_mod v 256). lia.
  - split; [apply Z.div_pos; lia|]. apply Z.div_lt_upper_bound; lia.
Qed.

Lemma two_char_gen_inj (c : corsaro_report_metric_class) (v1 v2 : Z) :
  0 ≤ v1 < 2 ^ 16 → Z.land v1 255 ≠ 0 → Z.land (Z.shiftr v1 8) 255 ≠ 0 →
  0 ≤ v2 < 2 ^ 16 → Z.land v2 255 ≠ 0 → Z.land (Z.shiftr v2 8) 255 ≠ 0 →
  two_char_value (GEN_METRICID (class_value c) v1)
  = two_char_value (GEN_METRICID (class_value c) v2) →
  v1 = v2.
Proof.
  intros Hr1 Ha1 Hb1 Hr2 Ha2 Hb2 Heq.
  destruct (gen_metricid_bytes c v1 Hr1) as [Hx0 Hx1].
  destruct (gen_metricid_bytes c v2 Hr2) as [Hy0 Hy1].
  apply two_char_value_inj in Heq as [H0 H1]; try congruence.
  rewrite (two_bytes v1 Hr1), (two_bytes v2 Hr2). congruence.
Qed.

(** The labels of the row of a metric. *)
Lemma result_labels_class (c : corsaro_report_metric_class) (v : Z) :
  0 ≤ v < 2 ^ 32 →
  result_labels (GEN_METRICID (class_value c) v)
  = match c with
    | CORSARO_METRIC_CLASS_COMBINED => (Some "combined", Some "all")
    | CORSARO_METRIC_CLASS_IP_PROTOCOL =>
      (Some "ipprotocol", Some (pretty (Z.to_N v)))
    | CORSARO_METRIC_CLASS_ICMP_CODE =>
      (Some "icmp-code", Some (pretty (Z.to_N v)))
    | CORSARO_METRIC_CLASS_ICMP_TYPE =>
      (Some "icmp-type", Some (pretty (Z.to_N v)))
    | CORSARO_METRIC_CLASS_TCP_SOURCE_PORT =>
      (Some "tcpsourceport", Some (pretty (Z.to_N v)))
    | CORSARO_METRIC_CLASS_TCP_DEST_PORT =>
      (Some "tcpdestport", Some (pretty (Z.to_N v)))
    | CORSARO_METRIC_CLASS_UDP_SOURCE_PORT =>
      (Some "udpsourceport", Some (pretty (Z.to_N v)))
    | CORSARO_METRIC_CLASS_UDP_DEST_PORT =>
      (Some "udpdestport", Some (pretty (Z.to_N v)))
    | CORSARO_METRIC_CLASS_MAXMIND_CONTINENT =>
      (Some "maxmind-continent",
       Some (two_char_value (GEN_METRICID (class_value c) v)))
    | CORSARO_METRIC_CLASS_MAXMIND_COUNTRY =>
      (Some "maxmind-country",
       Some (two_char_value (GEN_METRICID (class_value c) v)))
    | CORSARO_METRIC_CLASS_NETACQ_CONTINENT =>
      (Some "netacq-continent",
       Some (two_char_value (GEN_METRICID (class_value c) v)))
    | CORSARO_METRIC_CLASS_NETACQ_COUNTRY =>
      (Some "netacq-country",
       Some (two_char_value (GEN_METRICID (class_value c) v)))
    | CORSARO_METRIC_CLASS_PREFIX_ASN =>
      (Some "pfx2asn", Some (pretty (Z.to_N v)))
    end.
Proof.
  intros Hv. destruct (gen_metricid_land c v Hv) as [Hclass Hval].
  unfold result_labels, numeric_value. rewrite Hclass, Hval.
  by destruct c.
Qed.

End MergeOutput.

(** X7. [write_all_metrics] hands the rows of the result table to
    [write_single_metric] in order and stops at the first row whose write
    to the file fails ([AVRO_WRITE_FAILURE]): the rows after it are dropped
    unwritten, whereas a row that cannot be converted does not stop the
    others. The value returned is 1 if a row that was tried failed, else 0;
    it is never negative. *)
Theorem X7_write_all_metrics_stops_at_write_failure
    (w : Report3.avro_writer) (results : list Report3.corsaro_report_result) :
  ∃ rest,
    results = (Report3.write_all_metrics w results false false).2 ++ rest ∧
    (∀ i r,
       (Report3.write_all_metrics w results false false).2 !! i = Some r →
       (S i < length (Report3.write_all_metrics w results false false).2)%nat →
       Report3.write_single_metric w r ≠ Report3.AVRO_WRITE_FAILURE) ∧
    (rest ≠ [] →
     ∃ r, last (Report3.write_all_metrics w results false false).2 = Some r ∧
          Report3.write_single_metric w r = Report3.AVRO_WRITE_FAILURE) ∧
    ((Report3.write_all_metrics w results false false).1 = 1 ↔
     ∃ r, r ∈ (Report3.write_all_metrics w results false false).2
          ∧ Report3.write_single_metric w r < 0) ∧
    ((Report3.write_all_metrics w results false false).1 = 0 ∨
     (Report3.write_all_metrics w results false false).1 = 1).
Proof.
  rewrite write_all_metrics_spec. cbn [fst snd orb].
  destruct (until_write_failure_split w results) as (rest & Heq & Hpre & Hlast).
  exists rest. split; [done|]. split; [done|]. split; [done|]. split.
  - destruct (existsb _ _) eqn:Hex.
    + apply existsb_elem_of in Hex as (r & Hin & Hneg).
      split; [|done]. intros _. exists r. split; [done|]. lia.
    + split; [done|]. intros (r & Hin & Hneg).
      assert (existsb (λ r, Report3.write_single_metric w r <? 0)
                (MergeSpec.until_write_failure w results) = true) as Hex'.
      { apply existsb_elem_of. exists r. split; [done|]. lia. }
      congruence.
  - destruct (existsb _ _); auto.
Qed.

(** X8. [corsaro_report_merge_interval_results] never reports a failed
    write: once the polling of the trackers is over it returns -1 only
    when the output file cannot be named or opened, before any row is
    written, and 0 in every other case, also when rows could not be
    converted or written ([write_all_metrics] returns 0 or 1, and the
    result is compared with [< 0]). *)
Theorem X8_merge_reports_no_write_error (w : Report3.avro_writer)
    (outlabel : list Z) (tracker_count fin : Z)
    (passes : list (list (option Report3.corsaro_report_iptracker)))
    (ret : Z) (rows : list Report3.corsaro_report_result) :
  Report3.corsaro_report_merge_interval_results w false outlabel tracker_count
    fin passes = Report3.MergeReturned ret rows →
  ret = 0 ∨
  (ret = -1 ∧ rows = [] ∧ Report3.writer_active w = false ∧
   (Report3.outname_ok w = false ∨ Report3.start_ok w = false)).
Proof.
  unfold Report3.corsaro_report_merge_interval_results.
  destruct (Report3.poll_trackers _ _ _ _ _) as [st| |st]; try done.
  destruct (truthy (Report3.skipresult st)); [intros [= <- <-]; by left|].
  destruct (Report3.writer_active w) eqn:Hactive; cbn [negb andb].
  - destruct (Report3.write_all_metrics w (Report3.results st) false false)
      as [haderror rows'] eqn:Hwrite.
    pose proof (write_all_metrics_flag w (Report3.results st) false false)
      as Hflag.
    rewrite Hwrite in Hflag. cbn [fst] in Hflag.
    destruct (Z.ltb_spec haderror 0); [lia|]. intros [= <- <-]. by left.
  - destruct (Report3.outname_ok w) eqn:Hname; cbn [negb];
      [|intros [= <- <-]; right; auto].
    destruct (Report3.start_ok w) eqn:Hstart; cbn [negb];
      [|intros [= <- <-]; right; auto].
    destruct (Report3.write_all_metrics w (Report3.results st) false false)
      as [haderror rows'] eqn:Hwrite.
    pose proof (write_all_metrics_flag w (Report3.results st) false false)
      as Hflag.
    rewrite Hwrite in Hflag. cbn [fst] in Hflag.
    destruct (Z.ltb_spec haderror 0); [lia|]. intros [= <- <-]. by left.
Qed.

Lemma X8_merge_reports_no_write_error_witness :
  Report3.corsaro_report_merge_interval_results MergeSpec.failing_writer false
    [] 1 60 [[Some MergeSpec.published_60]]
  = Report3.MergeReturned 0 [Report3.mk_result 0 1 40 1 0 60 []] ∧
  (0 = 0 ∨
   (0 = -1 ∧ [Report3.mk_result 0 1 40 1 0 60 []] = [] ∧
    Report3.writer_active MergeSpec.failing_writer = false ∧
    (Report3.outname_ok MergeSpec.failing_writer = false ∨
     Report3.start_ok MergeSpec.failing_writer = false))).
Proof.
  split; [vm_compute; reflexivity|].
  apply (X8_merge_reports_no_write_error MergeSpec.failing_writer [] 1 60
           [[Some MergeSpec.published_60]]).
  vm_compute. reflexivity.
Defined.

(** X9. The metric name and metric value written for a row identify the
    metric: two metric ids built by the processing threads (class and
    value packed by [GEN_METRICID]) whose rows get the same two labels are
    the same metric. This holds for the values that print as themselves:
    0 for the combined metric, two characters other than NUL for the
    geo-location codes, a number of 32 bits for the other classes. *)
Theorem X9_row_labels_identify_metric
    (c1 c2 : Report3.corsaro_report_metric_class) (v1 v2 : Z) :
  MergeSpec.printable c1 v1 → MergeSpec.printable c2 v2 →
  ReportOutput.result_labels (Report3.GEN_METRICID (Report3.class_value c1) v1)
  = ReportOutput.result_labels (Report3.GEN_METRICID (Report3.class_value c2) v2) →
  c1 = c2 ∧ v1 = v2.
Proof.
  intros Hp1 Hp2.
  assert (0 ≤ v1 < 2 ^ 32) as Hv1 by (destruct c1; cbn in Hp1; lia).
  assert (0 ≤ v2 < 2 ^ 32) as Hv2 by (destruct c2; cbn in Hp2; lia).
  rewrite !result_labels_class by done.
  destruct c1, c2; intros Heq; try discriminate Heq;
    (split; [reflexivity|]); cbn in Hp1, Hp2.
  all: try lia.
  all: try (injection Heq as Heq; apply (inj pretty) in Heq; lia).
  all: destruct Hp1 as (Hr1 & Ha1 & Hb1), Hp2 as (Hr2 & Ha2 & Hb2);
    apply (f_equal snd) in Heq; cbn [snd] in Heq; apply (inj Some) in Heq;
    exact (two_char_gen_inj _ v1 v2 Hr1 Ha1 Hb1 Hr2 Ha2 Hb2 Heq).
Qed.

Lemma X9_row_labels_identify_metric_witness :
  Report3.CORSARO_METRIC_CLASS_TCP_DEST_PORT
  = Report3.CORSARO_METRIC_CLASS_TCP_DEST_PORT ∧ 80 = 80.
Proof.
  apply X9_row_labels_identify_metric.
  - cbn. lia.
  - cbn. lia.
  - reflexivity.
Defined.

(** ** The merge thread: adding up the tallies of the trackers *)

Section MergeSums.

Import Report3 Spec MergeSpec.

Lemma entries_total_snoc (f : corsaro_metric_ip_hash → Z)
    (entries : list corsaro_metric_ip_hash) (m : corsaro_metric_ip_hash)
    (k : Z) :
  entries_total f (entries ++ [m]) k
  = entries_total f entries k + (if decide (metricid m = k) then f m else 0).
Proof.
  unfold entries_total. induction entries as [|e entries IH]; simpl; [lia|].
  rewrite IH. lia.
Qed.

Lemma entries_total_app (f : corsaro_metric_ip_hash → Z)
    (l1 l2 : list corsaro_metric_ip_hash) (k : Z) :
  entries_total f (l1 ++ l2) k = entries_total f l1 k + entries_total f l2 k.
Proof.
  unfold entries_total. induction l1 as [|e l1 IH]; simpl; [lia|].
  rewrite IH. lia.
Qed.

Lemma entries_total_absent (f : corsaro_metric_ip_hash → Z)
    (entries : list corsaro_metric_ip_hash) (k : Z) :
  k ∉ metricid <$> entries → entries_total f entries k = 0.
Proof.
  unfold entries_total. induction entries as [|e entries IH]; [done|].
  intros Hnotin. cbn [fmap list_fmap] in Hnotin.
  apply not_elem_of_cons in Hnotin as [Hne Hnotin]. simpl.
  rewrite IH by done. by rewrite decide_False by done.
Qed.

Lemma entries_total_perm (f : corsaro_metric_ip_hash → Z)
    (l1 l2 : list corsaro_metric_ip_hash) (k : Z) :
  l1 ≡ₚ l2 → entries_total f l1 k = entries_total f l2 k.
Proof.
  unfold entries_total. induction 1; simpl; lia.
Qed.

Lemma uint64_add_l (a b : Z) : uint64 (uint64 a + b) = uint64 (a + b).
Proof. unfold uint64. by rewrite Zplus_mod_idemp_l. Qed.

Lemma uint32_add_l (a b : Z) : uint32 (uint32 a + b) = uint32 (a + b).
Proof. unfold uint32. by rewrite Zplus_mod_idemp_l. Qed.

(** One entry of a tally merged into the rows. *)
Lemma merge_metric_inv (ts : Z) (outlabel : list Z)
    (results : list corsaro_report_result)
    (entries : list corsaro_metric_ip_hash) (iter : corsaro_metric_ip_hash) :
  merged_inv ts outlabel results entries →
  merged_inv ts outlabel (merge_metric outlabel ts results iter)
    (entries ++ [iter]).
Proof.
  intros (Hnd & Hids & Hrows). unfold merge_metric.
  destruct (list_find _ results) as [[i r]|] eqn:Hfind.
  - apply list_find_Some in Hfind as (Hi & Hid & _).
    assert (r_metricid <$> <[i := add_tally r iter]> results
            = r_metricid <$> results) as Hsame.
    { rewrite list_fmap_insert. cbn [add_tally r_metricid].
      apply list_insert_id. by rewrite list_lookup_fmap, Hi. }
    split; [by rewrite Hsame|]. split.
    + intros k. rewrite Hsame, fmap_app, elem_of_app, Hids.
      cbn [fmap list_fmap]. rewrite list_elem_of_singleton.
      split; [auto|]. intros [?| ->]; [done|].
      apply Hids. rewrite <- Hid. apply list_elem_of_fmap.
      exists r. split; [done|]. by apply list_elem_of_lookup_2 in Hi.
    + intros r' Hin. apply list_elem_of_lookup in Hin as [j Hj].
      destruct (decide (i = j)) as [<-|Hne].
      * rewrite list_lookup_insert_eq in Hj by (by apply lookup_lt_Some in Hi).
        injection Hj as <-.
        destruct (Hrows r (list_elem_of_lookup_2 _ _ _ Hi))
          as (Hts & Hlab & Hp & Hb & Hs & Hd).
        cbn [add_tally attimestamp label pkt_cnt r_bytes uniq_src_ips
             uniq_dst_ips r_metricid].
        rewrite !entries_total_snoc, !decide_True by done.
        rewrite Hp, Hb, Hs, Hd, !uint64_add_l, !uint32_add_l. done.
      * rewrite list_lookup_insert_ne in Hj by done.
        destruct (Hrows r' (list_elem_of_lookup_2 _ _ _ Hj))
          as (Hts & Hlab & Hp & Hb & Hs & Hd).
        assert (metricid iter ≠ r_metricid r') as Hdiff.
        { intros Heq. apply Hne.
          apply (NoDup_lookup _ i j (r_metricid r) Hnd).
          - by rewrite list_lookup_fmap, Hi.
          - rewrite list_lookup_fmap, Hj. cbn. congruence. }
        rewrite !entries_total_snoc, !decide_False by done.
        rewrite !Z.add_0_r. done.
  - apply list_find_None in Hfind.
    assert (metricid iter ∉ r_metricid <$> results) as Hnew.
    { intros Hin. apply list_elem_of_fmap in Hin as (r & Heq & Hin).
      rewrite Forall_forall in Hfind. by apply (Hfind r Hin). }
    split; [|split].
    + rewrite fmap_app. apply NoDup_app. split; [done|]. split.
      * intros k Hk Hk'. cbn in Hk'. apply list_elem_of_singleton in Hk'.
        by subst k.
      * apply NoDup_singleton.
    + intros k. rewrite !fmap_app, !elem_of_app, Hids. done.
    + intros r' Hin. apply elem_of_app in Hin as [Hin|Hin].
      * destruct (Hrows r' Hin) as (Hts & Hlab & Hp & Hb & Hs & Hd).
        assert (metricid iter ≠ r_metricid r') as Hdiff.
        { intros Heq. apply Hnew. rewrite Heq. apply list_elem_of_fmap.
          by exists r'. }
        rewrite !entries_total_snoc, !decide_False by done.
        rewrite !Z.add_0_r. done.
      * apply list_elem_of_singleton in Hin as ->.
        cbn [add_tally new_result attimestamp label pkt_cnt r_bytes
             uniq_src_ips uniq_dst_ips r_metricid].
        assert (metricid iter ∉ metricid <$> entries) as Habs
          by (by rewrite <- Hids).
        rewrite !entries_total_snoc, !decide_True by done.
        rewrite !(entries_total_absent _ entries) by done. done.
Qed.

Lemma merge_entries_inv (ts : Z) (outlabel : list Z)
    (batch : list corsaro_metric_ip_hash) :
  ∀ results entries,
  merged_inv ts outlabel results entries →
  merged_inv ts outlabel (foldl (merge_metric outlabel ts) results batch)
    (entries ++ batch).
Proof.
  induction batch as [|iter batch IH]; intros results entries Hinv.
  { by rewrite app_nil_r. }
  cbn [foldl].
  replace (entries ++ iter :: batch) with ((entries ++ [iter]) ++ batch)
    by (by rewrite <- app_assoc).
  apply IH. by apply merge_metric_inv.
Qed.

(** The entries of all tallies, in the order in which they are merged. *)
Lemma merge_all_inv (fin : Z) (outlabel : list Z)
    (tallies : list (gmap Z corsaro_metric_ip_hash)) :
  merged_inv fin outlabel (merge_all fin outlabel tallies)
    (tallies ≫= λ tally, (map_to_list tally).*2).
Proof.
  unfold merge_all.
  assert (merged_inv fin outlabel [] []) as Hinit.
  { split; [apply NoDup_nil_2|]. split; [done|].
    intros r Hin. by apply elem_of_nil in Hin. }
  revert Hinit. generalize (@nil corsaro_report_result).
  change (tallies ≫= λ tally, (map_to_list tally).*2)
    with ([] ++ (tallies ≫= λ tally : gmap Z corsaro_metric_ip_hash,
                   (map_to_list tally).*2)).
  generalize (@nil corsaro_metric_ip_hash).
  induction tallies as [|tally tallies IH]; intros entries results Hinv.
  { by rewrite app_nil_r. }
  cbn [foldl mbind list_bind]. rewrite (assoc_L (++)).
  apply IH. unfold update_tracker_results. by apply merge_entries_inv.
Qed.

(** The entries of a keyed tally with metric [k]: the one under [k]. *)
Lemma keyed_entries_total (f : corsaro_metric_ip_hash → Z)
    (tally : gmap Z corsaro_metric_ip_hash) (k : Z) :
  keyed tally →
  entries_total f (map_to_list tally).*2 k = from_option f 0 (tally !! k).
Proof.
  induction tally as [|i m tally Hi Hfresh IH] using map_first_key_ind.
  { by rewrite map_to_list_empty. }
  intros Hkeyed.
  rewrite map_to_list_insert_first_key by done.
  cbn [fmap list_fmap snd]. unfold entries_total at 1. cbn [foldr].
  fold (entries_total f (map_to_list tally).*2 k).
  assert (keyed tally) as Hkeyed'.
  { intros k' m' Hlk. apply Hkeyed. rewrite lookup_insert_ne; [done|].
    intros ->. by rewrite Hi in Hlk. }
  rewrite IH by done.
  assert (metricid m = i) as Hm by (apply Hkeyed; by rewrite lookup_insert_eq).
  destruct (decide (i = k)) as [->|Hne].
  - rewrite lookup_insert_eq, Hi, decide_True by done. simpl. lia.
  - rewrite lookup_insert_ne, decide_False by congruence. lia.
Qed.

Lemma keyed_total (f : corsaro_metric_ip_hash → Z)
    (tallies : list (gmap Z corsaro_metric_ip_hash)) (k : Z) :
  Forall keyed tallies →
  entries_total f (tallies ≫= λ tally, (map_to_list tally).*2) k
  = total f tallies k.
Proof.
  induction 1 as [|tally tallies Hk Hall IH]; [done|].
  cbn [mbind list_bind]. rewrite entries_total_app, keyed_entries_total by done.
  unfold total at 1. cbn [foldr]. fold (total f tallies k). by rewrite IH.
Qed.

Lemma keyed_entries (tallies : list (gmap Z corsaro_metric_ip_hash)) (k : Z) :
  Forall keyed tallies →
  k ∈ metricid <$> (tallies ≫= λ tally, (map_to_list tally).*2)
  ↔ ∃ tally, tally ∈ tallies ∧ is_Some (tally !! k).
Proof.
  intros Hall. rewrite list_elem_of_fmap. split.
  - intros (m & -> & Hin). apply list_elem_of_bind in Hin as (tally & Hm & Hin).
    apply list_elem_of_fmap in Hm as ([k' m'] & -> & Hm).
    apply elem_of_map_to_list in Hm. exists tally. split; [done|].
    rewrite Forall_forall in Hall. cbn [snd].
    rewrite (Hall tally Hin k' m' Hm). by exists m'.
  - intros (tally & Hin & [m Hm]). exists m.
    rewrite Forall_forall in Hall. split; [by rewrite (Hall tally Hin k m Hm)|].
    apply list_elem_of_bind. exists tally. split; [|done].
    apply list_elem_of_fmap. exists (k, m). split; [done|].
    by apply elem_of_map_to_list.
Qed.

End MergeSums.

Section KeyedTallies.

Import Report3 Spec MergeSpec.

Lemma mark_slot_metricid (iphash : corsaro_ip_hash) (idx : nat) (issrc : Z)
    (m : corsaro_metric_ip_hash) :
  metricid (mark_slot iphash idx issrc m).2 = metricid m.
Proof.
  unfold mark_slot. destruct (firstmetrics iphash !! idx); [|done].
  destruct (_ && _); [done|]. by destruct (_ && _).
Qed.

Lemma update_metric_map_metricid (iphash : corsaro_ip_hash) (mid issrc : Z)
    (m : corsaro_metric_ip_hash) :
  metricid (update_metric_map iphash mid issrc m).2 = metricid m.
Proof.
  unfold update_metric_map. cbv zeta.
  destruct (_ && _); [done|]. by destruct (_ && _).
Qed.

Lemma update_metric_array_metricid (iphash : corsaro_ip_hash) (mid issrc : Z)
    (m : corsaro_metric_ip_hash) :
  metricid (update_metric_array iphash mid issrc m).2 = metricid m.
Proof.
  unfold update_metric_array. destruct (find_metric iphash mid).
  { apply mark_slot_metricid. }
  destruct (metriccount iphash =? METRIC_ARRAY_SIZE).
  - apply update_metric_map_metricid.
  - apply mark_slot_metricid.
Qed.

Lemma update_knownip_metric_keyed (mid : Z) (iphash : corsaro_ip_hash)
    (issrc iplen : Z) (tally : gmap Z corsaro_metric_ip_hash) :
  keyed tally → keyed (update_knownip_metric mid iphash issrc iplen tally).2.
Proof.
  intros Hkeyed. unfold update_knownip_metric. cbv zeta.
  set (m := match tally !! mid with Some m => m | None => new_tally mid end).
  assert (metricid m = mid) as Hm.
  { unfold m. destruct (tally !! mid) as [m0|] eqn:Hlk; [|done].
    by apply Hkeyed. }
  set (m1 := if iplen >? 0 then add_packet m iplen else m).
  assert (metricid m1 = mid) as Hm1 by (unfold m1; by destruct (iplen >? 0)).
  destruct (metriccount iphash <=? METRIC_ARRAY_SIZE).
  - pose proof (update_metric_array_metricid iphash mid issrc m1) as Hid.
    destruct (update_metric_array iphash mid issrc m1) as [iphash' m2].
    cbn [snd] in *. intros k m' Hlk.
    destruct (decide (mid = k)) as [<-|Hne].
    + rewrite lookup_insert_eq in Hlk. injection Hlk as <-. congruence.
    + rewrite lookup_insert_ne in Hlk by done. by apply Hkeyed.
  - pose proof (update_metric_map_metricid iphash mid issrc m1) as Hid.
    destruct (update_metric_map iphash mid issrc m1) as [iphash' m2].
    cbn [snd] in *. intros k m' Hlk.
    destruct (decide (mid = k)) as [<-|Hne].
    + rewrite lookup_insert_eq in Hlk. injection Hlk as <-. congruence.
    + rewrite lookup_insert_ne in Hlk by done. by apply Hkeyed.
Qed.

Lemma fold_tags_keyed (issrc iplen : Z) (tags : list Z) :
  ∀ (st : corsaro_ip_hash * gmap Z corsaro_metric_ip_hash),
  keyed st.2 →
  keyed (foldl (λ st tag,
                  update_knownip_metric tag st.1 issrc iplen st.2) st tags).2.
Proof.
  induction tags as [|tag tags IH]; intros st Hk; [done|].
  cbn [foldl]. apply IH. by apply update_knownip_metric_keyed.
Qed.

Lemma apply_body_keyed
    (maps maps' : gmap Z corsaro_ip_hash * gmap Z corsaro_metric_ip_hash)
    (body : corsaro_report_msg_body) :
  keyed maps.2 → apply_body maps body = Some maps' → keyed maps'.2.
Proof.
  intros Hk. unfold apply_body.
  destruct (body_tags body) as [|t0 tags] eqn:Htags; [by intros [= <-]|].
  destruct (t0 =? 0); [|done].
  destruct (update_iphash maps.1 (b_ipaddr body)) as [known1 thisip].
  pose proof (fold_tags_keyed (issrc body) (b_size body) (t0 :: tags)
                (thisip, maps.2) Hk) as Hfold.
  destruct (foldl _ (thisip, maps.2) (t0 :: tags)) as [thisip' tally'].
  by intros [= <-].
Qed.

Lemma process_msg_body_keyed (track track' : corsaro_report_iptracker)
    (s : Z) (body : corsaro_report_msg_body) :
  tracker_keyed track → process_msg_body track s body = Some track' →
  tracker_keyed track'.
Proof.
  intros (Hc & Hn & Hl). unfold process_msg_body.
  assert (∀ maps', apply_body (knownips track, currentresult track) body
                   = Some maps' → tracker_keyed (set_current track maps'))
    as Hcur.
  { intros maps' Happ. split; [|done].
    exact (apply_body_keyed (knownips track, currentresult track) _ _
             Hc Happ). }
  assert (∀ maps', apply_body (knownips_next track, nextresult track) body
                   = Some maps' → tracker_keyed (set_next track maps'))
    as Hnext.
  { intros maps' Happ. split; [done|]. split; [|done].
    exact (apply_body_keyed (knownips_next track, nextresult track) _ _
             Hn Happ). }
  destruct (length (outstanding track) =? 0)%nat;
    [|destruct (sender_in_outstanding _ _)].
  - destruct (apply_body (knownips track, currentresult track) body)
      as [maps'|] eqn:Happ;
      cbn [fmap option_fmap option_map]; [|intros; discriminate].
    intros [= <-]. by apply Hcur.
  - destruct (apply_body (knownips_next track, nextresult track) body)
      as [maps'|] eqn:Happ;
      cbn [fmap option_fmap option_map]; [|intros; discriminate].
    intros [= <-]. by apply Hnext.
  - destruct (apply_body (knownips track, currentresult track) body)
      as [maps'|] eqn:Happ;
      cbn [fmap option_fmap option_map]; [|intros; discriminate].
    intros [= <-]. by apply Hcur.
Qed.

Lemma process_bodies_keyed (s : Z) (bodies : list corsaro_report_msg_body) :
  ∀ track track',
  tracker_keyed track →
  foldl (λ acc body, acc ≫= λ t, process_msg_body t s body) (Some track) bodies
  = Some track' →
  tracker_keyed track'.
Proof.
  induction bodies as [|body bodies IH]; intros track track' Hk; cbn [foldl].
  { by intros [= <-]. }
  cbn [mbind option_bind].
  destruct (process_msg_body track s body) as [track1|] eqn:Hstep.
  - apply IH. by apply (process_msg_body_keyed track track1 s body).
  - by rewrite foldl_bind_None.
Qed.

Lemma keyed_empty : keyed ∅.
Proof. intros k m Hlk. by rewrite lookup_empty in Hlk. Qed.

Lemma handle_message_keyed (track track' : corsaro_report_iptracker)
    (msg : corsaro_report_ip_message) :
  tracker_keyed track → handle_message track msg = Some track' →
  tracker_keyed track'.
Proof.
  intros Hk. pose proof Hk as (Hc & Hn & Hl). unfold handle_message.
  destruct (msgtype msg =? CORSARO_IP_MESSAGE_HALT).
  { destruct (length (outstanding track) =? 0)%nat; by intros [= <-]. }
  destruct (msgtype msg =? CORSARO_IP_MESSAGE_INTERVAL).
  - destruct (timestamp msg =? 0); [by intros [= <-]|].
    destruct (timestamp msg <=? lastresultts track); [by intros [= <-]|].
    destruct (update_outstanding _ _ _ _) as [[outl complete]|]; [|done].
    destruct (complete =? 0); [by intros [= <-]|].
    destruct (lastresult track); [done|]. intros [= <-].
    split; [done|]. split; [apply keyed_empty|].
    cbn [finish_interval lastresult]. by intros tally [= <-].
  - unfold process_update. by apply process_bodies_keyed.
Qed.

Lemma tracker_step_keyed (track track' : corsaro_report_iptracker)
    (ev : tracker_event) :
  tracker_keyed track → tracker_step track ev = Some track' →
  tracker_keyed track'.
Proof.
  intros Hk. destruct ev as [msg|fin]; cbn [tracker_step].
  - destruct (haltphase track =? 2); [by intros [= <-]|].
    by apply handle_message_keyed.
  - unfold merger_collect. destruct Hk as (Hc & Hn & Hl).
    destruct (fin <? lastresultts track); [done|].
    destruct (lastresultts track =? fin); [|by intros [= <-]].
    destruct (lastresult track); [|done]. intros [= <-].
    split; [done|]. split; [done|]. by intros tally.
Qed.

Lemma tracker_run_keyed (evs : list tracker_event) :
  ∀ track track',
  tracker_keyed track → tracker_run track evs = Some track' →
  tracker_keyed track'.
Proof.
  induction evs as [|ev evs IH]; intros track track' Hk; cbn [tracker_run].
  { by intros [= <-]. }
  destruct (tracker_step track ev) as [track1|] eqn:Hstep; [|done].
  apply IH. by apply (tracker_step_keyed track track1 ev).
Qed.

End KeyedTallies.

(** X10. Merging the published tallies of the trackers one after the other
    gives one row per metric that occurs in some tally, stamped with the
    interval and the output label, whose packet and byte counts are the
    sums of the counts of the trackers modulo 2^64 and whose unique source
    and destination counts are the sums modulo 2^32, provided every tally
    stores its entries under their own metric ids (as those of the
    trackers do). *)
Theorem X10_merged_rows_sum_trackers (fin : Z) (outlabel : list Z)
    (tallies : list (gmap Z Report3.corsaro_metric_ip_hash)) :
  Forall MergeSpec.keyed tallies →
  NoDup (Report3.r_metricid <$> MergeSpec.merge_all fin outlabel tallies) ∧
  (∀ k, k ∈ Report3.r_metricid <$> MergeSpec.merge_all fin outlabel tallies
        ↔ ∃ tally, tally ∈ tallies ∧ is_Some (tally !! k)) ∧
  ∀ r, r ∈ MergeSpec.merge_all fin outlabel tallies →
    Report3.attimestamp r = fin ∧ Report3.label r = outlabel ∧
    Report3.pkt_cnt r
    = uint64 (MergeSpec.total Report3.packets tallies (Report3.r_metricid r)) ∧
    Report3.r_bytes r
    = uint64 (MergeSpec.total Report3.bytes tallies (Report3.r_metricid r)) ∧
    Report3.uniq_src_ips r
    = uint32 (MergeSpec.total Report3.srcips tallies (Report3.r_metricid r)) ∧
    Report3.uniq_dst_ips r
    = uint32 (MergeSpec.total Report3.destips tallies (Report3.r_metricid r)).
Proof.
  intros Hkeyed.
  destruct (merge_all_inv fin outlabel tallies) as (Hnd & Hids & Hrows).
  split; [done|]. split.
  - intros k. rewrite Hids. by apply keyed_entries.
  - intros r Hin. destruct (Hrows r Hin) as (Hts & Hlab & Hp & Hb & Hs & Hd).
    rewrite !keyed_total in * by done. done.
Qed.

Lemma X10_merged_rows_sum_trackers_witness :
  NoDup (Report3.r_metricid <$> MergeSpec.merge_all 60 [] MergeSpec.two_tallies) ∧
  (∀ k, k ∈ Report3.r_metricid <$> MergeSpec.merge_all 60 [] MergeSpec.two_tallies
        ↔ ∃ tally, tally ∈ MergeSpec.two_tallies ∧ is_Some (tally !! k)) ∧
  ∀ r, r ∈ MergeSpec.merge_all 60 [] MergeSpec.two_tallies →
    Report3.attimestamp r = 60 ∧ Report3.label r = [] ∧
    Report3.pkt_cnt r
    = uint64 (MergeSpec.total Report3.packets MergeSpec.two_tallies
                (Report3.r_metricid r)) ∧
    Report3.r_bytes r
    = uint64 (MergeSpec.total Report3.bytes MergeSpec.two_tallies
                (Report3.r_metricid r)) ∧
    Report3.uniq_src_ips r
    = uint32 (MergeSpec.total Report3.srcips MergeSpec.two_tallies
                (Report3.r_metricid r)) ∧
    Report3.uniq_dst_ips r
    = uint32 (MergeSpec.total Report3.destips MergeSpec.two_tallies
                (Report3.r_metricid r)).
Proof.
  apply X10_merged_rows_sum_trackers.
  repeat constructor; intros k m Hlk.
  - apply lookup_singleton_Some in Hlk as [<- <-]. reflexivity.
  - apply lookup_insert_Some in Hlk as [[<- <-]|[_ Hlk]]; [reflexivity|].
    apply lookup_singleton_Some in Hlk as [<- <-]. reflexivity.
Defined.

(** X11. Every tally of a tracker (current, next and published) stores
    each entry under its own metric id, whatever messages and visits of
    the merge thread the tracker has handled since it was set up. *)
Theorem X11_tracker_tallies_keyed (sourcethreads : Z)
    (evs : list Report3.tracker_event)
    (track : Report3.corsaro_report_iptracker) :
  Report3.tracker_run (Report3.init_iptracker sourcethreads) evs = Some track →
  MergeSpec.tracker_keyed track.
Proof.
  apply tracker_run_keyed. split; [apply keyed_empty|].
  split; [apply keyed_empty|]. by intros tally.
Qed.

Lemma X11_tracker_tallies_keyed_witness :
  ∃ track,
    Report3.tracker_run (Report3.init_iptracker 2)
      [Report3.Deliver (Report3.mk_msg 2 0 0 7 Spec.promoting_bodies);
       Report3.Deliver (TrackerSpec.interval_end 60 0);
       Report3.Deliver (TrackerSpec.interval_end 60 1)] = Some track ∧
    MergeSpec.tracker_keyed track.
Proof.
  eexists. split; [vm_compute; reflexivity|].
  apply (X11_tracker_tallies_keyed 2
           [Report3.Deliver (Report3.mk_msg 2 0 0 7 Spec.promoting_bodies);
            Report3.Deliver (TrackerSpec.interval_end 60 0);
            Report3.Deliver (TrackerSpec.interval_end 60 1)]).
  vm_compute. reflexivity.
Defined.

(** ** The tracker thread: the list of outstanding intervals *)

Section OutstandingOrder.

Import Report3 Spec TrackerSpec.

Lemma scan_outstanding_stamps (outl : list corsaro_report_out_interval)
    (ts limit s : Z) :
  match scan_outstanding outl ts limit s with
  | ScanComplete l | ScanWaiting l =>
    interval_ts <$> l = interval_ts <$> outl ∧ ts ∈ interval_ts <$> outl
  | ScanNotFound => ts ∉ interval_ts <$> outl
  end.
Proof.
  induction outl as [|o outl IH]; cbn [scan_outstanding].
  { apply not_elem_of_nil. }
  destruct (Z.eqb_spec (interval_ts o) ts) as [Heq|Hne].
  - assert (interval_ts (record_report o s) = interval_ts o) as Hrec.
    { unfold record_report. by destruct (_ =? 0). }
    destruct (_ =? limit); cbn [fmap list_fmap]; rewrite Hrec;
      (split; [done|]); rewrite Heq; apply list_elem_of_here.
  - destruct (scan_outstanding outl ts limit s) as [l|l|];
      cbn [fmap list_fmap].
    + destruct IH as [-> Hin]. split; [done|]. by apply list_elem_of_further.
    + destruct IH as [-> Hin]. split; [done|]. by apply list_elem_of_further.
    + apply not_elem_of_cons. split; [congruence|done].
Qed.

Lemma pop_until_sorted (outl : list corsaro_report_out_interval) (ts : Z) :
  StronglySorted Z.lt (interval_ts <$> outl) →
  ts ∈ interval_ts <$> outl →
  StronglySorted Z.lt (interval_ts <$> pop_until outl ts) ∧
  Forall (λ o, ts < interval_ts o) (pop_until outl ts).
Proof.
  induction outl as [|o outl IH]; intros Hsorted Hin.
  { by apply elem_of_nil in Hin. }
  cbn [fmap list_fmap] in Hsorted. apply StronglySorted_inv in Hsorted
    as [Hsorted Hall].
  cbn [pop_until]. destruct (Z.eqb_spec (interval_ts o) ts) as [Heq|Hne].
  - split; [done|]. rewrite <- Heq. rewrite Forall_fmap in Hall.
    eapply Forall_impl; [exact Hall|]. intros o' Hlt. exact Hlt.
  - cbn [fmap list_fmap] in Hin. apply elem_of_cons in Hin as [Heq|Hin];
      [congruence|]. by apply IH.
Qed.

Lemma push_new_interval_sorted (outl outl' : list corsaro_report_out_interval)
    (ts s : Z) :
  StronglySorted Z.lt (interval_ts <$> outl) →
  push_new_interval outl ts s = Some outl' →
  interval_ts <$> outl' = (interval_ts <$> outl) ++ [ts] ∧
  StronglySorted Z.lt (interval_ts <$> outl').
Proof.
  intros Hsorted. unfold push_new_interval.
  destruct (last outl) as [o|] eqn:Hlast.
  - destruct (Z.ltb_spec (interval_ts o) ts) as [Hlt|]; [|done].
    intros [= <-]. rewrite fmap_app. split; [done|].
    apply last_Some in Hlast as [front ->].
    rewrite fmap_app in *. cbn [fmap list_fmap] in *.
    clear -Hsorted Hlt. induction front as [|x front IH].
    + cbn. repeat constructor. done.
    + cbn [fmap list_fmap app] in *.
      apply StronglySorted_inv in Hsorted as [Hsorted Hall].
      constructor; [by apply IH|].
      rewrite !Forall_app in *. destruct Hall as [Hfront Ho].
      split; [by split|].
      rewrite Forall_singleton in Ho. rewrite Forall_singleton.
      change (interval_ts (new_out_interval ts s)) with ts. lia.
  - apply last_None in Hlast as ->. intros [= <-]. split; [done|].
    cbn. repeat constructor.
Qed.

Lemma update_outstanding_ordered (outl outl' : list corsaro_report_out_interval)
    (ts limit s last_ts complete : Z) :
  StronglySorted Z.lt (interval_ts <$> outl) →
  Forall (λ o, last_ts < interval_ts o) outl →
  last_ts < ts → 0 ≤ last_ts →
  update_outstanding outl ts limit s = Some (outl', complete) →
  StronglySorted Z.lt (interval_ts <$> outl') ∧
  Forall (λ o, (if complete =? 0 then last_ts else complete) < interval_ts o)
    outl'.
Proof.
  intros Hsorted Hall Hts Hpos. unfold update_outstanding.
  pose proof (scan_outstanding_stamps outl ts limit s) as Hscan.
  assert (∀ l, interval_ts <$> l = interval_ts <$> outl →
               Forall (λ o, last_ts < interval_ts o) l) as Hsame.
  { intros l Heq.
    assert (Forall (λ t, last_ts < t) (interval_ts <$> outl)) as Hall'
      by (rewrite Forall_fmap; exact Hall).
    rewrite <- Heq, Forall_fmap in Hall'. exact Hall'. }
  assert (∀ l l', StronglySorted Z.lt (interval_ts <$> l) →
                  Forall (λ o, last_ts < interval_ts o) l →
                  push_new_interval l ts s = Some l' →
                  StronglySorted Z.lt (interval_ts <$> l') ∧
                  Forall (λ o, last_ts < interval_ts o) l') as Hpush.
  { intros l l' Hs Ha Hp.
    destruct (push_new_interval_sorted l l' ts s Hs Hp) as [Heq Hs'].
    split; [done|].
    assert (Forall (λ t, last_ts < t) (interval_ts <$> l')) as Hall'.
    { rewrite Heq. apply Forall_app. split; [|by apply Forall_singleton].
      rewrite Forall_fmap. exact Ha. }
    rewrite Forall_fmap in Hall'. exact Hall'. }
  destruct (scan_outstanding outl ts limit s) as [l|l|].
  - destruct Hscan as [Heq Hin].
    destruct (Z.gtb_spec ts 0); [|lia].
    intros [= <- <-]. destruct (Z.eqb_spec ts 0); [lia|].
    apply pop_until_sorted; by rewrite Heq.
  - destruct Hscan as [Heq Hin]. intros [= <- <-]. cbn [Z.eqb].
    split; [by rewrite Heq|]. by apply Hsame.
  - destruct (push_new_interval outl ts s) as [l'|] eqn:Hp;
      cbn [fmap option_fmap option_map]; [|intros; discriminate].
    intros [= <- <-]. cbn [Z.eqb]. by apply (Hpush outl).
Qed.

Lemma handle_message_ordered (track track' : corsaro_report_iptracker)
    (msg : corsaro_report_ip_message) :
  outstanding_ordered track → handle_message track msg = Some track' →
  outstanding_ordered track'.
Proof.
  intros (Hpos & Hsorted & Hall). unfold handle_message.
  destruct (msgtype msg =? CORSARO_IP_MESSAGE_HALT).
  { destruct (length (outstanding track) =? 0)%nat; by intros [= <-]. }
  destruct (msgtype msg =? CORSARO_IP_MESSAGE_INTERVAL).
  - destruct (timestamp msg =? 0); [by intros [= <-]|].
    destruct (Z.leb_spec (timestamp msg) (lastresultts track));
      [by intros [= <-]|].
    destruct (update_outstanding _ _ _ _) as [[outl complete]|] eqn:Hup;
      [|done].
    pose proof (update_outstanding_complete _ _ _ _ _ _ Hup) as Hcomplete.
    destruct (update_outstanding_ordered _ _ _ _ _ _ _ Hsorted Hall
                ltac:(done) Hpos Hup) as [Hsorted' Hall'].
    destruct (Z.eqb_spec complete 0) as [->|Hne]; [by intros [= <-]|].
    destruct (lastresult track); [done|]. intros [= <-].
    split; [|done]. cbn [finish_interval lastresultts]. lia.
  - rewrite process_update_routing.
    destruct (_ && _);
      (destruct (apply_bodies _ _);
       cbn [fmap option_fmap option_map]; [|intros; discriminate]);
      by intros [= <-].
Qed.

Lemma tracker_step_ordered (track track' : corsaro_report_iptracker)
    (ev : tracker_event) :
  outstanding_ordered track → tracker_step track ev = Some track' →
  outstanding_ordered track'.
Proof.
  intros Hord. destruct ev as [msg|fin]; cbn [tracker_step].
  - destruct (haltphase track =? 2); [by intros [= <-]|].
    by apply handle_message_ordered.
  - unfold merger_collect.
    destruct (fin <? lastresultts track); [done|].
    destruct (lastresultts track =? fin); [|by intros [= <-]].
    destruct (lastresult track); [|done]. by intros [= <-].
Qed.

Lemma tracker_run_ordered (evs : list tracker_event) :
  ∀ track track',
  outstanding_ordered track → tracker_run track evs = Some track' →
  outstanding_ordered track'.
Proof.
  induction evs as [|ev evs IH]; intros track track' Hk; cbn [tracker_run].
  { by intros [= <-]. }
  destruct (tracker_step track ev) as [track1|] eqn:Hstep; [|done].
  apply IH. by apply (tracker_step_ordered track track1 ev).
Qed.

End OutstandingOrder.

(** X12. The list of outstanding intervals of a tracker is always in
    strictly increasing order of timestamp, so no interval is listed
    twice, and every interval in it is later than the interval of the
    last published result. *)
Theorem X12_outstanding_ordered (sourcethreads : Z)
    (evs : list Report3.tracker_event)
    (track : Report3.corsaro_report_iptracker) :
  Report3.tracker_run (Report3.init_iptracker sourcethreads) evs = Some track →
  0 ≤ Report3.lastresultts track ∧
  StronglySorted Z.lt (Report3.interval_ts <$> Report3.outstanding track) ∧
  Forall (λ o, Report3.lastresultts track < Report3.interval_ts o)
    (Report3.outstanding track).
Proof.
  apply tracker_run_ordered. split; [done|]. split; constructor.
Qed.

Lemma X12_outstanding_ordered_witness :
  ∃ track,
    Report3.tracker_run (Report3.init_iptracker 2)
      [Report3.Deliver (TrackerSpec.interval_end 60 0);
       Report3.Deliver (TrackerSpec.interval_end 120 0)] = Some track ∧
    0 ≤ Report3.lastresultts track ∧
    StronglySorted Z.lt (Report3.interval_ts <$> Report3.outstanding track) ∧
    Forall (λ o, Report3.lastresultts track < Report3.interval_ts o)
      (Report3.outstanding track).
Proof.
  eexists. split; [vm_compute; reflexivity|].
  apply (X12_outstanding_ordered 2
           [Report3.Deliver (TrackerSpec.interval_end 60 0);
            Report3.Deliver (TrackerSpec.interval_end 120 0)]).
  vm_compute. reflexivity.
Defined.

Section Publishing.

Import Report3 Spec TrackerSpec.

Lemma tracker_run_app (evs1 evs2 : list tracker_event) :
  ∀ track,
  tracker_run track (evs1 ++ evs2)
  = tracker_run track evs1 ≫= λ track1, tracker_run track1 evs2.
Proof.
  induction evs1 as [|ev evs1 IH]; intros track; [done|].
  cbn [app tracker_run]. destruct (tracker_step track ev); [apply IH|done].
Qed.

(** An interval-end message whose timestamp is not listed starts a new
    entry and completes nothing. *)
Lemma update_outstanding_fresh (outl outl' : list corsaro_report_out_interval)
    (ts limit s complete : Z) :
  ts ∉ interval_ts <$> outl →
  update_outstanding outl ts limit s = Some (outl', complete) →
  complete = 0 ∧ interval_ts <$> outl' = (interval_ts <$> outl) ++ [ts].
Proof.
  intros Hfresh. unfold update_outstanding.
  pose proof (scan_outstanding_stamps outl ts limit s) as Hscan.
  destruct (scan_outstanding outl ts limit s) as [l|l|];
    [by destruct Hscan|by destruct Hscan|].
  unfold push_new_interval.
  destruct (last outl) as [o|] eqn:Hlast.
  - destruct (interval_ts o <? ts);
      cbn [fmap option_fmap option_map]; [|intros; discriminate].
    intros [= <- <-]. by rewrite fmap_app.
  - apply last_None in Hlast as ->. cbn [fmap option_fmap option_map].
    by intros [= <- <-].
Qed.

(** What a tracker has published when no timestamp was reported twice. *)
Lemma tracker_run_unpublished (evs : list tracker_event) :
  ∀ (used : list Z) (track track' : corsaro_report_iptracker),
  lastresultts track = 0 → lastresult track = None →
  (∀ o, o ∈ outstanding track → interval_ts o ∈ used) →
  NoDup (used ++ interval_stamps evs) →
  tracker_run track evs = Some track' →
  lastresultts track' = 0 ∧ lastresult track' = None.
Proof.
  induction evs as [|ev evs IH]; intros used track track' Hts Hres Hused Hnd;
    cbn [tracker_run].
  { by intros [= <-]. }
  destruct (tracker_step track ev) as [track1|] eqn:Hstep; [|done].
  destruct ev as [msg|fin]; cbn [tracker_step] in Hstep.
  - unfold interval_stamps in Hnd. cbn [omap list_omap] in Hnd.
    fold (interval_stamps evs) in Hnd.
    destruct (haltphase track =? 2).
    { injection Hstep as <-.
      destruct (msgtype msg =? CORSARO_IP_MESSAGE_INTERVAL).
      - apply (IH (used ++ [timestamp msg]) track); try done.
        + intros o Ho. apply elem_of_app. left. by apply Hused.
        + by rewrite <- app_assoc.
      - by apply (IH used track). }
    unfold handle_message in Hstep.
    destruct (msgtype msg =? CORSARO_IP_MESSAGE_HALT).
    { assert (lastresultts track1 = 0 ∧ lastresult track1 = None ∧
              outstanding track1 = outstanding track) as (H1 & H2 & H3).
      { destruct (length (outstanding track) =? 0)%nat;
          by injection Hstep as <-. }
      destruct (msgtype msg =? CORSARO_IP_MESSAGE_INTERVAL).
      - apply (IH (used ++ [timestamp msg]) track1); try done.
        + intros o Ho. rewrite H3 in Ho. apply elem_of_app. left.
          by apply Hused.
        + by rewrite <- app_assoc.
      - apply (IH used track1); try done. intros o Ho. rewrite H3 in Ho.
        by apply Hused. }
    destruct (msgtype msg =? CORSARO_IP_MESSAGE_INTERVAL).
    + assert (NoDup ((used ++ [timestamp msg]) ++ interval_stamps evs)) as Hnd'
        by (by rewrite <- app_assoc).
      assert (timestamp msg ∉ used) as Hfresh.
      { apply NoDup_app in Hnd as (_ & Hdisj & _). intros Hin.
        apply (Hdisj _ Hin). apply list_elem_of_here. }
      destruct (timestamp msg =? 0).
      { injection Hstep as <-. apply (IH (used ++ [timestamp msg]) track);
          try done. intros o Ho. apply elem_of_app. left. by apply Hused. }
      destruct (timestamp msg <=? lastresultts track).
      { injection Hstep as <-. apply (IH (used ++ [timestamp msg]) track);
          try done. intros o Ho. apply elem_of_app. left. by apply Hused. }
      destruct (update_outstanding _ _ _ _) as [[outl complete]|] eqn:Hup;
        [|done].
      apply update_outstanding_fresh in Hup as [-> Hstamps].
      * cbn [Z.eqb] in Hstep. injection Hstep as <-.
        apply (IH (used ++ [timestamp msg]) (set_outstanding track outl));
          try done.
        intros o Ho. cbn [set_outstanding outstanding] in Ho.
        assert (interval_ts o ∈ interval_ts <$> outl) as Hin
          by (apply list_elem_of_fmap; by exists o).
        rewrite Hstamps in Hin. apply elem_of_app in Hin as [Hin|Hin].
        -- apply list_elem_of_fmap in Hin as (o' & -> & Hin).
           apply elem_of_app. left. by apply Hused.
        -- apply elem_of_app. by right.
      * intros Hin. apply list_elem_of_fmap in Hin as (o & Heq & Hin).
        apply Hfresh. rewrite Heq. by apply Hused.
    + rewrite process_update_routing in Hstep.
      assert (lastresultts track1 = 0 ∧ lastresult track1 = None ∧
              outstanding track1 = outstanding track) as (H1 & H2 & H3).
      { destruct (_ && _);
          (destruct (apply_bodies _ _);
           cbn [fmap option_fmap option_map] in Hstep; [|discriminate]);
          by injection Hstep as <-. }
      apply (IH used track1); try done. intros o Ho. rewrite H3 in Ho.
      by apply Hused.
  - unfold merger_collect in Hstep.
    destruct (fin <? lastresultts track); [done|].
    destruct (lastresultts track =? fin).
    + by rewrite Hres in Hstep.
    + injection Hstep as <-. by apply (IH used track).
Qed.

End Publishing.

(** X13. A tracker completes an interval only when an interval-end
    message finds an entry that an earlier message with the same
    timestamp has made: as long as no two interval-end messages that it
    reads carry the same timestamp it publishes nothing. That is the case
    with a single processing thread, which sends one message per interval:
    the first message for an interval only creates its entry, although the
    entry already counts all the threads there are. *)
Theorem X13_nothing_published_without_second_report (sourcethreads : Z)
    (evs : list Report3.tracker_event)
    (track : Report3.corsaro_report_iptracker) :
  NoDup (TrackerSpec.interval_stamps evs) →
  Report3.tracker_run (Report3.init_iptracker sourcethreads) evs = Some track →
  Report3.lastresultts track = 0 ∧ Report3.lastresult track = None.
Proof.
  intros Hnd. apply (tracker_run_unpublished evs []); try done.
  intros o Ho. by apply elem_of_nil in Ho.
Qed.

Lemma X13_nothing_published_without_second_report_witness :
  ∃ track,
    Report3.tracker_run (Report3.init_iptracker 1)
      [Report3.Deliver (TrackerSpec.interval_end 60 0);
       Report3.Deliver (TrackerSpec.interval_end 120 0);
       Report3.Deliver (TrackerSpec.interval_end 180 0)] = Some track ∧
    Report3.lastresultts track = 0 ∧ Report3.lastresult track = None.
Proof.
  eexists. split; [vm_compute; reflexivity|].
  apply (X13_nothing_published_without_second_report 1
           [Report3.Deliver (TrackerSpec.interval_end 60 0);
            Report3.Deliver (TrackerSpec.interval_end 120 0);
            Report3.Deliver (TrackerSpec.interval_end 180 0)]).
  - vm_compute. repeat constructor; set_solver.
  - vm_compute. reflexivity.
Defined.

Section AllReport.

Import Report3 Spec TrackerSpec.

Lemma flags_of_snoc (ss : list Z) (s : Z) :
  flags_of (ss ++ [s]) = <[Z.to_nat s := 1]> (flags_of ss).
Proof. unfold flags_of. by rewrite foldl_app. Qed.

Lemma flags_of_absent (ss : list Z) (s : Z) :
  Forall (λ x, 0 ≤ x) ss → 0 ≤ s < 256 → s ∉ ss →
  flags_of ss !! Z.to_nat s = Some 0.
Proof.
  intros Hpos Hs. induction ss as [|x ss IH] using rev_ind; intros Hnotin.
  - unfold flags_of. cbn [foldl]. apply lookup_replicate_2. lia.
  - rewrite flags_of_snoc. apply Forall_app in Hpos as [Hpos Hx].
    rewrite Forall_singleton in Hx.
    rewrite not_elem_of_app, list_elem_of_singleton in Hnotin.
    destruct Hnotin as [Hnotin Hne].
    rewrite list_lookup_insert_ne by lia. by apply IH.
Qed.

Lemma interval_end_waiting (T n s : Z) (ss : list Z)
    (track : corsaro_report_iptracker) :
  sourcethreads track = n → haltphase track ≠ 2 →
  lastresultts track < T → 0 < T →
  Forall (λ x, 0 ≤ x) ss → 0 ≤ s < 256 → s ∉ ss →
  ss ≠ [] → Z.of_nat (length ss) + 1 < n → n ≤ 255 →
  tracker_step
    (set_outstanding track [mk_out T (flags_of ss) (Z.of_nat (length ss))])
    (Deliver (interval_end T s))
  = Some (set_outstanding track
            [mk_out T (flags_of (ss ++ [s])) (Z.of_nat (length (ss ++ [s])))]).
Proof.
  intros Hn Hhalt Hlast HT Hpos Hs Hnotin Hne Hlen Hmax.
  cbn [tracker_step set_outstanding haltphase].
  destruct (Z.eqb_spec (haltphase track) 2); [done|].
  unfold handle_message.
  cbn [interval_end msgtype timestamp sender set_outstanding lastresultts
       outstanding sourcethreads lastresult].
  change (CORSARO_IP_MESSAGE_INTERVAL =? CORSARO_IP_MESSAGE_HALT) with false.
  change (CORSARO_IP_MESSAGE_INTERVAL =? CORSARO_IP_MESSAGE_INTERVAL) with true.
  cbv iota.
  destruct (Z.eqb_spec T 0); [lia|].
  destruct (Z.leb_spec T (lastresultts track)); [lia|].
  unfold update_outstanding. cbn [scan_outstanding interval_ts].
  rewrite Z.eqb_refl. unfold record_report. cbn [reports_recvd reports_total interval_ts].
  rewrite (flags_of_absent ss s Hpos Hs Hnotin). cbn [default from_option id].
  change (0 =? 0) with true. cbv iota. cbn [reports_total].
  assert (uint8 (Z.of_nat (length ss) + 1) = Z.of_nat (length ss) + 1) as ->.
  { unfold uint8. apply Z.mod_small. lia. }
  rewrite Hn. destruct (Z.eqb_spec (Z.of_nat (length ss) + 1) n); [lia|].
  cbn [Z.eqb]. rewrite flags_of_snoc, length_app. cbn [length].
  repeat f_equal. lia.
Qed.

Lemma interval_end_first (T n s : Z) (track : corsaro_report_iptracker) :
  haltphase track ≠ 2 → outstanding track = [] →
  lastresultts track < T → 0 < T →
  tracker_step track (Deliver (interval_end T s))
  = Some (set_outstanding track [mk_out T (flags_of [s]) 1]).
Proof.
  intros Hhalt Hout Hlast HT. cbn [tracker_step].
  destruct (Z.eqb_spec (haltphase track) 2); [done|].
  unfold handle_message. cbn [interval_end msgtype timestamp sender].
  change (CORSARO_IP_MESSAGE_INTERVAL =? CORSARO_IP_MESSAGE_HALT) with false.
  change (CORSARO_IP_MESSAGE_INTERVAL =? CORSARO_IP_MESSAGE_INTERVAL) with true.
  cbv iota.
  destruct (Z.eqb_spec T 0); [lia|].
  destruct (Z.leb_spec T (lastresultts track)); [lia|].
  rewrite Hout. done.
Qed.

Lemma interval_end_last (T n s : Z) (ss : list Z)
    (track : corsaro_report_iptracker) :
  sourcethreads track = n → haltphase track ≠ 2 → lastresult track = None →
  lastresultts track < T → 0 < T →
  Forall (λ x, 0 ≤ x) ss → 0 ≤ s < 256 → s ∉ ss →
  Z.of_nat (length ss) + 1 = n → n ≤ 255 →
  tracker_step
    (set_outstanding track [mk_out T (flags_of ss) (Z.of_nat (length ss))])
    (Deliver (interval_end T s))
  = Some (finish_interval track [] T).
Proof.
  intros Hn Hhalt Hres Hlast HT Hpos Hs Hnotin Hlen Hmax.
  cbn [tracker_step set_outstanding haltphase].
  destruct (Z.eqb_spec (haltphase track) 2); [done|].
  unfold handle_message.
  cbn [interval_end msgtype timestamp sender set_outstanding lastresultts
       outstanding sourcethreads lastresult].
  change (CORSARO_IP_MESSAGE_INTERVAL =? CORSARO_IP_MESSAGE_HALT) with false.
  change (CORSARO_IP_MESSAGE_INTERVAL =? CORSARO_IP_MESSAGE_INTERVAL) with true.
  cbv iota.
  destruct (Z.eqb_spec T 0); [lia|].
  destruct (Z.leb_spec T (lastresultts track)); [lia|].
  unfold update_outstanding. cbn [scan_outstanding interval_ts].
  rewrite Z.eqb_refl. unfold record_report. cbn [reports_recvd reports_total interval_ts].
  rewrite (flags_of_absent ss s Hpos Hs Hnotin). cbn [default from_option id].
  change (0 =? 0) with true. cbv iota. cbn [reports_total].
  assert (uint8 (Z.of_nat (length ss) + 1) = Z.of_nat (length ss) + 1) as ->.
  { unfold uint8. apply Z.mod_small. lia. }
  rewrite Hn, Hlen, Z.eqb_refl.
  destruct (Z.gtb_spec T 0); [|lia].
  cbn [pop_until interval_ts]. rewrite Z.eqb_refl.
  destruct (Z.eqb_spec T 0); [lia|]. by rewrite Hres.
Qed.

(** The senders of [ss] have reported and one more is awaited. *)
Lemma interval_ends_waiting (T n : Z) (track : corsaro_report_iptracker)
    (ss : list Z) :
  sourcethreads track = n → haltphase track ≠ 2 → outstanding track = [] →
  lastresultts track < T → 0 < T → n ≤ 255 →
  Forall (λ x, 0 ≤ x < 256) ss → NoDup ss →
  ss ≠ [] → Z.of_nat (length ss) < n →
  tracker_run track ((λ s, Deliver (interval_end T s)) <$> ss)
  = Some (set_outstanding track
            [mk_out T (flags_of ss) (Z.of_nat (length ss))]).
Proof.
  intros Hn Hhalt Hout Hlast HT Hmax.
  induction ss as [|s ss IH] using rev_ind; intros Hrange Hnd Hne Hlen;
    [done|].
  apply Forall_app in Hrange as [Hrange Hs].
  rewrite Forall_singleton in Hs.
  apply NoDup_app in Hnd as (Hnd & Hdisj & _).
  assert (s ∉ ss) as Hnotin.
  { intros Hin. apply (Hdisj s Hin). apply list_elem_of_here. }
  rewrite length_app in Hlen. cbn [length] in Hlen.
  rewrite fmap_app, tracker_run_app. cbn [fmap list_fmap].
  destruct ss as [|s0 ss0].
  - cbn [fmap list_fmap tracker_run mbind option_bind app].
    rewrite (interval_end_first T n s track) by done.
    done.
  - rewrite IH by (try done; lia). cbn [mbind option_bind tracker_run].
    rewrite (interval_end_waiting T n s (s0 :: ss0) track); try done; try lia.
    eapply Forall_impl; [exact Hrange|]. intros x Hx. cbn in Hx. lia.
Qed.

End AllReport.

(** X14. With at least two processing threads a tracker publishes an
    interval once each thread has ended it: starting without outstanding
    interval and without unread result, whatever the order in which the
    interval-end messages of the threads 0 .. n-1 for an interval later
    than the last result are read, the tracker ends with the tally of the
    interval as its last result, the timestamp of the interval as its
    last timestamp and no outstanding interval, and goes on counting with
    what it held for the next interval. *)
Theorem X14_interval_published_when_all_report (n T : Z) (ss : list Z)
    (track : Report3.corsaro_report_iptracker) :
  2 ≤ n ≤ 255 →
  ss ≡ₚ Z.of_nat <$> seq 0 (Z.to_nat n) →
  Report3.sourcethreads track = n → Report3.haltphase track ≠ 2 →
  Report3.outstanding track = [] → Report3.lastresult track = None →
  Report3.lastresultts track < T → 0 < T →
  Report3.tracker_run track
    ((λ s, Report3.Deliver (TrackerSpec.interval_end T s)) <$> ss)
  = Some (Report3.mk_tracker T n
            (if Report3.haltphase track =? 1 then 2
             else Report3.haltphase track)
            (Report3.knownips_next track) ∅
            (Some (Report3.currentresult track))
            (Report3.nextresult track) ∅ []).
Proof.
  intros Hn Hperm Hsrc Hhalt Hout Hres Hlast HT.
  assert (length ss = Z.to_nat n) as Hlen.
  { rewrite Hperm, length_fmap, length_seq. done. }
  assert (NoDup ss) as Hnd.
  { rewrite Hperm. apply (NoDup_fmap_2 _). apply NoDup_seq. }
  assert (Forall (λ x, 0 ≤ x < 256) ss) as Hrange.
  { rewrite Hperm. apply Forall_fmap, Forall_forall. intros i Hi.
    apply elem_of_seq in Hi. cbn. lia. }
  destruct ss as [|s0 ss0] using rev_ind; [cbn in Hlen; lia|]. clear IHss0.
  rewrite length_app in Hlen. cbn [length] in Hlen.
  apply Forall_app in Hrange as [Hrange Hs].
  rewrite Forall_singleton in Hs.
  apply NoDup_app in Hnd as (Hnd & Hdisj & _).
  assert (s0 ∉ ss0) as Hnotin.
  { intros Hin. apply (Hdisj s0 Hin). apply list_elem_of_here. }
  rewrite fmap_app, tracker_run_app.
  rewrite (interval_ends_waiting T n track ss0); try done; try lia.
  - cbn [mbind option_bind fmap list_fmap Report3.tracker_run].
    rewrite (interval_end_last T n s0 ss0 track); try done; try lia.
    + unfold Report3.finish_interval. by rewrite Hsrc.
    + eapply Forall_impl; [exact Hrange|]. intros x Hx. cbn in Hx. lia.
  - intros ->. cbn in Hlen. lia.
Qed.

Lemma X14_interval_published_when_all_report_witness :
  Report3.tracker_run (Report3.init_iptracker 3)
    ((λ s, Report3.Deliver (TrackerSpec.interval_end 60 s)) <$> [2; 0; 1])
  = Some (Report3.mk_tracker 60 3 0 ∅ ∅ (Some ∅) ∅ ∅ []).
Proof.
  apply (X14_interval_published_when_all_report 3 60 [2; 0; 1]
           (Report3.init_iptracker 3)).
  - lia.
  - vm_compute. apply (Permutation_cons_append [0; 1] 2).
  - reflexivity.
  - discriminate.
  - reflexivity.
  - reflexivity.
  - vm_compute. reflexivity.
  - lia.
Defined.

(** ** The tagger *)

Section TaggerProofs.

Import Report3 Tagging TagSpec.

Lemma uint8_range (x : Z) : 0 ≤ uint8 x < 256.
Proof. unfold uint8. apply Z.mod_pos_bound. lia. Qed.

Lemma header_byte_range (t : transport_header) (i : nat) :
  0 ≤ header_byte t i < 256.
Proof. apply uint8_range. Qed.

Lemma header_short_range (t : transport_header) (i : nat) :
  0 ≤ header_short t i < 65536.
Proof.
  unfold header_short.
  pose proof (header_byte_range t (2 * i)).
  pose proof (header_byte_range t (2 * i + 1)). lia.
Qed.

(** The basic tags after [update_basic_tags] are within the bounds that
    the report plugin checks. *)
Lemma update_basic_tags_bounds (transport : option transport_header)
    (tags : corsaro_packet_tags) :
  let tags' := update_basic_tags transport tags in
  0 ≤ protocol tags' < METRIC_IPPROTOS_MAX ∧
  0 ≤ src_port tags' < METRIC_PORT_MAX ∧
  0 ≤ dest_port tags' < METRIC_PORT_MAX ∧
  (protocol tags' = TRACE_IPPROTO_ICMP →
   src_port tags' < METRIC_ICMP_MAX ∧ dest_port tags' < METRIC_ICMP_MAX).
Proof.
  unfold update_basic_tags, METRIC_IPPROTOS_MAX, METRIC_PORT_MAX,
    METRIC_ICMP_MAX.
  destruct transport as [t|]; [|cbn; lia].
  pose proof (uint8_range (t_proto t)) as Hproto.
  pose proof (header_byte_range t 0). pose proof (header_byte_range t 1).
  pose proof (header_short_range t 0). pose proof (header_short_range t 1).
  destruct (Z.eqb_spec (uint8 (t_proto t)) TRACE_IPPROTO_ICMP) as [Hicmp|Hne].
  - destruct (t_rem t >=? 2); cbn [andb].
    + cbn [protocol src_port dest_port]. lia.
    + rewrite Hicmp.
      change (TRACE_IPPROTO_ICMP =? TRACE_IPPROTO_TCP) with false.
      change (TRACE_IPPROTO_ICMP =? TRACE_IPPROTO_UDP) with false.
      cbn [orb andb protocol src_port dest_port].
      unfold TRACE_IPPROTO_ICMP. lia.
  - cbn [andb].
    destruct (((uint8 (t_proto t) =? TRACE_IPPROTO_TCP)
               || (uint8 (t_proto t) =? TRACE_IPPROTO_UDP))
              && (t_rem t >=? 4));
      cbn [protocol src_port dest_port]; lia.
Qed.

Lemma apply_record_basic (maxmind netacq pfx2as : Z) (be : bool)
    (tags : corsaro_packet_tags) (rec : ipmeta_record) :
  let tags' := apply_record maxmind netacq pfx2as be tags rec in
  protocol tags' = protocol tags ∧ src_port tags' = src_port tags ∧
  dest_port tags' = dest_port tags.
Proof.
  unfold apply_record, update_pfx2as_tags.
  destruct (source rec =? maxmind); [done|].
  destruct (source rec =? netacq); [done|].
  destruct (source rec =? pfx2as); [|done].
  by destruct (negb _).
Qed.

Lemma fold_records_basic (maxmind netacq pfx2as : Z) (be : bool)
    (records : list ipmeta_record) :
  ∀ tags,
  let tags' := foldl (apply_record maxmind netacq pfx2as be) tags records in
  protocol tags' = protocol tags ∧ src_port tags' = src_port tags ∧
  dest_port tags' = dest_port tags.
Proof.
  induction records as [|rec records IH]; intros tags; [done|].
  cbn [foldl]. cbv zeta.
  destruct (IH (apply_record maxmind netacq pfx2as be tags rec))
    as (-> & -> & ->).
  apply apply_record_basic.
Qed.

(** Bits of [providers_used]. *)
Lemma uint32_testbit (x j : Z) :
  0 ≤ j < 32 → Z.testbit (uint32 x) j = Z.testbit x j.
Proof. intros Hj. unfold uint32. apply Z.mod_pow2_bits_low. lia. Qed.

Lemma tagged_testbit (used id : Z) :
  0 ≤ id →
  truthy (Z.land used (Z.shiftl 1 id)) = Z.testbit used id.
Proof.
  intros Hid. rewrite Z.shiftl_1_l. unfold truthy.
  destruct (Z.testbit used id) eqn:Hbit.
  - destruct (Z.eqb_spec (Z.land used (2 ^ id)) 0) as [Hz|]; [|done].
    apply (f_equal (λ x, Z.testbit x id)) in Hz.
    rewrite Z.land_spec, Hbit, Z.pow2_bits_true, Z.bits_0 in Hz by done.
    done.
  - destruct (Z.eqb_spec (Z.land used (2 ^ id)) 0) as [|Hnz]; [done|].
    exfalso. apply Hnz. apply Z.bits_inj'. intros k Hk.
    rewrite Z.land_spec, Z.bits_0, Z.pow2_bits_eqb by done.
    destruct (Z.eqb_spec id k) as [<-|]; [by rewrite Hbit|].
    by rewrite andb_false_r.
Qed.

Lemma mark_provider_testbit (used id j : Z) :
  0 ≤ id → 0 ≤ j < 32 →
  Z.testbit (mark_provider used id) j = Z.testbit used j || (id =? j).
Proof.
  intros Hid Hj. unfold mark_provider.
  rewrite uint32_testbit, Z.lor_spec, Z.shiftl_1_l by done.
  by rewrite Z.pow2_bits_eqb by done.
Qed.

Lemma apply_record_bits (maxmind netacq pfx2as : Z) (be : bool)
    (tags : corsaro_packet_tags) (rec : ipmeta_record) (j : Z) :
  provider_bits maxmind netacq pfx2as → 0 ≤ j < 32 →
  Z.testbit (providers_used (apply_record maxmind netacq pfx2as be tags rec)) j
  = Z.testbit (providers_used tags) j || marks maxmind netacq pfx2as rec j.
Proof.
  intros (Hm & Hn & Hp & Hmn & Hmp & Hnp) Hj.
  unfold apply_record, marks, update_pfx2as_tags.
  destruct (Z.eqb_spec (source rec) maxmind) as [Hs|Hs].
  { cbn [update_maxmind_tags providers_used].
    rewrite mark_provider_testbit by lia.
    destruct (Z.eqb_spec (source rec) netacq); [lia|].
    destruct (Z.eqb_spec (source rec) pfx2as); [lia|].
    cbn [andb orb]. by rewrite ?orb_false_r, (Z.eqb_sym j). }
  destruct (Z.eqb_spec (source rec) netacq) as [Hs'|Hs'].
  { cbn [update_netacq_tags providers_used].
    rewrite mark_provider_testbit by lia.
    destruct (Z.eqb_spec (source rec) pfx2as); [lia|].
    cbn [andb orb]. by rewrite ?orb_false_r, (Z.eqb_sym j). }
  destruct (Z.eqb_spec (source rec) pfx2as) as [Hs''|Hs''].
  - destruct (asn_cnt rec =? 1); cbn [negb andb orb providers_used].
    + rewrite mark_provider_testbit by lia. by rewrite (Z.eqb_sym j).
    + by rewrite ?orb_false_r.
  - cbn [andb orb]. by rewrite ?orb_false_r.
Qed.

Lemma fold_records_bits (maxmind netacq pfx2as : Z) (be : bool)
    (records : list ipmeta_record) (j : Z) :
  provider_bits maxmind netacq pfx2as → 0 ≤ j < 32 →
  ∀ tags,
  Z.testbit
    (providers_used (foldl (apply_record maxmind netacq pfx2as be) tags records))
    j
  = Z.testbit (providers_used tags) j
    || existsb (λ rec, marks maxmind netacq pfx2as rec j) records.
Proof.
  intros Hbits Hj. induction records as [|rec records IH]; intros tags.
  { cbn [foldl existsb]. by rewrite orb_false_r. }
  cbn [foldl existsb]. rewrite IH, apply_record_bits by done.
  by rewrite orb_assoc.
Qed.

Lemma update_basic_tags_bits (transport : option transport_header)
    (tags : corsaro_packet_tags) (j : Z) :
  providers_used tags = 0 → 0 ≤ j < 32 →
  Z.testbit (providers_used (update_basic_tags transport tags)) j
  = bool_decide (is_Some transport) && (j =? 0).
Proof.
  intros Hused Hj. unfold update_basic_tags.
  destruct transport as [t|].
  - destruct (if _ : bool then _ else _) as [sport dport].
    cbn [providers_used]. rewrite Hused, uint32_testbit by done.
    change (Z.lor 0 1) with (2 ^ 0). rewrite Z.pow2_bits_eqb by lia.
    rewrite bool_decide_true by done. cbn [andb]. by rewrite Z.eqb_sym.
  - cbn [providers_used]. rewrite Hused, Z.bits_0.
    by rewrite bool_decide_false by (by intros [? ?]).
Qed.

End TaggerProofs.

Section TaggedBits.

Import Report3 Tagging TagSpec ReportOutput.

Lemma existsb_marks_provider (maxmind netacq pfx2as : Z)
    (records : list ipmeta_record) :
  provider_bits maxmind netacq pfx2as →
  (existsb (λ rec, marks maxmind netacq pfx2as rec 0) records = false) ∧
  (existsb (λ rec, marks maxmind netacq pfx2as rec maxmind) records = true
   ↔ ∃ rec, rec ∈ records ∧ source rec = maxmind) ∧
  (existsb (λ rec, marks maxmind netacq pfx2as rec netacq) records = true
   ↔ ∃ rec, rec ∈ records ∧ source rec = netacq) ∧
  (existsb (λ rec, marks maxmind netacq pfx2as rec pfx2as) records = true
   ↔ ∃ rec, rec ∈ records ∧ source rec = pfx2as ∧ asn_cnt rec = 1).
Proof.
  intros (Hm & Hn & Hp & Hmn & Hmp & Hnp).
  assert (∀ rec, marks maxmind netacq pfx2as rec 0 = false) as H0.
  { intros rec. unfold marks.
    destruct (Z.eqb_spec 0 maxmind); [lia|].
    destruct (Z.eqb_spec 0 netacq); [lia|].
    destruct (Z.eqb_spec 0 pfx2as); [lia|].
    by rewrite !andb_false_r. }
  assert (∀ rec, marks maxmind netacq pfx2as rec maxmind = true
                 ↔ source rec = maxmind) as HM.
  { intros rec. unfold marks. rewrite Z.eqb_refl.
    destruct (Z.eqb_spec maxmind netacq); [lia|].
    destruct (Z.eqb_spec maxmind pfx2as); [lia|].
    rewrite !andb_false_r, andb_true_r, !orb_false_r.
    by destruct (Z.eqb_spec (source rec) maxmind). }
  assert (∀ rec, marks maxmind netacq pfx2as rec netacq = true
                 ↔ source rec = netacq) as HN.
  { intros rec. unfold marks. rewrite Z.eqb_refl.
    destruct (Z.eqb_spec netacq maxmind); [lia|].
    destruct (Z.eqb_spec netacq pfx2as); [lia|].
    rewrite !andb_false_r, andb_true_r, orb_false_r, orb_false_l.
    by destruct (Z.eqb_spec (source rec) netacq). }
  assert (∀ rec, marks maxmind netacq pfx2as rec pfx2as = true
                 ↔ source rec = pfx2as ∧ asn_cnt rec = 1) as HP.
  { intros rec. unfold marks. rewrite Z.eqb_refl.
    destruct (Z.eqb_spec pfx2as maxmind); [lia|].
    destruct (Z.eqb_spec pfx2as netacq); [lia|].
    rewrite !andb_false_r, andb_true_r, !orb_false_l.
    destruct (Z.eqb_spec (source rec) pfx2as);
      destruct (Z.eqb_spec (asn_cnt rec) 1); cbn [andb]; intuition congruence. }
  split; [|split; [|split]].
  - induction records as [|rec records IH]; [done|].
    cbn [existsb]. by rewrite H0, IH.
  - rewrite existsb_elem_of. by setoid_rewrite HM.
  - rewrite existsb_elem_of. by setoid_rewrite HN.
  - rewrite existsb_elem_of. by setoid_rewrite HP.
Qed.

Lemma code_bytes (a b : Z) :
  0 ≤ a < 256 → 0 ≤ b < 256 →
  0 ≤ a + 256 * b < 2 ^ 16 ∧
  Z.land (a + 256 * b) 255 = a ∧
  Z.land (Z.shiftr (a + 256 * b) 8) 255 = b.
Proof.
  intros Ha Hb. split; [lia|].
  change 255 with (Z.ones 8). rewrite !Z.land_ones by lia.
  rewrite Z.shiftr_div_pow2 by lia. change (2 ^ 8) with 256.
  rewrite (Z.mul_comm 256 b), Z.mod_add, Z.div_add by lia.
  rewrite (Z.mod_small a), (Z.div_small a), (Z.mod_small (0 + b)) by lia.
  lia.
Qed.

(** The characters printed for a code that the tagger loaded. *)
Lemma load_code_printed (be : bool) (class : corsaro_report_metric_class)
    (code : Z * Z) :
  0 ≤ load_code be code < 2 ^ 16 ∧
  two_char_value (GEN_METRICID (class_value class) (load_code be code))
  = c_string (if be then [uint8 code.2; uint8 code.1]
              else [uint8 code.1; uint8 code.2]).
Proof.
  pose proof (uint8_range code.1) as H1. pose proof (uint8_range code.2) as H2.
  unfold load_code, two_char_value. destruct be.
  - rewrite (Z.add_comm (uint8 code.1 * 256)), (Z.mul_comm (uint8 code.1)).
    destruct (code_bytes (uint8 code.2) (uint8 code.1) H2 H1)
      as (Hr & Ha & Hb).
    split; [done|].
    destruct (gen_metricid_bytes class _ Hr) as [-> ->]. by rewrite Ha, Hb.
  - destruct (code_bytes (uint8 code.1) (uint8 code.2) H1 H2)
      as (Hr & Ha & Hb).
    split; [done|].
    destruct (gen_metricid_bytes class _ Hr) as [-> ->]. by rewrite Ha, Hb.
Qed.

End TaggedBits.

(** X15. The protocol and the ports (or ICMP type and code) that
    [corsaro_tag_packet] leaves in the tags of a packet are within the
    bounds that [process_single_tag] checks, so that the report plugin
    never rejects a basic tag of the tagger: the protocol is below 256,
    the ports are below 65536, and for ICMP the type and the code are
    below 256. *)
Theorem X15_tagger_basic_tags_in_bounds (maxmind netacq pfx2as : Z)
    (big_endian providers_null : bool) (tags : Report3.corsaro_packet_tags)
    (p : Tagging.packet_view) :
  0 ≤ Report3.protocol
        (Tagging.corsaro_tag_packet maxmind netacq pfx2as big_endian
           providers_null tags (Some p)).2 < Report3.METRIC_IPPROTOS_MAX ∧
  0 ≤ Report3.src_port
        (Tagging.corsaro_tag_packet maxmind netacq pfx2as big_endian
           providers_null tags (Some p)).2 < Report3.METRIC_PORT_MAX ∧
  0 ≤ Report3.dest_port
        (Tagging.corsaro_tag_packet maxmind netacq pfx2as big_endian
           providers_null tags (Some p)).2 < Report3.METRIC_PORT_MAX ∧
  (Report3.protocol
     (Tagging.corsaro_tag_packet maxmind netacq pfx2as big_endian
        providers_null tags (Some p)).2 = Report3.TRACE_IPPROTO_ICMP →
   Report3.src_port
     (Tagging.corsaro_tag_packet maxmind netacq pfx2as big_endian
        providers_null tags (Some p)).2 < Report3.METRIC_ICMP_MAX ∧
   Report3.dest_port
     (Tagging.corsaro_tag_packet maxmind netacq pfx2as big_endian
        providers_null tags (Some p)).2 < Report3.METRIC_ICMP_MAX).
Proof.
  unfold Tagging.corsaro_tag_packet. cbv zeta.
  set (tags0 := Report3.mk_tags 0 _ _ _ _ _ _ _ _).
  pose proof (update_basic_tags_bounds (Tagging.transport p) tags0) as Hb.
  cbv zeta in Hb.
  destruct providers_null; [exact Hb|].
  destruct (Tagging.ipv4_source p); cbn [negb]; [|exact Hb].
  destruct (Tagging.lookup p) as [records|]; [|exact Hb]. cbn [snd].
  destruct (fold_records_basic maxmind netacq pfx2as big_endian records
              (Tagging.update_basic_tags (Tagging.transport p) tags0))
    as (-> & -> & ->).
  exact Hb.
Qed.

(** X16. After [corsaro_tag_packet] has looked up the source address of a
    packet, the bits of [providers_used] that the report plugin tests say
    exactly which tags are valid: the basic bit is set if and only if the
    packet has a transport header, the Maxmind and Netacq-Edge bits if and
    only if a record of that provider was found, and the prefix-to-ASN bit
    if and only if a record of that provider with exactly one ASN was
    found. The provider identifiers must be different numbers between 1
    and 31. *)
Theorem X16_provider_bits_match_records (maxmind netacq pfx2as : Z)
    (big_endian : bool) (tags : Report3.corsaro_packet_tags)
    (p : Tagging.packet_view) (records : list Tagging.ipmeta_record) :
  TagSpec.provider_bits maxmind netacq pfx2as →
  Tagging.ipv4_source p = true → Tagging.lookup p = Some records →
  (Tagging.basic_tagged
     (Tagging.corsaro_tag_packet maxmind netacq pfx2as big_endian false tags
        (Some p)).2 = true
   ↔ is_Some (Tagging.transport p)) ∧
  (Report3.maxmind_tagged maxmind
     (Tagging.corsaro_tag_packet maxmind netacq pfx2as big_endian false tags
        (Some p)).2 = true
   ↔ ∃ rec, rec ∈ records ∧ Tagging.source rec = maxmind) ∧
  (Report3.netacq_tagged netacq
     (Tagging.corsaro_tag_packet maxmind netacq pfx2as big_endian false tags
        (Some p)).2 = true
   ↔ ∃ rec, rec ∈ records ∧ Tagging.source rec = netacq) ∧
  (Report3.pfx2as_tagged pfx2as
     (Tagging.corsaro_tag_packet maxmind netacq pfx2as big_endian false tags
        (Some p)).2 = true
   ↔ ∃ rec, rec ∈ records ∧ Tagging.source rec = pfx2as
            ∧ Tagging.asn_cnt rec = 1).
Proof.
  intros Hbits Hsrc Hlookup.
  pose proof Hbits as (Hm & Hn & Hp & _).
  unfold Tagging.corsaro_tag_packet. cbv zeta.
  rewrite Hsrc, Hlookup. cbn [negb snd].
  set (tags0 := Report3.mk_tags 0 _ _ _ _ _ _ _ _).
  assert (∀ j, 0 ≤ j < 32 →
            Z.testbit
              (Report3.providers_used
                 (foldl (Tagging.apply_record maxmind netacq pfx2as big_endian)
                    (Tagging.update_basic_tags (Tagging.transport p) tags0)
                    records)) j
            = bool_decide (is_Some (Tagging.transport p)) && (j =? 0)
              || existsb (λ rec, TagSpec.marks maxmind netacq pfx2as rec j)
                   records) as Hbit.
  { intros j Hj. rewrite fold_records_bits by done.
    by rewrite update_basic_tags_bits by done. }
  destruct (existsb_marks_provider maxmind netacq pfx2as records Hbits)
    as (H0 & HM & HN & HP).
  unfold Tagging.basic_tagged, Report3.maxmind_tagged, Report3.netacq_tagged,
    Report3.pfx2as_tagged.
  change 1 with (Z.shiftl 1 0) at 1.
  rewrite !tagged_testbit, !Hbit by lia.
  destruct (Z.eqb_spec maxmind 0); [lia|].
  destruct (Z.eqb_spec netacq 0); [lia|].
  destruct (Z.eqb_spec pfx2as 0); [lia|].
  rewrite !andb_false_r, H0, !orb_false_l, andb_true_r, orb_false_r.
  split; [apply bool_decide_eq_true|]. done.
Qed.

Lemma X16_provider_bits_match_records_witness :
  (Tagging.basic_tagged
     (Tagging.corsaro_tag_packet 1 2 3 false false Spec.tcp_22_80
        (Some TagSpec.packet_eu_nl)).2 = true
   ↔ is_Some (Tagging.transport TagSpec.packet_eu_nl)) ∧
  (Report3.maxmind_tagged 1
     (Tagging.corsaro_tag_packet 1 2 3 false false Spec.tcp_22_80
        (Some TagSpec.packet_eu_nl)).2 = true
   ↔ ∃ rec, rec ∈ [Tagging.mk_record 1 (69, 85) (78, 76) [] 0;
                   Tagging.mk_record 3 (0, 0) (0, 0) [64500; 64501] 2]
            ∧ Tagging.source rec = 1) ∧
  (Report3.netacq_tagged 2
     (Tagging.corsaro_tag_packet 1 2 3 false false Spec.tcp_22_80
        (Some TagSpec.packet_eu_nl)).2 = true
   ↔ ∃ rec, rec ∈ [Tagging.mk_record 1 (69, 85) (78, 76) [] 0;
                   Tagging.mk_record 3 (0, 0) (0, 0) [64500; 64501] 2]
            ∧ Tagging.source rec = 2) ∧
  (Report3.pfx2as_tagged 3
     (Tagging.corsaro_tag_packet 1 2 3 false false Spec.tcp_22_80
        (Some TagSpec.packet_eu_nl)).2 = true
   ↔ ∃ rec, rec ∈ [Tagging.mk_record 1 (69, 85) (78, 76) [] 0;
                   Tagging.mk_record 3 (0, 0) (0, 0) [64500; 64501] 2]
            ∧ Tagging.source rec = 3 ∧ Tagging.asn_cnt rec = 1).
Proof.
  apply X16_provider_bits_match_records.
  - unfold TagSpec.provider_bits. lia.
  - reflexivity.
  - reflexivity.
Defined.

(** X17. The geo-location codes go from the tagger to the output as
    follows: the tagger reads the two characters of a continent or
    country code as one 16-bit number of the host, and the row of the
    metric prints the low byte of that number, then the high byte, as a C
    string. On a little-endian host the value written is the code of the
    record, on a big-endian host its two characters are swapped; in both
    cases the value stops at a NUL character. *)
Theorem X17_geo_codes_printed (maxmind netacq : Z) (big_endian : bool)
    (rec : Tagging.ipmeta_record) (tags : Report3.corsaro_packet_tags) :
  ReportOutput.result_labels
    (Report3.GEN_METRICID
       (Report3.class_value Report3.CORSARO_METRIC_CLASS_MAXMIND_CONTINENT)
       (Report3.maxmind_continent
          (Tagging.update_maxmind_tags maxmind big_endian rec tags)))
  = (Some "maxmind-continent",
     Some (ReportOutput.c_string
             (if big_endian
              then [uint8 (Tagging.continent_code rec).2;
                    uint8 (Tagging.continent_code rec).1]
              else [uint8 (Tagging.continent_code rec).1;
                    uint8 (Tagging.continent_code rec).2]))) ∧
  ReportOutput.result_labels
    (Report3.GEN_METRICID
       (Report3.class_value Report3.CORSARO_METRIC_CLASS_MAXMIND_COUNTRY)
       (Report3.maxmind_country
          (Tagging.update_maxmind_tags maxmind big_endian rec tags)))
  = (Some "maxmind-country",
     Some (ReportOutput.c_string
             (if big_endian
              then [uint8 (Tagging.country_code rec).2;
                    uint8 (Tagging.country_code rec).1]
              else [uint8 (Tagging.country_code rec).1;
                    uint8 (Tagging.country_code rec).2]))) ∧
  ReportOutput.result_labels
    (Report3.GEN_METRICID
       (Report3.class_value Report3.CORSARO_METRIC_CLASS_NETACQ_CONTINENT)
       (Report3.netacq_continent
          (Tagging.update_netacq_tags netacq big_endian rec tags)))
  = (Some "netacq-continent",
     Some (ReportOutput.c_string
             (if big_endian
              then [uint8 (Tagging.continent_code rec).2;
                    uint8 (Tagging.continent_code rec).1]
              else [uint8 (Tagging.continent_code rec).1;
                    uint8 (Tagging.continent_code rec).2]))) ∧
  ReportOutput.result_labels
    (Report3.GEN_METRICID
       (Report3.class_value Report3.CORSARO_METRIC_CLASS_NETACQ_COUNTRY)
       (Report3.netacq_country
          (Tagging.update_netacq_tags netacq big_endian rec tags)))
  = (Some "netacq-country",
     Some (ReportOutput.c_string
             (if big_endian
              then [uint8 (Tagging.country_code rec).2;
                    uint8 (Tagging.country_code rec).1]
              else [uint8 (Tagging.country_code rec).1;
                    uint8 (Tagging.country_code rec).2]))).
Proof.
  cbn [Tagging.update_maxmind_tags Tagging.update_netacq_tags
       Report3.maxmind_continent Report3.maxmind_country
       Report3.netacq_continent Report3.netacq_country].
  repeat split.
  all: match goal with
       | |- context [Report3.GEN_METRICID (Report3.class_value ?c)
                       (Tagging.load_code ?be ?code)] =>
         destruct (load_code_printed be c code) as [Hr Hp];
         rewrite result_labels_class by lia; by rewrite Hp
       end.
Qed.

Section OptionMasks.

Import ReportOptions OptionSpec.

Lemma if_lor (b : bool) (a k : Z) :
  (if b then Z.lor a k else a) = Z.lor a (if b then k else 0).
Proof. destruct b; [done|]. by rewrite Z.lor_0_r. Qed.

Lemma testbit_if (b : bool) (k n : Z) :
  Z.testbit (if b then k else 0) n = b && Z.testbit k n.
Proof. destruct b; [done|]. apply Z.bits_0. Qed.

Lemma if_zero (b : bool) (k : Z) :
  k ≠ 0 → (if b then k else 0) = 0 ↔ b = false.
Proof. destruct b; intuition congruence. Qed.

(** A name adds its classes to the mask, whatever the mask holds. *)
Lemma add_metric_limit_lor (allowed : Z) (name : string) :
  add_metric_limit allowed name = Z.lor allowed (add_metric_limit 0 name).
Proof.
  unfold add_metric_limit. cbv zeta.
  rewrite !if_lor, !Z.lor_0_l, !Z.lor_assoc. reflexivity.
Qed.

Lemma add_metric_limit_testbit (name : string)
    (c : corsaro_report_metric_class_t) :
  Z.testbit (add_metric_limit 0 name) (class_number c)
  = names (limit_names c) name.
Proof.
  unfold add_metric_limit. cbv zeta.
  rewrite !if_lor, !Z.lor_0_l, !Z.lor_spec, !testbit_if.
  unfold names.
  destruct c; cbn [limit_names existsb];
    repeat match goal with
           | |- context [strcasecmp_eq name ?s] =>
             generalize (strcasecmp_eq name s); intros ?
           end;
    cbn;
    rewrite ?andb_false_r, ?andb_true_r, ?orb_false_r, ?orb_false_l;
    reflexivity.
Qed.

Lemma add_metric_limit_zero (name : string) :
  add_metric_limit 0 name = 0 ↔ names known_names name = false.
Proof.
  unfold add_metric_limit. cbv zeta.
  rewrite !if_lor, !Z.lor_0_l, !Z.lor_eq_0_iff.
  rewrite !if_zero by (vm_compute; discriminate).
  unfold names, known_names. cbn [existsb].
  rewrite !orb_false_iff. tauto.
Qed.

(** The mask after a list of scalar items. *)
Lemma parse_metric_limits_scalars (allowed : Z) (items : list string) :
  parse_metric_limits allowed (YAML_SCALAR_NODE <$> items)
  = foldl add_metric_limit allowed items.
Proof.
  revert allowed. induction items as [|name items IH]; intros allowed; [done|].
  cbn [fmap list_fmap parse_metric_limits foldl]. apply IH.
Qed.

Lemma limits_testbit (allowed : Z) (items : list string)
    (c : corsaro_report_metric_class_t) :
  Z.testbit (foldl add_metric_limit allowed items) (class_number c)
  = Z.testbit allowed (class_number c)
    || existsb (names (limit_names c)) items.
Proof.
  revert allowed. induction items as [|name items IH]; intros allowed.
  - cbn [foldl existsb]. by rewrite orb_false_r.
  - cbn [foldl existsb]. rewrite IH, add_metric_limit_lor, Z.lor_spec,
      add_metric_limit_testbit. by rewrite orb_assoc.
Qed.

Lemma limits_zero (items : list string) :
  foldl add_metric_limit 0 items = 0
  ↔ forallb (λ name, negb (names known_names name)) items = true.
Proof.
  induction items as [|name items IH] using rev_ind; [done|].
  rewrite foldl_app, forallb_app. cbn [foldl forallb].
  rewrite add_metric_limit_lor, Z.lor_eq_0_iff, IH, add_metric_limit_zero.
  rewrite andb_true_iff, andb_true_r, negb_true_iff. tauto.
Qed.

Lemma class_number_range (c : corsaro_report_metric_class_t) :
  0 ≤ class_number c < 20.
Proof. destruct c; cbn [class_number]; lia. Qed.

Lemma class_bit_land (allowed : Z) (c : corsaro_report_metric_class_t) :
  truthy (Z.land allowed (class_bit c)) = Z.testbit allowed (class_number c).
Proof.
  unfold class_bit. apply tagged_testbit.
  pose proof (class_number_range c). lia.
Qed.

Lemma testbit_nonzero (a n : Z) : Z.testbit a n = true → a ≠ 0.
Proof. intros Hbit ->. by rewrite Z.bits_0 in Hbit. Qed.

(** The bits of the mask that the lite mode of geo-tagging leaves. *)
Lemma lite_testbit (allowed : Z) (c : corsaro_report_metric_class_t) :
  Z.testbit
    (Z.land allowed
       (uint64
          (Z.lnot
             (Z.lor (Z.lor (class_bit CORSARO_METRIC_CLASS_NETACQ_REGION)
                           (class_bit CORSARO_METRIC_CLASS_NETACQ_POLYGON))
                    (class_bit CORSARO_METRIC_CLASS_IPINFO_REGION)))))
    (class_number c)
  = Z.testbit allowed (class_number c) && negb (detailed_geo c).
Proof.
  pose proof (class_number_range c) as Hc.
  rewrite Z.land_spec. f_equal. unfold uint64.
  rewrite Z.mod_pow2_bits_low, Z.lnot_spec by lia. f_equal.
  destruct c; reflexivity.
Qed.

End OptionMasks.

Section OptionLabels.

Import ReportOptions OptionSpec.

Variable strtol : string → Z.
Variable strtoul : string → Z.

(** The options that change the label of the rows. *)
Lemma parse_option_outlabel (conf : corsaro_report_config)
    (pair : yaml_node * yaml_node) :
  outlabel (parse_option strtol strtoul conf pair)
  = match row_labels [pair] with
    | [] => outlabel conf
    | label :: _ => Some label
    end.
Proof.
  destruct pair as [[key|?|?] [val|items|pairs]]; try reflexivity.
  - unfold row_labels. cbn [omap list_omap parse_option].
    unfold parse_scalar_option, output_format_option,
      geoasn_whitelist_file_option, geo_mode_option,
      querytaggerlabels_option, internalhwm_option, iptracker_threads_option,
      output_row_label_option. cbv zeta.
    destruct (parse_onoff_option val _) as [ret opt].
    destruct (String.eqb key "output_row_label") eqn:Hkey.
    + apply String.eqb_eq in Hkey as ->. cbn.
      repeat match goal with
             | |- context [if ?b then _ else _] => destruct b
             end; reflexivity.
    + repeat match goal with
             | |- context [if ?b then _ else _] => destruct b
             end; reflexivity.
  - cbn [parse_option row_labels omap list_omap].
    destruct (String.eqb key "limitmetrics"); reflexivity.
  - cbn [parse_option row_labels omap list_omap]. cbv zeta.
    destruct (String.eqb key "source_ip_counting"),
      (String.eqb key "dest_ip_counting"); reflexivity.
Qed.

Lemma parse_options_outlabel (conf : corsaro_report_config)
    (pairs : list (yaml_node * yaml_node)) :
  outlabel (foldl (parse_option strtol strtoul) conf pairs)
  = match last (row_labels pairs) with
    | None => outlabel conf
    | Some label => Some label
    end.
Proof.
  induction pairs as [|pair pairs IH] using rev_ind; [done|].
  rewrite foldl_app. cbn [foldl]. rewrite parse_option_outlabel.
  unfold row_labels in *. rewrite omap_app.
  destruct (omap _ [pair]) as [|label rest] eqn:Hpair.
  - by rewrite app_nil_r.
  - cbn [omap list_omap] in Hpair.
    destruct (match pair with (YAML_SCALAR_NODE _, _) => _ | _ => _ end);
      [|discriminate].
    injection Hpair as -> <-. by rewrite last_snoc.
Qed.

End OptionLabels.

Section OptionEdges.

Import ReportOptions OptionSpec.

(** A list with an item that is not a scalar leaves an empty mask. *)
Lemma parse_metric_limits_malformed (allowed : Z) (items : list yaml_node) :
  (∃ item, item ∈ items ∧ ∀ name, item ≠ YAML_SCALAR_NODE name) →
  parse_metric_limits allowed items = 0.
Proof.
  revert allowed. induction items as [|item items IH]; intros allowed.
  - intros (item & Hin & _). by apply elem_of_nil in Hin.
  - intros (bad & Hin & Hbad). apply elem_of_cons in Hin as [<-|Hin].
    + destruct bad as [name| |]; [by destruct (Hbad name)|done|done].
    + destruct item as [name| |]; [|done|done].
      cbn [parse_metric_limits]. apply IH. eauto.
Qed.

Lemma finalise_all_metrics (conf : corsaro_report_config) :
  allowedmetricclasses conf = 0 →
  allowedmetricclasses (corsaro_report_finalise_config conf) = 0.
Proof.
  intros Hzero. unfold corsaro_report_finalise_config. cbv zeta.
  destruct (outlabel conf);
    cbn [allowedmetricclasses set_outlabel]; rewrite Hzero, !Z.land_0_l;
    exact Hzero.
Qed.

End OptionEdges.

Section OptionRanges.

Import ReportOptions OptionSpec.

Variable strtol : string → Z.
Variable strtoul : string → Z.

Lemma parse_onoff_option_flag (value : string) (opt : Z) :
  (parse_onoff_option value opt).1 = -1
  ∨ (parse_onoff_option value opt).1 = 0
    ∧ ((parse_onoff_option value opt).2 = 0
       ∨ (parse_onoff_option value opt).2 = 1).
Proof.
  unfold parse_onoff_option.
  destruct (_ || _); [cbn; lia|]. destruct (_ || _); cbn; lia.
Qed.

Lemma output_row_label_in_range (conf : corsaro_report_config)
    (key val : string) :
  options_in_range conf →
  options_in_range (output_row_label_option conf key val).
Proof.
  intros Hconf. unfold output_row_label_option.
  by destruct (String.eqb key "output_row_label").
Qed.

Lemma iptracker_threads_in_range (conf : corsaro_report_config)
    (key val : string) :
  options_in_range conf →
  options_in_range (iptracker_threads_option strtol conf key val).
Proof.
  intros Hconf. unfold iptracker_threads_option.
  destruct (String.eqb key "iptracker_threads"); [|done].
  cbv zeta. destruct Hconf as (_ & Hrest).
  split; [|exact Hrest]. cbn [tracker_count set_tracker_count].
  unfold CORSARO_REPORT_MAX_IPTRACKERS.
  destruct (to_int (strtol val) <? 1) eqn:Hlow.
  - cbn. lia.
  - apply Z.ltb_ge in Hlow.
    destruct (to_int (strtol val) >? 32) eqn:Hhigh; lia.
Qed.

Lemma internalhwm_in_range (conf : corsaro_report_config)
    (key val : string) :
  options_in_range conf →
  options_in_range (internalhwm_option strtoul conf key val).
Proof.
  intros Hconf. unfold internalhwm_option.
  destruct (String.eqb key "internalhwm"); [|done].
  cbv zeta. destruct Hconf as (Htc & _ & Hrest).
  destruct (uint64 (strtoul val) >? 65535) eqn:Hhigh.
  - split; [exact Htc|]. split; [|exact Hrest]. cbn. lia.
  - split; [exact Htc|]. split; [|exact Hrest].
    cbn [internalhwm set_internalhwm]. unfold uint16.
    pose proof (Z.mod_pos_bound (uint64 (strtoul val)) (2 ^ 16)). lia.
Qed.

Lemma querytaggerlabels_in_range (conf : corsaro_report_config)
    (key val : string) :
  options_in_range conf →
  options_in_range (querytaggerlabels_option conf key val).
Proof.
  intros Hconf. unfold querytaggerlabels_option.
  destruct (String.eqb key "querytaggerlabels"); [|done].
  destruct Hconf as (Htc & Hhwm & _ & Hrest).
  pose proof (parse_onoff_option_flag val (query_tagger_labels conf))
    as Hflag.
  destruct (parse_onoff_option val (query_tagger_labels conf))
    as [ret opt]. cbn [fst snd] in Hflag.
  destruct (ret <? 0) eqn:Hret.
  - split; [exact Htc|]. split; [exact Hhwm|]. split; [|exact Hrest].
    by left.
  - apply Z.ltb_ge in Hret.
    split; [exact Htc|]. split; [exact Hhwm|]. split; [|exact Hrest].
    cbn [query_tagger_labels set_query_tagger_labels]. lia.
Qed.

Lemma geo_mode_in_range (conf : corsaro_report_config) (key val : string) :
  options_in_range conf → options_in_range (geo_mode_option conf key val).
Proof.
  intros Hconf. unfold geo_mode_option.
  destruct (String.eqb key "geo_mode"); [|done].
  destruct (strcasecmp_eq val "lite"); [done|].
  by destruct (strcasecmp_eq val "full").
Qed.

Lemma geoasn_whitelist_file_in_range (conf : corsaro_report_config)
    (key val : string) :
  options_in_range conf →
  options_in_range (geoasn_whitelist_file_option conf key val).
Proof.
  intros Hconf. unfold geoasn_whitelist_file_option.
  by destruct (String.eqb key "geoasn_whitelist_file").
Qed.

Lemma output_format_in_range (conf : corsaro_report_config)
    (key val : string) :
  options_in_range conf → options_in_range (output_format_option conf key val).
Proof.
  intros Hconf. unfold output_format_option.
  destruct (String.eqb key "output_format"); [|done].
  destruct (String.eqb val "avro"); [done|].
  by destruct (String.eqb val "libtimeseries").
Qed.

Lemma parse_scalar_option_in_range (conf : corsaro_report_config)
    (key val : string) :
  options_in_range conf →
  options_in_range (parse_scalar_option strtol strtoul conf key val).
Proof.
  intros Hconf. unfold parse_scalar_option. cbv zeta.
  by apply output_format_in_range, geoasn_whitelist_file_in_range,
    geo_mode_in_range, querytaggerlabels_in_range, internalhwm_in_range,
    iptracker_threads_in_range, output_row_label_in_range.
Qed.

Lemma parse_ip_counting_pfxbits (ipconf : corsaro_report_ipcount_conf)
    (yamlconf : list (yaml_node * yaml_node)) :
  1 ≤ pfxbits ipconf ≤ 32 →
  1 ≤ pfxbits (parse_ip_counting strtoul ipconf yamlconf) ≤ 32.
Proof.
  unfold parse_ip_counting. revert ipconf.
  induction yamlconf as [|pair yamlconf IH]; intros ipconf Hbits; [done|].
  cbn [foldl]. apply IH. clear IH.
  destruct pair as [[key|?|?] [val|?|?]]; try done.
  cbn [parse_ip_counting_pair]. cbv zeta.
  set (ipconf1 := if String.eqb key "method" then _ else ipconf).
  assert (1 ≤ pfxbits ipconf1 ≤ 32) as Hbits1.
  { subst ipconf1. destruct (String.eqb key "method"); [|done].
    destruct (strcasecmp_eq val "sample"); [done|].
    destruct (strcasecmp_eq val "prefixagg"); [done|].
    by destruct (strcasecmp_eq val "none"). }
  clearbody ipconf1.
  destruct (String.eqb key "subnetmask"); [|done].
  destruct (uint32 (strtoul val) >? 32) eqn:Hhigh; [cbn; lia|].
  destruct (Z.eqb_spec (uint32 (strtoul val)) 0) as [|Hnz]; [cbn; lia|].
  cbn [pfxbits]. unfold uint8.
  pose proof (Z.mod_pos_bound (strtoul val) (2 ^ 32)) as Hpos.
  fold (uint32 (strtoul val)) in Hpos.
  rewrite Z.mod_small; lia.
Qed.

Lemma parse_option_in_range (conf : corsaro_report_config)
    (pair : yaml_node * yaml_node) :
  options_in_range conf →
  options_in_range (parse_option strtol strtoul conf pair).
Proof.
  intros Hconf.
  destruct pair as [[key|?|?] [val|items|pairs]]; try done.
  - by apply parse_scalar_option_in_range.
  - cbn [parse_option]. by destruct (String.eqb key "limitmetrics").
  - cbn [parse_option]. cbv zeta.
    set (conf1 := if String.eqb key "source_ip_counting" then _ else conf).
    assert (options_in_range conf1) as Hconf1.
    { subst conf1. destruct (String.eqb key "source_ip_counting"); [|done].
      destruct Hconf as (Htc & Hhwm & Hq & Hsrc & Hdst).
      split; [exact Htc|]. split; [exact Hhwm|]. split; [exact Hq|].
      split; [|exact Hdst]. cbn [src_ipcount_conf set_src_ipcount_conf].
      by apply parse_ip_counting_pfxbits. }
    clearbody conf1.
    destruct (String.eqb key "dest_ip_counting"); [|done].
    destruct Hconf1 as (Htc & Hhwm & Hq & Hsrc & Hdst).
    split; [exact Htc|]. split; [exact Hhwm|]. split; [exact Hq|].
    split; [exact Hsrc|]. cbn [dst_ipcount_conf set_dst_ipcount_conf].
    by apply parse_ip_counting_pfxbits.
Qed.

Lemma parse_options_in_range (conf : corsaro_report_config)
    (pairs : list (yaml_node * yaml_node)) :
  options_in_range conf →
  options_in_range (foldl (parse_option strtol strtoul) conf pairs).
Proof.
  revert conf. induction pairs as [|pair pairs IH]; intros conf Hconf; [done|].
  cbn [foldl]. by apply IH, parse_option_in_range.
Qed.

Lemma default_config_in_range : options_in_range default_config.
Proof.
  unfold options_in_range, CORSARO_REPORT_MAX_IPTRACKERS. cbn. lia.
Qed.

End OptionRanges.

(** X18. A [limitmetrics] list of scalars, given once, selects the metric
    classes that are tracked: after [corsaro_report_finalise_config] a
    class is allowed if and only if the list has one of the names of the
    class (in any case of letters), and, in the lite mode of geo-tagging,
    the class is not one of the regions and polygons. A list without any
    known name leaves every class allowed, regions and polygons in lite
    mode included. *)
Theorem X18_limitmetrics_selects_classes (strtol strtoul : string → Z)
    (conf : ReportOptions.corsaro_report_config) (items : list string)
    (c : ReportOptions.corsaro_report_metric_class_t) :
  ReportOptions.allowedmetricclasses conf = 0 →
  ReportOptions.IS_METRIC_ALLOWED
    (ReportOptions.allowedmetricclasses
       (ReportOptions.corsaro_report_finalise_config
          (ReportOptions.parse_option strtol strtoul conf
             (ReportOptions.YAML_SCALAR_NODE "limitmetrics",
              ReportOptions.YAML_SEQUENCE_NODE
                (ReportOptions.YAML_SCALAR_NODE <$> items)))))
    (ReportOptions.class_number c)
  = if forallb (λ name, negb (OptionSpec.names OptionSpec.known_names name))
         items
    then true
    else existsb (OptionSpec.names (OptionSpec.limit_names c)) items
         && negb (match ReportOptions.geomode conf with
                  | ReportOptions.REPORT_GEOMODE_LITE =>
                    OptionSpec.detailed_geo c
                  | ReportOptions.REPORT_GEOMODE_FULL => false
                  end).
Proof.
  intros Hzero. cbn [ReportOptions.parse_option].
  change (String.eqb "limitmetrics" "limitmetrics") with true. cbv iota.
  rewrite Hzero, parse_metric_limits_scalars.
  pose proof (limits_zero items) as Hnone.
  pose proof (limits_testbit 0 items) as Hbit.
  set (mask := foldl ReportOptions.add_metric_limit 0 items) in *.
  assert (∀ c', Z.testbit mask (ReportOptions.class_number c')
                = existsb (OptionSpec.names (OptionSpec.limit_names c')) items)
    as Hbits.
  { intros c'. by rewrite Hbit, Z.bits_0. }
  clear Hbit.
  destruct (forallb _ items).
  { rewrite finalise_all_metrics; [done|]. by apply Hnone. }
  assert (mask ≠ 0) as Hmask by (intros Hm; by apply Hnone in Hm).
  clear Hnone.
  unfold ReportOptions.corsaro_report_finalise_config. cbv zeta.
  assert (∀ label,
            ReportOptions.allowedmetricclasses
              (ReportOptions.set_outlabel
                 (ReportOptions.set_allowedmetricclasses conf mask) label)
            = mask) as Hlabel by done.
  assert (∀ label,
            ReportOptions.geomode
              (ReportOptions.set_outlabel
                 (ReportOptions.set_allowedmetricclasses conf mask) label)
            = ReportOptions.geomode conf) as Hmode by done.
  assert (ReportOptions.IS_METRIC_ALLOWED mask (ReportOptions.class_number c)
          = existsb (OptionSpec.names (OptionSpec.limit_names c)) items)
    as Hplain.
  { unfold ReportOptions.IS_METRIC_ALLOWED.
    destruct (Z.eqb_spec mask 0); [done|].
    rewrite tagged_testbit by (pose proof (class_number_range c); lia).
    by rewrite Hbits. }
  set (conf1 := match ReportOptions.outlabel _ with
                | Some _ => _ | None => _ end).
  assert (ReportOptions.allowedmetricclasses conf1 = mask) as Hmask1.
  { subst conf1. cbn [ReportOptions.outlabel
                      ReportOptions.set_allowedmetricclasses].
    by destruct (ReportOptions.outlabel conf). }
  assert (ReportOptions.geomode conf1 = ReportOptions.geomode conf) as Hmode1.
  { subst conf1. cbn [ReportOptions.outlabel
                      ReportOptions.set_allowedmetricclasses].
    by destruct (ReportOptions.outlabel conf). }
  clearbody conf1. rewrite Hmask1, Hmode1, !class_bit_land, !Hbits.
  destruct (_ || _ || _) eqn:Hgeo.
  - destruct (ReportOptions.geomode conf).
    + rewrite Hmask1, Hplain. by rewrite andb_true_r.
    + cbn [ReportOptions.allowedmetricclasses
           ReportOptions.set_allowedmetricclasses].
      unfold ReportOptions.IS_METRIC_ALLOWED.
      rewrite tagged_testbit by (pose proof (class_number_range c); lia).
      rewrite lite_testbit, Hbits.
      match goal with
      | |- context [?m =? 0] => destruct (Z.eqb_spec m 0) as [Hland|]
      end; [|done].
      exfalso.
      apply orb_true_iff in Hgeo as [Hgeo|Hgeo];
        [apply orb_true_iff in Hgeo as [Hgeo|Hgeo]|].
      * apply (f_equal (λ m, Z.testbit m (ReportOptions.class_number
                 ReportOptions.CORSARO_METRIC_CLASS_NETACQ_CONTINENT)))
          in Hland.
        rewrite lite_testbit, Hbits, Hgeo, Z.bits_0 in Hland. done.
      * apply (f_equal (λ m, Z.testbit m (ReportOptions.class_number
                 ReportOptions.CORSARO_METRIC_CLASS_IPINFO_CONTINENT)))
          in Hland.
        rewrite lite_testbit, Hbits, Hgeo, Z.bits_0 in Hland. done.
      * apply (f_equal (λ m, Z.testbit m (ReportOptions.class_number
                 ReportOptions.CORSARO_METRIC_CLASS_MAXMIND_CONTINENT)))
          in Hland.
        rewrite lite_testbit, Hbits, Hgeo, Z.bits_0 in Hland. done.
  - rewrite Hmask1, Hplain.
    destruct (ReportOptions.geomode conf); [by rewrite andb_true_r|].
    apply orb_false_iff in Hgeo as [Hgeo Hmax].
    apply orb_false_iff in Hgeo as [Hnet Hinfo].
    destruct c; cbn [OptionSpec.detailed_geo negb];
      rewrite ?andb_true_r, ?andb_false_r; try reflexivity.
    + exact Hnet.
    + exact Hnet.
    + exact Hinfo.
Qed.

Lemma X18_limitmetrics_selects_classes_witness :
  ReportOptions.IS_METRIC_ALLOWED
    (ReportOptions.allowedmetricclasses
       (ReportOptions.corsaro_report_finalise_config
          (ReportOptions.parse_option (λ _, 0) (λ _, 0)
             (ReportOptions.set_geomode ReportOptions.default_config
                ReportOptions.REPORT_GEOMODE_LITE)
             (ReportOptions.YAML_SCALAR_NODE "limitmetrics",
              ReportOptions.YAML_SEQUENCE_NODE
                (ReportOptions.YAML_SCALAR_NODE <$> ["NetAcq"; "tcp"])))))
    (ReportOptions.class_number
       ReportOptions.CORSARO_METRIC_CLASS_NETACQ_REGION)
  = false.
Proof.
  exact (X18_limitmetrics_selects_classes (λ _, 0) (λ _, 0)
           (ReportOptions.set_geomode ReportOptions.default_config
              ReportOptions.REPORT_GEOMODE_LITE)
           ["NetAcq"; "tcp"]%string
           ReportOptions.CORSARO_METRIC_CLASS_NETACQ_REGION eq_refl).
Defined.

(** X19. Whatever the options are and whatever the C library makes of
    their numbers, the configuration that [corsaro_report_parse_config]
    returns has between 1 and 32 IP tracker threads, a high-water mark
    between 0 and 65535, a tagger-label flag that is 0 or 1, and prefix
    lengths between 1 and 32 for counting source and destination
    addresses. *)
Theorem X19_options_stay_in_range (strtol strtoul : string → Z)
    (options : ReportOptions.yaml_node)
    (conf : ReportOptions.corsaro_report_config) :
  ReportOptions.corsaro_report_parse_config strtol strtoul options
  = Some conf →
  1 ≤ ReportOptions.tracker_count conf
    ≤ ReportOptions.CORSARO_REPORT_MAX_IPTRACKERS ∧
  0 ≤ ReportOptions.internalhwm conf ≤ 65535 ∧
  (ReportOptions.query_tagger_labels conf = 0
   ∨ ReportOptions.query_tagger_labels conf = 1) ∧
  1 ≤ ReportOptions.pfxbits (ReportOptions.src_ipcount_conf conf) ≤ 32 ∧
  1 ≤ ReportOptions.pfxbits (ReportOptions.dst_ipcount_conf conf) ≤ 32.
Proof.
  destruct options as [?|?|pairs]; [done|done|].
  intros [= <-].
  apply (parse_options_in_range strtol strtoul), default_config_in_range.
Qed.

Lemma X19_options_stay_in_range_witness :
  1 ≤ ReportOptions.tracker_count
        (ReportOptions.mk_config None 32 ReportOptions.CORSARO_OUTPUT_AVRO
           ReportOptions.REPORT_GEOMODE_FULL 0 0 0
           (ReportOptions.mk_ipcount ReportOptions.REPORT_IPCOUNT_METHOD_ALL
              32)
           (ReportOptions.mk_ipcount
              ReportOptions.REPORT_IPCOUNT_METHOD_PREFIXAGG 32) None)
    ≤ ReportOptions.CORSARO_REPORT_MAX_IPTRACKERS ∧
  0 ≤ 0 ≤ 65535 ∧ (0 = 0 ∨ 0 = 1) ∧ 1 ≤ 32 ≤ 32 ∧ 1 ≤ 32 ≤ 32.
Proof.
  exact (X19_options_stay_in_range (λ _, 1000) (λ _, 70000)
           (ReportOptions.YAML_MAPPING_NODE
              [(ReportOptions.YAML_SCALAR_NODE "iptracker_threads",
                ReportOptions.YAML_SCALAR_NODE "1000");
               (ReportOptions.YAML_SCALAR_NODE "internalhwm",
                ReportOptions.YAML_SCALAR_NODE "70000");
               (ReportOptions.YAML_SCALAR_NODE "querytaggerlabels",
                ReportOptions.YAML_SCALAR_NODE "maybe");
               (ReportOptions.YAML_SCALAR_NODE "dest_ip_counting",
                ReportOptions.YAML_MAPPING_NODE
                  [(ReportOptions.YAML_SCALAR_NODE "method",
                    ReportOptions.YAML_SCALAR_NODE "PrefixAgg");
                   (ReportOptions.YAML_SCALAR_NODE "subnetmask",
                    ReportOptions.YAML_SCALAR_NODE "70000")])])
           _ eq_refl).
Defined.

(** X20. The label of the output rows is the value of the last
    [output_row_label] option of the mapping, and "unlabeled" when the
    mapping has no such option. *)
Theorem X20_row_label_last_wins (strtol strtoul : string → Z)
    (pairs : list (ReportOptions.yaml_node * ReportOptions.yaml_node))
    (conf : ReportOptions.corsaro_report_config) :
  ReportOptions.corsaro_report_parse_config strtol strtoul
    (ReportOptions.YAML_MAPPING_NODE pairs) = Some conf →
  ReportOptions.outlabel (ReportOptions.corsaro_report_finalise_config conf)
  = Some (default "unlabeled"%string (last (OptionSpec.row_labels pairs))).
Proof.
  intros [= <-].
  pose proof (parse_options_outlabel strtol strtoul
                ReportOptions.default_config pairs) as Hlabel.
  set (conf := foldl _ _ pairs) in *. clearbody conf.
  assert (∀ conf', ReportOptions.outlabel
                     (ReportOptions.corsaro_report_finalise_config conf')
                   = Some (default "unlabeled"%string
                             (ReportOptions.outlabel conf'))) as Hfin.
  { intros conf'. unfold ReportOptions.corsaro_report_finalise_config.
    cbv zeta.
    destruct (ReportOptions.outlabel conf') as [label|] eqn:Hl.
    - destruct (_ || _ || _); [|by rewrite Hl].
      destruct (ReportOptions.geomode conf'); [by rewrite Hl|].
      cbn [ReportOptions.outlabel ReportOptions.set_allowedmetricclasses].
      by rewrite Hl.
    - destruct (_ || _ || _); [|done].
      by destruct (ReportOptions.geomode _). }
  rewrite Hfin, Hlabel.
  by destruct (last (OptionSpec.row_labels pairs)).
Qed.

Lemma X20_row_label_last_wins_witness :
  ReportOptions.outlabel
    (ReportOptions.corsaro_report_finalise_config
       (ReportOptions.mk_config (Some "second"%string) 4
          ReportOptions.CORSARO_OUTPUT_AVRO
          ReportOptions.REPORT_GEOMODE_FULL 30 1 0
          (ReportOptions.mk_ipcount ReportOptions.REPORT_IPCOUNT_METHOD_ALL
             32)
          (ReportOptions.mk_ipcount ReportOptions.REPORT_IPCOUNT_METHOD_ALL
             32) None))
  = Some "second"%string.
Proof.
  exact (X20_row_label_last_wins (λ _, 0) (λ _, 0)
           [(ReportOptions.YAML_SCALAR_NODE "output_row_label",
             ReportOptions.YAML_SCALAR_NODE "first");
            (ReportOptions.YAML_SCALAR_NODE "output_row_label",
             ReportOptions.YAML_SCALAR_NODE "second")]
           _ eq_refl).
Defined.

(** X21. A [limitmetrics] list with an item that is not a scalar turns
    the selection off: every metric class is allowed afterwards, also
    when names before that item, or an earlier list, had selected
    classes. *)
Theorem X21_malformed_limitmetrics_allows_all (strtol strtoul : string → Z)
    (conf : ReportOptions.corsaro_report_config)
    (items : list ReportOptions.yaml_node) (metric : Z) :
  (∃ item, item ∈ items ∧ ∀ name, item ≠ ReportOptions.YAML_SCALAR_NODE name) →
  ReportOptions.IS_METRIC_ALLOWED
    (ReportOptions.allowedmetricclasses
       (ReportOptions.corsaro_report_finalise_config
          (ReportOptions.parse_option strtol strtoul conf
             (ReportOptions.YAML_SCALAR_NODE "limitmetrics",
              ReportOptions.YAML_SEQUENCE_NODE items))))
    metric = true.
Proof.
  intros Hbad. cbn [ReportOptions.parse_option].
  change (String.eqb "limitmetrics" "limitmetrics") with true. cbv iota.
  rewrite finalise_all_metrics; [done|].
  cbn [ReportOptions.allowedmetricclasses
       ReportOptions.set_allowedmetricclasses].
  by apply parse_metric_limits_malformed.
Qed.

Lemma X21_malformed_limitmetrics_allows_all_witness :
  ReportOptions.IS_METRIC_ALLOWED
    (ReportOptions.allowedmetricclasses
       (ReportOptions.corsaro_report_finalise_config
          (ReportOptions.parse_option (λ _, 0) (λ _, 0)
             (ReportOptions.set_allowedmetricclasses
                ReportOptions.default_config 1)
             (ReportOptions.YAML_SCALAR_NODE "limitmetrics",
              ReportOptions.YAML_SEQUENCE_NODE
                [ReportOptions.YAML_SCALAR_NODE "icmp";
                 ReportOptions.YAML_SEQUENCE_NODE []]))))
    6 = true.
Proof.
  apply (X21_malformed_limitmetrics_allows_all (λ _, 0) (λ _, 0)).
  exists (ReportOptions.YAML_SEQUENCE_NODE []). split.
  - apply list_elem_of_further, list_elem_of_here.
  - intros name. discriminate.
Defined.
